(** * Mischwald (Forest Shuffle) scorer: layout builder and scoring engine

    A shallow embedding of [src/mischwald/scorer.ts].

    Conventions of the embedding.
    - Coordinates are JavaScript numbers: IEEE 754 binary64, here Rocq's
      primitive floats, with [Math.max], [Math.min] and [Math.abs] written
      out (NaN propagation and signed zeros included).
    - Match counts, score amounts, thresholds and points are integers ([Z]):
      counts come from [.length] and [.size], and on integers below 2^53
      JavaScript arithmetic and number printing are exact.
    - Strings are byte strings (UTF-8).
    - A [Box] and the [CardInstance] parsed from it are JavaScript objects
      compared by reference; the field [Box.ref] is that reference (the
      allocation index of the object).  [Map<Box, _>] and [Set<CardInstance>]
      are keyed by it.
    - The bundled card data [cards.json] is an argument ([cards]) of the
      functions that read the module constant [CARDS_JSON]. *)

From Stdlib Require Import PrimFloat ZArith Uint63 DecimalString Ascii String.
From Stdlib Require OrderedTypeEx Floats.
From stdpp Require Import gmap strings list sorting.

Set Warnings "-inexact-float".
Set Default Proof Using "Type".

(* ------------------------------------------------------------------ *)
(** ** JavaScript primitives used by the scorer *)
(* ------------------------------------------------------------------ *)

Module Js.

  (** [Math.max(a, b)] on numbers: NaN if either is NaN, and +0 above -0. *)
Definition Math_max (a b : float) : float :=
    if PrimFloat.is_nan a || PrimFloat.is_nan b then PrimFloat.nan
    else if PrimFloat.ltb a b then b
    else if PrimFloat.ltb b a then a
    else if PrimFloat.get_sign a then b else a.

  (** [Math.min(a, b)]: NaN if either is NaN, and -0 below +0. *)
Definition Math_min (a b : float) : float :=
    if PrimFloat.is_nan a || PrimFloat.is_nan b then PrimFloat.nan
    else if PrimFloat.ltb a b then a
    else if PrimFloat.ltb b a then b
    else if PrimFloat.get_sign a then a else b.

  (** [Math.min(...xs)]; [Infinity] on no argument. *)
Definition Math_min_list (xs : list float) : float :=
    foldl Math_min PrimFloat.infinity xs.

Definition Math_abs (a : float) : float := PrimFloat.abs a.

  (** The number of elements of an array, as a JavaScript number. *)
Definition num_of_nat (n : nat) : float :=
    PrimFloat.of_uint63 (Uint63.of_Z (Z.of_nat n)).

  (** [`${n}`] for an integer [n]. *)
Definition show (n : Z) : string := NilZero.string_of_int (Z.to_int n).

  (** [s.indexOf(c)] for a one-character [c]: -1 when absent. *)
Fixpoint indexOf_from (c : ascii) (s : string) (i : Z) : Z :=
    match s with
    | EmptyString => (-1)%Z
    | String a s' => if Ascii.eqb a c then i else indexOf_from c s' (i + 1)%Z
    end.
Definition indexOf (c : ascii) (s : string) : Z := indexOf_from c s 0%Z.

Fixpoint drop_str (n : nat) (s : string) : string :=
    match n, s with
    | O, _ => s
    | S n', String _ s' => drop_str n' s'
    | S _, EmptyString => EmptyString
    end.

Fixpoint take_str (n : nat) (s : string) : string :=
    match n, s with
    | S n', String a s' => String a (take_str n' s')
    | _, _ => EmptyString
    end.

  (** [s.slice(0, e)] and [s.slice(b)] for [0 <= b, e]. *)
Definition slice_to (e : Z) (s : string) : string := take_str (Z.to_nat e) s.
Definition slice_from (b : Z) (s : string) : string := drop_str (Z.to_nat b) s.

Definition bytes (l : list nat) : list ascii := map ascii_of_nat l.

  (** White space and line terminators of ECMAScript, UTF-8 encoded. *)
Definition whitespace : list (list ascii) :=
    map bytes
      [ [9]; [10]; [11]; [12]; [13]; [32]; [194; 160]; [225; 154; 128];
        [226; 128; 128]; [226; 128; 129]; [226; 128; 130]; [226; 128; 131];
        [226; 128; 132]; [226; 128; 133]; [226; 128; 134]; [226; 128; 135];
        [226; 128; 136]; [226; 128; 137]; [226; 128; 138]; [226; 128; 168];
        [226; 128; 169]; [226; 128; 175]; [226; 129; 159]; [227; 128; 128];
        [239; 187; 191] ].

Fixpoint strip_prefix (p s : list ascii) : option (list ascii) :=
    match p, s with
    | [], _ => Some s
    | a :: p', b :: s' => if Ascii.eqb a b then strip_prefix p' s' else None
    | _ :: _, [] => None
    end.

Fixpoint strip_first (ws : list (list ascii)) (s : list ascii)
    : option (list ascii) :=
    match ws with
    | [] => None
    | p :: ws' =>
        match strip_prefix p s with
        | Some r => Some r
        | None => strip_first ws' s
        end
    end.

Fixpoint trim_left (fuel : nat) (ws : list (list ascii)) (s : list ascii)
    : list ascii :=
    match fuel with
    | O => s
    | S fuel' =>
        match strip_first ws s with
        | Some r => trim_left fuel' ws r
        | None => s
        end
    end.

  (** [s.trim()]. *)
Definition trim (s : string) : string :=
    let l := list_ascii_of_string s in
    let l1 := trim_left (length l) whitespace l in
    let r := trim_left (length l1) (map (@rev ascii) whitespace) (rev l1) in
    string_of_list_ascii (rev r).

Definition lower_ascii (a : ascii) : ascii :=
    let n := nat_of_ascii a in
    if (65 <=? n)%nat && (n <=? 90)%nat then ascii_of_nat (n + 32) else a.

  (** [s.toLowerCase()] on the ASCII letters.  The scorer only compares the
      result with the ASCII words fixed, multiplication and table, and no
      other character lower-cases to a letter of these words. *)
Fixpoint toLowerCase (s : string) : string :=
    match s with
    | EmptyString => EmptyString
    | String a s' => String (lower_ascii a) (toLowerCase s')
    end.

  (** [xs.join(sep)]. *)
Fixpoint join (sep : string) (xs : list string) : string :=
    match xs with
    | [] => EmptyString
    | [x] => x
    | x :: xs' => (x ++ sep ++ join sep xs')%string
    end.

  (** [s.split(c)] for a one-character separator [c]. *)
Fixpoint split_acc (c : ascii) (s : string) (cur : string) : list string :=
    match s with
    | EmptyString => [cur]
    | String a s' =>
        if Ascii.eqb a c then cur :: split_acc c s' EmptyString
        else split_acc c s' (cur ++ String a EmptyString)%string
    end.
Definition split (c : ascii) (s : string) : list string :=
    split_acc c s EmptyString.

  (** [xs.filter(Boolean)] on strings: the empty string is falsy. *)
Definition filter_truthy (xs : list string) : list string :=
    List.filter (fun s => negb (String.eqb s EmptyString)) xs.

  (** [xs.includes(x)] on strings. *)
Definition includes (xs : list string) (x : string) : bool :=
    existsb (String.eqb x) xs.

  (** A stable sort by a comparator whose sign says which argument comes
      first, as [Array.prototype.sort] is for every consistent comparator
      (a NaN result counts as 0).  For a comparator that is not consistent,
      as the one of [sortTreesVisually] can be on three trees staggered in
      height, ECMAScript leaves the order to the implementation, and this
      insertion sort is one of them.  The statements below use that the
      sort permutes its input, and the order it gives to two trees. *)
Section Sort.
Context {A : Type} (cmp : A → A → float).

Fixpoint sort_insert (x : A) (l : list A) : list A :=
    match l with
    | [] => [x]
    | y :: l' =>
        if PrimFloat.ltb (cmp y x) 0%float then y :: sort_insert x l'
        else x :: y :: l'
    end.

Definition sort (l : list A) : list A := foldr sort_insert [] l.
End Sort.

  (** The default [xs.sort()] on strings, by insertion on [String.ltb], the
      order of the UTF-8 bytes of the strings.  JavaScript orders the UTF-16
      code units; the two orders differ only between a character outside
      the Basic Multilingual Plane and one from U+E000 to U+FFFF. *)
Fixpoint sort_str_insert (x : string) (l : list string) : list string :=
    match l with
    | [] => [x]
    | y :: l' =>
        if String.ltb y x then y :: sort_str_insert x l' else x :: y :: l'
    end.
Definition sort_str (l : list string) : list string :=
    foldr sort_str_insert [] l.

End Js.

(* ------------------------------------------------------------------ *)
(** ** JSON types (shape of the card data) *)
(* ------------------------------------------------------------------ *)

Module ConditionJson.
Record t := mk {
    name : option (list string);
    tags : option (list string);
    type : option string;
    unique : bool;          (* cond.unique === true *)
    sameTree : bool;
    sameTreeSymbol : bool;
    fullTree : bool;
    most : bool;
    sameSpot : bool;
    position : option (list string);
  }.
End ConditionJson.
Abbreviation ConditionJson := ConditionJson.t.

(** [score.amount]: a single number or an array. *)
Inductive ScoreAmount :=
| AmountNum (n : Z)
| AmountArr (a : list Z).

Module ScoreJson.
Record t := mk {
    type : string;
    amount : option ScoreAmount;
    min : option Z;
    condition : option ConditionJson;
  }.
End ScoreJson.
Abbreviation ScoreJson := ScoreJson.t.

Module JokerJson.
Record t := mk { type : string }.
End JokerJson.
Abbreviation JokerJson := JokerJson.t.

Module CardDef.
Record t := mk {
    id : string;
    tags : list string;
    type : option string;
    score : option ScoreJson;
    joker : option JokerJson;
  }.
End CardDef.
Abbreviation CardDef := CardDef.t.

Module CardsJson.
Record t := mk { cards : list CardDef }.
End CardsJson.
Abbreviation CardsJson := CardsJson.t.

(* ------------------------------------------------------------------ *)
(** ** Scorer API types *)
(* ------------------------------------------------------------------ *)

Module DetectedCard.
Record t := mk {
    cardId : string;
    similarity : float;
    x1 : float; y1 : float; x2 : float; y2 : float;
    cx : float; cy : float; w : float; h : float;
  }.
End DetectedCard.
Abbreviation DetectedCard := DetectedCard.t.

Module PlayerInput.
Record t := mk { name : string; cards : list DetectedCard }.
End PlayerInput.
Abbreviation PlayerInput := PlayerInput.t.

Module CardScoreDetail.
Record t := mk {
    cardId : string;
    points : Z;
    reason : string;
    title : option string;
    group : option string;
  }.
End CardScoreDetail.
Abbreviation CardScoreDetail := CardScoreDetail.t.

Module PlayerScoreResult.
Record t := mk {
    name : string;
    totalScore : Z;
    cardDetails : list CardScoreDetail;
  }.
End PlayerScoreResult.
Abbreviation PlayerScoreResult := PlayerScoreResult.t.

(* ------------------------------------------------------------------ *)
(** ** Internal models *)
(* ------------------------------------------------------------------ *)

Inductive Side := Top | Bottom | Left | Right.

Module Box.
Record t := mk {
    x1 : float; y1 : float; x2 : float; y2 : float;
    cx : float; cy : float; w : float; h : float;
    clsName : string;
    ref : nat;              (* the identity of the object *)
  }.
End Box.
Abbreviation Box := Box.t.

Module CardInstance.
Record t := mk {
    box : Box;
    id : string;
    treeSymbol : string;
    definition : option CardDef;
  }.
  (** The identity of the instance: one instance is made per box. *)
Definition ref (c : t) : nat := Box.ref (box c).
End CardInstance.
Abbreviation CardInstance := CardInstance.t.

Module Tree.
Record t := mk {
    card : CardInstance;
    top : list CardInstance;
    left : list CardInstance;
    right : list CardInstance;
    bottom : list CardInstance;
  }.
End Tree.
Abbreviation Tree := Tree.t.

Module Forest.
Record t := mk { trees : list Tree }.
End Forest.
Abbreviation Forest := Forest.t.

Module Placement.
Record t := mk { tree : Tree; side : option Side }.
End Placement.
Abbreviation Placement := Placement.t.

Module PlacementCandidate.
Record t := mk {
    tree : CardInstance;
    side : Side;
    dist : float;
    overlap : float;
  }.
End PlacementCandidate.
Abbreviation PlacementCandidate := PlacementCandidate.t.

(* ------------------------------------------------------------------ *)
(** ** Constants *)
(* ------------------------------------------------------------------ *)

Definition ADJACENT_EPSILON : float := 1e-3%float.
Definition SIDE_OVERLAP_TOLERANCE : float := 2e-3%float.
Definition MIN_PERP_OVERLAP_RATIO : float := 0.20%float.
Definition MAX_SIDE_GAP_RATIO : float := 0.50%float.

(* ------------------------------------------------------------------ *)
(** ** Geometry helpers *)
(* ------------------------------------------------------------------ *)

Definition overlapH (a b : Box) : float :=
  Js.Math_max 0%float
    (Js.Math_min (Box.x2 a) (Box.x2 b) - Js.Math_max (Box.x1 a) (Box.x1 b))%float.

Definition overlapV (a b : Box) : float :=
  Js.Math_max 0%float
    (Js.Math_min (Box.y2 a) (Box.y2 b) - Js.Math_max (Box.y1 a) (Box.y1 b))%float.

(* ------------------------------------------------------------------ *)
(** ** Card instance parsing *)
(* ------------------------------------------------------------------ *)

(** [new Map(cards.cards.map((c) => [c.id, c]))]: a later card of the same id
    replaces an earlier one. *)
Definition defByIdOf (cards : CardsJson) : gmap string CardDef :=
  foldl (fun m c => <[CardDef.id c := c]> m) ∅ (CardsJson.cards cards).

Definition parseCardInstance (box : Box) (defById : gmap string CardDef)
  : option CardInstance :=
  let colon := Js.indexOf ":"%char (Box.clsName box) in
  if (colon <? 0)%Z then None
  else
    let id := Js.trim (Js.slice_to colon (Box.clsName box)) in
    let treeSymbol := Js.trim (Js.slice_from (colon + 1) (Box.clsName box)) in
    Some (CardInstance.mk box id treeSymbol (defById !! id)).

(* ------------------------------------------------------------------ *)
(** ** Forest parser *)
(* ------------------------------------------------------------------ *)

(** [side === 'top' || side === 'bottom'] *)
Definition isTopOrBottom (side : Side) : bool :=
  match side with Top | Bottom => true | Left | Right => false end.

(** One turn of the loop over the sides in [bestPlacementCandidate]; every
    [continue] keeps [best]. *)
Definition placementStep (card tree : CardInstance)
    (best : option PlacementCandidate) (side : Side)
  : option PlacementCandidate :=
  let cb := CardInstance.box card in
  let tb := CardInstance.box tree in
  let perpOverlap := if isTopOrBottom side then overlapH cb tb else overlapV cb tb in
  let minPerpSize :=
    Js.Math_max ADJACENT_EPSILON
      (if isTopOrBottom side then Js.Math_min (Box.w tb) (Box.w cb)
       else Js.Math_min (Box.h tb) (Box.h cb)) in
  if (perpOverlap <? minPerpSize * MIN_PERP_OVERLAP_RATIO)%float then best else
  let rawDist :=
    match side with
    | Top => (Box.y1 tb - Box.y2 cb)%float
    | Bottom => (Box.y1 cb - Box.y2 tb)%float
    | Left => (Box.x1 tb - Box.x2 cb)%float
    | Right => (Box.x1 cb - Box.x2 tb)%float
    end in
  if (rawDist <? - SIDE_OVERLAP_TOLERANCE)%float then best else
  let dist := Js.Math_max 0%float rawDist in
  let maxGap :=
    (Js.Math_max ADJACENT_EPSILON
       (if isTopOrBottom side then Js.Math_max (Box.h tb) (Box.h cb)
        else Js.Math_max (Box.w tb) (Box.w cb)) * MAX_SIDE_GAP_RATIO)%float in
  if (maxGap <? dist)%float then best else
  let onCorrectSide :=
    match side with
    | Top => (Box.cy cb <=? Box.cy tb)%float
    | Bottom => (Box.cy tb <=? Box.cy cb)%float
    | Left => (Box.cx cb <=? Box.cx tb)%float
    | Right => (Box.cx tb <=? Box.cx cb)%float
    end in
  if negb onCorrectSide then best else
  let cand := PlacementCandidate.mk tree side dist perpOverlap in
  match best with
  | None => Some cand
  | Some b =>
      if (dist <? PlacementCandidate.dist b)%float
         || ((dist =? PlacementCandidate.dist b)%float
             && (PlacementCandidate.overlap b <? perpOverlap)%float)
      then Some cand else best
  end.

Definition bestPlacementCandidate (card tree : CardInstance)
  : option PlacementCandidate :=
  foldl (placementStep card tree) None [Top; Left; Right; Bottom].

(** The body of the loop over [cards] in [pickDirectlyAdjacent]: the distance
    with which [card] is pushed on [candidates], if it is. *)
Definition adjacentDist (anchorBox : Box) (side : Side) (card : CardInstance)
  : option float :=
  let cb := CardInstance.box card in
  let perpOverlap :=
    if isTopOrBottom side then overlapH cb anchorBox else overlapV cb anchorBox in
  let minPerpSize :=
    Js.Math_max ADJACENT_EPSILON
      (if isTopOrBottom side then Js.Math_min (Box.w anchorBox) (Box.w cb)
       else Js.Math_min (Box.h anchorBox) (Box.h cb)) in
  if (perpOverlap <? minPerpSize * MIN_PERP_OVERLAP_RATIO)%float then None else
  let rawDist :=
    match side with
    | Top => (Box.y1 anchorBox - Box.y2 cb)%float
    | Bottom => (Box.y1 cb - Box.y2 anchorBox)%float
    | Left => (Box.x1 anchorBox - Box.x2 cb)%float
    | Right => (Box.x1 cb - Box.x2 anchorBox)%float
    end in
  if (rawDist <? - SIDE_OVERLAP_TOLERANCE)%float then None else
  let dist := Js.Math_max 0%float rawDist in
  let onCorrectSide :=
    match side with
    | Top => (Box.y2 cb <=? Box.y1 anchorBox + ADJACENT_EPSILON)%float
    | Bottom => (Box.y2 anchorBox - ADJACENT_EPSILON <=? Box.y1 cb)%float
    | Left => (Box.x2 cb <=? Box.x1 anchorBox + ADJACENT_EPSILON)%float
    | Right => (Box.x2 anchorBox - ADJACENT_EPSILON <=? Box.x1 cb)%float
    end in
  if negb onCorrectSide then None else
  let maxGap :=
    (Js.Math_max ADJACENT_EPSILON
       (if isTopOrBottom side then Js.Math_max (Box.h anchorBox) (Box.h cb)
        else Js.Math_max (Box.w anchorBox) (Box.w cb)) * MAX_SIDE_GAP_RATIO)%float in
  if (maxGap <? dist)%float then None else Some dist.

Definition pickDirectlyAdjacent (anchorBox : Box) (cards : list CardInstance)
    (side : Side) : list CardInstance :=
  let candidates : list (CardInstance * float) :=
    omap (fun card => pair card <$> adjacentDist anchorBox side card) cards in
  match candidates with
  | [] => []
  | _ =>
      let minDist := Js.Math_min_list (map snd candidates) in
      map fst
        (List.filter (fun cd => (snd cd <=? minDist + ADJACENT_EPSILON)%float)
           candidates)
  end.

(** Instances are compared by reference. *)
Definition sameInstance (a b : CardInstance) : bool :=
  Nat.eqb (CardInstance.ref a) (CardInstance.ref b).

(** [set.has(c)] for a [Set<CardInstance>] kept in insertion order. *)
Definition hasInstance (s : list CardInstance) (c : CardInstance) : bool :=
  existsb (sameInstance c) s.

(** [set.add(c)] *)
Definition addInstance (s : list CardInstance) (c : CardInstance)
  : list CardInstance :=
  if hasInstance s c then s else s ++ [c].

(** [arr.indexOf(c)], [None] for -1. *)
Fixpoint indexOfInstance (arr : list CardInstance) (c : CardInstance)
  : option nat :=
  match arr with
  | [] => None
  | x :: arr' =>
      if sameInstance x c then Some O else S <$> indexOfInstance arr' c
  end.

(** The arrays [expandSideChain] mutates. *)
Module Chain.
Record t := mk {
    anchors : list Box;
    attached : list CardInstance;
    remaining : list CardInstance;
  }.
End Chain.

(** The first inner loop of one round: the set [next]. *)
Definition nextAdjacent (side : Side) (anchors : list Box)
    (remaining : list CardInstance) : list CardInstance :=
  foldl
    (fun next anchor =>
       foldl addInstance next (pickDirectlyAdjacent anchor remaining side))
    [] anchors.

(** The body of the second inner loop, for one [c] of [next]. *)
Definition moveToChain (st : Chain.t) (c : CardInstance) : Chain.t :=
  match indexOfInstance (Chain.remaining st) c with
  | Some idx =>
      Chain.mk (Chain.anchors st ++ [CardInstance.box c])
               (Chain.attached st ++ [c])
               (delete idx (Chain.remaining st))
  | None => st
  end.

(** The [while (true)] loop, with a bound on the number of rounds: [None]
    when the bound is reached before the loop breaks. *)
Fixpoint expandRounds (fuel : nat) (side : Side) (st : Chain.t)
  : option Chain.t :=
  match fuel with
  | O => None
  | S fuel' =>
      match nextAdjacent side (Chain.anchors st) (Chain.remaining st) with
      | [] => Some st
      | next => expandRounds fuel' side (foldl moveToChain st next)
      end
  end.

(** [expandSideChain] returns nothing and mutates [attached] and
    [remaining]: here it returns their final contents.  Every round but the
    last removes a card from [remaining], so the bound is never reached
    ([expandRounds_total] below). *)
Definition expandSideChain (treeBox : Box) (side : Side)
    (attached remaining : list CardInstance)
  : list CardInstance * list CardInstance :=
  let st0 := Chain.mk (treeBox :: map CardInstance.box attached) attached remaining in
  match expandRounds (S (length remaining)) side st0 with
  | Some st => (Chain.attached st, Chain.remaining st)
  | None => (attached, remaining)
  end.

(** The four maps [topByTree], [bottomByTree], [leftByTree], [rightByTree],
    keyed by the tree's box. *)
Module SideMaps.
Record t := mk {
    topByTree : gmap nat (list CardInstance);
    bottomByTree : gmap nat (list CardInstance);
    leftByTree : gmap nat (list CardInstance);
    rightByTree : gmap nat (list CardInstance);
  }.
Definition empty : t := mk ∅ ∅ ∅ ∅.
Definition get (side : Side) (m : t) : gmap nat (list CardInstance) :=
    match side with
    | Top => topByTree m
    | Bottom => bottomByTree m
    | Left => leftByTree m
    | Right => rightByTree m
    end.
Definition set (side : Side) (g : gmap nat (list CardInstance)) (m : t) : t :=
    match side with
    | Top => mk g (bottomByTree m) (leftByTree m) (rightByTree m)
    | Bottom => mk (topByTree m) g (leftByTree m) (rightByTree m)
    | Left => mk (topByTree m) (bottomByTree m) g (rightByTree m)
    | Right => mk (topByTree m) (bottomByTree m) (leftByTree m) g
    end.
End SideMaps.

(** [sideListFor(tree, side)]: the list of the map, made empty and stored
    when the map has none. *)
Definition sideListFor (tree : CardInstance) (side : Side) (m : SideMaps.t)
  : list CardInstance * SideMaps.t :=
  let k := Box.ref (CardInstance.box tree) in
  match SideMaps.get side m !! k with
  | Some l => (l, m)
  | None => ([], SideMaps.set side (<[k := []]> (SideMaps.get side m)) m)
  end.

(** A write through the array [sideListFor(tree, side)] returned. *)
Definition storeSideList (tree : CardInstance) (side : Side)
    (l : list CardInstance) (m : SideMaps.t) : SideMaps.t :=
  SideMaps.set side (<[Box.ref (CardInstance.box tree) := l]> (SideMaps.get side m)) m.

(** [sideListFor(tree, side).push(card)] *)
Definition pushSide (tree : CardInstance) (side : Side) (card : CardInstance)
    (m : SideMaps.t) : SideMaps.t :=
  let '(l, m1) := sideListFor tree side m in
  storeSideList tree side (l ++ [card]) m1.

(** The entity id [b.clsName.slice(0, colon).trim()]. *)
Definition labelId (b : Box) (colon : Z) : string :=
  Js.trim (Js.slice_to colon (Box.clsName b)).

Definition treeIdsOf (cards : CardsJson) : list string :=
  map CardDef.id
    (List.filter (fun c => Js.includes (CardDef.tags c) "Tree")
       (CardsJson.cards cards)).

Definition isTreeBox (treeIds : list string) (b : Box) : bool :=
  let colon := Js.indexOf ":"%char (Box.clsName b) in
  (0 <=? colon)%Z && Js.includes treeIds (labelId b colon).

Definition isOtherBox (treeIds : list string) (b : Box) : bool :=
  let colon := Js.indexOf ":"%char (Box.clsName b) in
  if (colon <? 0)%Z then true else negb (Js.includes treeIds (labelId b colon)).

(** The comparison of Phase 1 between the candidates of two trees. *)
Definition betterCandidate (best : option PlacementCandidate)
    (cand : PlacementCandidate) : option PlacementCandidate :=
  match best with
  | None => Some cand
  | Some b =>
      if (PlacementCandidate.dist cand <? PlacementCandidate.dist b)%float
         || ((PlacementCandidate.dist cand =? PlacementCandidate.dist b)%float
             && (PlacementCandidate.overlap b <? PlacementCandidate.overlap cand)%float)
      then Some cand else best
  end.

Definition bestOverTrees (card : CardInstance) (treeCards : list CardInstance)
  : option PlacementCandidate :=
  foldl
    (fun best tree =>
       match bestPlacementCandidate card tree with
       | None => best
       | Some cand => betterCandidate best cand
       end)
    None treeCards.

(** Phase 1, for one card. *)
Definition placeDirectly (treeCards : list CardInstance) (m : SideMaps.t)
    (card : CardInstance) : SideMaps.t :=
  match bestOverTrees card treeCards with
  | Some best =>
      pushSide (PlacementCandidate.tree best) (PlacementCandidate.side best) card m
  | None => m
  end.

(** [[...map.values()].flat()] *)
Definition mapValues (g : gmap nat (list CardInstance)) : list CardInstance :=
  mjoin ((map_to_list g).*2).

Definition directlyPlacedOf (m : SideMaps.t) : list CardInstance :=
  mapValues (SideMaps.topByTree m) ++ mapValues (SideMaps.bottomByTree m)
  ++ mapValues (SideMaps.leftByTree m) ++ mapValues (SideMaps.rightByTree m).

(** One [expandSideChain(treeCard.box, side, list, remaining)] on the list of
    the map. *)
Definition expandSide (treeCard : CardInstance) (side : Side)
    (st : SideMaps.t * list CardInstance) : SideMaps.t * list CardInstance :=
  let '(m, remaining) := st in
  let attached := default [] (SideMaps.get side m !! Box.ref (CardInstance.box treeCard)) in
  let '(attached', remaining') :=
    expandSideChain (CardInstance.box treeCard) side attached remaining in
  (storeSideList treeCard side attached' m, remaining').

(** Phase 2, for one tree. *)
Definition expandTree (st : SideMaps.t * list CardInstance)
    (treeCard : CardInstance) : SideMaps.t * list CardInstance :=
  let '(m, remaining) := st in
  let m := snd (sideListFor treeCard Top m) in
  let m := snd (sideListFor treeCard Bottom m) in
  let m := snd (sideListFor treeCard Left m) in
  let m := snd (sideListFor treeCard Right m) in
  expandSide treeCard Right
    (expandSide treeCard Left
       (expandSide treeCard Bottom
          (expandSide treeCard Top (m, remaining)))).

Definition treeOf (m : SideMaps.t) (tc : CardInstance) : Tree :=
  let k := Box.ref (CardInstance.box tc) in
  Tree.mk tc
    (default [] (SideMaps.topByTree m !! k))
    (default [] (SideMaps.leftByTree m !! k))
    (default [] (SideMaps.rightByTree m !! k))
    (default [] (SideMaps.bottomByTree m !! k)).

Definition buildForest (boxes : list Box) (cards : CardsJson) : Forest :=
  let defById := defByIdOf cards in
  let treeIds := treeIdsOf cards in
  let treeBoxes := List.filter (isTreeBox treeIds) boxes in
  let otherBoxes := List.filter (isOtherBox treeIds) boxes in
  let treeCards := omap (fun b => parseCardInstance b defById) treeBoxes in
  let cardInsts := omap (fun b => parseCardInstance b defById) otherBoxes in
  (* Phase 1: direct placement *)
  let m1 := foldl (placeDirectly treeCards) SideMaps.empty cardInsts in
  (* Phase 2: chain expansion *)
  let directlyPlaced := directlyPlacedOf m1 in
  let remaining :=
    List.filter (fun c => negb (hasInstance directlyPlaced c)) cardInsts in
  let '(m2, _) := foldl expandTree (m1, remaining) treeCards in
  Forest.mk (map (treeOf m2) treeCards).

(* ------------------------------------------------------------------ *)
(** ** Forest utilities *)
(* ------------------------------------------------------------------ *)

(** The attachments of a tree in the order the utilities spread them:
    [[...tree.top, ...tree.left, ...tree.right, ...tree.bottom]]. *)
Definition attachmentsOf (tree : Tree) : list CardInstance :=
  Tree.top tree ++ Tree.left tree ++ Tree.right tree ++ Tree.bottom tree.

(** [seen] and [result] of the source hold the same instances at every
    step, so the one list [result] stands for both. *)
Definition allCardInstances (forest : Forest) : list CardInstance :=
  foldl
    (fun result tree => foldl addInstance result (Tree.card tree :: attachmentsOf tree))
    [] (Forest.trees forest).

(** [if (!map.has(k)) map.set(k, v)] *)
Definition setIfAbsent {V} (k : nat) (v : V) (m : gmap nat V) : gmap nat V :=
  match m !! k with
  | Some _ => m
  | None => <[k := v]> m
  end.

Definition placeAll (tree : Tree) (side : Side) (cs : list CardInstance)
    (m : gmap nat Placement) : gmap nat Placement :=
  foldl
    (fun m c => setIfAbsent (Box.ref (CardInstance.box c)) (Placement.mk tree (Some side)) m)
    m cs.

(** The body of the loop over the trees in [buildPlacementsByBox]. *)
Definition placeTree (m : gmap nat Placement) (tree : Tree) : gmap nat Placement :=
  let m := setIfAbsent (Box.ref (CardInstance.box (Tree.card tree)))
             (Placement.mk tree None) m in
  let m := placeAll tree Top (Tree.top tree) m in
  let m := placeAll tree Bottom (Tree.bottom tree) m in
  let m := placeAll tree Left (Tree.left tree) m in
  placeAll tree Right (Tree.right tree) m.

Definition buildPlacementsByBox (forest : Forest) : gmap nat Placement :=
  foldl placeTree ∅ (Forest.trees forest).

(** The comparator of [sortTreesVisually]. *)
Definition visualOrder (thresh : float) (a b : Tree) : float :=
  let ab := CardInstance.box (Tree.card a) in
  let bb := CardInstance.box (Tree.card b) in
  if (Js.Math_abs (Box.y1 ab - Box.y1 bb) <? thresh)%float
  then (Box.x1 ab - Box.x1 bb)%float
  else (Box.y1 ab - Box.y1 bb)%float.

(** Sorts trees in visual reading order (row then left-to-right). *)
Definition sortTreesVisually (trees : list Tree) : list Tree :=
  match trees with
  | [] => trees
  | _ =>
      let avgH :=
        (foldl (fun s t => s + Box.h (CardInstance.box (Tree.card t))) 0 trees
         / Js.num_of_nat (length trees))%float in
      let thresh := Js.Math_max (avgH / 2)%float ADJACENT_EPSILON in
      Js.sort (visualOrder thresh) trees
  end.

(** The body of the [forEach] of [buildBoxToTreeIndex], from index [idx] on. *)
Fixpoint indexTrees (idx : nat) (sortedTrees : list Tree) (m : gmap nat nat)
  : gmap nat nat :=
  match sortedTrees with
  | [] => m
  | tree :: rest =>
      let m := <[Box.ref (CardInstance.box (Tree.card tree)) := idx]> m in
      let m :=
        foldl (fun m c => <[Box.ref (CardInstance.box c) := idx]> m) m
          (attachmentsOf tree) in
      indexTrees (S idx) rest m
  end.

(** Returns tree-to-index mapping for group name generation. *)
Definition buildBoxToTreeIndex (forest : Forest) : gmap nat nat :=
  indexTrees 0 (sortTreesVisually (Forest.trees forest)) ∅.

(** The comparator of [sortAttached]. *)
Definition attachedOrder (side : Side) (a b : CardInstance) : float :=
  let ab := CardInstance.box a in
  let bb := CardInstance.box b in
  match side with
  | Top =>
      if negb (Box.y2 bb =? Box.y2 ab)%float then (Box.y2 bb - Box.y2 ab)%float
      else (Box.cx ab - Box.cx bb)%float
  | Bottom =>
      if negb (Box.y1 ab =? Box.y1 bb)%float then (Box.y1 ab - Box.y1 bb)%float
      else (Box.cx ab - Box.cx bb)%float
  | Left =>
      if negb (Box.x2 bb =? Box.x2 ab)%float then (Box.x2 bb - Box.x2 ab)%float
      else (Box.cy ab - Box.cy bb)%float
  | Right =>
      if negb (Box.x1 ab =? Box.x1 bb)%float then (Box.x1 ab - Box.x1 bb)%float
      else (Box.cy ab - Box.cy bb)%float
  end.

(** The filter of [sortAttached]: cards geometrically on the correct side. *)
Definition onSideOf (treeBox : Box) (side : Side) (c : CardInstance) : bool :=
  let cb := CardInstance.box c in
  match side with
  | Top => (Box.y2 cb <=? Box.y1 treeBox + 1e-3)%float
  | Bottom => (Box.y2 treeBox - 1e-3 <=? Box.y1 cb)%float
  | Left => (Box.x2 cb <=? Box.x1 treeBox + 1e-3)%float
  | Right => (Box.x2 treeBox - 1e-3 <=? Box.x1 cb)%float
  end.

Definition sortAttached (tree : Tree) (sideCards : list CardInstance)
    (side : Side) : list CardInstance :=
  let treeBox := CardInstance.box (Tree.card tree) in
  List.filter (onSideOf treeBox side) (Js.sort (attachedOrder side) sideCards).

(** The state of [sortCardsInUiOrder]: the array [sorted] and the set [seen]
    of boxes. *)
Module UiOrder.
Record t := mk { sorted : list Box; seen : gset nat }.
End UiOrder.

(** [if (!seen.has(box)) { seen.add(box); sorted.push(box); }] *)
Definition pushUnseen (st : UiOrder.t) (box : Box) : UiOrder.t :=
  if decide (Box.ref box ∈ UiOrder.seen st) then st
  else UiOrder.mk (UiOrder.sorted st ++ [box]) ({[Box.ref box]} ∪ UiOrder.seen st).

(** [if (seen.add(box)) sorted.push(box)]: [add] returns the set, which is
    truthy, so the box is pushed in every case. *)
Definition pushAnchor (st : UiOrder.t) (box : Box) : UiOrder.t :=
  UiOrder.mk (UiOrder.sorted st ++ [box]) ({[Box.ref box]} ∪ UiOrder.seen st).

Definition pushSorted (tree : Tree) (side : Side) (cs : list CardInstance)
    (st : UiOrder.t) : UiOrder.t :=
  foldl (fun st c => pushUnseen st (CardInstance.box c)) st (sortAttached tree cs side).

(** The body of the loop over the sorted trees in [sortCardsInUiOrder]. *)
Definition uiTreeStep (st : UiOrder.t) (tree : Tree) : UiOrder.t :=
  let st := pushAnchor st (CardInstance.box (Tree.card tree)) in
  let st := pushSorted tree Top (Tree.top tree) st in
  let st := pushSorted tree Left (Tree.left tree) st in
  let st := pushSorted tree Right (Tree.right tree) st in
  pushSorted tree Bottom (Tree.bottom tree) st.

(** Sorts all cards in UI display order: trees in reading order, each
    followed by top/left/right/bottom attached cards. *)
Definition sortCardsInUiOrder (forest : Forest) : list Box :=
  let st :=
    foldl uiTreeStep (UiOrder.mk [] ∅) (sortTreesVisually (Forest.trees forest)) in
  (* Unattached cards at the end *)
  let st :=
    foldl
      (fun st tree =>
         foldl pushUnseen st
           (map CardInstance.box (Tree.card tree :: attachmentsOf tree)))
      st (Forest.trees forest) in
  UiOrder.sorted st.

(* ------------------------------------------------------------------ *)
(** ** Scoring state *)
(* ------------------------------------------------------------------ *)

(** An entry [{ max, winners }] of the cross-player cache; [winners] is a
    [Set<number>] in insertion order. *)
Module MostEntry.
Record t := mk { max : Z; winners : list Z }.
End MostEntry.

(** What one invocation of [score] allocates and mutates: the two maps of
    the "most" cache, the [Set<string>] objects of the table dedup
    ([setHeap], addressed by allocation index) and the field [set] of the
    instances ([setOf], from the instance to the address of its set). *)
Module ScoreState.
Record t := mk {
    mostWinnerCache : gmap string MostEntry.t;
    condByKeyStr : gmap string ConditionJson;
    setHeap : list (list string);
    setOf : gmap nat nat;
  }.
Definition fresh : t := mk ∅ ∅ [] ∅.
End ScoreState.

(** Computations that read and mutate the scoring state. *)
Definition M (A : Type) : Type := ScoreState.t → A * ScoreState.t.

Definition ret {A} (a : A) : M A := fun st => (a, st).
Definition bind {A B} (m : M A) (k : A → M B) : M B :=
  fun st => let '(a, st') := m st in k a st'.

Declare Scope m_scope.
Delimit Scope m_scope with M.
Notation "x <- m ;; k" := (bind m (fun x => k))
  (at level 100, m at next level, right associativity) : m_scope.

(** A [for ... of] loop whose body mutates the state. *)
Fixpoint forM {A B} (f : A → M B) (l : list A) : M (list B) :=
  match l with
  | [] => ret []
  | x :: l' => (y <- f x ;; ys <- forM f l' ;; ret (y :: ys))%M
  end.

(* ------------------------------------------------------------------ *)
(** ** Scoring logic *)
(* ------------------------------------------------------------------ *)

Definition nonEmpty {A} (l : list A) : bool :=
  match l with [] => false | _ => true end.

Definition isFullTree (tree : Tree) : bool :=
  nonEmpty (Tree.top tree) && nonEmpty (Tree.left tree)
  && nonEmpty (Tree.bottom tree) && nonEmpty (Tree.right tree).

Definition matchesAnyTag (inst : CardInstance) (tags : list string) : bool :=
  let cardTags := default [] (CardDef.tags <$> CardInstance.definition inst) in
  existsb (fun t => Js.includes cardTags t) tags.

(** [inst.definition?.joker?.type] *)
Definition jokerType (inst : CardInstance) : option string :=
  d ← CardInstance.definition inst; j ← CardDef.joker d; Some (JokerJson.type j).

(** [inst.definition?.type] *)
Definition defType (inst : CardInstance) : option string :=
  d ← CardInstance.definition inst; CardDef.type d.

(** [a === b] where [b] may be [undefined]. *)
Definition strEqOpt (a : string) (b : option string) : bool :=
  match b with Some s => String.eqb a s | None => false end.

(** The predicate of the filter in [filterCards]. *)
Definition cardMatches (self : CardInstance) (cond : ConditionJson)
    (inst : CardInstance) : bool :=
  let ids := ConditionJson.name cond in
  let tags := ConditionJson.tags cond in
  let type := ConditionJson.type cond in
  let treeSymbol :=
    if ConditionJson.sameTreeSymbol cond then Some (CardInstance.treeSymbol self)
    else None in
  if match type with Some ty => strEqOpt ty (jokerType inst) | None => false end
  then true
  else
    let idOk := match ids with Some l => Js.includes l (CardInstance.id inst) | None => true end in
    let tagsOk := match tags with Some l => matchesAnyTag inst l | None => true end in
    let typeOk := match type with None => true | Some ty => strEqOpt ty (defType inst) end in
    let symOk :=
      match treeSymbol with
      | None => true
      | Some s => String.eqb s (CardInstance.treeSymbol inst)
      end in
    idOk && tagsOk && typeOk && symOk.

Definition filterCards (self : CardInstance) (candidates : list CardInstance)
    (cond : ConditionJson) : list CardInstance :=
  List.filter (cardMatches self cond) candidates.

Definition MostResolver : Type := CardInstance → ConditionJson → M bool.

(** [tree[side]] *)
Definition treeSide (tree : Tree) (side : Side) : list CardInstance :=
  match side with
  | Top => Tree.top tree
  | Bottom => Tree.bottom tree
  | Left => Tree.left tree
  | Right => Tree.right tree
  end.

(** [!m.definition?.joker] *)
Definition notJoker (m : CardInstance) : bool :=
  match CardInstance.definition m with
  | Some d => match CardDef.joker d with Some _ => false | None => true end
  | None => true
  end.

(** [new Set(matching.filter((m) => !m.definition?.joker).map((m) => m.id)).size] *)
Definition uniqueIdCount (matching : list CardInstance) : Z :=
  Z.of_nat (length (remove_dups (map CardInstance.id (List.filter notJoker matching)))).

(** [self.definition?.score?.type === 'table'] *)
Definition hasTableScore (self : CardInstance) : bool :=
  match CardInstance.definition self with
  | Some d =>
      match CardDef.score d with
      | Some s => String.eqb (ScoreJson.type s) "table"
      | None => false
      end
  | None => false
  end.

(** The body of the loop over [matching] in the table dedup; [sets] holds
    the addresses of the sets of the local array [sets]. *)
Definition dedupItem (acc : list nat * ScoreState.t) (item : CardInstance)
  : list nat * ScoreState.t :=
  let '(sets, st) := acc in
  let heap := ScoreState.setHeap st in
  let hasId (a : nat) := Js.includes (default [] (heap !! a)) (CardInstance.id item) in
  let '(s, sets, heap) :=
    match List.find (fun a => negb (hasId a)) sets with
    | Some a => (a, sets, heap)
    | None => (length heap, sets ++ [length heap], heap ++ [[]])
    end in
  let members := default [] (heap !! s) in
  let members :=
    if Js.includes members (CardInstance.id item) then members
    else members ++ [CardInstance.id item] in
  (sets,
   ScoreState.mk (ScoreState.mostWinnerCache st) (ScoreState.condByKeyStr st)
     (<[s := members]> heap)
     (<[CardInstance.ref item := s]> (ScoreState.setOf st))).

(** The table dedup of [countMatches]: shared set across instances that
    self-reference by ID. *)
Definition tableDedup (self : CardInstance) (matching : list CardInstance)
  : M Z :=
  fun st =>
    let st :=
      match ScoreState.setOf st !! CardInstance.ref self with
      | Some _ => st
      | None =>
          let a := length (ScoreState.setHeap st) in
          let st0 :=
            ScoreState.mk (ScoreState.mostWinnerCache st) (ScoreState.condByKeyStr st)
              (ScoreState.setHeap st ++ [[]])
              (<[CardInstance.ref self := a]> (ScoreState.setOf st)) in
          snd (foldl dedupItem ([a], st0) matching)
      end in
    let size :=
      match ScoreState.setOf st !! CardInstance.ref self with
      | Some a => length (default [] (ScoreState.setHeap st !! a))
      | None => O
      end in
    (Z.of_nat size, st).

(** The first statement of [countMatches]: [false] when it returns 0 at
    once, [true] when it goes on ([cond.most !== true], or [ok]). *)
Definition mostGate (self : CardInstance) (cond : ConditionJson)
    (assumeMost : bool) (mostResolver : option MostResolver) : M bool :=
  if ConditionJson.most cond then
    match mostResolver with
    | Some resolve => resolve self cond
    | None => ret assumeMost
    end
  else ret true.

Definition countMatches (self : CardInstance) (cond : ConditionJson)
    (all : list CardInstance) (placementsByBox : gmap nat Placement)
    (assumeMost : bool) (mostResolver : option MostResolver) : M Z :=
  (ok <- mostGate self cond assumeMost mostResolver ;;
   if negb ok then ret 0%Z else
   let placement := placementsByBox !! Box.ref (CardInstance.box self) in
   if ConditionJson.fullTree cond then
     ret (match placement with
          | Some p => if isFullTree (Placement.tree p) then 1%Z else 0%Z
          | None => 0%Z
          end)
   else
     let pool : option (list CardInstance) :=
       if ConditionJson.sameTree cond then
         match placement with
         | None => None
         | Some p =>
             let tree := Placement.tree p in
             let treeCards :=
               Tree.top tree ++ Tree.bottom tree ++ Tree.left tree ++ Tree.right tree in
             Some (if sameInstance self (Tree.card tree) then treeCards
                   else Tree.card tree :: treeCards)
         end
       else if ConditionJson.sameSpot cond then
         match placement with
         | None => None
         | Some p =>
             match Placement.side p with
             | None => None
             | Some side => Some (treeSide (Placement.tree p) side)
             end
         end
       else if match ConditionJson.position cond with
               | Some pos => Js.includes pos "below"
               | None => false
               end then
         Some (List.filter
                 (fun o =>
                    (Box.y2 (CardInstance.box self) <=? Box.y1 (CardInstance.box o))%float
                    && (0 <? overlapH (CardInstance.box o) (CardInstance.box self))%float)
                 all)
       else Some all in
     match pool with
     | None => ret 0%Z
     | Some pool =>
         let matching := filterCards self pool cond in
         if ConditionJson.unique cond && hasTableScore self then
           tableDedup self matching
         else
           ret (if ConditionJson.unique cond then uniqueIdCount matching
                else Z.of_nat (length matching))
     end)%M.

Definition scoreTableIndex (points : list Z) (count : Z) : Z :=
  match points with
  | [] => 0%Z
  | _ =>
      default 0%Z
        (points !! Z.to_nat (Z.max 0 (Z.min (Z.of_nat (length points) - 1) (count - 1))))
  end.

Definition pointsWord (n : Z) : string :=
  if (n =? 1)%Z then "Punkt" else "Punkte".

Definition describeTarget (cond : ConditionJson) : string :=
  let ids := Js.filter_truthy (default [] (ConditionJson.name cond)) in
  let tags := Js.filter_truthy (default [] (ConditionJson.tags cond)) in
  if nonEmpty ids then Js.join "/" ids
  else if nonEmpty tags then Js.join " oder " tags
  else "Karten".

Definition describeScope (cond : ConditionJson) : string :=
  if ConditionJson.sameTree cond then "im selben Baum" else "".

Definition describeExtras (cond : ConditionJson) : string :=
  let parts :=
    (if ConditionJson.unique cond then ["einzigartig"] else [])
    ++ (if ConditionJson.sameTreeSymbol cond then ["gleiches Baum-Symbol"] else [])
    ++ (if ConditionJson.fullTree cond then ["voller Baum"] else [])
    ++ (if ConditionJson.sameSpot cond then ["gleicher Platz"] else [])
    ++ (if ConditionJson.most cond then ["meiste"] else [])
    ++ (match ConditionJson.position cond with
        | Some (p :: ps) => [Js.join "/" (p :: ps)]
        | _ => []
        end) in
  Js.join ", " parts.

(** A string is truthy when it is not empty. *)
Definition truthy (s : string) : bool := negb (String.eqb s "").

(** [Array.isArray(scoreRule.amount) ? 0 : (scoreRule.amount ?? 0)] *)
Definition scalarAmount (rule : ScoreJson) : Z :=
  match ScoreJson.amount rule with
  | Some (AmountNum n) => n
  | Some (AmountArr _) => 0%Z
  | None => 0%Z
  end.

(** [Array.isArray(scoreRule.amount) ? scoreRule.amount : []] *)
Definition tableAmount (rule : ScoreJson) : list Z :=
  match ScoreJson.amount rule with
  | Some (AmountArr a) => a
  | _ => []
  end.

Definition scoreInstanceWithReason (instance : CardInstance)
    (all : list CardInstance) (placementsByBox : gmap nat Placement)
    (assumeMost : bool) (mostResolver : option MostResolver)
  : M (Z * string) :=
  match CardInstance.definition instance ≫= CardDef.score with
  | None => ret (0%Z, "kein Effekt")
  | Some scoreRule =>
      let cond := ScoreJson.condition scoreRule in
      let type := Js.toLowerCase (ScoreJson.type scoreRule) in
      if String.eqb type "fixed" then
        let amount := scalarAmount scoreRule in
        match cond with
        | None =>
            ret (amount, Js.show amount +:+ " feste " +:+ pointsWord amount)
        | Some cond =>
            (matches <- countMatches instance cond all placementsByBox assumeMost mostResolver ;;
             let min := ScoreJson.min scoreRule in
             let satisfied :=
               match min with
               | Some mn => (mn <=? matches)%Z
               | None => (0 <? matches)%Z
               end in
             let minText :=
               match min with
               | Some mn => "mind. " +:+ Js.show mn
               | None => "mind. 1"
               end in
             let extra := describeExtras cond in
             let extraStr := if truthy extra then " (" +:+ extra +:+ ")" else "" in
             let scopeStr :=
               if truthy (describeScope cond) then " " +:+ describeScope cond else "" in
             let target := describeTarget cond in
             if satisfied then
               ret (amount,
                    Js.show amount +:+ " feste " +:+ pointsWord amount +:+ " ("
                    +:+ Js.show matches +:+ " Treffer, " +:+ minText +:+ " " +:+ target
                    +:+ scopeStr +:+ extraStr +:+ ")")
             else
               ret (0%Z,
                    "0 " +:+ pointsWord 0 +:+ " (Bedingung nicht erfüllt: "
                    +:+ Js.show matches +:+ " Treffer, " +:+ minText +:+ " " +:+ target
                    +:+ scopeStr +:+ extraStr +:+ ")"))%M
        end
      else if String.eqb type "multiplication" then
        let amount := scalarAmount scoreRule in
        match cond with
        | None => ret (0%Z, "0 (keine Bedingung)")
        | Some cond =>
            (matches <- countMatches instance cond all placementsByBox assumeMost mostResolver ;;
             let min := ScoreJson.min scoreRule in
             let effectiveMatches :=
               match min with
               | Some mn => if (matches <? mn)%Z then 0%Z else matches
               | None => matches
               end in
             let pts := (amount * effectiveMatches)%Z in
             let minText :=
               match min with
               | Some mn => "mind. " +:+ Js.show mn
               | None => ""
               end in
             let extra := describeExtras cond in
             let extraStr := if truthy extra then " (" +:+ extra +:+ ")" else "" in
             let scopeStr := describeScope cond in
             let perText :=
               Js.show amount +:+ " " +:+ pointsWord amount +:+ " pro " +:+ describeTarget cond in
             let detailsParts := Js.filter_truthy [minText; scopeStr] in
             let detailsStr :=
               if nonEmpty detailsParts then " (" +:+ Js.join ", " detailsParts +:+ ")"
               else "" in
             ret (pts,
                  perText +:+ " · " +:+ Js.show effectiveMatches +:+ detailsStr +:+ extraStr))%M
        end
      else if String.eqb type "table" then
        let arr := tableAmount scoreRule in
        match cond with
        | None => ret (0%Z, "0 (keine Bedingung)")
        | Some cond =>
            (matches <- countMatches instance cond all placementsByBox assumeMost mostResolver ;;
             let pts := scoreTableIndex arr matches in
             let extra := describeExtras cond in
             let extraStr := if truthy extra then " (" +:+ extra +:+ ")" else "" in
             let scopeStr :=
               if truthy (describeScope cond) then " " +:+ describeScope cond else "" in
             ret (pts,
                  "Tabelle: " +:+ Js.show matches +:+ " Treffer (" +:+ describeTarget cond
                  +:+ scopeStr +:+ extraStr +:+ ")"))%M
        end
      else ret (0%Z, "kein Effekt")
  end.

(* ------------------------------------------------------------------ *)
(** ** Cross-player "most" resolver *)
(* ------------------------------------------------------------------ *)

Module MostKey.
Record t := mk {
    ids : string;
    tags : string;
    unique : bool;
    treeSymbol : option string;
  }.
End MostKey.
Abbreviation MostKey := MostKey.t.

Definition makeMostKey (self : CardInstance) (cond : ConditionJson) : MostKey :=
  let ids :=
    Js.join "," (Js.sort_str (Js.filter_truthy (default [] (ConditionJson.name cond)))) in
  let tags :=
    Js.join "," (Js.sort_str (Js.filter_truthy (default [] (ConditionJson.tags cond)))) in
  let unique := ConditionJson.unique cond in
  let treeSymbol :=
    if ConditionJson.sameTreeSymbol cond then Some (CardInstance.treeSymbol self)
    else None in
  MostKey.mk ids tags unique treeSymbol.

Definition mostKeyStr (k : MostKey) : string :=
  MostKey.ids k +:+ "|" +:+ MostKey.tags k +:+ "|"
  +:+ (if MostKey.unique k then "true" else "false") +:+ "|"
  +:+ default "" (MostKey.treeSymbol k).

(** The predicate of the filter in [countForMostKey]. *)
Definition mostKeyMatches (key : MostKey) (cond : ConditionJson)
    (inst : CardInstance) : bool :=
  if match MostKey.treeSymbol key with
     | Some s => negb (String.eqb (CardInstance.treeSymbol inst) s)
     | None => false
     end
  then false
  else
    let idOk :=
      if truthy (MostKey.ids key)
      then Js.includes (Js.split ","%char (MostKey.ids key)) (CardInstance.id inst)
      else true in
    let tagsOk :=
      if truthy (MostKey.tags key)
      then existsb
             (fun t =>
                match CardInstance.definition inst with
                | Some d => Js.includes (CardDef.tags d) t
                | None => false
                end)
             (Js.split ","%char (MostKey.tags key))
      else true in
    let typeOk :=
      match ConditionJson.type cond with
      | None => true
      | Some ty => strEqOpt ty (defType inst)
      end in
    idOk && tagsOk && typeOk.

Definition countForMostKey (key : MostKey) (cards : list CardInstance)
    (cond : ConditionJson) : Z :=
  let filtered := List.filter (mostKeyMatches key cond) cards in
  if MostKey.unique key then uniqueIdCount filtered
  else Z.of_nat (length filtered).

(* ------------------------------------------------------------------ *)
(** ** Public score function *)
(* ------------------------------------------------------------------ *)

Module PreparedPlayer.
Record t := mk { forest : option Forest; all : list CardInstance }.
End PreparedPlayer.
Abbreviation PreparedPlayer := PreparedPlayer.t.

(** Convert DetectedCard → Box; [ref] is the identity of the new object. *)
Definition toBox (ref : nat) (dc : DetectedCard) : Box :=
  Box.mk (DetectedCard.x1 dc) (DetectedCard.y1 dc) (DetectedCard.x2 dc)
    (DetectedCard.y2 dc) (DetectedCard.cx dc) (DetectedCard.cy dc)
    (DetectedCard.w dc) (DetectedCard.h dc) (DetectedCard.cardId dc) ref.

(** [p.cards.map((dc) => ({ ... }))], the objects allocated from [base] on. *)
Definition toBoxes (base : nat) (dcs : list DetectedCard) : list Box :=
  imap (fun i dc => toBox (base + i) dc) dcs.

Definition preparePlayer (cards : CardsJson) (base : nat) (p : PlayerInput)
  : PreparedPlayer :=
  match PlayerInput.cards p with
  | [] => PreparedPlayer.mk None []
  | dcs =>
      let forest := buildForest (toBoxes base dcs) cards in
      PreparedPlayer.mk (Some forest) (allCardInstances forest)
  end.

(** Phase 1 of [score]: build forests.  [base] counts the boxes allocated
    so far. *)
Fixpoint prepareFrom (cards : CardsJson) (base : nat) (players : list PlayerInput)
  : list PreparedPlayer :=
  match players with
  | [] => []
  | p :: ps =>
      preparePlayer cards base p
      :: prepareFrom cards (base + length (PlayerInput.cards p)) ps
  end.

(** [Math.max(0, ...counts)] *)
Definition maxCount (counts : list Z) : Z := foldl Z.max 0%Z counts.

(** The winners of a list of counts:
    [max <= 0 ? [] : counts.map((c, i) => (c === max ? i : -1)).filter((i) => i >= 0)] *)
Definition winnersOf (counts : list Z) : MostEntry.t :=
  let max := maxCount counts in
  let winners :=
    if (max <=? 0)%Z then []
    else
      List.filter (fun i => (0 <=? i)%Z)
        (imap (fun i c => if (c =? max)%Z then Z.of_nat i else (-1)%Z) counts) in
  MostEntry.mk max winners.

(** [prepared.map((p) => countForMostKey(key, p.all, cond))] *)
Definition mostCounts (prepared : list PreparedPlayer) (key : MostKey)
    (cond : ConditionJson) : list Z :=
  map (fun p => countForMostKey key (PreparedPlayer.all p) cond) prepared.

(** What [getMostWinners] computes on a cache miss. *)
Definition computeMostWinners (prepared : list PreparedPlayer) (key : MostKey)
    (cond : ConditionJson) : MostEntry.t :=
  winnersOf (mostCounts prepared key cond).

Definition getMostWinners (prepared : list PreparedPlayer) (key : MostKey)
    (cond : ConditionJson) : M MostEntry.t :=
  fun st =>
    let ks := mostKeyStr key in
    match ScoreState.mostWinnerCache st !! ks with
    | Some e => (e, st)
    | None =>
        let e := computeMostWinners prepared key cond in
        (e,
         ScoreState.mk (<[ks := e]> (ScoreState.mostWinnerCache st))
           (<[ks := cond]> (ScoreState.condByKeyStr st))
           (ScoreState.setHeap st) (ScoreState.setOf st))
    end.

(** The closure [mostResolver] of the player [playerIndex]. *)
Definition mostResolverOf (prepared : list PreparedPlayer) (playerIndex : nat)
  : MostResolver :=
  fun self cond =>
    if negb (ConditionJson.most cond) then ret true
    else
      let key := makeMostKey self cond in
      (e <- getMostWinners prepared key cond ;;
       ret (existsb (Z.eqb (Z.of_nat playerIndex)) (MostEntry.winners e)))%M.

(** The body of the loop that fills [cardDetails]: the entry pushed for
    [box], none when the loop continues. *)
Definition detailFor (instByBox : gmap nat CardInstance)
    (scoreByBox : gmap nat (Z * string)) (boxToTreeIdx : gmap nat nat)
    (box : Box) : option CardScoreDetail :=
  match instByBox !! Box.ref box with
  | None => None
  | Some inst =>
      let '(points, reason) := default (0%Z, "") (scoreByBox !! Box.ref box) in
      let group :=
        match boxToTreeIdx !! Box.ref box with
        | Some treeIdx => Some ("Baum " +:+ Js.show (Z.of_nat treeIdx + 1))
        | None => None
        end in
      Some (CardScoreDetail.mk (Box.clsName (CardInstance.box inst)) points
              reason (Some (CardInstance.id inst)) group)
  end.

Definition cardDetailsOf (sortedBoxes : list Box)
    (instByBox : gmap nat CardInstance) (scoreByBox : gmap nat (Z * string))
    (boxToTreeIdx : gmap nat nat) : list CardScoreDetail :=
  omap (detailFor instByBox scoreByBox boxToTreeIdx) sortedBoxes.

(** Phase 3 of [score], for one player. *)
Definition scorePlayer (prepared : list PreparedPlayer) (playerName : string)
    (playerIndex : nat) (p : PreparedPlayer) : M PlayerScoreResult :=
  match PreparedPlayer.forest p, PreparedPlayer.all p with
  | None, _ | _, [] => ret (PlayerScoreResult.mk playerName 0%Z [])
  | Some forest, all =>
      let mostResolver := mostResolverOf prepared playerIndex in
      let placementsByBox := buildPlacementsByBox forest in
      (* Score all instances first *)
      (results <-
         forM (fun inst =>
                 r <- scoreInstanceWithReason inst all placementsByBox false
                        (Some mostResolver) ;;
                 ret (Box.ref (CardInstance.box inst), r))
           all ;;
       let scoreByBox : gmap nat (Z * string) :=
         foldl (fun m kr => <[fst kr := snd kr]> m) ∅ results in
       (* Sort into UI order *)
       let sortedBoxes := sortCardsInUiOrder forest in
       let instByBox : gmap nat CardInstance :=
         foldl (fun m c => <[Box.ref (CardInstance.box c) := c]> m) ∅ all in
       let boxToTreeIdx := buildBoxToTreeIndex forest in
       let cardDetails := cardDetailsOf sortedBoxes instByBox scoreByBox boxToTreeIdx in
       let totalScore :=
         foldl (fun s d => (s + CardScoreDetail.points d)%Z) 0%Z cardDetails in
       ret (PlayerScoreResult.mk playerName totalScore cardDetails))%M
  end.

(** [prepared.map((p, playerIndex) => ...)] from index [playerIndex] on;
    [players[playerIndex].name] is the name of the player [p] was made of. *)
Fixpoint scorePlayers (prepared : list PreparedPlayer) (playerIndex : nat)
    (rest : list (PlayerInput * PreparedPlayer)) : M (list PlayerScoreResult) :=
  match rest with
  | [] => ret []
  | (player, p) :: rest' =>
      (r <- scorePlayer prepared (PlayerInput.name player) playerIndex p ;;
       rs <- scorePlayers prepared (S playerIndex) rest' ;;
       ret (r :: rs))%M
  end.

(** One invocation of [score] in a process that has allocated [base]
    objects: the boxes it makes are the objects [base], [base + 1], ...;
    the maps of the "most" cache are created empty and every instance is a
    new object without a [set]. *)
Definition scoreAt (cards : CardsJson) (base : nat) (players : list PlayerInput)
  : list PlayerScoreResult :=
  let prepared := prepareFrom cards base players in
  fst (scorePlayers prepared 0 (zip players prepared) ScoreState.fresh).

(** [score(players)] *)
Definition score (cards : CardsJson) (players : list PlayerInput)
  : list PlayerScoreResult :=
  scoreAt cards 0 players.

(* ------------------------------------------------------------------ *)
(** ** Predicates of the statements *)
(* ------------------------------------------------------------------ *)

(** Every entry of the "most" cache was computed by [getMostWinners], for a
    key with the entry's key string and for the condition it was first asked
    with. *)
Definition cacheComputed (prepared : list PreparedPlayer) (st : ScoreState.t)
  : Prop :=
  ∀ ks e, ScoreState.mostWinnerCache st !! ks = Some e →
    ∃ key cond, mostKeyStr key = ks ∧ e = computeMostWinners prepared key cond.

(** The references of a list of instances. *)
Definition refsOf (l : list CardInstance) : list nat := CardInstance.ref <$> l.

(** All attachments of a forest, tree by tree and side by side. *)
Definition forestAttachments (forest : Forest) : list CardInstance :=
  Forest.trees forest ≫= attachmentsOf.

(** All instances of a forest: every tree's anchor and attachments. *)
Definition forestInstances (forest : Forest) : list CardInstance :=
  Forest.trees forest ≫= (λ tree, Tree.card tree :: attachmentsOf tree).

(** The non-anchor instance [c] is attached in Phase 1. *)
Definition directlyPlaceable (treeCards : list CardInstance) (c : CardInstance) : bool :=
  bool_decide (is_Some (bestOverTrees c treeCards)).

(** [treeCards] and [cardInsts] of [buildForest]. *)
Definition treeCardsOf (boxes : list Box) (cards : CardsJson) : list CardInstance :=
  omap (λ b, parseCardInstance b (defByIdOf cards))
    (List.filter (isTreeBox (treeIdsOf cards)) boxes).

Definition cardInstsOf (boxes : list Box) (cards : CardsJson) : list CardInstance :=
  omap (λ b, parseCardInstance b (defByIdOf cards))
    (List.filter (isOtherBox (treeIdsOf cards)) boxes).

(** The state of [sortCardsInUiOrder] holds boxes of [U] only, each once,
    and [seen] holds the boxes of [sorted]. *)
Definition uiInv (U : list Box) (st : UiOrder.t) : Prop :=
  NoDup (Box.ref <$> UiOrder.sorted st)
  ∧ (∀ b, b ∈ UiOrder.sorted st → b ∈ U)
  ∧ (∀ r, r ∈ UiOrder.seen st ↔ r ∈ Box.ref <$> UiOrder.sorted st).

(** The placement index sends [c] to [tree], on some side. *)
Definition placedIn (tree : Tree) (c : CardInstance) (m : gmap nat Placement) : Prop :=
  ∃ side, m !! CardInstance.ref c = Some (Placement.mk tree side).

(** Stdlib's [map] written as stdpp's [<$>]. *)
Ltac map_to_fmap :=
  repeat match goal with
         | |- context [map ?f ?l] => change (map f l) with (f <$> l)
         end.

(* ------------------------------------------------------------------ *)
(** ** The same objects, allocated elsewhere *)
(* ------------------------------------------------------------------ *)

(** Two invocations of [score] on the same input differ in the references
    of the objects they allocate.  [moveBox δ] is a box allocated [δ] objects
    later; the other functions carry the move through the structures that
    hold boxes or are keyed by them. *)
Definition moveBox (δ : nat) (b : Box) : Box :=
  Box.mk (Box.x1 b) (Box.y1 b) (Box.x2 b) (Box.y2 b) (Box.cx b) (Box.cy b)
    (Box.w b) (Box.h b) (Box.clsName b) (Box.ref b + δ).

Definition moveInst (δ : nat) (c : CardInstance) : CardInstance :=
  CardInstance.mk (moveBox δ (CardInstance.box c)) (CardInstance.id c)
    (CardInstance.treeSymbol c) (CardInstance.definition c).

Definition moveTree (δ : nat) (t : Tree) : Tree :=
  Tree.mk (moveInst δ (Tree.card t)) (moveInst δ <$> Tree.top t)
    (moveInst δ <$> Tree.left t) (moveInst δ <$> Tree.right t)
    (moveInst δ <$> Tree.bottom t).

Definition moveForest (δ : nat) (f : Forest) : Forest :=
  Forest.mk (moveTree δ <$> Forest.trees f).

Definition movePlacement (δ : nat) (p : Placement) : Placement :=
  Placement.mk (moveTree δ (Placement.tree p)) (Placement.side p).

Definition moveCandidate (δ : nat) (pc : PlacementCandidate) : PlacementCandidate :=
  PlacementCandidate.mk (moveInst δ (PlacementCandidate.tree pc))
    (PlacementCandidate.side pc) (PlacementCandidate.dist pc)
    (PlacementCandidate.overlap pc).

Definition moveChain (δ : nat) (st : Chain.t) : Chain.t :=
  Chain.mk (moveBox δ <$> Chain.anchors st) (moveInst δ <$> Chain.attached st)
    (moveInst δ <$> Chain.remaining st).

(** A map keyed by boxes, after the move of its keys. *)
Definition moveKeys {V} (δ : nat) (m : gmap nat V) : gmap nat V :=
  kmap (λ k, k + δ) m.

Definition moveSideMap (δ : nat) (g : gmap nat (list CardInstance))
  : gmap nat (list CardInstance) :=
  moveKeys δ ((λ l : list CardInstance, moveInst δ <$> l) <$> g).

Definition moveSideMaps (δ : nat) (m : SideMaps.t) : SideMaps.t :=
  SideMaps.mk (moveSideMap δ (SideMaps.topByTree m))
    (moveSideMap δ (SideMaps.bottomByTree m))
    (moveSideMap δ (SideMaps.leftByTree m))
    (moveSideMap δ (SideMaps.rightByTree m)).

Definition movePlacements (δ : nat) (m : gmap nat Placement) : gmap nat Placement :=
  moveKeys δ (movePlacement δ <$> m).

Definition moveUi (δ : nat) (st : UiOrder.t) : UiOrder.t :=
  UiOrder.mk (moveBox δ <$> UiOrder.sorted st)
    (set_map (λ k, k + δ) (UiOrder.seen st)).

Definition moveState (δ : nat) (st : ScoreState.t) : ScoreState.t :=
  ScoreState.mk (ScoreState.mostWinnerCache st) (ScoreState.condByKeyStr st)
    (ScoreState.setHeap st) (moveKeys δ (ScoreState.setOf st)).

Definition movePrepared (δ : nat) (p : PreparedPlayer) : PreparedPlayer :=
  PreparedPlayer.mk (moveForest δ <$> PreparedPlayer.forest p)
    (moveInst δ <$> PreparedPlayer.all p).

(** The computation [m'] does on the objects moved by [δ] what [m] does on
    the objects themselves, and returns [f] of its result. *)
Definition movedBy {A B} (δ : nat) (f : A → B) (m' : M B) (m : M A) : Prop :=
  ∀ st, m' (moveState δ st) = prod_map f (moveState δ) (m st).

(** The same with the same result. *)
Definition moved {A} (δ : nat) (m' m : M A) : Prop := movedBy δ id m' m.

(* ------------------------------------------------------------------ *)
(** ** Predicates of the further statements *)
(* ------------------------------------------------------------------ *)

(** The order of the default sort: [x] does not come after [y]. *)
Definition strLe (x y : string) : Prop := String.ltb y x = false.

(** The first test of the filter of [filterCards]:
    [type != null && inst.definition?.joker?.type === type]. *)
Definition jokerOfType (cond : ConditionJson) (inst : CardInstance) : bool :=
  match ConditionJson.type cond with
  | Some ty => strEqOpt ty (jokerType inst)
  | None => false
  end.

(** A [name] or [tags] list that the key of the "most" cache renders as it
    is: absent, or not empty and made of non-empty strings without a comma. *)
Definition plainList (l : option (list string)) : bool :=
  match l with
  | None => true
  | Some l =>
      nonEmpty l
      && forallb (fun s => truthy s && (Js.indexOf ","%char s =? -1)%Z) l
  end.

(** What [countMatches] returns for the pool [matching] when there is no
    table dedup. *)
Definition plainCount (cond : ConditionJson) (matching : list CardInstance) : Z :=
  if ConditionJson.unique cond then uniqueIdCount matching
  else Z.of_nat (length matching).

(** How many times [x] is in [ids]. *)
Definition occurrences (x : string) (ids : list string) : nat :=
  length (List.filter (String.eqb x) ids).

(** What the loop of the table dedup keeps true after the items with the
    ids [ids]: the local array [sets] holds distinct sets of the heap, the
    set at index [j] holds the ids seen more than [j] times, each once, and
    no id was seen more often than there are sets. *)
Definition dedupInv (ids : list string) (sets : list nat)
    (heap : list (list string)) : Prop :=
  NoDup sets
  ∧ (∀ j a, sets !! j = Some a →
       ∃ members, heap !! a = Some members ∧ NoDup members
                  ∧ ∀ y, y ∈ members ↔ j < occurrences y ids)
  ∧ ∀ y, occurrences y ids ≤ length sets.

(** The end of [countMatches], from the pool on: the filter, then the
    table dedup or the plain count. *)
Definition countPool (self : CardInstance) (cond : ConditionJson)
    (pool : list CardInstance) : M Z :=
  let matching := filterCards self pool cond in
  if ConditionJson.unique cond && hasTableScore self then tableDedup self matching
  else ret (plainCount cond matching).

(** The list of the side [side] of the tree stored under [k] in the maps
    of [buildForest]: [map.get(tree.box) ?? []]. *)
Definition sideList (m : SideMaps.t) (side : Side) (k : nat) : list CardInstance :=
  default [] (SideMaps.get side m !! k).

(** The lists of [m'] hold the cards of the lists of [m]. *)
Definition grows (m m' : SideMaps.t) : Prop :=
  ∀ side k x, x ∈ sideList m side k → x ∈ sideList m' side k.

(** What [expandSideChain] keeps true of its arrays: the anchors are the
    tree box and the boxes of the attached cards, [attached] has only grown
    at its end and [remaining] has only lost cards. *)
Definition chainOf (treeBox : Box) (attached0 remaining0 : list CardInstance)
    (st : Chain.t) : Prop :=
  Chain.anchors st = treeBox :: (CardInstance.box <$> Chain.attached st)
  ∧ (∃ added, Chain.attached st = attached0 ++ added)
  ∧ Chain.remaining st `sublist_of` remaining0.

(** The label [clsName] names a tree: the test of the filter that makes
    [treeBoxes]. *)
Definition isTreeLabel (treeIds : list string) (clsName : string) : bool :=
  let colon := Js.indexOf ":"%char clsName in
  (0 <=? colon)%Z && Js.includes treeIds (Js.trim (Js.slice_to colon clsName)).

(** The display order [st'] is [st] with boxes pushed at its end. *)
Definition extends (st st' : UiOrder.t) : Prop :=
  ∃ ext, UiOrder.sorted st' = UiOrder.sorted st ++ ext.

(** The place of a number in the order of the numbers: none for NaN, and
    one place for the two zeros. *)
Definition numKey (f : SpecFloat.spec_float) : option (Z * Z * Z) :=
  match f with
  | SpecFloat.S754_nan => None
  | SpecFloat.S754_zero _ => Some (0, 0, 0)%Z
  | SpecFloat.S754_infinity s => Some (if s then (-2) else 2, 0, 0)%Z
  | SpecFloat.S754_finite s m e =>
      Some (if s then ((-1)%Z, (- e)%Z, Z.neg m) else (1%Z, e, Z.pos m))
  end.

Definition keyCompare (k1 k2 : Z * Z * Z) : comparison :=
  let '(a1, b1, c1) := k1 in
  let '(a2, b2, c2) := k2 in
  match (a1 ?= a2)%Z with
  | Eq => match (b1 ?= b2)%Z with Eq => (c1 ?= c2)%Z | r => r end
  | r => r
  end.

Definition keyOf (x : float) : option (Z * Z * Z) := numKey (FloatOps.Prim2SF x).

(** The candidate of one side of a tree for a card: the turn of the loop
    of [bestPlacementCandidate] for this side when there is no best yet. *)
Definition sideCandidate (card tree : CardInstance) (side : Side)
  : option PlacementCandidate :=
  placementStep card tree None side.

(** [cand] does not beat [best]: it is not nearer, and at the same distance
    it has no larger overlap. *)
Definition notBetter (cand best : PlacementCandidate) : Prop :=
  (PlacementCandidate.dist cand <? PlacementCandidate.dist best)%float = false
  ∧ ((PlacementCandidate.dist cand =? PlacementCandidate.dist best)%float = true →
     (PlacementCandidate.overlap best <? PlacementCandidate.overlap cand)%float = false).

(** The choice among candidates that come one after the other, as both
    loops of Phase 1 make it: an absent candidate is skipped, a candidate
    replaces the best one when [betterCandidate] says so. *)
Definition pickBest (acc : option PlacementCandidate)
    (ocs : list (option PlacementCandidate)) : option PlacementCandidate :=
  foldl (fun best oc =>
           match oc with
           | None => best
           | Some c => betterCandidate best c
           end) acc ocs.

(** No rule of the card data has a condition with [most]. *)
Definition noMost (cards : CardsJson) : bool :=
  forallb
    (fun d =>
       match CardDef.score d with
       | Some rule =>
           match ScoreJson.condition rule with
           | Some cond => negb (ConditionJson.most cond)
           | None => true
           end
       | None => true
       end)
    (CardsJson.cards cards).

(** The rule of the instance has no condition with [most]. *)
Definition quiet (c : CardInstance) : Prop :=
  ∀ d rule cond,
    CardInstance.definition c = Some d → CardDef.score d = Some rule →
    ScoreJson.condition rule = Some cond → ConditionJson.most cond = false.

(** The scoring state [st] is [st'] with the sets [junk] before the sets of
    [st'] in the heap, as far as the instances [R] tell: their sets are the
    same sets, [length junk] places later. *)
Definition simState (R : nat → Prop) (junk : list (list string))
    (st st' : ScoreState.t) : Prop :=
  ScoreState.setHeap st = junk ++ ScoreState.setHeap st'
  ∧ ∀ r, R r →
      ScoreState.setOf st !! r
      = (fun a => length junk + a) <$> (ScoreState.setOf st' !! r).

(** The instances outside [R] have in [st1] the set they have in [st]. *)
Definition sameOutside (R : nat → Prop) (st st1 : ScoreState.t) : Prop :=
  ∀ k, ¬ R k → ScoreState.setOf st1 !! k = ScoreState.setOf st !! k.

(** The objects allocated for a player: [n] boxes from [base] on. *)
Definition inRange (base n : nat) (r : nat) : Prop := base ≤ r < base + n.

(** The box [score] makes of a detected card; the tests of the layout read
    its coordinates and its label only, not which object it is. *)
Definition boxOf (dc : DetectedCard) : Box := toBox 0 dc.

(** The tests of one side in the loop of [bestPlacementCandidate]: the
    distance and the overlap of the candidate of [side], none when a test
    skips the side. *)
Definition sideGap (cb tb : Box) (side : Side) : option (float * float) :=
  let perpOverlap := if isTopOrBottom side then overlapH cb tb else overlapV cb tb in
  let minPerpSize :=
    Js.Math_max ADJACENT_EPSILON
      (if isTopOrBottom side then Js.Math_min (Box.w tb) (Box.w cb)
       else Js.Math_min (Box.h tb) (Box.h cb)) in
  if (perpOverlap <? minPerpSize * MIN_PERP_OVERLAP_RATIO)%float then None else
  let rawDist :=
    match side with
    | Top => (Box.y1 tb - Box.y2 cb)%float
    | Bottom => (Box.y1 cb - Box.y2 tb)%float
    | Left => (Box.x1 tb - Box.x2 cb)%float
    | Right => (Box.x1 cb - Box.x2 tb)%float
    end in
  if (rawDist <? - SIDE_OVERLAP_TOLERANCE)%float then None else
  let dist := Js.Math_max 0%float rawDist in
  let maxGap :=
    (Js.Math_max ADJACENT_EPSILON
       (if isTopOrBottom side then Js.Math_max (Box.h tb) (Box.h cb)
        else Js.Math_max (Box.w tb) (Box.w cb)) * MAX_SIDE_GAP_RATIO)%float in
  if (maxGap <? dist)%float then None else
  let onCorrectSide :=
    match side with
    | Top => (Box.cy cb <=? Box.cy tb)%float
    | Bottom => (Box.cy tb <=? Box.cy cb)%float
    | Left => (Box.cx cb <=? Box.cx tb)%float
    | Right => (Box.cx tb <=? Box.cx cb)%float
    end in
  if negb onCorrectSide then None else Some (dist, perpOverlap).

(** The candidate [gap], if there is one, is strictly farther than [dist]. *)
Definition strictlyFarther (dist : float) (gap : option (float * float)) : bool :=
  match gap with
  | None => true
  | Some (d, _) => (dist <? d)%float
  end.

(** The card [cb] is directly adjacent to the right of the tree [tb], and
    strictly nearer to this side than to any other side of [tb] and to any
    side of the tree [other]. *)
Definition nearestOnRight (cb tb other : Box) : bool :=
  match sideGap cb tb Right with
  | None => false
  | Some (d, _) =>
      forallb (fun side => strictlyFarther d (sideGap cb tb side)) [Top; Left; Bottom]
      && forallb (fun side => strictlyFarther d (sideGap cb other side))
           [Top; Left; Right; Bottom]
  end.

(** [thresh] of [sortTreesVisually] for trees of the heights [heights]:
    half their average, and [ADJACENT_EPSILON] at least. *)
Definition rowThreshold (heights : list float) : float :=
  Js.Math_max
    ((foldl (fun s h => s + h) 0 heights / Js.num_of_nat (length heights)) / 2)%float
    ADJACENT_EPSILON.

(** The trees [a] and [b] stand in one row, [a] to the left of [b], as the
    comparator of [sortTreesVisually] sees them, whichever of the two is
    listed first. *)
Definition leftToRight (a b : Box) : bool :=
  forallb
    (fun thresh =>
       (Js.Math_abs (Box.y1 a - Box.y1 b) <? thresh)%float
       && (Js.Math_abs (Box.y1 b - Box.y1 a) <? thresh)%float
       && (Box.x1 a - Box.x1 b <? 0)%float
       && negb (Box.x1 b - Box.x1 a <? 0)%float)
    [rowThreshold [Box.h a; Box.h b]; rowThreshold [Box.h b; Box.h a]].

(** The label has a colon and names no tree of the card data: the card is
    parsed, as one of [cardInsts]. *)
Definition isCardLabel (treeIds : list string) (clsName : string) : bool :=
  (0 <=? Js.indexOf ":"%char clsName)%Z && negb (isTreeLabel treeIds clsName).

(** What the statement on group labels reads of an entry. *)
Definition labelAndGroup (d : CardScoreDetail) : string * option string :=
  (CardScoreDetail.cardId d, CardScoreDetail.group d).

(** A box without its identity: the coordinates and the label. *)
Definition unref (b : Box) : Box :=
  Box.mk (Box.x1 b) (Box.y1 b) (Box.x2 b) (Box.y2 b) (Box.cx b) (Box.cy b)
    (Box.w b) (Box.h b) (Box.clsName b) 0.

(* ------------------------------------------------------------------ *)
(** ** Scenarios *)
(* ------------------------------------------------------------------ *)

Module Scenario.

(** The helper of the test suite that makes a detected card of a fixture box. *)
Definition boxToCard (x1 y1 x2 y2 : float) (clsName : string) : DetectedCard :=
  let w := (x2 - x1)%float in
  let h := (y2 - y1)%float in
  DetectedCard.mk clsName 1.0%float x1 y1 x2 y2
    (x1 + w / 2)%float (y1 + h / 2)%float w h.

Definition noCondition : ConditionJson :=
  ConditionJson.mk None None None false false false false false false None.

(** Card data in the shape of cards.json: two trees, the first with a fixed
    rule on at least 8 unique trees, and an animal. *)
Definition oakDef : CardDef :=
  CardDef.mk "oak" ["Tree"] None
    (Some (ScoreJson.mk "fixed" (Some (AmountNum 10)) (Some 8%Z)
       (Some (ConditionJson.mk None (Some ["Tree"]) None true false false false false false None))))
    None.
Definition birchDef : CardDef := CardDef.mk "birch" ["Tree"] None None None.
Definition wolfDef : CardDef :=
  CardDef.mk "wolf" ["Animal"] None
    (Some (ScoreJson.mk "multiplication" (Some (AmountNum 5)) None
       (Some (ConditionJson.mk (Some ["wolf"]) None None false false false false false false None))))
    None.
Definition cards : CardsJson := CardsJson.mk [oakDef; birchDef; wolfDef].

(** Scenario A: one isolated card whose entity id is not in the card data. *)
Definition isolated : PlayerInput :=
  PlayerInput.mk "Alice" [boxToCard 0.1 0.4 0.2 0.6 "fox:oak"].

(** Scenario B: two trees left to right, each with an animal to its right. *)
Definition twoTrees : list DetectedCard :=
  [ boxToCard 0.1 0.4 0.3 0.7 "oak:oak";
    boxToCard 0.31 0.4 0.5 0.7 "wolf:oak";
    boxToCard 0.6 0.4 0.8 0.7 "birch:birch";
    boxToCard 0.81 0.4 0.99 0.7 "wolf:birch" ].
Definition alice : PlayerInput := PlayerInput.mk "Alice" twoTrees.

Definition instanceOf (ref : nat) (dc : DetectedCard) (id sym : string)
    (def : option CardDef) : CardInstance :=
  CardInstance.mk (toBox ref dc) id sym def.

Definition oakB : CardInstance :=
  instanceOf 0 (boxToCard 0.1 0.4 0.3 0.7 "oak:oak") "oak" "oak" (Some oakDef).
Definition wolfOakB : CardInstance :=
  instanceOf 1 (boxToCard 0.31 0.4 0.5 0.7 "wolf:oak") "wolf" "oak" (Some wolfDef).
Definition birchB : CardInstance :=
  instanceOf 2 (boxToCard 0.6 0.4 0.8 0.7 "birch:birch") "birch" "birch" (Some birchDef).
Definition wolfBirchB : CardInstance :=
  instanceOf 3 (boxToCard 0.81 0.4 0.99 0.7 "wolf:birch") "wolf" "birch" (Some wolfDef).
Definition tree1 : Tree := Tree.mk oakB [] [] [wolfOakB] [].
Definition tree2 : Tree := Tree.mk birchB [] [] [wolfBirchB] [].

(** Scenario C: a lone tree whose fixed rule needs 8 unique trees. *)
Definition loneOak : PlayerInput :=
  PlayerInput.mk "Alice" [boxToCard 0.1 0.4 0.2 0.6 "oak:oak"].
Definition oakC : CardInstance :=
  instanceOf 0 (boxToCard 0.1 0.4 0.2 0.6 "oak:oak") "oak" "oak" (Some oakDef).
Definition forestC : Forest := Forest.mk [Tree.mk oakC [] [] [] []].

(** Card data with a rule gated by [fullTree] and [most], and a joker. *)
Definition gatedCondition : ConditionJson :=
  ConditionJson.mk None None None false false false true true false None.
Definition birdCondition : ConditionJson :=
  ConditionJson.mk None None (Some "Bird") false false false false true false None.
Definition foxDef : CardDef :=
  CardDef.mk "fox" ["Animal"] None
    (Some (ScoreJson.mk "fixed" (Some (AmountNum 5)) None (Some gatedCondition))) None.
Definition hareDef : CardDef := CardDef.mk "hare" ["Animal"] None None None.
Definition owlDef : CardDef :=
  CardDef.mk "owl" ["Animal"] (Some "Bird")
    (Some (ScoreJson.mk "multiplication" (Some (AmountNum 2)) None (Some birdCondition)))
    None.
Definition chameleonDef : CardDef :=
  CardDef.mk "chameleon" ["Animal"] (Some "Reptile") None (Some (JokerJson.mk "Bird")).
Definition gatedCards : CardsJson :=
  CardsJson.mk [oakDef; foxDef; hareDef; owlDef; chameleonDef].

(** A tree with a card on each of its four sides, the fox on top. *)
Definition fullTreeCards : list DetectedCard :=
  [ boxToCard 0.4 0.4 0.6 0.6 "oak:oak";
    boxToCard 0.4 0.19 0.6 0.39 "fox:oak";
    boxToCard 0.19 0.4 0.39 0.6 "hare:oak";
    boxToCard 0.61 0.4 0.81 0.6 "hare:oak";
    boxToCard 0.4 0.61 0.6 0.81 "hare:oak" ].
(** The same with one more card, chained to the right. *)
Definition largerTreeCards : list DetectedCard :=
  fullTreeCards ++ [boxToCard 0.82 0.4 1.02 0.6 "hare:oak"].
Definition bob : PlayerInput := PlayerInput.mk "Bob" fullTreeCards.
Definition carol : PlayerInput := PlayerInput.mk "Carol" largerTreeCards.

Definition foxBob : CardInstance :=
  instanceOf 1 (boxToCard 0.4 0.19 0.6 0.39 "fox:oak") "fox" "oak" (Some foxDef).
Definition foxCarol : CardInstance :=
  instanceOf 6 (boxToCard 0.4 0.19 0.6 0.39 "fox:oak") "fox" "oak" (Some foxDef).
Definition forestBob : Forest := buildForest (toBoxes 0 fullTreeCards) gatedCards.
Definition forestCarol : Forest := buildForest (toBoxes 5 largerTreeCards) gatedCards.
Definition treeBob : Tree :=
  default (Tree.mk foxBob [] [] [] []) (head (Forest.trees forestBob)).
Definition treeCarol : Tree :=
  default (Tree.mk foxCarol [] [] [] []) (head (Forest.trees forestCarol)).
Definition preparedGated : list PreparedPlayer := prepareFrom gatedCards 0 [bob; carol].

(** A tree with an owl and a joker that counts as a bird. *)
Definition birdCards : list DetectedCard :=
  [ boxToCard 0.4 0.4 0.6 0.6 "oak:oak";
    boxToCard 0.19 0.4 0.39 0.6 "owl:oak";
    boxToCard 0.61 0.4 0.81 0.6 "chameleon:oak" ].
Definition owlInst : CardInstance :=
  instanceOf 1 (boxToCard 0.19 0.4 0.39 0.6 "owl:oak") "owl" "oak" (Some owlDef).
Definition birdPool : list CardInstance :=
  allCardInstances (buildForest (toBoxes 0 birdCards) gatedCards).

(** What [score] returns for [alice]. *)
Definition aliceResult : PlayerScoreResult :=
  PlayerScoreResult.mk "Alice" 20
    [ CardScoreDetail.mk "oak:oak" 0
        "0 Punkte (Bedingung nicht erfüllt: 2 Treffer, mind. 8 Tree (einzigartig))"
        (Some "oak") (Some "Baum 1");
      CardScoreDetail.mk "wolf:oak" 10 "5 Punkte pro wolf · 2" (Some "wolf") (Some "Baum 1");
      CardScoreDetail.mk "birch:birch" 0 "kein Effekt" (Some "birch") (Some "Baum 2");
      CardScoreDetail.mk "wolf:birch" 10 "5 Punkte pro wolf · 2" (Some "wolf")
        (Some "Baum 2") ].
Definition forestB : Forest := Forest.mk [tree1; tree2].
Definition instByBoxB : gmap nat CardInstance :=
  foldl (λ m c, <[Box.ref (CardInstance.box c) := c]> m) ∅
    [oakB; wolfOakB; birchB; wolfBirchB].
Definition oakRule : ScoreJson :=
  ScoreJson.mk "fixed" (Some (AmountNum 10)) (Some 8%Z)
    (Some (ConditionJson.mk None (Some ["Tree"]) None true false false false false false None)).

End Scenario.

(** More data for the examples of the properties. *)
Module Sample.

(** The condition of the wolf: cards named wolf. *)
Definition wolfCondition : ConditionJson :=
  ConditionJson.mk (Some ["wolf"]) None None false false false false false false None.
Definition wolfRule : ScoreJson :=
  ScoreJson.mk "multiplication" (Some (AmountNum 5)) None (Some wolfCondition).

(** The same for the cards of the same tree only. *)
Definition wolfTreeCondition : ConditionJson :=
  ConditionJson.mk (Some ["wolf"]) None None false true false false false false None.

(** The instances of [Scenario.twoTrees]. *)
Definition poolB : list CardInstance :=
  [Scenario.oakB; Scenario.wolfOakB; Scenario.birchB; Scenario.wolfBirchB].
Definition boxesB : list Box := toBoxes 0 Scenario.twoTrees.

(** Two conditions with the same names in another order, one of them with
    an empty string and an empty list of tags. *)
Definition wolfAndFox : ConditionJson :=
  ConditionJson.mk (Some ["wolf"; "fox"]) None None false false false false true false None.
Definition foxAndWolf : ConditionJson :=
  ConditionJson.mk (Some ["fox"; ""; "wolf"]) (Some []) (Some "Bird") false false false
    true true false None.

(** A player with two animals and no tree. *)
Definition noTree : PlayerInput :=
  PlayerInput.mk "Dora"
    [ Scenario.boxToCard 0.1 0.4 0.3 0.7 "wolf:oak";
      Scenario.boxToCard 0.31 0.4 0.5 0.7 "wolf:birch" ].

(** The candidate of the wolf beside the oak of [Scenario.twoTrees]. *)
Definition noCandidate : PlacementCandidate :=
  PlacementCandidate.mk Scenario.oakB Top 0%float 0%float.
Definition wolfAtOak : PlacementCandidate :=
  default noCandidate (bestPlacementCandidate Scenario.wolfOakB Scenario.oakB).

Definition preparedB : PreparedPlayer := preparePlayer Scenario.cards 0 Scenario.alice.
Definition builtB : Forest := buildForest boxesB Scenario.cards.
Definition firstEntryB : CardScoreDetail :=
  CardScoreDetail.mk "oak:oak" 0
    "0 Punkte (Bedingung nicht erfüllt: 2 Treffer, mind. 8 Tree (einzigartig))"
    (Some "oak") (Some "Baum 1").

End Sample.

(** The four cards of [Scenario.twoTrees], and a tighter row in which the
    card to the right of the oak is nearer still to the left of the birch. *)
Module Row.

Definition oak : DetectedCard := Scenario.boxToCard 0.1 0.4 0.3 0.7 "oak:oak".
Definition wolfAtOak : DetectedCard := Scenario.boxToCard 0.31 0.4 0.5 0.7 "wolf:oak".
Definition birch : DetectedCard := Scenario.boxToCard 0.6 0.4 0.8 0.7 "birch:birch".
Definition wolfAtBirch : DetectedCard := Scenario.boxToCard 0.81 0.4 0.99 0.7 "wolf:birch".

Definition tightWolf : DetectedCard := Scenario.boxToCard 0.32 0.4 0.5 0.7 "wolf:oak".
Definition tightBirch : DetectedCard := Scenario.boxToCard 0.505 0.4 0.7 0.7 "birch:birch".
Definition tightWolfAtBirch : DetectedCard :=
  Scenario.boxToCard 0.71 0.4 0.9 0.7 "wolf:birch".
Definition erin : PlayerInput :=
  PlayerInput.mk "Erin" [oak; tightWolf; tightBirch; tightWolfAtBirch].

End Row.

(** Two rules gated by [most] whose conditions differ in the type only. *)
Module Typed.

Definition catCondition : ConditionJson :=
  ConditionJson.mk None None (Some "Cat") false false false false true false None.
Definition lynxDef : CardDef :=
  CardDef.mk "lynx" ["Animal"] (Some "Cat")
    (Some (ScoreJson.mk "fixed" (Some (AmountNum 3)) None (Some catCondition))) None.
Definition cards : CardsJson :=
  CardsJson.mk [Scenario.birchDef; lynxDef; Scenario.owlDef].

(** Alice has a lynx and one owl, Bob has two owls. *)
Definition alice : PlayerInput :=
  PlayerInput.mk "Alice"
    [ Scenario.boxToCard 0.4 0.4 0.6 0.6 "birch:birch";
      Scenario.boxToCard 0.19 0.4 0.39 0.6 "lynx:birch";
      Scenario.boxToCard 0.61 0.4 0.81 0.6 "owl:birch" ].
Definition bob : PlayerInput :=
  PlayerInput.mk "Bob"
    [ Scenario.boxToCard 0.4 0.4 0.6 0.6 "birch:birch";
      Scenario.boxToCard 0.19 0.4 0.39 0.6 "owl:birch";
      Scenario.boxToCard 0.61 0.4 0.81 0.6 "owl:birch" ].

Definition lynxAlice : CardInstance :=
  Scenario.instanceOf 1 (Scenario.boxToCard 0.19 0.4 0.39 0.6 "lynx:birch")
    "lynx" "birch" (Some lynxDef).
Definition owlAlice : CardInstance :=
  Scenario.instanceOf 2 (Scenario.boxToCard 0.61 0.4 0.81 0.6 "owl:birch")
    "owl" "birch" (Some Scenario.owlDef).

(** What [score] returns for the two. *)
Definition aliceResult : PlayerScoreResult :=
  PlayerScoreResult.mk "Alice" 5
    [ CardScoreDetail.mk "birch:birch" 0 "kein Effekt" (Some "birch") (Some "Baum 1");
      CardScoreDetail.mk "lynx:birch" 3
        "3 feste Punkte (1 Treffer, mind. 1 Karten (meiste))" (Some "lynx")
        (Some "Baum 1");
      CardScoreDetail.mk "owl:birch" 2 "2 Punkte pro Karten · 1 (meiste)" (Some "owl")
        (Some "Baum 1") ].
Definition bobResult : PlayerScoreResult :=
  PlayerScoreResult.mk "Bob" 0
    [ CardScoreDetail.mk "birch:birch" 0 "kein Effekt" (Some "birch") (Some "Baum 1");
      CardScoreDetail.mk "owl:birch" 0 "2 Punkte pro Karten · 0 (meiste)" (Some "owl")
        (Some "Baum 1");
      CardScoreDetail.mk "owl:birch" 0 "2 Punkte pro Karten · 0 (meiste)" (Some "owl")
        (Some "Baum 1") ].

End Typed.

(* ------------------------------------------------------------------ *)
(** * Properties *)
(* ------------------------------------------------------------------ *)
(* PROOFS *)

(** ** Results per player *)

Lemma prepareFrom_length cards base players :
  length (prepareFrom cards base players) = length players.
Proof.
  revert base. induction players as [|p ps IH]; intros base; simpl; [done|].
  by rewrite IH.
Qed.

Lemma scorePlayer_name prepared name i p st :
  PlayerScoreResult.name (fst (scorePlayer prepared name i p st)) = name.
Proof.
  unfold scorePlayer.
  destruct (PreparedPlayer.forest p) as [forest|]; [|done].
  destruct (PreparedPlayer.all p) as [|c all]; [done|].
  unfold bind. destruct (forM _ _ st) as [results st']. done.
Qed.

Lemma scorePlayers_names prepared rest : ∀ i st,
  map PlayerScoreResult.name (fst (scorePlayers prepared i rest st))
  = map (λ pp, PlayerInput.name (fst pp)) rest.
Proof.
  induction rest as [|[player p] rest IH]; intros i st; simpl; [done|].
  unfold bind.
  pose proof (scorePlayer_name prepared (PlayerInput.name player) i p st) as Hn.
  destruct (scorePlayer _ _ i p st) as [r st1]. simpl in Hn.
  specialize (IH (S i) st1).
  destruct (scorePlayers prepared (S i) rest st1) as [rs st2]. simpl in *.
  by rewrite Hn, IH.
Qed.

Lemma scorePlayers_empty prepared rest : ∀ k i st player p,
  rest !! i = Some (player, p) →
  PreparedPlayer.forest p = None →
  fst (scorePlayers prepared k rest st) !! i
  = Some (PlayerScoreResult.mk (PlayerInput.name player) 0 []).
Proof.
  induction rest as [|[player0 p0] rest IH]; intros k i st player p Hi Hf; [done|].
  simpl. unfold bind.
  destruct i as [|i]; simpl in Hi.
  - injection Hi as -> ->.
    unfold scorePlayer at 1. rewrite Hf. unfold ret.
    by destruct (scorePlayers prepared (S k) rest st).
  - destruct (scorePlayer _ _ k p0 st) as [r st1].
    specialize (IH (S k) i st1 player p Hi Hf).
    by destruct (scorePlayers prepared (S k) rest st1).
Qed.

Lemma prepareFrom_lookup_empty cards players : ∀ base i p,
  players !! i = Some p →
  PlayerInput.cards p = [] →
  prepareFrom cards base players !! i = Some (PreparedPlayer.mk None []).
Proof.
  induction players as [|p0 ps IH]; intros base i p Hi Hc; [done|].
  destruct i as [|i]; simpl in *.
  - injection Hi as ->. unfold preparePlayer. by rewrite Hc.
  - eauto.
Qed.

(** C10: [score] returns one result per player, in the order of the input
    and under the input's names; a player without cards gets the total 0
    and no card details. *)
Theorem score_one_result_per_player cards players :
  map PlayerScoreResult.name (score cards players) = map PlayerInput.name players
  ∧ ∀ i p, players !! i = Some p → PlayerInput.cards p = [] →
      score cards players !! i = Some (PlayerScoreResult.mk (PlayerInput.name p) 0 []).
Proof.
  unfold score, scoreAt. split.
  - rewrite scorePlayers_names.
    rewrite <- (map_map fst PlayerInput.name).
    f_equal. apply (fst_zip players). rewrite prepareFrom_length. lia.
  - intros i p Hi Hc.
    eapply scorePlayers_empty with (p := PreparedPlayer.mk None []); [|done].
    apply lookup_zip_with_Some. eexists _, _. split; [done|].
    split; [done|]. by eapply prepareFrom_lookup_empty.
Qed.

(** ** Score rules *)

Lemma scoreTableIndex_lookup (table : list Z) (count : Z) :
  table ≠ [] →
  table !! Z.to_nat (Z.max 0 (Z.min (Z.of_nat (length table) - 1) (count - 1)))
  = Some (scoreTableIndex table count).
Proof.
  intros Hne. unfold scoreTableIndex.
  destruct table as [|x table]; [done|].
  set (idx := Z.to_nat _).
  assert (idx < length (x :: table)) as Hlt by (subst idx; simpl; lia).
  apply lookup_lt_is_Some in Hlt as [y Hy]. by rewrite Hy.
Qed.

Lemma scoreInstance_table instance d rule cond all pl am res st :
  CardInstance.definition instance = Some d →
  CardDef.score d = Some rule →
  Js.toLowerCase (ScoreJson.type rule) = "table"%string →
  ScoreJson.condition rule = Some cond →
  fst (fst (scoreInstanceWithReason instance all pl am res st))
  = scoreTableIndex (tableAmount rule) (fst (countMatches instance cond all pl am res st)).
Proof.
  intros Hd Hs Ht Hc. unfold scoreInstanceWithReason.
  rewrite Hd. simpl. rewrite Hs, Ht, Hc. simpl.
  unfold bind. by destruct (countMatches _ _ _ _ _ _ st).
Qed.

(** C6: for a table that is not empty, the points of a table rule are the
    entry at index clamp(count - 1, 0, length - 1): the last entry for
    every count from the table's length on, the first entry for a count of
    0 (or below); [scoreInstanceWithReason] awards exactly these points for
    a table rule with a condition. *)
Theorem table_score_clamped (table : list Z) (count : Z) :
  table ≠ [] →
  let idx := Z.max 0 (Z.min (Z.of_nat (length table) - 1) (count - 1)) in
  table !! Z.to_nat idx = Some (scoreTableIndex table count)
  ∧ (Z.of_nat (length table) ≤ count → Some (scoreTableIndex table count) = last table)%Z
  ∧ (count ≤ 0 → Some (scoreTableIndex table count) = head table)%Z
  ∧ ∀ instance d rule cond all pl am res st,
      CardInstance.definition instance = Some d →
      CardDef.score d = Some rule →
      Js.toLowerCase (ScoreJson.type rule) = "table"%string →
      ScoreJson.amount rule = Some (AmountArr table) →
      ScoreJson.condition rule = Some cond →
      fst (fst (scoreInstanceWithReason instance all pl am res st))
      = scoreTableIndex table (fst (countMatches instance cond all pl am res st)).
Proof.
  intros Hne idx. pose proof (scoreTableIndex_lookup table count Hne) as Hl.
  fold idx in Hl. split; [done|]. split; [|split].
  - intros Hge. rewrite <- Hl, last_lookup. f_equal. subst idx.
    destruct table; [done|]. simpl length in *. lia.
  - intros Hle. rewrite <- Hl, head_lookup. f_equal. subst idx. lia.
  - intros instance d rule cond all pl am res st Hd Hs Ht Ha Hc.
    rewrite (scoreInstance_table _ d rule cond) by done.
    unfold tableAmount. by rewrite Ha.
Qed.

(** C5: for a fixed rule of amount [a]: without a condition the points are
    [a]; with a condition they are [a] when the match count reaches [min]
    (1 when [min] is absent) and 0 otherwise, with an explanation that says
    the condition is not met; so for [min] = 8 and one match: 0 points. *)
Theorem fixed_rule_points instance d rule a all pl am res st :
  CardInstance.definition instance = Some d →
  CardDef.score d = Some rule →
  Js.toLowerCase (ScoreJson.type rule) = "fixed"%string →
  ScoreJson.amount rule = Some (AmountNum a) →
  let result := fst (scoreInstanceWithReason instance all pl am res st) in
  match ScoreJson.condition rule with
  | None => fst result = a
  | Some cond =>
      let matches := fst (countMatches instance cond all pl am res st) in
      ((default 1 (ScoreJson.min rule) ≤ matches)%Z → fst result = a)
      ∧ ((matches < default 1 (ScoreJson.min rule))%Z →
         fst result = 0%Z ∧
         ∃ rest, snd result = "0 Punkte (Bedingung nicht erfüllt: " +:+ rest)
      ∧ (ScoreJson.min rule = Some 8%Z → matches = 1%Z →
         fst result = 0%Z ∧
         ∃ rest,
           snd result
           = "0 Punkte (Bedingung nicht erfüllt: 1 Treffer, mind. 8 " +:+ rest)
  end.
Proof.
  intros Hd Hs Ht Ha result. subst result. unfold scoreInstanceWithReason.
  rewrite Hd. simpl. rewrite Hs, Ht. simpl.
  unfold scalarAmount. rewrite Ha.
  destruct (ScoreJson.condition rule) as [cond|]; [|done].
  unfold bind. destruct (countMatches _ _ _ _ _ _ st) as [matches st']. simpl.
  split; [|split].
  - intros Hge. destruct (ScoreJson.min rule) as [mn|]; simpl in *.
    + by rewrite (proj2 (Z.leb_le _ _) Hge).
    + assert ((0 <? matches)%Z = true) as -> by lia. done.
  - intros Hlt. destruct (ScoreJson.min rule) as [mn|]; simpl in *.
    + assert ((mn <=? matches)%Z = false) as -> by lia.
      split; [reflexivity | eexists; reflexivity].
    + assert ((0 <? matches)%Z = false) as -> by lia.
      split; [reflexivity | eexists; reflexivity].
  - intros -> ->. split; [reflexivity | eexists; reflexivity].
Qed.

Lemma isFullTree_spec tree :
  isFullTree tree = true ↔
  Tree.top tree ≠ [] ∧ Tree.bottom tree ≠ [] ∧ Tree.left tree ≠ [] ∧ Tree.right tree ≠ [].
Proof.
  unfold isFullTree.
  destruct (Tree.top tree), (Tree.left tree), (Tree.bottom tree), (Tree.right tree);
    simpl; split; try done; intros (? & ? & ? & ?); done.
Qed.


(** ** Cross-player winners *)

Lemma foldl_max_spec (l : list Z) : ∀ a : Z,
  (a ≤ foldl Z.max a l)%Z
  ∧ (∀ c, c ∈ l → (c ≤ foldl Z.max a l)%Z)
  ∧ (foldl Z.max a l = a ∨ foldl Z.max a l ∈ l).
Proof.
  induction l as [|x l IH]; intros a; simpl.
  - split; [lia|]. split; [|by left]. intros c Hc. by apply elem_of_nil in Hc.
  - destruct (IH (Z.max a x)) as (Hge & Hall & Hatt). split; [lia|]. split.
    + intros c [->|Hc]%elem_of_cons; [lia|auto].
    + destruct Hatt as [Heq|Hin].
      * rewrite Heq. destruct (Z.max_spec a x) as [[_ ->]|[_ ->]].
        -- right. apply elem_of_cons. by left.
        -- by left.
      * right. apply elem_of_cons. by right.
Qed.

Lemma maxCount_nonneg counts : (0 ≤ maxCount counts)%Z.
Proof. exact (proj1 (foldl_max_spec counts 0)). Qed.

Lemma maxCount_upper counts c : c ∈ counts → (c ≤ maxCount counts)%Z.
Proof. exact (proj1 (proj2 (foldl_max_spec counts 0)) c). Qed.

Lemma winnersOf_max counts : MostEntry.max (winnersOf counts) = maxCount counts.
Proof. done. Qed.

Lemma winnersOf_elem counts (i : nat) :
  Z.of_nat i ∈ MostEntry.winners (winnersOf counts)
  ↔ (0 < maxCount counts)%Z ∧ counts !! i = Some (maxCount counts).
Proof.
  unfold winnersOf. simpl. destruct (Z.leb_spec (maxCount counts) 0) as [Hle|Hlt].
  - split; [by intros ?%elem_of_nil | lia].
  - rewrite list_elem_of_In, filter_In, <- list_elem_of_In, elem_of_lookup_imap.
    split.
    + intros [(j & c & Heq & Hj) _]. split; [done|].
      destruct (Z.eqb_spec c (maxCount counts)) as [Hc|Hc]; [|lia].
      assert (i = j) as -> by lia. by rewrite Hj, Hc.
    + intros [_ Hi]. split; [|apply Z.leb_le; lia]. exists i, (maxCount counts).
      by rewrite Z.eqb_refl.
Qed.

Lemma winnersOf_none counts :
  maxCount counts = 0%Z → MostEntry.winners (winnersOf counts) = [].
Proof. intros H. unfold winnersOf. simpl. by rewrite H. Qed.

Lemma cacheComputed_fresh prepared : cacheComputed prepared ScoreState.fresh.
Proof. intros ks e H. simpl in H. by rewrite lookup_empty in H. Qed.

Lemma getMostWinners_computed prepared key cond st :
  cacheComputed prepared st →
  (∃ key0 cond0,
     mostKeyStr key0 = mostKeyStr key
     ∧ (ScoreState.mostWinnerCache st !! mostKeyStr key = None → key0 = key ∧ cond0 = cond)
     ∧ fst (getMostWinners prepared key cond st) = computeMostWinners prepared key0 cond0)
  ∧ cacheComputed prepared (snd (getMostWinners prepared key cond st)).
Proof.
  intros Hc. unfold getMostWinners.
  destruct (ScoreState.mostWinnerCache st !! mostKeyStr key) as [e|] eqn:Hl; simpl.
  - split; [|done]. destruct (Hc _ _ Hl) as (key0 & cond0 & Hk & He).
    exists key0, cond0. by rewrite He.
  - split; [by exists key, cond|].
    intros ks e. simpl. rewrite lookup_insert.
    case_decide as Hks; [|by apply Hc].
    intros [= <-]. by exists key, cond.
Qed.

Lemma existsb_eqb_elem (x : Z) (l : list Z) : existsb (Z.eqb x) l = true ↔ x ∈ l.
Proof.
  rewrite existsb_exists, list_elem_of_In. split.
  - intros (y & Hy & ->%Z.eqb_eq). done.
  - intros Hx. exists x. by rewrite Z.eqb_refl.
Qed.

Lemma countMatches_not_winner prepared i self cond all pl am st :
  ConditionJson.most cond = true →
  Z.of_nat i ∉ MostEntry.winners
                 (fst (getMostWinners prepared (makeMostKey self cond) cond st)) →
  fst (countMatches self cond all pl am (Some (mostResolverOf prepared i)) st) = 0%Z.
Proof.
  intros Hm Hw. unfold countMatches, mostGate, mostResolverOf, bind. rewrite Hm. simpl.
  destruct (getMostWinners _ _ _ st) as [e st']. simpl in *.
  destruct (existsb _ _) eqn:He; [|done].
  by apply existsb_eqb_elem in He.
Qed.

(** ** The forest builder *)

(** Stdlib's [map] and [List.filter] against stdpp's relations *)
Lemma map_fmap {A B} (f : A → B) (l : list A) : map f l = f <$> l.
Proof. done. Qed.


Lemma filter_sublist {A} (f : A → bool) (l : list A) : List.filter f l `sublist_of` l.
Proof.
  induction l as [|x l IH]; simpl; [done|].
  destruct (f x); by constructor.
Qed.

Lemma elem_of_List_filter {A} (f : A → bool) (l : list A) x :
  x ∈ List.filter f l ↔ x ∈ l ∧ f x = true.
Proof. by rewrite !list_elem_of_In, filter_In. Qed.

Lemma filter_split_submseteq {A} (f g : A → bool) (l : list A) :
  (∀ x, x ∈ l → g x = true → f x = false) →
  List.filter f l ++ List.filter g l ⊆+ l.
Proof.
  induction l as [|x l IH]; intros Hfg; simpl; [done|].
  assert (List.filter f l ++ List.filter g l ⊆+ l) as IH'.
  { apply IH. intros y Hy. apply Hfg. by right. }
  destruct (g x) eqn:Hg.
  - rewrite (Hfg x) by (done || by left).
    rewrite <- Permutation_middle. by constructor.
  - destruct (f x); simpl; by constructor.
Qed.

Lemma submseteq_NoDup {A} (l k : list A) : l ⊆+ k → NoDup k → NoDup l.
Proof.
  intros [k' Hk]%submseteq_Permutation Hnd. rewrite Hk in Hnd.
  by apply NoDup_app in Hnd as [? _].
Qed.

Lemma omap_sublist_fmap {A B} (f : A → option B) (g : B → A) (l : list A) :
  (∀ x y, f x = Some y → g y = x) → g <$> omap f l `sublist_of` l.
Proof.
  intros Hfg. induction l as [|x l IH]; simpl; [done|].
  destruct (f x) as [y|] eqn:Hy; simpl.
  - rewrite (Hfg _ _ Hy). by constructor.
  - by constructor.
Qed.

Lemma parseCardInstance_box box defById c :
  parseCardInstance box defById = Some c → CardInstance.box c = box.
Proof.
  unfold parseCardInstance. destruct (_ <? _)%Z; [done|]. by intros [= <-].
Qed.

Lemma isOtherBox_negb treeIds b : isOtherBox treeIds b = negb (isTreeBox treeIds b).
Proof.
  unfold isOtherBox, isTreeBox.
  generalize (Js.indexOf ":"%char (Box.clsName b)). intros colon.
  destruct (Z.ltb_spec colon 0), (Z.leb_spec 0 colon); (done || lia).
Qed.

(** The instances parsed from a list of boxes. *)
Lemma parsed_refs_sublist defById (boxes : list Box) :
  refsOf (omap (λ b, parseCardInstance b defById) boxes) `sublist_of` (Box.ref <$> boxes).
Proof.
  unfold refsOf.
  assert (CardInstance.ref = Box.ref ∘ CardInstance.box) as -> by done.
  rewrite list_fmap_compose. apply fmap_sublist.
  apply omap_sublist_fmap. intros ??. apply parseCardInstance_box.
Qed.

Lemma tree_and_other_refs defById treeIds (boxes : list Box) :
  NoDup (Box.ref <$> boxes) →
  NoDup (refsOf (omap (λ b, parseCardInstance b defById) (List.filter (isTreeBox treeIds) boxes)
                 ++ omap (λ b, parseCardInstance b defById) (List.filter (isOtherBox treeIds) boxes))).
Proof.
  intros Hnd. unfold refsOf. rewrite fmap_app.
  eapply submseteq_NoDup; [|exact Hnd].
  etrans.
  - apply submseteq_app; apply sublist_submseteq, parsed_refs_sublist.
  - rewrite <- fmap_app. apply fmap_submseteq.
    apply filter_split_submseteq. intros x _. rewrite isOtherBox_negb.
    by destruct (isTreeBox treeIds x).
Qed.

(** *** The four maps of side lists *)

Lemma SideMaps_get_set side g m : SideMaps.get side (SideMaps.set side g m) = g.
Proof. by destruct side. Qed.

Lemma mapValues_delete g k :
  mapValues g ≡ₚ default [] (g !! k) ++ mapValues (delete k g).
Proof.
  unfold mapValues. destruct (g !! k) as [l|] eqn:Hl; simpl.
  - by rewrite <- (map_to_list_delete g k l Hl).
  - by rewrite delete_id.
Qed.

Lemma mapValues_insert g k v :
  mapValues (<[k := v]> g) ≡ₚ v ++ mapValues (delete k g).
Proof.
  unfold mapValues. rewrite <- insert_delete_eq.
  by rewrite map_to_list_insert by apply lookup_delete_eq.
Qed.

Lemma directlyPlaced_store tree side v m :
  default [] (SideMaps.get side m !! Box.ref (CardInstance.box tree))
  ++ directlyPlacedOf (storeSideList tree side v m)
  ≡ₚ v ++ directlyPlacedOf m.
Proof.
  unfold directlyPlacedOf, storeSideList.
  set (k := Box.ref (CardInstance.box tree)).
  destruct side; simpl;
    [ rewrite (mapValues_delete (SideMaps.topByTree m) k)
    | rewrite (mapValues_delete (SideMaps.bottomByTree m) k)
    | rewrite (mapValues_delete (SideMaps.leftByTree m) k)
    | rewrite (mapValues_delete (SideMaps.rightByTree m) k) ];
    rewrite mapValues_insert; solve_Permutation.
Qed.

Lemma directlyPlaced_sideListFor tree side m :
  directlyPlacedOf (snd (sideListFor tree side m)) ≡ₚ directlyPlacedOf m.
Proof.
  unfold sideListFor.
  destruct (SideMaps.get side m !! _) as [l|] eqn:Hl; simpl; [done|].
  pose proof (directlyPlaced_store tree side [] m) as H.
  rewrite Hl in H. simpl in H. exact H.
Qed.

Lemma sideListFor_lookup tree side side' m :
  default [] (SideMaps.get side' (snd (sideListFor tree side m))
              !! Box.ref (CardInstance.box tree))
  = default [] (SideMaps.get side' m !! Box.ref (CardInstance.box tree)).
Proof.
  unfold sideListFor.
  destruct (SideMaps.get side m !! _) as [l|] eqn:Hl; simpl; [done|].
  destruct side, side'; simpl in *; rewrite ?lookup_insert_eq, ?Hl; done.
Qed.

Lemma directlyPlaced_pushSide tree side card m :
  directlyPlacedOf (pushSide tree side card m) ≡ₚ card :: directlyPlacedOf m.
Proof.
  unfold pushSide, sideListFor.
  set (k := Box.ref (CardInstance.box tree)).
  destruct (SideMaps.get side m !! k) as [l|] eqn:Hl.
  - pose proof (directlyPlaced_store tree side (l ++ [card]) m) as H.
    fold k in H. rewrite Hl in H. simpl in H.
    apply (Permutation_app_inv_l l). rewrite H. solve_Permutation.
  - pose proof (directlyPlaced_store tree side [card] m) as H.
    fold k in H. rewrite Hl in H. simpl in H. rewrite <- H.
    unfold storeSideList. fold k. rewrite SideMaps_get_set, insert_insert_eq.
    by destruct side.
Qed.

(** *** Phase 1 *)


Lemma phase1_placed treeCards cs : ∀ m,
  directlyPlacedOf (foldl (placeDirectly treeCards) m cs)
  ≡ₚ List.filter (directlyPlaceable treeCards) cs ++ directlyPlacedOf m.
Proof.
  induction cs as [|c cs IH]; intros m; simpl; [done|].
  rewrite IH. unfold placeDirectly.
  destruct (bestOverTrees c treeCards) as [best|] eqn:Hb.
  - assert (directlyPlaceable treeCards c = true) as ->.
    { unfold directlyPlaceable. rewrite Hb. by apply bool_decide_eq_true_2. }
    rewrite directlyPlaced_pushSide. solve_Permutation.
  - assert (directlyPlaceable treeCards c = false) as ->; [|done].
    unfold directlyPlaceable. rewrite Hb. apply bool_decide_eq_false_2. by intros [??].
Qed.

(** *** Phase 2: one side chain *)

Lemma pickDirectlyAdjacent_subset anchorBox cards side c :
  c ∈ pickDirectlyAdjacent anchorBox cards side → c ∈ cards.
Proof.
  unfold pickDirectlyAdjacent.
  set (candidates := omap _ cards).
  assert (∀ cd, cd ∈ candidates → fst cd ∈ cards) as Hc.
  { intros cd (x & Hx & Hcd)%list_elem_of_omap.
    destruct (adjacentDist anchorBox side x); simplify_eq/=. done. }
  destruct candidates as [|cd0 candidates]; [by intros ?%elem_of_nil|].
  map_to_fmap. intros (cd & -> & Hcd%elem_of_List_filter)%list_elem_of_fmap.
  apply Hc, Hcd.
Qed.

Lemma elem_of_addInstance s c x : x ∈ addInstance s c → x ∈ s ∨ x = c.
Proof.
  unfold addInstance. destruct (hasInstance s c); [by left|].
  intros [?|Hx%list_elem_of_singleton]%elem_of_app; [by left|by right].
Qed.

Lemma foldl_addInstance_subset (P : CardInstance → Prop) cs : ∀ s,
  (∀ x, x ∈ s → P x) → (∀ x, x ∈ cs → P x) →
  ∀ x, x ∈ foldl addInstance s cs → P x.
Proof.
  induction cs as [|c cs IH]; intros s Hs Hcs x; simpl; [apply Hs|].
  apply IH.
  - intros y [?|Hy]%elem_of_addInstance; [by apply Hs|]. subst y. apply Hcs. by left.
  - intros y Hy. apply Hcs. by right.
Qed.

Lemma nextAdjacent_subset side anchors remaining c :
  c ∈ nextAdjacent side anchors remaining → c ∈ remaining.
Proof.
  unfold nextAdjacent.
  assert (∀ s, (∀ x, x ∈ s → x ∈ remaining) →
    ∀ x, x ∈ foldl (λ next anchor,
                      foldl addInstance next (pickDirectlyAdjacent anchor remaining side))
                 s anchors → x ∈ remaining) as H.
  { induction anchors as [|a anchors IH]; intros s Hs x; simpl; [apply Hs|].
    apply IH. apply foldl_addInstance_subset; [done|].
    intros y. apply pickDirectlyAdjacent_subset. }
  apply H. by intros x ?%elem_of_nil.
Qed.

Lemma sameInstance_refl c : sameInstance c c = true.
Proof. apply Nat.eqb_refl. Qed.

Lemma sameInstance_ref a b : sameInstance a b = true ↔ CardInstance.ref a = CardInstance.ref b.
Proof. apply Nat.eqb_eq. Qed.

Lemma indexOfInstance_Some arr c idx :
  indexOfInstance arr c = Some idx →
  ∃ x, arr !! idx = Some x ∧ CardInstance.ref x = CardInstance.ref c.
Proof.
  revert idx. induction arr as [|y arr IH]; intros idx; simpl; [done|].
  destruct (sameInstance y c) eqn:Hy.
  - intros [= <-]. exists y. split; [done|]. by apply sameInstance_ref.
  - destruct (indexOfInstance arr c) as [j|]; [|done].
    intros [= <-]. by apply IH.
Qed.

Lemma indexOfInstance_elem arr c : c ∈ arr → is_Some (indexOfInstance arr c).
Proof.
  induction arr as [|y arr IH]; [by intros ?%elem_of_nil|]. simpl.
  intros [->|Hc]%elem_of_cons.
  - by rewrite sameInstance_refl.
  - destruct (sameInstance y c); [done|]. destruct (IH Hc) as [j ->]. done.
Qed.

(** Instances of a list without two references alike are equal when their
    references are. *)
Lemma refs_inj (l : list CardInstance) x y :
  NoDup (refsOf l) → x ∈ l → y ∈ l → CardInstance.ref x = CardInstance.ref y → x = y.
Proof.
  intros Hnd [i Hi]%list_elem_of_lookup [j Hj]%list_elem_of_lookup Hr.
  assert (i = j) as ->; [|congruence].
  eapply (NoDup_lookup (refsOf l)); [done| |]; unfold refsOf;
    rewrite list_lookup_fmap; [by rewrite Hi | by rewrite Hj, Hr].
Qed.

Section chain.
Context (rem0 : list CardInstance) (Hnd : NoDup (refsOf rem0)).

Lemma moveToChain_spec st c :
  Chain.remaining st `sublist_of` rem0 → c ∈ rem0 →
  let st' := moveToChain st c in
  Chain.attached st' ++ Chain.remaining st' ≡ₚ Chain.attached st ++ Chain.remaining st
  ∧ Chain.remaining st' `sublist_of` rem0.
Proof using Hnd.
  intros Hsub Hc. unfold moveToChain.
  destruct (indexOfInstance (Chain.remaining st) c) as [idx|] eqn:Hi; simpl; [|done].
  apply indexOfInstance_Some in Hi as (x & Hx & Href).
  assert (x = c) as ->.
  { eapply refs_inj; [done| |done|done].
    eapply elem_of_sublist; [|done]. by eapply list_elem_of_lookup_2. }
  split.
  - rewrite (delete_Permutation _ _ _ Hx) at 2. solve_Permutation.
  - etrans; [apply sublist_delete|done].
Qed.

Lemma foldl_moveToChain_spec next : ∀ st,
  Chain.remaining st `sublist_of` rem0 → (∀ c, c ∈ next → c ∈ rem0) →
  let st' := foldl moveToChain st next in
  Chain.attached st' ++ Chain.remaining st' ≡ₚ Chain.attached st ++ Chain.remaining st
  ∧ Chain.remaining st' `sublist_of` rem0.
Proof using Hnd.
  induction next as [|c next IH]; intros st Hsub Hnext; simpl; [done|].
  destruct (moveToChain_spec st c) as [Hp Hs]; [done|apply Hnext; by left|].
  destruct (IH (moveToChain st c)) as [Hp' Hs']; [done| |].
  { intros ??. apply Hnext. by right. }
  split; [by rewrite Hp'|done].
Qed.
End chain.

Lemma expandRounds_perm side fuel : ∀ st st',
  NoDup (refsOf (Chain.remaining st)) →
  expandRounds fuel side st = Some st' →
  Chain.attached st' ++ Chain.remaining st' ≡ₚ Chain.attached st ++ Chain.remaining st.
Proof.
  induction fuel as [|fuel IH]; intros st st' Hnd; simpl; [done|].
  destruct (nextAdjacent side (Chain.anchors st) (Chain.remaining st)) as [|c next] eqn:Hn.
  { by intros [= <-]. }
  intros Hrun.
  destruct (foldl_moveToChain_spec (Chain.remaining st) Hnd (c :: next) st) as [Hp Hs];
    [done| |].
  { intros x Hx. apply (nextAdjacent_subset side (Chain.anchors st)). by rewrite Hn. }
  rewrite <- Hp. apply IH; [|done].
  eapply sublist_NoDup; [exact Hnd|]. by apply fmap_sublist.
Qed.

Lemma moveToChain_length st c :
  length (Chain.remaining (moveToChain st c)) ≤ length (Chain.remaining st)
  ∧ (c ∈ Chain.remaining st →
     length (Chain.remaining (moveToChain st c)) < length (Chain.remaining st)).
Proof.
  unfold moveToChain.
  destruct (indexOfInstance (Chain.remaining st) c) as [idx|] eqn:Hi; simpl.
  - apply indexOfInstance_Some in Hi as (x & Hx & _).
    apply lookup_lt_Some in Hx. rewrite length_delete by (by apply lookup_lt_is_Some).
    lia.
  - split; [done|]. intros [j Hj]%indexOfInstance_elem. congruence.
Qed.

Lemma foldl_moveToChain_length next : ∀ st,
  length (Chain.remaining (foldl moveToChain st next)) ≤ length (Chain.remaining st).
Proof.
  induction next as [|c next IH]; intros st; simpl; [done|].
  etrans; [apply IH|]. apply moveToChain_length.
Qed.

(** The loop breaks before the bound on the rounds is reached. *)
Lemma expandRounds_total side fuel : ∀ st,
  length (Chain.remaining st) < fuel → is_Some (expandRounds fuel side st).
Proof.
  induction fuel as [|fuel IH]; intros st Hlt; [lia|]. simpl.
  destruct (nextAdjacent side (Chain.anchors st) (Chain.remaining st)) as [|c next] eqn:Hn.
  { done. }
  apply IH. simpl.
  pose proof (foldl_moveToChain_length next (moveToChain st c)) as H1.
  destruct (moveToChain_length st c) as [_ H2].
  assert (c ∈ Chain.remaining st) as Hc.
  { apply (nextAdjacent_subset side (Chain.anchors st)). rewrite Hn. by left. }
  specialize (H2 Hc). lia.
Qed.

Lemma expandSideChain_perm treeBox side attached remaining :
  NoDup (refsOf remaining) →
  let r := expandSideChain treeBox side attached remaining in
  fst r ++ snd r ≡ₚ attached ++ remaining.
Proof.
  intros Hnd. unfold expandSideChain.
  destruct (expandRounds _ _ _) as [st|] eqn:Hrun; simpl; [|done].
  by apply expandRounds_perm in Hrun.
Qed.

(** *** Phase 2: all trees *)

Section phase2.
Context (cs : list CardInstance) (Hnd : NoDup (refsOf cs)).

Lemma placed_remaining_NoDup m remaining :
  directlyPlacedOf m ++ remaining ⊆+ cs → NoDup (refsOf remaining).
Proof using Hnd.
  intros Hsub. eapply submseteq_NoDup; [|exact Hnd].
  apply fmap_submseteq. etrans; [|exact Hsub]. by apply submseteq_inserts_l.
Qed.

Lemma expandSide_inv treeCard side m remaining :
  directlyPlacedOf m ++ remaining ⊆+ cs →
  let r := expandSide treeCard side (m, remaining) in
  directlyPlacedOf (fst r) ++ snd r ⊆+ cs.
Proof using Hnd.
  intros Hsub. simpl. unfold expandSide.
  set (attached := default [] _).
  pose proof (expandSideChain_perm (CardInstance.box treeCard) side attached remaining
                (placed_remaining_NoDup _ _ Hsub)) as Hp.
  destruct (expandSideChain _ _ _ _) as [attached' remaining']. simpl in *.
  pose proof (directlyPlaced_store treeCard side attached' m) as Hs.
  fold attached in Hs.
  eapply (submseteq_app_inv_l _ _ attached).
  etrans; [|apply submseteq_skips_l, Hsub].
  apply Permutation_submseteq.
  rewrite (assoc (++)), Hs.
  rewrite <- (assoc (++)), (Permutation_app_comm (directlyPlacedOf m)).
  rewrite (assoc (++)), Hp. solve_Permutation.
Qed.

Lemma expandTree_inv treeCard st :
  directlyPlacedOf (fst st) ++ snd st ⊆+ cs →
  directlyPlacedOf (fst (expandTree st treeCard)) ++ snd (expandTree st treeCard) ⊆+ cs.
Proof using Hnd.
  destruct st as [m remaining]. intros Hsub. unfold expandTree.
  set (st1 := expandSide treeCard Top _).
  set (st2 := expandSide treeCard Bottom st1).
  set (st3 := expandSide treeCard Left st2).
  assert (directlyPlacedOf (fst st1) ++ snd st1 ⊆+ cs) as H1.
  { apply expandSide_inv. by rewrite !directlyPlaced_sideListFor. }
  assert (directlyPlacedOf (fst st2) ++ snd st2 ⊆+ cs) as H2.
  { subst st2. destruct st1. by apply expandSide_inv. }
  assert (directlyPlacedOf (fst st3) ++ snd st3 ⊆+ cs) as H3.
  { subst st3. destruct st2. by apply expandSide_inv. }
  destruct st3. by apply expandSide_inv.
Qed.

Lemma phase2_inv treeCards : ∀ st,
  directlyPlacedOf (fst st) ++ snd st ⊆+ cs →
  let st' := foldl expandTree st treeCards in
  directlyPlacedOf (fst st') ++ snd st' ⊆+ cs.
Proof using Hnd.
  induction treeCards as [|tc treeCards IH]; intros st Hsub; simpl; [done|].
  by apply IH, expandTree_inv.
Qed.
End phase2.

Lemma phase1_remaining_inv treeCards cs :
  let m1 := foldl (placeDirectly treeCards) SideMaps.empty cs in
  directlyPlacedOf m1
  ++ List.filter (λ c, negb (hasInstance (directlyPlacedOf m1) c)) cs ⊆+ cs.
Proof.
  intros m1. pose proof (phase1_placed treeCards cs SideMaps.empty) as Hp.
  fold m1 in Hp. change (directlyPlacedOf SideMaps.empty) with (@nil CardInstance) in Hp.
  rewrite app_nil_r in Hp. rewrite Hp.
  apply filter_split_submseteq. intros c Hc Hn.
  destruct (directlyPlaceable treeCards c) eqn:Hd; [|done].
  apply negb_true_iff in Hn. rewrite <- Hn. symmetry.
  unfold hasInstance. apply existsb_exists. exists c.
  split; [|apply sameInstance_refl].
  apply list_elem_of_In. rewrite Hp. by apply elem_of_List_filter.
Qed.

(** *** The trees read from the maps *)

Lemma lookups_submseteq (g : gmap nat (list CardInstance)) (ks : list nat) :
  NoDup ks → ks ≫= (λ k, default [] (g !! k)) ⊆+ mapValues g.
Proof.
  revert g. induction ks as [|k ks IH]; intros g Hnd.
  { apply submseteq_nil_l. }
  apply NoDup_cons in Hnd as [Hk Hnd]. rewrite bind_cons.
  rewrite (mapValues_delete g k). apply submseteq_skips_l.
  etrans; [|apply (IH (delete k g) Hnd)].
  apply Permutation_submseteq. clear IH Hnd.
  induction ks as [|k' ks IH]; [done|].
  rewrite !bind_cons, lookup_delete_ne by (intros ->; apply Hk; by left).
  f_equiv. apply IH. intros ?. apply Hk. by right.
Qed.

Lemma bind_app_perm {A B} (f g : A → list B) (l : list A) :
  l ≫= (λ x, f x ++ g x) ≡ₚ (l ≫= f) ++ (l ≫= g).
Proof.
  induction l as [|x l IH]; [done|]. rewrite !bind_cons, IH. solve_Permutation.
Qed.

Lemma bind_fmap_list {A B C} (f : A → B) (g : B → list C) (l : list A) :
  (f <$> l) ≫= g = l ≫= (g ∘ f).
Proof.
  induction l as [|x l IH]; [done|]. by rewrite fmap_cons, !bind_cons, IH.
Qed.

Lemma trees_attachments_submseteq m (treeCards : list CardInstance) :
  NoDup (refsOf treeCards) →
  (treeOf m <$> treeCards) ≫= attachmentsOf ⊆+ directlyPlacedOf m.
Proof.
  intros Hnd.
  assert (∀ g, treeCards ≫= (λ tc, default [] (g !! Box.ref (CardInstance.box tc)))
               ⊆+ mapValues g) as Hg.
  { intros g. etrans; [|apply (lookups_submseteq g _ Hnd)].
    unfold refsOf. clear Hnd. induction treeCards as [|tc tcs IH]; [done|].
    rewrite fmap_cons, !bind_cons. by apply submseteq_skips_l. }
  rewrite bind_fmap_list. unfold attachmentsOf, treeOf, directlyPlacedOf, compose. simpl.
  etrans.
  { apply Permutation_submseteq.
    rewrite bind_app_perm. apply Permutation_app; [done|].
    rewrite bind_app_perm. apply Permutation_app; [done|].
    apply bind_app_perm. }
  etrans.
  { apply submseteq_app; [apply Hg|].
    apply submseteq_app; [apply Hg|].
    apply submseteq_app; apply Hg. }
  apply Permutation_submseteq. solve_Permutation.
Qed.

(** *** The forest of [buildForest] *)



Lemma buildForest_anchors boxes cards :
  Tree.card <$> Forest.trees (buildForest boxes cards) = treeCardsOf boxes cards.
Proof.
  unfold buildForest. destruct (foldl expandTree _ _) as [m2 ?]. simpl.
  map_to_fmap. rewrite <- list_fmap_compose. apply list_fmap_id.
Qed.

Lemma buildForest_attachments boxes cards :
  NoDup (Box.ref <$> boxes) →
  forestAttachments (buildForest boxes cards) ⊆+ cardInstsOf boxes cards.
Proof.
  intros Hnd.
  pose proof (tree_and_other_refs (defByIdOf cards) (treeIdsOf cards) boxes Hnd) as Hall.
  fold (treeCardsOf boxes cards) (cardInstsOf boxes cards) in Hall.
  unfold refsOf in Hall. rewrite fmap_app in Hall.
  apply NoDup_app in Hall as (Htrees & _ & Hcs).
  unfold buildForest. fold (treeCardsOf boxes cards) (cardInstsOf boxes cards).
  set (m1 := foldl (placeDirectly _) _ _).
  pose proof (phase1_remaining_inv (treeCardsOf boxes cards) (cardInstsOf boxes cards)) as H1.
  simpl in H1. fold m1 in H1.
  pose proof (phase2_inv _ Hcs (treeCardsOf boxes cards) (m1, _) H1) as H2.
  simpl in H2. destruct (foldl expandTree _ _) as [m2 rem2]. simpl in *.
  unfold forestAttachments. simpl. map_to_fmap.
  etrans; [by apply trees_attachments_submseteq|].
  etrans; [|exact H2]. by apply submseteq_inserts_r.
Qed.

Lemma forestInstances_perm forest :
  forestInstances forest
  ≡ₚ (Tree.card <$> Forest.trees forest) ++ forestAttachments forest.
Proof.
  unfold forestInstances, forestAttachments.
  induction (Forest.trees forest) as [|t ts IH]; [done|].
  rewrite fmap_cons, !bind_cons, IH. solve_Permutation.
Qed.

Lemma buildForest_instances_NoDup boxes cards :
  NoDup (Box.ref <$> boxes) →
  NoDup (refsOf (forestInstances (buildForest boxes cards))).
Proof.
  intros Hnd.
  pose proof (tree_and_other_refs (defByIdOf cards) (treeIdsOf cards) boxes Hnd) as Hall.
  eapply submseteq_NoDup; [|exact Hall].
  apply fmap_submseteq. rewrite forestInstances_perm, buildForest_anchors.
  apply submseteq_skips_l. by apply buildForest_attachments.
Qed.

Lemma toBoxes_refs base dcs : Box.ref <$> toBoxes base dcs = seq base (length dcs).
Proof.
  unfold toBoxes. rewrite fmap_imap.
  revert base. induction dcs as [|dc dcs IH]; intros base; [done|].
  rewrite imap_cons. simpl. f_equal; [lia|].
  rewrite <- IH. apply imap_ext. intros i x _. simpl. lia.
Qed.

Lemma toBoxes_NoDup base dcs : NoDup (Box.ref <$> toBoxes base dcs).
Proof. rewrite toBoxes_refs. apply NoDup_seq. Qed.

(** C8: in the forest built from a player's detected cards, no instance
    occurs twice among the attachments of all trees and sides: an instance
    is attached to at most one tree, on at most one side, at most once. *)
Theorem attachments_occur_once cards base dcs :
  NoDup (refsOf (forestAttachments (buildForest (toBoxes base dcs) cards))).
Proof.
  eapply submseteq_NoDup.
  - apply fmap_submseteq, buildForest_attachments, toBoxes_NoDup.
  - pose proof (tree_and_other_refs (defByIdOf cards) (treeIdsOf cards)
                  (toBoxes base dcs) (toBoxes_NoDup base dcs)) as Hall.
    unfold refsOf in Hall. rewrite fmap_app in Hall.
    by apply NoDup_app in Hall as (_ & _ & Hcs).
Qed.

(** ** Sorting *)

Lemma sort_insert_perm {A} (cmp : A → A → float) x l :
  Js.sort_insert cmp x l ≡ₚ x :: l.
Proof.
  induction l as [|y l IH]; simpl; [done|].
  destruct (PrimFloat.ltb _ _); [|done]. rewrite IH. apply Permutation_swap.
Qed.

Lemma sort_perm {A} (cmp : A → A → float) l : Js.sort cmp l ≡ₚ l.
Proof.
  unfold Js.sort. induction l as [|x l IH]; simpl; [done|].
  by rewrite sort_insert_perm, IH.
Qed.

Lemma sortTreesVisually_perm trees : sortTreesVisually trees ≡ₚ trees.
Proof. unfold sortTreesVisually. destruct trees; [done|]. apply sort_perm. Qed.

Lemma sortAttached_subset tree cs side c : c ∈ sortAttached tree cs side → c ∈ cs.
Proof.
  unfold sortAttached. intros [Hc _]%elem_of_List_filter. by rewrite sort_perm in Hc.
Qed.

(** ** All instances of a forest *)

Lemma hasInstance_refs s c :
  hasInstance s c = true ↔ CardInstance.ref c ∈ refsOf s.
Proof.
  unfold hasInstance, refsOf. rewrite existsb_exists, list_elem_of_fmap.
  split.
  - intros (x & Hx%list_elem_of_In & Hr%sameInstance_ref). by exists x.
  - intros (x & Hr & Hx). exists x. split; [by apply list_elem_of_In|].
    by apply sameInstance_ref.
Qed.

Lemma foldl_addInstance_NoDup cs : ∀ s,
  NoDup (refsOf (s ++ cs)) → foldl addInstance s cs = s ++ cs.
Proof.
  induction cs as [|c cs IH]; intros s Hnd; simpl; [by rewrite app_nil_r|].
  assert (hasInstance s c = false) as Hc.
  { apply not_true_is_false. rewrite hasInstance_refs. intros Hin.
    unfold refsOf in Hnd. rewrite fmap_app, fmap_cons in Hnd.
    apply NoDup_app in Hnd as (_ & Hd & _). apply (Hd _ Hin). by left. }
  unfold addInstance at 2. rewrite Hc, IH, <- (assoc (++)); [done|].
  by rewrite <- (assoc (++)).
Qed.

Lemma allCardInstances_NoDup forest :
  NoDup (refsOf (forestInstances forest)) →
  allCardInstances forest = forestInstances forest.
Proof.
  unfold allCardInstances, forestInstances.
  set (F := λ result tree, foldl addInstance result (Tree.card tree :: attachmentsOf tree)).
  assert (∀ ts s, NoDup (refsOf (s ++ ts ≫= (λ t, Tree.card t :: attachmentsOf t))) →
    foldl F s ts = s ++ ts ≫= (λ t, Tree.card t :: attachmentsOf t)) as H.
  { induction ts as [|t ts IH]; intros s Hnd; [by rewrite app_nil_r|].
    change (foldl F (F s t) ts = s ++ (t :: ts) ≫= (λ t, Tree.card t :: attachmentsOf t)).
    rewrite bind_cons in *. rewrite (assoc (++)) in Hnd.
    unfold F at 2. rewrite foldl_addInstance_NoDup.
    - rewrite IH by done. by rewrite <- (assoc (++)).
    - unfold refsOf in *. rewrite fmap_app in Hnd. by apply NoDup_app in Hnd as [? _]. }
  intros Hnd. by rewrite H.
Qed.

(** ** The display order *)

Section ui_order.
Context (U : list Box).

Local Abbreviation uiInv := (uiInv U).

Lemma uiInv_push st box :
  uiInv st → box ∈ U → Box.ref box ∉ UiOrder.seen st →
  uiInv (UiOrder.mk (UiOrder.sorted st ++ [box]) ({[Box.ref box]} ∪ UiOrder.seen st)).
Proof.
  intros (Hnd & Hsub & Hseen) Hbox Hnew. split; [|split]; simpl.
  - rewrite fmap_app. apply NoDup_app. split; [done|]. split.
    + intros r Hr [->|[]%elem_of_nil]%elem_of_cons. by apply Hnew, Hseen.
    + apply NoDup_singleton.
  - intros b [?| ->%list_elem_of_singleton]%elem_of_app; auto.
  - intros r. rewrite fmap_app, elem_of_app, elem_of_union, elem_of_singleton, Hseen.
    simpl. rewrite list_elem_of_singleton. tauto.
Qed.

Lemma pushUnseen_inv st box : uiInv st → box ∈ U → uiInv (pushUnseen st box).
Proof.
  intros Hinv Hbox. unfold pushUnseen. case_decide; [done|]. by apply uiInv_push.
Qed.

Lemma pushUnseen_seen st box r :
  r ∈ UiOrder.seen (pushUnseen st box) ↔ r = Box.ref box ∨ r ∈ UiOrder.seen st.
Proof.
  unfold pushUnseen. case_decide as Hd; simpl.
  - split; [by right|]. by intros [->|?].
  - rewrite elem_of_union, elem_of_singleton. tauto.
Qed.

Lemma foldl_pushUnseen_inv bs : ∀ st,
  uiInv st → (∀ b, b ∈ bs → b ∈ U) →
  uiInv (foldl pushUnseen st bs)
  ∧ (∀ r, r ∈ UiOrder.seen (foldl pushUnseen st bs)
          ↔ r ∈ Box.ref <$> bs ∨ r ∈ UiOrder.seen st).
Proof.
  induction bs as [|b bs IH]; intros st Hinv Hbs; simpl.
  { split; [done|]. intros r. rewrite elem_of_nil. tauto. }
  destruct (IH (pushUnseen st b)) as [Hi Hs].
  - apply pushUnseen_inv; [done|]. apply Hbs. by left.
  - intros ??. apply Hbs. by right.
  - split; [done|]. intros r. rewrite Hs, pushUnseen_seen, elem_of_cons. tauto.
Qed.

Lemma pushSorted_inv tree side cs st :
  uiInv st → (∀ c, c ∈ cs → CardInstance.box c ∈ U) →
  uiInv (pushSorted tree side cs st)
  ∧ (∀ r, r ∈ UiOrder.seen (pushSorted tree side cs st) →
          r ∈ refsOf cs ∨ r ∈ UiOrder.seen st).
Proof.
  intros Hinv Hcs. unfold pushSorted.
  rewrite <- (foldl_fmap pushUnseen st (sortAttached tree cs side) CardInstance.box).
  destruct (foldl_pushUnseen_inv (CardInstance.box <$> sortAttached tree cs side) st)
    as [Hi Hs]; [done| |].
  { intros b (c & -> & Hc%sortAttached_subset)%list_elem_of_fmap. by apply Hcs. }
  split; [done|]. intros r [Hr|Hr]%Hs; [left|by right].
  apply list_elem_of_fmap in Hr as (b & -> & (c & -> & Hc%sortAttached_subset)%list_elem_of_fmap).
  unfold refsOf. apply list_elem_of_fmap. by exists c.
Qed.

Lemma uiTreeStep_inv st tree :
  uiInv st →
  (∀ c, c ∈ Tree.card tree :: attachmentsOf tree → CardInstance.box c ∈ U) →
  CardInstance.ref (Tree.card tree) ∉ UiOrder.seen st →
  uiInv (uiTreeStep st tree)
  ∧ (∀ r, r ∈ UiOrder.seen (uiTreeStep st tree) →
          r ∈ refsOf (Tree.card tree :: attachmentsOf tree) ∨ r ∈ UiOrder.seen st).
Proof.
  intros Hinv HU' Hnew. unfold uiTreeStep.
  assert (∀ cs : list CardInstance, (∀ c, c ∈ cs → c ∈ attachmentsOf tree) →
                ∀ c, c ∈ cs → CardInstance.box c ∈ U) as Hside.
  { intros cs Hcs c Hc. apply HU'. right. by apply Hcs. }
  set (st0 := pushAnchor st _).
  assert (uiInv st0) as H0.
  { apply uiInv_push; [done| |done]. apply HU'. by left. }
  destruct (pushSorted_inv tree Top (Tree.top tree) st0 H0) as [H1 S1].
  { apply Hside. unfold attachmentsOf. set_solver. }
  set (st1 := pushSorted tree Top _ st0) in *.
  destruct (pushSorted_inv tree Left (Tree.left tree) st1 H1) as [H2 S2].
  { apply Hside. unfold attachmentsOf. set_solver. }
  set (st2 := pushSorted tree Left _ st1) in *.
  destruct (pushSorted_inv tree Right (Tree.right tree) st2 H2) as [H3 S3].
  { apply Hside. unfold attachmentsOf. set_solver. }
  set (st3 := pushSorted tree Right _ st2) in *.
  destruct (pushSorted_inv tree Bottom (Tree.bottom tree) st3 H3) as [H4 S4].
  { apply Hside. unfold attachmentsOf. set_solver. }
  split; [done|]. intros r Hr.
  assert (r ∈ refsOf (attachmentsOf tree) ∨ r ∈ UiOrder.seen st0) as [Ha|Ha].
  { unfold attachmentsOf, refsOf in *. rewrite !fmap_app, !elem_of_app.
    apply S4 in Hr as [?|Hr]; [tauto|].
    apply S3 in Hr as [?|Hr]; [tauto|].
    apply S2 in Hr as [?|Hr]; [tauto|].
    apply S1 in Hr as [?|Hr]; tauto. }
  - left. unfold refsOf in *. rewrite fmap_cons. by right.
  - subst st0. simpl in Ha. apply elem_of_union in Ha as [->%elem_of_singleton|Ha].
    + left. unfold refsOf. rewrite fmap_cons. by left.
    + by right.
Qed.

Lemma foldl_uiTreeStep_inv ts : ∀ st,
  uiInv st →
  NoDup (refsOf (ts ≫= (λ t, Tree.card t :: attachmentsOf t))) →
  (∀ c, c ∈ ts ≫= (λ t, Tree.card t :: attachmentsOf t) → CardInstance.box c ∈ U) →
  (∀ r, r ∈ UiOrder.seen st →
        r ∉ refsOf (ts ≫= (λ t, Tree.card t :: attachmentsOf t))) →
  uiInv (foldl uiTreeStep st ts).
Proof.
  induction ts as [|t ts IH]; intros st Hinv Hnd HU' Hseen; [done|].
  simpl foldl. rewrite bind_cons in *. unfold refsOf in *. rewrite fmap_app in *.
  apply NoDup_app in Hnd as (Hnd1 & Hdisj & Hnd2).
  destruct (uiTreeStep_inv st t) as [Hi Hs]; [done| | |].
  { intros c Hc. apply HU', elem_of_app. by left. }
  { intros Hin. apply (Hseen _ Hin), elem_of_app. left.
    rewrite fmap_cons. by left. }
  apply IH; [done|done| |].
  - intros c Hc. apply HU', elem_of_app. by right.
  - intros r [Hr|Hr]%Hs.
    + by apply Hdisj.
    + intros Hin. apply (Hseen _ Hr), elem_of_app. by right.
Qed.
End ui_order.

Lemma foldl_bind {A B C} (f : A → C → A) (g : B → list C) (l : list B) : ∀ a,
  foldl (λ a x, foldl f a (g x)) a l = foldl f a (l ≫= g).
Proof.
  induction l as [|x l IH]; intros a; [done|].
  rewrite bind_cons, foldl_app. apply IH.
Qed.

Lemma sortCardsInUiOrder_perm forest :
  NoDup (refsOf (forestInstances forest)) →
  sortCardsInUiOrder forest ≡ₚ CardInstance.box <$> forestInstances forest.
Proof.
  intros Hnd. unfold sortCardsInUiOrder.
  set (U := CardInstance.box <$> forestInstances forest).
  assert (NoDup (Box.ref <$> U)) as HU.
  { subst U. by rewrite <- list_fmap_compose. }
  set (st1 := foldl uiTreeStep _ _).
  assert (uiInv U st1) as H1.
  { apply foldl_uiTreeStep_inv.
    - split; [|split]; simpl; [apply NoDup_nil_2 | by intros ? ?%elem_of_nil |].
      intros r. rewrite elem_of_nil. set_solver.
    - unfold refsOf. rewrite sortTreesVisually_perm. exact Hnd.
    - intros c Hc. rewrite sortTreesVisually_perm in Hc.
      subst U. apply list_elem_of_fmap. by exists c.
    - intros r Hr. simpl in Hr. set_solver. }
  rewrite (foldl_bind pushUnseen (λ tree, map CardInstance.box (Tree.card tree :: attachmentsOf tree))).
  set (bs := Forest.trees forest ≫= _).
  assert (bs = U) as ->.
  { subst bs U. unfold forestInstances. clear.
    induction (Forest.trees forest) as [|t ts IH]; [done|].
    rewrite !bind_cons, fmap_app, IH. done. }
  destruct (foldl_pushUnseen_inv U U st1 H1) as [(Hnd2 & Hsub & Hseen) Hs]; [done|].
  apply NoDup_Permutation.
  - by apply NoDup_fmap_1 in Hnd2.
  - by apply NoDup_fmap_1 in HU.
  - intros b. split; [apply Hsub|]. intros Hb.
    assert (Box.ref b ∈ Box.ref <$> UiOrder.sorted (foldl pushUnseen st1 U)) as Hr.
    { apply Hseen, Hs. left. apply list_elem_of_fmap. by exists b. }
    apply list_elem_of_fmap in Hr as (b' & Hr & Hb').
    assert (b = b') as ->; [|done].
    apply list_elem_of_lookup in Hb as [i Hi].
    apply Hsub, list_elem_of_lookup in Hb' as Hb''. destruct Hb'' as [j Hj].
    assert (i = j) as ->; [|congruence].
    eapply (NoDup_lookup _ _ _ _ HU); rewrite list_lookup_fmap; [by rewrite Hi|by rewrite Hj, Hr].
Qed.

(** ** The entries of a player *)

Lemma foldl_insert_lookup {A V} (key : A → nat) (val : A → V) (l : list A) :
  ∀ (m0 : gmap nat V) x,
    NoDup (key <$> l) → x ∈ l →
    foldl (λ m y, <[key y := val y]> m) m0 l !! key x = Some (val x).
Proof.
  induction l as [|y l IH]; intros m0 x Hnd Hx; [by apply elem_of_nil in Hx|].
  rewrite fmap_cons in Hnd. apply NoDup_cons in Hnd as [Hy Hnd]. simpl.
  apply elem_of_cons in Hx as [->|?]; [|by apply IH].
  clear IH Hnd. revert m0.
  assert (∀ m0 : gmap nat V, m0 !! key y = Some (val y) →
            foldl (λ m z, <[key z := val z]> m) m0 l !! key y = Some (val y)) as H.
  { induction l as [|z l IH]; intros m0 Hm; [done|]. simpl. apply IH.
    - intros Hin. apply Hy. rewrite fmap_cons. by right.
    - rewrite lookup_insert_ne; [done|]. intros Heq. apply Hy.
      rewrite fmap_cons, Heq. by left. }
  intros m0. apply H. apply lookup_insert_eq.
Qed.

Lemma scorePlayers_lookup prepared rest : ∀ k i st r,
  fst (scorePlayers prepared k rest st) !! i = Some r →
  ∃ player p st',
    rest !! i = Some (player, p)
    ∧ r = fst (scorePlayer prepared (PlayerInput.name player) (k + i) p st').
Proof.
  induction rest as [|[player0 p0] rest IH]; intros k i st r; simpl; [done|].
  unfold bind. destruct (scorePlayer _ _ k p0 st) as [r0 st1] eqn:H0.
  specialize (IH (S k) (pred i) st1 r).
  destruct (scorePlayers prepared (S k) rest st1) as [rs st2]. simpl in *.
  destruct i as [|i]; simpl.
  - intros [= <-]. exists player0, p0, st. rewrite Nat.add_0_r, H0. done.
  - intros Hr. destruct (IH Hr) as (player & p & st' & Hl & ->).
    exists player, p, st'. split; [done|]. by rewrite Nat.add_succ_r.
Qed.

Lemma scorePlayer_details prepared name i p forest st :
  PreparedPlayer.forest p = Some forest →
  ∃ scoreByBox,
    PlayerScoreResult.cardDetails (fst (scorePlayer prepared name i p st))
    = match PreparedPlayer.all p with
      | [] => []
      | all =>
          cardDetailsOf (sortCardsInUiOrder forest)
            (foldl (λ m c, <[Box.ref (CardInstance.box c) := c]> m) ∅ all)
            scoreByBox (buildBoxToTreeIndex forest)
      end.
Proof.
  intros Hf. unfold scorePlayer. rewrite Hf.
  destruct (PreparedPlayer.all p) as [|c all]; [by exists ∅|].
  unfold bind. destruct (forM _ _ st) as [results st']. simpl. by eexists.
Qed.

Lemma prepareFrom_lookup cards players : ∀ base i prep,
  prepareFrom cards base players !! i = Some prep →
  ∃ base' p, players !! i = Some p ∧ prep = preparePlayer cards base' p.
Proof.
  induction players as [|p0 ps IH]; intros base i prep; simpl; [done|].
  destruct i as [|i]; simpl.
  - intros [= <-]. by exists base, p0.
  - apply IH.
Qed.

Lemma preparePlayer_forest cards base p forest :
  PreparedPlayer.forest (preparePlayer cards base p) = Some forest →
  forest = buildForest (toBoxes base (PlayerInput.cards p)) cards
  ∧ PreparedPlayer.all (preparePlayer cards base p) = forestInstances forest
  ∧ NoDup (refsOf (forestInstances forest)).
Proof.
  unfold preparePlayer. destruct (PlayerInput.cards p) as [|dc dcs] eqn:Hc; [done|].
  simpl. intros [= <-].
  assert (NoDup (refsOf (forestInstances (buildForest (toBoxes base (dc :: dcs)) cards)))).
  { apply buildForest_instances_NoDup, toBoxes_NoDup. }
  split; [done|]. split; [|done]. by apply allCardInstances_NoDup.
Qed.

Lemma cardDetailsOf_instances (all order : list CardInstance) scoreByBox boxToTreeIdx :
  NoDup (refsOf all) → (∀ c, c ∈ order → c ∈ all) →
  Forall2 (λ c d, CardScoreDetail.cardId d = Box.clsName (CardInstance.box c)
                  ∧ CardScoreDetail.title d = Some (CardInstance.id c))
    order
    (cardDetailsOf (CardInstance.box <$> order)
       (foldl (λ m c, <[Box.ref (CardInstance.box c) := c]> m) ∅ all)
       scoreByBox boxToTreeIdx).
Proof.
  intros Hnd. unfold cardDetailsOf.
  induction order as [|c order IH]; intros Hsub; [constructor|].
  rewrite fmap_cons. simpl. unfold detailFor at 1.
  rewrite (foldl_insert_lookup (λ c, Box.ref (CardInstance.box c)) id all ∅ c Hnd)
    by (apply Hsub; by left).
  simpl. destruct (default _ _) as [points reason]. constructor; [done|].
  apply IH. intros ??. apply Hsub. by right.
Qed.

(** The card details of a player with a forest are, in some order, exactly
    one entry for every instance of the forest (an anchor or an attachment
    of a tree), under the label and the entity id of its card. *)
Lemma forest_cards_scored_once cards players i prep forest r :
  prepareFrom cards 0 players !! i = Some prep →
  PreparedPlayer.forest prep = Some forest →
  score cards players !! i = Some r →
  ∃ order : list CardInstance,
    order ≡ₚ forestInstances forest
    ∧ NoDup (refsOf order)
    ∧ Forall2 (λ c d, CardScoreDetail.cardId d = Box.clsName (CardInstance.box c)
                      ∧ CardScoreDetail.title d = Some (CardInstance.id c))
        order (PlayerScoreResult.cardDetails r).
Proof.
  intros Hprep Hforest Hr. unfold score, scoreAt in Hr.
  apply scorePlayers_lookup in Hr as (player & p & st' & Hl & ->).
  apply lookup_zip_with_Some in Hl as (player' & p' & [= <- <-] & _ & Hp).
  rewrite Hprep in Hp. injection Hp as <-.
  destruct (prepareFrom_lookup _ _ _ _ _ Hprep) as (base & pl & _ & ->).
  destruct (preparePlayer_forest _ _ _ _ Hforest) as (_ & Hall & Hnd).
  destruct (scorePlayer_details (prepareFrom cards 0 players) (PlayerInput.name player)
              (0 + i) (preparePlayer cards base pl) forest st' Hforest)
    as [scoreByBox ->].
  rewrite Hall.
  destruct (forestInstances forest) as [|c0 all0] eqn:Hfi.
  { exists []. split; [done|]. split; [apply NoDup_nil_2|constructor]. }
  rewrite <- Hfi in *. clear Hfi c0 all0.
  pose proof (sortCardsInUiOrder_perm forest Hnd) as Hperm.
  apply Permutation_map_inv in Hperm as (order & Hsorted & Hord).
  exists order. split; [done|]. split.
  { unfold refsOf. by rewrite <- Hord. }
  rewrite Hsorted. apply cardDetailsOf_instances; [done|].
  intros c Hc. by rewrite Hord.
Qed.

(** ** Group labels *)

Lemma foldl_insert_const {V} (idx : V) (cs : list CardInstance) : ∀ (m : gmap nat V) r,
  foldl (λ m c, <[Box.ref (CardInstance.box c) := idx]> m) m cs !! r
  = if decide (r ∈ refsOf cs) then Some idx else m !! r.
Proof.
  unfold refsOf. induction cs as [|c cs IH]; intros m r.
  { destruct (decide _) as [[]%elem_of_nil|]; done. }
  cbn [foldl]. rewrite IH, fmap_cons.
  destruct (decide (r ∈ CardInstance.ref <$> cs)) as [Hin|Hnin].
  - destruct (decide _) as [|Hn]; [done|]. destruct Hn. by right.
  - destruct (decide (r = CardInstance.ref c)) as [->|Hne].
    + destruct (decide _) as [|Hn]; [|destruct Hn; by left]. apply lookup_insert_eq.
    + destruct (decide _) as [[?|?]%elem_of_cons|]; [done|done|].
      by rewrite lookup_insert_ne.
Qed.

Lemma indexTrees_other ts : ∀ idx m r,
  r ∉ refsOf (ts ≫= (λ t, Tree.card t :: attachmentsOf t)) →
  indexTrees idx ts m !! r = m !! r.
Proof.
  induction ts as [|t ts IH]; intros idx m r Hr; simpl; [done|].
  rewrite bind_cons in Hr. unfold refsOf in Hr.
  rewrite fmap_app, fmap_cons, elem_of_app, elem_of_cons in Hr.
  rewrite IH by tauto. rewrite foldl_insert_const.
  destruct (decide _) as [Hin|_]; [unfold refsOf in Hin; tauto|].
  rewrite lookup_insert_ne; [done|]. intros <-. apply Hr. left. by left.
Qed.

Lemma indexTrees_lookup ts : ∀ idx m j t c,
  NoDup (refsOf (ts ≫= (λ t, Tree.card t :: attachmentsOf t))) →
  ts !! j = Some t → c ∈ Tree.card t :: attachmentsOf t →
  indexTrees idx ts m !! CardInstance.ref c = Some (idx + j).
Proof.
  induction ts as [|t0 ts IH]; intros idx m j t c Hnd Hj Hc; [done|].
  rewrite bind_cons in Hnd. unfold refsOf in Hnd. rewrite fmap_app in Hnd.
  apply NoDup_app in Hnd as (_ & Hdisj & Hnd).
  destruct j as [|j]; simpl in Hj.
  - injection Hj as ->. simpl. rewrite indexTrees_other.
    + rewrite foldl_insert_const, Nat.add_0_r.
      apply elem_of_cons in Hc as [->|Hc].
      * destruct (decide _); [done|]. apply lookup_insert_eq.
      * destruct (decide _) as [|Hn]; [done|]. destruct Hn.
        unfold refsOf. apply list_elem_of_fmap. by exists c.
    + apply Hdisj. apply list_elem_of_fmap. by exists c.
  - simpl. rewrite (IH (S idx) _ j t c Hnd Hj Hc). f_equal. lia.
Qed.

Lemma buildBoxToTreeIndex_lookup forest j t c :
  NoDup (refsOf (forestInstances forest)) →
  sortTreesVisually (Forest.trees forest) !! j = Some t →
  c ∈ Tree.card t :: attachmentsOf t →
  buildBoxToTreeIndex forest !! CardInstance.ref c = Some j.
Proof.
  intros Hnd Hj Hc. unfold buildBoxToTreeIndex.
  rewrite (indexTrees_lookup _ 0 ∅ j t c); [done| |done|done].
  unfold refsOf, forestInstances in *. by rewrite sortTreesVisually_perm.
Qed.

(** ** Placements *)

Lemma setIfAbsent_keep {V} k (v : V) m r w :
  m !! r = Some w → setIfAbsent k v m !! r = Some w.
Proof.
  intros Hr. unfold setIfAbsent. destruct (m !! k) eqn:Hk; [done|].
  rewrite lookup_insert_ne; [done|]. by intros ->; rewrite Hk in Hr.
Qed.

Lemma setIfAbsent_new {V} k (v : V) m :
  m !! k = None → setIfAbsent k v m !! k = Some v.
Proof. intros Hk. unfold setIfAbsent. rewrite Hk. apply lookup_insert_eq. Qed.

Lemma setIfAbsent_other {V} k (v : V) m r :
  r ≠ k → setIfAbsent k v m !! r = m !! r.
Proof.
  intros Hr. unfold setIfAbsent. destruct (m !! k); [done|]. by rewrite lookup_insert_ne.
Qed.

Lemma placeAll_keep tree side cs : ∀ m r w,
  m !! r = Some w → placeAll tree side cs m !! r = Some w.
Proof.
  unfold placeAll. induction cs as [|c cs IH]; intros m r w Hr; simpl; [done|].
  by apply IH, setIfAbsent_keep.
Qed.

Lemma placeAll_other tree side cs : ∀ m r,
  r ∉ refsOf cs → placeAll tree side cs m !! r = m !! r.
Proof.
  unfold placeAll. induction cs as [|c cs IH]; intros m r Hr; simpl; [done|].
  unfold refsOf in Hr. rewrite fmap_cons, elem_of_cons in Hr.
  rewrite IH by (unfold refsOf; tauto). apply setIfAbsent_other. tauto.
Qed.

Lemma placeAll_placed tree side cs c : ∀ m,
  c ∈ cs → m !! CardInstance.ref c = None → placedIn tree c (placeAll tree side cs m).
Proof.
  unfold placeAll. induction cs as [|c0 cs IH]; intros m Hc Hm; [by apply elem_of_nil in Hc|].
  simpl. destruct (decide (CardInstance.ref c0 = CardInstance.ref c)) as [Heq|Hne].
  - exists (Some side). apply (placeAll_keep tree side cs). change (Box.ref (CardInstance.box c0)) with (CardInstance.ref c0).
    rewrite Heq. by apply setIfAbsent_new.
  - apply elem_of_cons in Hc as [->|Hc]; [done|]. apply IH; [done|].
    rewrite setIfAbsent_other; [done|]. intros Heq. apply Hne. symmetry. exact Heq.
Qed.

Lemma placeTree_keep m tree r w : m !! r = Some w → placeTree m tree !! r = Some w.
Proof.
  intros Hr. unfold placeTree.
  by do 4 apply placeAll_keep; apply setIfAbsent_keep.
Qed.

Lemma placeTree_other m tree r :
  r ∉ refsOf (Tree.card tree :: attachmentsOf tree) → placeTree m tree !! r = m !! r.
Proof.
  unfold refsOf, attachmentsOf. rewrite fmap_cons, !fmap_app, elem_of_cons, !elem_of_app.
  intros Hr. unfold placeTree.
  rewrite !placeAll_other by (unfold refsOf; tauto).
  apply setIfAbsent_other. tauto.
Qed.

Lemma placeTree_placed m tree c :
  c ∈ Tree.card tree :: attachmentsOf tree →
  m !! CardInstance.ref c = None →
  placedIn tree c (placeTree m tree).
Proof.
  intros Hc Hm. unfold placeTree.
  set (m0 := setIfAbsent _ _ m).
  set (m1 := placeAll tree Top _ m0).
  set (m2 := placeAll tree Bottom _ m1).
  set (m3 := placeAll tree Left _ m2).
  assert (∀ side cs m', placedIn tree c m' → placedIn tree c (placeAll tree side cs m')) as Hkeep.
  { intros side cs m' [s Hs]. exists s. by apply placeAll_keep. }
  assert (∀ side cs m', c ∈ cs →
            placedIn tree c m' ∨ m' !! CardInstance.ref c = None →
            placedIn tree c (placeAll tree side cs m')) as Hstep.
  { intros side cs m' Hin [?|?]; [by apply Hkeep|by apply placeAll_placed]. }
  assert (∀ side cs m', placedIn tree c m' ∨ m' !! CardInstance.ref c = None →
            placedIn tree c (placeAll tree side cs m')
            ∨ placeAll tree side cs m' !! CardInstance.ref c = None) as Hor.
  { intros side cs m' [?|Hn]; [left; by apply Hkeep|].
    destruct (placeAll tree side cs m' !! CardInstance.ref c) as [w|] eqn:Hw; [|by right].
    left. destruct (decide (CardInstance.ref c ∈ refsOf cs)) as [Hin|Hnin].
    - unfold refsOf in Hin. apply list_elem_of_fmap in Hin as (c' & Hr & Hc').
      destruct (placeAll_placed tree side cs c' m' Hc') as [s Hs]; [by rewrite <- Hr|].
      exists s. by rewrite Hr.
    - rewrite placeAll_other in Hw by done. congruence. }
  assert (placedIn tree c m0 ∨ m0 !! CardInstance.ref c = None) as H0.
  { subst m0. destruct (decide (CardInstance.ref c = CardInstance.ref (Tree.card tree))) as [Heq|Hne].
    - left. exists None. rewrite Heq. apply setIfAbsent_new.
      rewrite Heq in Hm. exact Hm.
    - right. by rewrite setIfAbsent_other. }
  apply elem_of_cons in Hc as [->|Hc].
  { do 4 apply Hkeep. exists None. by apply setIfAbsent_new. }
  unfold attachmentsOf in Hc. rewrite !elem_of_app in Hc.
  pose proof (Hor Top (Tree.top tree) m0 H0) as H1. fold m1 in H1.
  pose proof (Hor Bottom (Tree.bottom tree) m1 H1) as H2. fold m2 in H2.
  pose proof (Hor Left (Tree.left tree) m2 H2) as H3. fold m3 in H3.
  destruct Hc as [Hc|[Hc|[Hc|Hc]]].
  - do 3 apply Hkeep. by apply Hstep.
  - apply Hkeep. by apply Hstep.
  - by apply Hstep.
  - do 2 apply Hkeep. by apply Hstep.
Qed.

Lemma foldl_placeTree_keep ts : ∀ m r w,
  m !! r = Some w → foldl placeTree m ts !! r = Some w.
Proof.
  induction ts as [|t ts IH]; intros m r w Hr; simpl; [done|].
  by apply IH, placeTree_keep.
Qed.

Lemma foldl_placeTree_placed ts : ∀ m tree c,
  NoDup (refsOf (ts ≫= (λ t, Tree.card t :: attachmentsOf t))) →
  tree ∈ ts → c ∈ Tree.card tree :: attachmentsOf tree →
  m !! CardInstance.ref c = None →
  placedIn tree c (foldl placeTree m ts).
Proof.
  induction ts as [|t ts IH]; intros m tree c Hnd Ht Hc Hm; [by apply elem_of_nil in Ht|].
  rewrite bind_cons in Hnd. unfold refsOf in Hnd. rewrite fmap_app in Hnd.
  apply NoDup_app in Hnd as (_ & Hdisj & Hnd). simpl.
  apply elem_of_cons in Ht as [->|Ht].
  - destruct (placeTree_placed m t c Hc Hm) as [s Hs]. exists s.
    by apply foldl_placeTree_keep.
  - apply IH; [done|done|done|].
    rewrite placeTree_other; [done|]. intros Hin.
    apply (Hdisj _ Hin). apply list_elem_of_fmap. exists c. split; [done|].
    apply list_elem_of_bind. by exists tree.
Qed.

Lemma buildPlacementsByBox_lookup forest tree c :
  NoDup (refsOf (forestInstances forest)) →
  tree ∈ Forest.trees forest → c ∈ Tree.card tree :: attachmentsOf tree →
  placedIn tree c (buildPlacementsByBox forest).
Proof.
  intros Hnd Ht Hc. by apply (foldl_placeTree_placed (Forest.trees forest) ∅).
Qed.

(** C7, as the code has it: for a condition with [fullTree], when the
    "most" gate lets the count through, [countMatches] returns 1 if the tree
    of the instance's placement has four non-empty sides and 0 otherwise
    (also without a placement), whatever else the condition says; when the
    gate fails it returns 0.  In a forest of [buildForest] the placement of
    an instance is the tree that holds it. *)
Theorem countMatches_fullTree self cond all pl am res st :
  ConditionJson.fullTree cond = true →
  countMatches self cond all pl am res st
  = (let '(ok, st') := mostGate self cond am res st in
     (if ok then
        match pl !! Box.ref (CardInstance.box self) with
        | Some p => if isFullTree (Placement.tree p) then 1%Z else 0%Z
        | None => 0%Z
        end
      else 0%Z, st'))
  ∧ (∀ tree,
       isFullTree tree = true ↔
       Tree.top tree ≠ [] ∧ Tree.bottom tree ≠ [] ∧ Tree.left tree ≠ []
       ∧ Tree.right tree ≠ [])
  ∧ (∀ cards base dcs tree,
       let forest := buildForest (toBoxes base dcs) cards in
       tree ∈ Forest.trees forest →
       self ∈ Tree.card tree :: attachmentsOf tree →
       fst (mostGate self cond am res st) = true →
       fst (countMatches self cond all (buildPlacementsByBox forest) am res st)
       = if isFullTree tree then 1%Z else 0%Z).
Proof.
  intros Hf.
  assert (∀ pl', countMatches self cond all pl' am res st
    = (let '(ok, st') := mostGate self cond am res st in
       (if ok then
          match pl' !! Box.ref (CardInstance.box self) with
          | Some p => if isFullTree (Placement.tree p) then 1%Z else 0%Z
          | None => 0%Z
          end
        else 0%Z, st'))) as Hcount.
  { intros pl'. unfold countMatches, bind.
    destruct (mostGate self cond am res st) as [[] st']; simpl; [|done].
    by rewrite Hf. }
  split; [apply Hcount|]. split; [apply isFullTree_spec|].
  intros cards base dcs tree forest Ht Hself Hgate.
  rewrite Hcount. destruct (mostGate self cond am res st) as [ok st']. simpl in *.
  subst ok.
  destruct (buildPlacementsByBox_lookup forest tree self) as [side Hs]; [|done|done|].
  { apply buildForest_instances_NoDup, toBoxes_NoDup. }
  change (Box.ref (CardInstance.box self)) with (CardInstance.ref self).
  by rewrite Hs.
Qed.

(** ** The scenarios *)

(** C1: the label of the single card of the player has a colon, and the
    card is attached to no tree; [score] returns the total 0 and no entry
    for it, not an entry with 0 points and no group: [buildForest] leaves
    the cards it attaches to no tree in [remaining] and returns the trees
    only, and the loop of [sortCardsInUiOrder] for the unattached cards
    walks the trees again. *)
Theorem isolated_card_has_no_entry :
  (0 ≤ Js.indexOf ":"%char "fox:oak")%Z
  ∧ PlayerInput.cards Scenario.isolated
    = [Scenario.boxToCard 0.1 0.4 0.2 0.6 "fox:oak"]
  ∧ score Scenario.cards [Scenario.isolated] = [PlayerScoreResult.mk "Alice" 0 []].
Proof. split; [by vm_compute|]. split; vm_compute; reflexivity. Qed.

(** The label of a group says Baum; and in a tighter row the card directly
    to the right of the oak is nearer still to the left of the birch, and
    gets the group of the birch. *)
Lemma group_label_is_Baum :
  score Scenario.cards [Scenario.alice] = [Scenario.aliceResult]
  ∧ (∃ d, PlayerScoreResult.cardDetails Scenario.aliceResult !! 1 = Some d
          ∧ CardScoreDetail.cardId d = "wolf:oak"%string
          ∧ CardScoreDetail.group d = Some "Baum 1"%string
          ∧ CardScoreDetail.group d ≠ Some "Structure 1"%string)
  ∧ leftToRight (boxOf Row.oak) (boxOf Row.tightBirch) = true
  ∧ is_Some (sideGap (boxOf Row.tightWolf) (boxOf Row.oak) Right)
  ∧ is_Some (sideGap (boxOf Row.tightWolfAtBirch) (boxOf Row.tightBirch) Right)
  ∧ ∃ r d, score Scenario.cards [Row.erin] = [r]
           ∧ PlayerScoreResult.cardDetails r !! 2 = Some d
           ∧ CardScoreDetail.cardId d = "wolf:oak"%string
           ∧ CardScoreDetail.group d = Some "Baum 2"%string.
Proof.
  split; [vm_compute; reflexivity|]. split.
  { eexists. split; [reflexivity|]. split; [reflexivity|]. split; [reflexivity|].
    discriminate. }
  split; [vm_compute; reflexivity|].
  split; [vm_compute; by eexists|]. split; [vm_compute; by eexists|].
  eexists _, _. split; [vm_compute; reflexivity|]. split; [reflexivity|].
  split; reflexivity.
Qed.

Lemma fixed_rule_points_witness :
  let result :=
    fst (scoreInstanceWithReason Scenario.oakC [Scenario.oakC]
           (buildPlacementsByBox Scenario.forestC) false
           (Some (mostResolverOf (prepareFrom Scenario.cards 0 [Scenario.loneOak]) 0))
           ScoreState.fresh) in
  fst result = 0%Z
  ∧ ∃ rest, snd result
            = "0 Punkte (Bedingung nicht erfüllt: 1 Treffer, mind. 8 " +:+ rest.
Proof.
  apply (fixed_rule_points Scenario.oakC Scenario.oakDef Scenario.oakRule 10
           [Scenario.oakC] (buildPlacementsByBox Scenario.forestC) false
           (Some (mostResolverOf (prepareFrom Scenario.cards 0 [Scenario.loneOak]) 0))
           ScoreState.fresh eq_refl eq_refl eq_refl eq_refl);
    vm_compute; reflexivity.
Defined.

Lemma table_score_clamped_witness :
  Some (scoreTableIndex [1; 3; 6; 10]%Z 7) = last [1; 3; 6; 10]%Z.
Proof.
  apply (table_score_clamped [1; 3; 6; 10]%Z 7); [discriminate|]. simpl. lia.
Defined.

Lemma fullTree_gated_by_most :
  ConditionJson.fullTree Scenario.gatedCondition = true
  ∧ Scenario.treeBob ∈ Forest.trees Scenario.forestBob
  ∧ Scenario.foxBob ∈ Tree.top Scenario.treeBob
  ∧ placedIn Scenario.treeBob Scenario.foxBob (buildPlacementsByBox Scenario.forestBob)
  ∧ isFullTree Scenario.treeBob = true
  ∧ fst (countMatches Scenario.foxBob Scenario.gatedCondition
           (allCardInstances Scenario.forestBob)
           (buildPlacementsByBox Scenario.forestBob) false
           (Some (mostResolverOf Scenario.preparedGated 0)) ScoreState.fresh)
    = 0%Z.
Proof.
  split; [reflexivity|]. split; [vm_compute; by left|]. split; [vm_compute; by left|].
  split; [exists (Some Top); vm_compute; reflexivity|].
  split; vm_compute; reflexivity.
Qed.

Lemma countMatches_fullTree_witness :
  fst (countMatches Scenario.foxCarol Scenario.gatedCondition
         (allCardInstances Scenario.forestCarol)
         (buildPlacementsByBox
            (buildForest (toBoxes 5 Scenario.largerTreeCards) Scenario.gatedCards))
         false (Some (mostResolverOf Scenario.preparedGated 1)) ScoreState.fresh)
  = (if isFullTree Scenario.treeCarol then 1 else 0)%Z.
Proof.
  apply (proj2 (proj2
           (countMatches_fullTree Scenario.foxCarol Scenario.gatedCondition
              (allCardInstances Scenario.forestCarol)
              (buildPlacementsByBox Scenario.forestCarol) false
              (Some (mostResolverOf Scenario.preparedGated 1)) ScoreState.fresh eq_refl))
           Scenario.gatedCards 5 Scenario.largerTreeCards Scenario.treeCarol).
  - vm_compute. by left.
  - vm_compute. right. by left.
  - vm_compute. reflexivity.
Defined.

(** C2: on a pool with an owl and a joker whose joker type is the
    condition's type, [countForMostKey] counts 1 where the filter of
    [filterCards] over the same pool keeps 2 instances. *)
Theorem most_count_misses_joker :
  countForMostKey (makeMostKey Scenario.owlInst Scenario.birdCondition)
    Scenario.birdPool Scenario.birdCondition = 1%Z
  ∧ Z.of_nat (length (filterCards Scenario.owlInst Scenario.birdPool
                        Scenario.birdCondition)) = 2%Z
  ∧ ConditionJson.unique Scenario.birdCondition = false.
Proof. repeat split; vm_compute; reflexivity. Qed.

(** C3: two conditions with [most] that differ in their type have the same
    key string.  Alice has one owl and Bob two, so Bob alone has the maximum
    count of the owl's condition; but the lynx of Alice asked for the key
    first, with its own condition, and [score] pays the owl of Alice as a
    winner's and gives the owls of Bob nothing. *)
Theorem most_winner_below_maximum :
  ConditionJson.most Scenario.birdCondition = true
  ∧ mostKeyStr (makeMostKey Typed.lynxAlice Typed.catCondition)
    = mostKeyStr (makeMostKey Typed.owlAlice Scenario.birdCondition)
  ∧ (λ p, countForMostKey (makeMostKey Typed.owlAlice Scenario.birdCondition)
            (PreparedPlayer.all p) Scenario.birdCondition)
      <$> prepareFrom Typed.cards 0 [Typed.alice; Typed.bob]
    = [1; 2]%Z
  ∧ score Typed.cards [Typed.alice; Typed.bob] = [Typed.aliceResult; Typed.bobResult]
  ∧ (CardScoreDetail.points <$> PlayerScoreResult.cardDetails Typed.aliceResult) !! 2
    = Some 2%Z
  ∧ CardScoreDetail.points <$> PlayerScoreResult.cardDetails Typed.bobResult
    = [0; 0; 0]%Z.
Proof.
  split; [reflexivity|]. split; [reflexivity|].
  split; [vm_compute; reflexivity|]. split; [vm_compute; reflexivity|].
  split; reflexivity.
Qed.

(** ** The results do not depend on where the objects are allocated *)

Section move.
Context (δ : nat).

Local Abbreviation mb := (moveBox δ).
Local Abbreviation mi := (moveInst δ).

Lemma moveInst_ref c : CardInstance.ref (mi c) = CardInstance.ref c + δ.
Proof. done. Qed.

Lemma moveInst_inj c1 c2 : mi c1 = mi c2 → c1 = c2.
Proof.
  destruct c1 as [[] ? ? ?], c2 as [[] ? ? ?]. unfold moveInst, moveBox. simpl.
  intros [=]. f_equal; [f_equal|..]; (done || lia).
Qed.

Lemma overlapH_move a b : overlapH (mb a) (mb b) = overlapH a b.
Proof. done. Qed.

Lemma overlapV_move a b : overlapV (mb a) (mb b) = overlapV a b.
Proof. done. Qed.

Lemma placementStep_move card tree best side :
  placementStep (mi card) (mi tree) (moveCandidate δ <$> best) side
  = moveCandidate δ <$> placementStep card tree best side.
Proof.
  unfold placementStep.
  change (CardInstance.box (mi card)) with (mb (CardInstance.box card)).
  change (CardInstance.box (mi tree)) with (mb (CardInstance.box tree)).
  rewrite !overlapH_move, !overlapV_move.
  cbn [moveBox Box.x1 Box.x2 Box.y1 Box.y2 Box.cx Box.cy Box.w Box.h].
  repeat (match goal with
          | |- context [if ?b then _ else _] => destruct b
          end; try done).
  all: destruct best as [b|]; simpl; try done.
  all: repeat (match goal with
               | |- context [if ?b then _ else _] => destruct b
               end; try done).
Qed.

Lemma foldl_commute {A A' B B'} (f : A → B → A) (f' : A' → B' → A')
    (g : A → A') (h : B → B') (l : list B) : ∀ a,
  (∀ a x, f' (g a) (h x) = g (f a x)) →
  foldl f' (g a) (h <$> l) = g (foldl f a l).
Proof.
  induction l as [|x l IH]; intros a Hf; [done|].
  rewrite fmap_cons. cbn [foldl]. rewrite Hf. by apply IH.
Qed.

Lemma filter_fmap_commute {A B} (P : A → bool) (Q : B → bool) (h : A → B) (l : list A) :
  (∀ x, Q (h x) = P x) → List.filter Q (h <$> l) = h <$> List.filter P l.
Proof.
  intros HPQ. induction l as [|x l IH]; [done|].
  csimpl. rewrite HPQ, IH. by destruct (P x).
Qed.

Lemma omap_fmap_commute {A A' B B'} (f : A → option B) (f' : A' → option B')
    (h : A → A') (g : B → B') (l : list A) :
  (∀ x, f' (h x) = g <$> f x) → omap f' (h <$> l) = g <$> omap f l.
Proof.
  intros Hf. induction l as [|x l IH]; [done|].
  csimpl. rewrite Hf, IH. by destruct (f x).
Qed.

Lemma bestPlacementCandidate_move card tree :
  bestPlacementCandidate (mi card) (mi tree)
  = moveCandidate δ <$> bestPlacementCandidate card tree.
Proof.
  unfold bestPlacementCandidate.
  change (@None PlacementCandidate) with (moveCandidate δ <$> @None PlacementCandidate) at 1.
  rewrite <- (list_fmap_id [Top; Left; Right; Bottom]) at 1.
  apply (foldl_commute (placementStep card tree) (placementStep (mi card) (mi tree))
           (fmap (moveCandidate δ)) id).
  intros. apply placementStep_move.
Qed.

Lemma betterCandidate_move best cand :
  betterCandidate (moveCandidate δ <$> best) (moveCandidate δ cand)
  = moveCandidate δ <$> betterCandidate best cand.
Proof.
  unfold betterCandidate. destruct best as [b|]; simpl; [|done].
  by destruct (_ || _).
Qed.

Lemma bestOverTrees_move card treeCards :
  bestOverTrees (mi card) (mi <$> treeCards)
  = moveCandidate δ <$> bestOverTrees card treeCards.
Proof.
  unfold bestOverTrees.
  change (@None PlacementCandidate) with (moveCandidate δ <$> @None PlacementCandidate) at 1.
  apply (foldl_commute _ _ (fmap (moveCandidate δ)) mi).
  intros best tree. rewrite bestPlacementCandidate_move.
  destruct (bestPlacementCandidate card tree); simpl; [|done].
  apply betterCandidate_move.
Qed.

Lemma adjacentDist_move anchorBox side card :
  adjacentDist (mb anchorBox) side (mi card) = adjacentDist anchorBox side card.
Proof. done. Qed.

Lemma pickDirectlyAdjacent_move anchorBox cards side :
  pickDirectlyAdjacent (mb anchorBox) (mi <$> cards) side
  = mi <$> pickDirectlyAdjacent anchorBox cards side.
Proof.
  unfold pickDirectlyAdjacent.
  rewrite (omap_fmap_commute
             (λ card, pair card <$> adjacentDist anchorBox side card) _ mi
             (prod_map mi id)).
  2:{ intros c. rewrite adjacentDist_move. by destruct (adjacentDist anchorBox side c). }
  generalize (omap (λ card, pair card <$> adjacentDist anchorBox side card) cards).
  intros candidates.
  assert (map fst
            (List.filter
               (λ cd, (snd cd <=? Js.Math_min_list (map snd (prod_map mi id <$> candidates))
                                  + ADJACENT_EPSILON)%float)
               (prod_map mi id <$> candidates))
          = mi <$> map fst
              (List.filter
                 (λ cd, (snd cd <=? Js.Math_min_list (map snd candidates)
                                    + ADJACENT_EPSILON)%float)
                 candidates)) as H.
  { map_to_fmap. rewrite <- !list_fmap_compose.
    assert (snd ∘ prod_map mi id = @snd CardInstance float) as -> by done.
    rewrite (filter_fmap_commute
               (λ cd, (snd cd <=? Js.Math_min_list (snd <$> candidates)
                                  + ADJACENT_EPSILON)%float)
               _ (prod_map mi id)) by done.
    by rewrite <- !list_fmap_compose. }
  revert H. destruct candidates; [done|]. intros H. exact H.
Qed.

Lemma sameInstance_move a b : sameInstance (mi a) (mi b) = sameInstance a b.
Proof.
  unfold sameInstance. rewrite !moveInst_ref.
  destruct (Nat.eqb_spec (CardInstance.ref a) (CardInstance.ref b)) as [->|Hne].
  - apply Nat.eqb_refl.
  - apply Nat.eqb_neq. lia.
Qed.

Lemma hasInstance_move s c : hasInstance (mi <$> s) (mi c) = hasInstance s c.
Proof.
  unfold hasInstance. induction s as [|x s IH]; [done|].
  csimpl. by rewrite sameInstance_move, IH.
Qed.

Lemma addInstance_move s c : addInstance (mi <$> s) (mi c) = mi <$> addInstance s c.
Proof.
  unfold addInstance. rewrite hasInstance_move.
  destruct (hasInstance s c); [done|]. by rewrite fmap_app.
Qed.

Lemma indexOfInstance_move arr c :
  indexOfInstance (mi <$> arr) (mi c) = indexOfInstance arr c.
Proof.
  induction arr as [|x arr IH]; [done|].
  csimpl. by rewrite sameInstance_move, IH.
Qed.

Lemma nextAdjacent_move side anchors remaining :
  nextAdjacent side (mb <$> anchors) (mi <$> remaining)
  = mi <$> nextAdjacent side anchors remaining.
Proof.
  unfold nextAdjacent.
  change (@nil CardInstance) with (mi <$> @nil CardInstance) at 1.
  apply (foldl_commute _ _ (fmap mi) mb).
  intros next anchor. rewrite pickDirectlyAdjacent_move.
  apply (foldl_commute addInstance addInstance (fmap mi) mi).
  apply addInstance_move.
Qed.

Lemma moveToChain_move st c :
  moveToChain (moveChain δ st) (mi c) = moveChain δ (moveToChain st c).
Proof.
  unfold moveToChain. cbn [moveChain Chain.remaining Chain.anchors Chain.attached].
  rewrite indexOfInstance_move.
  destruct (indexOfInstance (Chain.remaining st) c) as [idx|]; [|done].
  unfold moveChain. cbn. by rewrite !fmap_app, list_fmap_delete.
Qed.

Lemma expandRounds_move side fuel : ∀ st,
  expandRounds fuel side (moveChain δ st) = moveChain δ <$> expandRounds fuel side st.
Proof.
  induction fuel as [|fuel IH]; intros st; [done|].
  cbn [expandRounds]. cbn [moveChain Chain.remaining Chain.anchors].
  rewrite nextAdjacent_move.
  destruct (nextAdjacent side (Chain.anchors st) (Chain.remaining st)) as [|c next].
  { done. }
  rewrite fmap_cons. cbv iota. rewrite <- fmap_cons.
  rewrite (foldl_commute moveToChain moveToChain (moveChain δ) mi)
    by apply moveToChain_move.
  apply IH.
Qed.

Lemma expandSideChain_move treeBox side attached remaining :
  expandSideChain (mb treeBox) side (mi <$> attached) (mi <$> remaining)
  = prod_map (fmap mi) (fmap mi) (expandSideChain treeBox side attached remaining).
Proof.
  unfold expandSideChain. rewrite length_fmap.
  pose proof (expandRounds_move side (S (length remaining))
                (Chain.mk (treeBox :: map CardInstance.box attached) attached remaining))
    as H.
  unfold moveChain in H. cbn [Chain.anchors Chain.attached Chain.remaining] in H.
  assert (mb treeBox :: map CardInstance.box (mi <$> attached)
          = mb <$> (treeBox :: map CardInstance.box attached)) as ->.
  { rewrite fmap_cons. f_equal. map_to_fmap. by rewrite <- !list_fmap_compose. }
  rewrite H. clear H. by destruct (expandRounds _ _ _).
Qed.

(** *** The maps of side lists *)

Local Instance add_inj : Inj (=) (=) (λ k : nat, k + δ).
Proof. intros ???. lia. Qed.

Lemma moveKeys_lookup {V} (m : gmap nat V) k : moveKeys δ m !! (k + δ) = m !! k.
Proof. unfold moveKeys. apply (lookup_kmap (λ k, k + δ)). Qed.

Lemma moveKeys_insert {V} (m : gmap nat V) k v :
  moveKeys δ (<[k := v]> m) = <[k + δ := v]> (moveKeys δ m).
Proof. unfold moveKeys. apply (kmap_insert (λ k, k + δ)). Qed.

Lemma moveKeys_empty {V} : moveKeys δ (∅ : gmap nat V) = ∅.
Proof. unfold moveKeys. apply (kmap_empty (λ k, k + δ)). Qed.

Lemma moveSideMap_lookup g k :
  moveSideMap δ g !! (k + δ) = (λ l : list CardInstance, mi <$> l) <$> g !! k.
Proof. unfold moveSideMap. by rewrite moveKeys_lookup, lookup_fmap. Qed.

Lemma moveSideMap_insert g k l :
  moveSideMap δ (<[k := l]> g) = <[k + δ := mi <$> l]> (moveSideMap δ g).
Proof. unfold moveSideMap. by rewrite fmap_insert, moveKeys_insert. Qed.

Lemma moveSideMaps_get side m :
  SideMaps.get side (moveSideMaps δ m) = moveSideMap δ (SideMaps.get side m).
Proof. by destruct side. Qed.

Lemma moveSideMaps_set side g m :
  SideMaps.set side (moveSideMap δ g) (moveSideMaps δ m)
  = moveSideMaps δ (SideMaps.set side g m).
Proof. by destruct side. Qed.

Lemma moveSideMaps_empty : moveSideMaps δ SideMaps.empty = SideMaps.empty.
Proof.
  unfold moveSideMaps, moveSideMap, SideMaps.empty. simpl.
  by rewrite fmap_empty, moveKeys_empty.
Qed.

Lemma sideListFor_move tree side m :
  sideListFor (mi tree) side (moveSideMaps δ m)
  = prod_map (fmap mi) (moveSideMaps δ) (sideListFor tree side m).
Proof.
  unfold sideListFor. rewrite moveSideMaps_get.
  change (Box.ref (CardInstance.box (mi tree)))
    with (Box.ref (CardInstance.box tree) + δ).
  rewrite moveSideMap_lookup.
  destruct (SideMaps.get side m !! Box.ref (CardInstance.box tree)) as [l|]; [done|].
  simpl. by rewrite <- moveSideMaps_set, moveSideMap_insert.
Qed.

Lemma storeSideList_move tree side l m :
  storeSideList (mi tree) side (mi <$> l) (moveSideMaps δ m)
  = moveSideMaps δ (storeSideList tree side l m).
Proof.
  unfold storeSideList. rewrite moveSideMaps_get.
  change (Box.ref (CardInstance.box (mi tree)))
    with (Box.ref (CardInstance.box tree) + δ).
  by rewrite <- moveSideMaps_set, moveSideMap_insert.
Qed.

Lemma pushSide_move tree side card m :
  pushSide (mi tree) side (mi card) (moveSideMaps δ m)
  = moveSideMaps δ (pushSide tree side card m).
Proof.
  unfold pushSide. rewrite sideListFor_move.
  destruct (sideListFor tree side m) as [l m1]. simpl.
  by rewrite <- storeSideList_move, fmap_app.
Qed.

Lemma placeDirectly_move treeCards m card :
  placeDirectly (mi <$> treeCards) (moveSideMaps δ m) (mi card)
  = moveSideMaps δ (placeDirectly treeCards m card).
Proof.
  unfold placeDirectly. rewrite bestOverTrees_move.
  destruct (bestOverTrees card treeCards) as [best|]; [|done].
  apply pushSide_move.
Qed.

Lemma mjoin_fmap_fmap {A B} (f : A → B) (ls : list (list A)) :
  mjoin ((λ l : list A, f <$> l) <$> ls) = f <$> mjoin ls.
Proof.
  induction ls as [|l ls IH]; [done|]. csimpl. by rewrite IH, fmap_app.
Qed.

Lemma mapValues_move g : mapValues (moveSideMap δ g) ≡ₚ mi <$> mapValues g.
Proof.
  unfold mapValues, moveSideMap, moveKeys.
  rewrite (map_to_list_kmap (λ k, k + δ)), map_to_list_fmap.
  rewrite <- !list_fmap_compose.
  rewrite <- mjoin_fmap_fmap, <- list_fmap_compose. done.
Qed.

Lemma directlyPlacedOf_move m :
  directlyPlacedOf (moveSideMaps δ m) ≡ₚ mi <$> directlyPlacedOf m.
Proof.
  unfold directlyPlacedOf, moveSideMaps. simpl.
  by rewrite !fmap_app, !mapValues_move.
Qed.

Lemma hasInstance_Permutation l l' c :
  l ≡ₚ l' → hasInstance l c = hasInstance l' c.
Proof.
  intros Hp. apply eq_true_iff_eq. rewrite !hasInstance_refs.
  unfold refsOf. by rewrite Hp.
Qed.

Lemma remaining_move m cardInsts :
  List.filter (λ c, negb (hasInstance (directlyPlacedOf (moveSideMaps δ m)) c))
    (mi <$> cardInsts)
  = mi <$> List.filter (λ c, negb (hasInstance (directlyPlacedOf m) c)) cardInsts.
Proof.
  apply filter_fmap_commute. intros c. f_equal.
  rewrite (hasInstance_Permutation _ _ _ (directlyPlacedOf_move m)).
  apply hasInstance_move.
Qed.

Lemma expandSide_move treeCard side m remaining :
  expandSide (mi treeCard) side (moveSideMaps δ m, mi <$> remaining)
  = prod_map (moveSideMaps δ) (fmap mi) (expandSide treeCard side (m, remaining)).
Proof.
  unfold expandSide. rewrite moveSideMaps_get.
  change (Box.ref (CardInstance.box (mi treeCard)))
    with (Box.ref (CardInstance.box treeCard) + δ).
  rewrite moveSideMap_lookup.
  assert (default [] ((λ l : list CardInstance, mi <$> l)
                      <$> SideMaps.get side m !! Box.ref (CardInstance.box treeCard))
          = mi <$> default [] (SideMaps.get side m !! Box.ref (CardInstance.box treeCard)))
    as -> by (by destruct (_ !! _)).
  change (CardInstance.box (mi treeCard)) with (mb (CardInstance.box treeCard)).
  rewrite expandSideChain_move.
  destruct (expandSideChain _ _ _ _) as [attached' remaining']. simpl.
  by rewrite storeSideList_move.
Qed.

Lemma sideListFor_move_snd tree side m :
  snd (sideListFor (mi tree) side (moveSideMaps δ m))
  = moveSideMaps δ (snd (sideListFor tree side m)).
Proof. rewrite sideListFor_move. by destruct (sideListFor tree side m). Qed.

Lemma expandTree_move st treeCard :
  expandTree (prod_map (moveSideMaps δ) (fmap mi) st) (mi treeCard)
  = prod_map (moveSideMaps δ) (fmap mi) (expandTree st treeCard).
Proof.
  destruct st as [m remaining]. unfold expandTree, prod_map. cbn [fst snd].
  do 4 rewrite sideListFor_move_snd.
  set (m4 := snd (sideListFor treeCard Right _)).
  rewrite expandSide_move.
  destruct (expandSide treeCard Top _) as [m5 r1]. cbn [prod_map fst snd].
  rewrite expandSide_move.
  destruct (expandSide treeCard Bottom _) as [m6 r2]. cbn [prod_map fst snd].
  rewrite expandSide_move.
  destruct (expandSide treeCard Left _) as [m7 r3]. cbn [prod_map fst snd].
  rewrite expandSide_move. done.
Qed.

Lemma treeOf_move m tc : treeOf (moveSideMaps δ m) (mi tc) = moveTree δ (treeOf m tc).
Proof.
  unfold treeOf, moveTree. simpl.
  change (Box.ref (CardInstance.box tc) + δ) with (Box.ref (CardInstance.box tc) + δ).
  rewrite !moveSideMap_lookup.
  f_equal; by destruct (_ !! _).
Qed.

Lemma parseCardInstance_move box defById :
  parseCardInstance (mb box) defById = mi <$> parseCardInstance box defById.
Proof. unfold parseCardInstance. simpl. by destruct (_ <? _)%Z. Qed.

Lemma buildForest_move boxes cards :
  buildForest (mb <$> boxes) cards = moveForest δ (buildForest boxes cards).
Proof.
  unfold buildForest.
  rewrite (filter_fmap_commute (isTreeBox (treeIdsOf cards)) _ mb) by done.
  rewrite (filter_fmap_commute (isOtherBox (treeIdsOf cards)) _ mb) by done.
  rewrite !(omap_fmap_commute (λ b, parseCardInstance b (defByIdOf cards)) _ mb mi)
    by (intros; apply parseCardInstance_move).
  fold (treeCardsOf boxes cards) (cardInstsOf boxes cards).
  rewrite <- moveSideMaps_empty.
  rewrite (foldl_commute (placeDirectly (treeCardsOf boxes cards)) _ (moveSideMaps δ) mi)
    by (intros; apply placeDirectly_move).
  set (m1 := foldl (placeDirectly _) _ _).
  rewrite remaining_move.
  set (remaining := List.filter _ (cardInstsOf boxes cards)).
  change (moveSideMaps δ m1, mi <$> remaining)
    with (prod_map (moveSideMaps δ) (fmap mi) (m1, remaining)).
  rewrite (foldl_commute expandTree expandTree (prod_map (moveSideMaps δ) (fmap mi)) mi
             (treeCardsOf boxes cards) (m1, remaining))
    by (intros; apply expandTree_move).
  destruct (foldl expandTree _ _) as [m2 r2]. simpl.
  unfold moveForest. simpl. f_equal. map_to_fmap.
  rewrite <- !list_fmap_compose. apply list_fmap_ext. intros _ tc _.
  apply treeOf_move.
Qed.

(** *** The forest utilities *)

Lemma attachmentsOf_move t : attachmentsOf (moveTree δ t) = mi <$> attachmentsOf t.
Proof. unfold attachmentsOf, moveTree. simpl. by rewrite !fmap_app. Qed.

Lemma allCardInstances_move f :
  allCardInstances (moveForest δ f) = mi <$> allCardInstances f.
Proof.
  unfold allCardInstances, moveForest. simpl.
  change (@nil CardInstance) with (mi <$> @nil CardInstance) at 1.
  apply (foldl_commute _ _ (fmap mi) (moveTree δ)).
  intros result tree. cbv beta. rewrite attachmentsOf_move. cbn [foldl].
  change (Tree.card (moveTree δ tree)) with (mi (Tree.card tree)).
  rewrite addInstance_move.
  apply (foldl_commute addInstance addInstance (fmap mi) mi). apply addInstance_move.
Qed.

Lemma setIfAbsent_move {V} k (v : V) m :
  setIfAbsent (k + δ) v (moveKeys δ m) = moveKeys δ (setIfAbsent k v m).
Proof.
  unfold setIfAbsent. rewrite moveKeys_lookup.
  destruct (m !! k); [done|]. by rewrite moveKeys_insert.
Qed.

Lemma setIfAbsent_fmap {V W} (f : V → W) k v (m : gmap nat V) :
  setIfAbsent k (f v) (f <$> m) = f <$> setIfAbsent k v m.
Proof.
  unfold setIfAbsent. rewrite lookup_fmap.
  destruct (m !! k); [done|]. by rewrite fmap_insert.
Qed.

Lemma placeAll_move tree side cs m :
  placeAll (moveTree δ tree) side (mi <$> cs) (movePlacements δ m)
  = movePlacements δ (placeAll tree side cs m).
Proof.
  unfold placeAll.
  apply (foldl_commute _ _ (movePlacements δ) mi).
  intros m' c. unfold movePlacements.
  change (Box.ref (CardInstance.box (mi c))) with (Box.ref (CardInstance.box c) + δ).
  rewrite setIfAbsent_move. f_equal.
  apply (setIfAbsent_fmap (movePlacement δ) _ (Placement.mk tree (Some side))).
Qed.

Lemma placeTree_move m tree :
  placeTree (movePlacements δ m) (moveTree δ tree) = movePlacements δ (placeTree m tree).
Proof.
  unfold placeTree. cbn [moveTree Tree.card Tree.top Tree.left Tree.right Tree.bottom].
  change (Box.ref (CardInstance.box (mi (Tree.card tree))))
    with (Box.ref (CardInstance.box (Tree.card tree)) + δ).
  fold (moveTree δ tree).
  assert (setIfAbsent (Box.ref (CardInstance.box (Tree.card tree)) + δ)
            (Placement.mk (moveTree δ tree) None) (movePlacements δ m)
          = movePlacements δ
              (setIfAbsent (Box.ref (CardInstance.box (Tree.card tree)))
                 (Placement.mk tree None) m)) as ->.
  { unfold movePlacements. rewrite setIfAbsent_move. f_equal.
    apply (setIfAbsent_fmap (movePlacement δ) _ (Placement.mk tree None)). }
  by rewrite !placeAll_move.
Qed.

Lemma buildPlacementsByBox_move f :
  buildPlacementsByBox (moveForest δ f) = movePlacements δ (buildPlacementsByBox f).
Proof.
  unfold buildPlacementsByBox, moveForest. simpl.
  assert ((∅ : gmap nat Placement) = movePlacements δ ∅) as Hempty.
  { unfold movePlacements. by rewrite fmap_empty, moveKeys_empty. }
  rewrite Hempty at 1.
  apply (foldl_commute placeTree placeTree (movePlacements δ) (moveTree δ)).
  apply placeTree_move.
Qed.

Lemma sort_insert_commute {A B} (cmp : A → A → float) (cmp' : B → B → float)
    (h : A → B) x l :
  (∀ a b, cmp' (h a) (h b) = cmp a b) →
  Js.sort_insert cmp' (h x) (h <$> l) = h <$> Js.sort_insert cmp x l.
Proof.
  intros Hc. induction l as [|y l IH]; [done|].
  csimpl. rewrite Hc, IH. by destruct (PrimFloat.ltb _ _).
Qed.

Lemma sort_commute {A B} (cmp : A → A → float) (cmp' : B → B → float) (h : A → B) l :
  (∀ a b, cmp' (h a) (h b) = cmp a b) →
  Js.sort cmp' (h <$> l) = h <$> Js.sort cmp l.
Proof.
  intros Hc. unfold Js.sort. induction l as [|x l IH]; [done|].
  csimpl. rewrite IH. by apply sort_insert_commute.
Qed.

Lemma sortTreesVisually_move ts :
  sortTreesVisually (moveTree δ <$> ts) = moveTree δ <$> sortTreesVisually ts.
Proof.
  unfold sortTreesVisually. destruct ts as [|t ts]; [done|].
  rewrite fmap_cons. cbv iota. rewrite <- fmap_cons. rewrite length_fmap.
  assert (foldl (λ s t, (s + Box.h (CardInstance.box (Tree.card t)))%float) 0%float
            (moveTree δ <$> t :: ts)
          = foldl (λ s t, (s + Box.h (CardInstance.box (Tree.card t)))%float) 0%float
              (t :: ts)) as ->.
  { generalize 0%float. induction (t :: ts) as [|x l IH]; intros a; [done|].
    csimpl. apply IH. }
  by apply sort_commute.
Qed.

Lemma indexTrees_move ts : ∀ idx m,
  indexTrees idx (moveTree δ <$> ts) (moveKeys δ m) = moveKeys δ (indexTrees idx ts m).
Proof.
  induction ts as [|t ts IH]; intros idx m; [done|].
  rewrite fmap_cons. cbn [indexTrees]. rewrite <- IH. f_equal.
  rewrite attachmentsOf_move.
  change (Box.ref (CardInstance.box (Tree.card (moveTree δ t))))
    with (Box.ref (CardInstance.box (Tree.card t)) + δ).
  rewrite <- moveKeys_insert.
  apply (foldl_commute _ _ (moveKeys δ) mi).
  intros m' c. symmetry. apply moveKeys_insert.
Qed.

Lemma buildBoxToTreeIndex_move f :
  buildBoxToTreeIndex (moveForest δ f) = moveKeys δ (buildBoxToTreeIndex f).
Proof.
  unfold buildBoxToTreeIndex, moveForest. simpl.
  rewrite sortTreesVisually_move, <- indexTrees_move. by rewrite moveKeys_empty.
Qed.

Lemma pushUnseen_move st box :
  pushUnseen (moveUi δ st) (mb box) = moveUi δ (pushUnseen st box).
Proof.
  unfold pushUnseen. cbn [moveUi UiOrder.seen UiOrder.sorted moveBox Box.ref].
  destruct (decide (Box.ref box ∈ UiOrder.seen st)) as [Hin|Hnin].
  - rewrite decide_True; [done|]. apply elem_of_map. by exists (Box.ref box).
  - rewrite decide_False.
    + unfold moveUi. cbn. by rewrite fmap_app, set_map_union_L, set_map_singleton_L.
    + intros (k & Hk & Hin)%elem_of_map. assert (k = Box.ref box) as -> by lia. done.
Qed.

Lemma pushAnchor_move st box :
  pushAnchor (moveUi δ st) (mb box) = moveUi δ (pushAnchor st box).
Proof.
  unfold pushAnchor, moveUi. cbn.
  by rewrite fmap_app, set_map_union_L, set_map_singleton_L.
Qed.

Lemma sortAttached_move tree cs side :
  sortAttached (moveTree δ tree) (mi <$> cs) side = mi <$> sortAttached tree cs side.
Proof.
  unfold sortAttached.
  rewrite (sort_commute (attachedOrder side) (attachedOrder side) mi) by done.
  by apply filter_fmap_commute.
Qed.

Lemma pushSorted_move tree side cs st :
  pushSorted (moveTree δ tree) side (mi <$> cs) (moveUi δ st)
  = moveUi δ (pushSorted tree side cs st).
Proof.
  unfold pushSorted. rewrite sortAttached_move.
  apply (foldl_commute _ _ (moveUi δ) mi).
  intros st' c. apply pushUnseen_move.
Qed.

Lemma uiTreeStep_move st tree :
  uiTreeStep (moveUi δ st) (moveTree δ tree) = moveUi δ (uiTreeStep st tree).
Proof.
  unfold uiTreeStep. cbn [moveTree Tree.card Tree.top Tree.left Tree.right Tree.bottom].
  fold (moveTree δ tree).
  change (CardInstance.box (mi (Tree.card tree)))
    with (mb (CardInstance.box (Tree.card tree))).
  by rewrite pushAnchor_move, !pushSorted_move.
Qed.

Lemma sortCardsInUiOrder_move f :
  sortCardsInUiOrder (moveForest δ f) = mb <$> sortCardsInUiOrder f.
Proof.
  unfold sortCardsInUiOrder. cbn [moveForest Forest.trees].
  rewrite sortTreesVisually_move.
  assert (UiOrder.mk [] ∅ = moveUi δ (UiOrder.mk [] ∅)) as ->.
  { unfold moveUi. cbn. by rewrite set_map_empty. }
  rewrite (foldl_commute uiTreeStep uiTreeStep (moveUi δ) (moveTree δ))
    by apply uiTreeStep_move.
  set (st1 := foldl uiTreeStep _ _).
  change (UiOrder.sorted ?st) with (UiOrder.sorted st).
  rewrite (foldl_commute
             (λ st tree, foldl pushUnseen st
                           (map CardInstance.box (Tree.card tree :: attachmentsOf tree)))
             _ (moveUi δ) (moveTree δ)).
  - done.
  - intros st tree. cbv beta. rewrite attachmentsOf_move.
    change (Tree.card (moveTree δ tree) :: (mi <$> attachmentsOf tree))
      with (mi <$> (Tree.card tree :: attachmentsOf tree)).
    map_to_fmap. rewrite <- list_fmap_compose.
    change (CardInstance.box ∘ mi) with (mb ∘ CardInstance.box).
    rewrite list_fmap_compose.
    apply (foldl_commute pushUnseen pushUnseen (moveUi δ) mb). apply pushUnseen_move.
Qed.

(** *** Scoring *)

Local Abbreviation mp := (movePrepared δ).
Local Abbreviation ms := (moveState δ).

Lemma moved_ret {A} (a : A) : moved δ (ret a) (ret a).
Proof. done. Qed.

Lemma moved_bind {A B} (m' m : M A) (k' k : A → M B) :
  moved δ m' m → (∀ a, moved δ (k' a) (k a)) → moved δ (bind m' k') (bind m k).
Proof.
  intros Hm Hk st. unfold bind. rewrite Hm.
  destruct (m st) as [a st']. simpl. apply Hk.
Qed.

Lemma filterCards_move self cands cond :
  filterCards (mi self) (mi <$> cands) cond = mi <$> filterCards self cands cond.
Proof. unfold filterCards. by apply filter_fmap_commute. Qed.

Lemma uniqueIdCount_move l : uniqueIdCount (mi <$> l) = uniqueIdCount l.
Proof.
  unfold uniqueIdCount.
  rewrite (filter_fmap_commute notJoker notJoker mi) by done.
  map_to_fmap. by rewrite <- list_fmap_compose.
Qed.

Lemma countForMostKey_move key cards cond :
  countForMostKey key (mi <$> cards) cond = countForMostKey key cards cond.
Proof.
  unfold countForMostKey.
  rewrite (filter_fmap_commute (mostKeyMatches key cond) _ mi) by done.
  by rewrite uniqueIdCount_move, length_fmap.
Qed.

Lemma mostCounts_move prepared key cond :
  mostCounts (mp <$> prepared) key cond = mostCounts prepared key cond.
Proof.
  unfold mostCounts. map_to_fmap. rewrite <- list_fmap_compose.
  apply list_fmap_ext. intros _ p _. simpl. apply countForMostKey_move.
Qed.

Lemma getMostWinners_move prepared key cond :
  moved δ (getMostWinners (mp <$> prepared) key cond) (getMostWinners prepared key cond).
Proof.
  intros st. unfold getMostWinners, computeMostWinners. rewrite mostCounts_move.
  cbn [moveState ScoreState.mostWinnerCache].
  by destruct (ScoreState.mostWinnerCache st !! mostKeyStr key).
Qed.

Lemma mostResolverOf_move prepared i self cond :
  moved δ (mostResolverOf (mp <$> prepared) i (mi self) cond)
    (mostResolverOf prepared i self cond).
Proof.
  unfold mostResolverOf. destruct (negb (ConditionJson.most cond)); [apply moved_ret|].
  apply moved_bind; [apply getMostWinners_move|]. intros e. apply moved_ret.
Qed.

Lemma mostGate_move prepared i self cond am :
  moved δ (mostGate (mi self) cond am (Some (mostResolverOf (mp <$> prepared) i)))
    (mostGate self cond am (Some (mostResolverOf prepared i))).
Proof.
  unfold mostGate. destruct (ConditionJson.most cond); [|apply moved_ret].
  apply mostResolverOf_move.
Qed.

Lemma dedupItem_move sets st item :
  dedupItem (sets, ms st) (mi item) = prod_map id ms (dedupItem (sets, st) item).
Proof.
  unfold dedupItem. cbn [moveState ScoreState.setHeap ScoreState.setOf
                           ScoreState.mostWinnerCache ScoreState.condByKeyStr].
  change (CardInstance.id (mi item)) with (CardInstance.id item).
  destruct (List.find _ sets) as [a|]; simpl; unfold moveState; simpl;
    by rewrite moveInst_ref, moveKeys_insert.
Qed.

Lemma tableDedup_move self matching :
  moved δ (tableDedup (mi self) (mi <$> matching)) (tableDedup self matching).
Proof.
  intros st. unfold tableDedup.
  cbn [moveState ScoreState.setHeap ScoreState.setOf
         ScoreState.mostWinnerCache ScoreState.condByKeyStr].
  rewrite moveInst_ref, moveKeys_lookup.
  destruct (ScoreState.setOf st !! CardInstance.ref self) as [a|] eqn:Hs.
  - cbn [moveState ScoreState.setOf ScoreState.setHeap].
    rewrite moveKeys_lookup, Hs. done.
  - rewrite <- moveKeys_insert.
    set (st0 := ScoreState.mk (ScoreState.mostWinnerCache st) (ScoreState.condByKeyStr st)
                  (ScoreState.setHeap st ++ [[]])
                  (<[CardInstance.ref self := length (ScoreState.setHeap st)]>
                     (ScoreState.setOf st))).
    change (ScoreState.mk (ScoreState.mostWinnerCache st) (ScoreState.condByKeyStr st)
              (ScoreState.setHeap st ++ [[]])
              (moveKeys δ (<[CardInstance.ref self := length (ScoreState.setHeap st)]>
                             (ScoreState.setOf st))))
      with (ms st0).
    change ([length (ScoreState.setHeap st)], ms st0)
      with (prod_map id ms ([length (ScoreState.setHeap st)], st0)).
    rewrite (foldl_commute dedupItem dedupItem (prod_map id ms) mi).
    2:{ intros [sets st'] item. apply dedupItem_move. }
    destruct (foldl dedupItem _ matching) as [sets st1].
    cbn [prod_map fst snd moveState ScoreState.setOf ScoreState.setHeap].
    rewrite moveKeys_lookup. done.
Qed.

Lemma movePlacements_lookup pl k :
  movePlacements δ pl !! (k + δ) = movePlacement δ <$> pl !! k.
Proof. unfold movePlacements. by rewrite moveKeys_lookup, lookup_fmap. Qed.

Lemma isFullTree_move t : isFullTree (moveTree δ t) = isFullTree t.
Proof.
  unfold isFullTree, moveTree. simpl.
  by destruct (Tree.top t), (Tree.left t), (Tree.bottom t), (Tree.right t).
Qed.

Lemma treeSide_move t side : treeSide (moveTree δ t) side = mi <$> treeSide t side.
Proof. by destruct side. Qed.

Lemma countMatches_move prepared i self cond all pl am :
  moved δ
    (countMatches (mi self) cond (mi <$> all) (movePlacements δ pl) am
       (Some (mostResolverOf (mp <$> prepared) i)))
    (countMatches self cond all pl am (Some (mostResolverOf prepared i))).
Proof.
  unfold countMatches. apply moved_bind; [apply mostGate_move|].
  intros ok. destruct (negb ok); [apply moved_ret|].
  change (Box.ref (CardInstance.box (mi self)))
    with (Box.ref (CardInstance.box self) + δ).
  rewrite movePlacements_lookup.
  destruct (ConditionJson.fullTree cond).
  { destruct (pl !! Box.ref (CardInstance.box self)) as [p|]; simpl;
      [rewrite isFullTree_move|]; apply moved_ret. }
  set (pool := if ConditionJson.sameTree cond then _ else _).
  set (pool' := if ConditionJson.sameTree cond then _ else _).
  assert (pool = (λ l : list CardInstance, mi <$> l) <$> pool') as ->.
  { subst pool pool'. destruct (ConditionJson.sameTree cond).
    - destruct (pl !! Box.ref (CardInstance.box self)) as [p|]; [|done]. simpl.
      f_equal. rewrite sameInstance_move.
      destruct (sameInstance self (Tree.card (Placement.tree p)));
        by rewrite ?fmap_cons, !fmap_app.
    - destruct (ConditionJson.sameSpot cond).
      + destruct (pl !! Box.ref (CardInstance.box self)) as [p|]; [|done]. simpl.
        destruct (Placement.side p); [|done]. simpl. by rewrite treeSide_move.
      + destruct (match ConditionJson.position cond with
                  | Some pos => Js.includes pos "below"
                  | None => false
                  end); [|done].
        simpl. f_equal. by apply filter_fmap_commute. }
  destruct pool' as [pool'|]; simpl; [|apply moved_ret].
  rewrite filterCards_move.
  change (hasTableScore (mi self)) with (hasTableScore self).
  destruct (ConditionJson.unique cond && hasTableScore self).
  - apply tableDedup_move.
  - rewrite uniqueIdCount_move, length_fmap. apply moved_ret.
Qed.

Lemma scoreInstanceWithReason_move prepared i instance all pl am :
  moved δ
    (scoreInstanceWithReason (mi instance) (mi <$> all) (movePlacements δ pl) am
       (Some (mostResolverOf (mp <$> prepared) i)))
    (scoreInstanceWithReason instance all pl am (Some (mostResolverOf prepared i))).
Proof.
  unfold scoreInstanceWithReason.
  change (CardInstance.definition (mi instance)) with (CardInstance.definition instance).
  destruct (CardInstance.definition instance ≫= CardDef.score) as [rule|];
    [|apply moved_ret].
  repeat match goal with
         | |- moved δ (if ?b then _ else _) _ => destruct b
         | |- moved δ (match ?c with Some _ => _ | None => _ end) _ => destruct c
         | |- moved δ (ret _) _ => apply moved_ret
         | |- moved δ (bind _ _) _ =>
             apply moved_bind; [apply countMatches_move|intros ?]
         end.
Qed.

(** *** The players *)

Lemma movedBy_bind {A A' B B'} (f : A → A') (g : B → B') (m' : M A') (m : M A)
    (k' : A' → M B') (k : A → M B) :
  movedBy δ f m' m → (∀ a, movedBy δ g (k' (f a)) (k a)) →
  movedBy δ g (bind m' k') (bind m k).
Proof.
  intros Hm Hk st. unfold bind. rewrite Hm.
  destruct (m st) as [a st']. simpl. apply Hk.
Qed.

Lemma movedBy_forM {A A' B B'} (h : A → A') (g : B → B') (f' : A' → M B')
    (f : A → M B) (l : list A) :
  (∀ x, movedBy δ g (f' (h x)) (f x)) →
  movedBy δ (fmap g) (forM f' (h <$> l)) (forM f l).
Proof.
  intros Hf. induction l as [|x l IH]; [done|].
  rewrite fmap_cons. cbn [forM].
  apply (movedBy_bind g); [apply Hf|]. intros y.
  apply (movedBy_bind (fmap g)); [apply IH|]. intros ys. done.
Qed.

Lemma detailFor_move instByBox scoreByBox boxToTreeIdx box :
  detailFor (moveKeys δ (mi <$> instByBox)) (moveKeys δ scoreByBox)
    (moveKeys δ boxToTreeIdx) (mb box)
  = detailFor instByBox scoreByBox boxToTreeIdx box.
Proof.
  unfold detailFor. cbn [moveBox Box.ref].
  rewrite !moveKeys_lookup, lookup_fmap.
  by destruct (instByBox !! Box.ref box).
Qed.

Lemma cardDetailsOf_move sortedBoxes instByBox scoreByBox boxToTreeIdx :
  cardDetailsOf (mb <$> sortedBoxes) (moveKeys δ (mi <$> instByBox))
    (moveKeys δ scoreByBox) (moveKeys δ boxToTreeIdx)
  = cardDetailsOf sortedBoxes instByBox scoreByBox boxToTreeIdx.
Proof.
  unfold cardDetailsOf.
  rewrite (omap_fmap_commute (detailFor instByBox scoreByBox boxToTreeIdx) _ mb id).
  - apply list_fmap_id.
  - intros box. rewrite detailFor_move. by destruct (detailFor _ _ _ _).
Qed.

Lemma scorePlayer_move prepared name i p :
  moved δ (scorePlayer (mp <$> prepared) name i (mp p)) (scorePlayer prepared name i p).
Proof.
  unfold scorePlayer. cbn [movePrepared PreparedPlayer.forest PreparedPlayer.all].
  destruct (PreparedPlayer.forest p) as [forest|]; [|apply moved_ret].
  cbn [fmap option_fmap option_map].
  destruct (PreparedPlayer.all p) as [|c all]; [apply moved_ret|].
  rewrite fmap_cons. cbv iota. rewrite <- fmap_cons.
  generalize (c :: all). clear c all. intros all.
  apply (movedBy_bind (fmap (prod_map (λ k, k + δ) id)) id).
  { apply (movedBy_forM mi (prod_map (λ k, k + δ) id)).
    intros inst. apply (movedBy_bind id (prod_map (λ k, k + δ) id)).
    - rewrite buildPlacementsByBox_move. apply scoreInstanceWithReason_move.
    - intros r. done. }
  intros results st. cbn [ret prod_map fst snd id].
  rewrite sortCardsInUiOrder_move, buildBoxToTreeIndex_move.
  assert (foldl (λ m kr, <[fst kr := snd kr]> m) (∅ : gmap nat (Z * string))
            (prod_map (λ k, k + δ) id <$> results)
          = moveKeys δ (foldl (λ m kr, <[fst kr := snd kr]> m) ∅ results)) as ->.
  { rewrite <- (moveKeys_empty (V := Z * string)) at 1.
    apply (foldl_commute _ _ (moveKeys δ) (prod_map (λ k, k + δ) id)).
    intros m [k r]. symmetry. apply moveKeys_insert. }
  assert (foldl (λ m c, <[Box.ref (CardInstance.box c) := c]> m) (∅ : gmap nat CardInstance)
            (mi <$> all)
          = moveKeys δ (mi <$> foldl (λ m c, <[Box.ref (CardInstance.box c) := c]> m) ∅
                                 all)) as ->.
  { assert ((∅ : gmap nat CardInstance) = moveKeys δ (mi <$> ∅)) as Hempty
      by (by rewrite fmap_empty, moveKeys_empty).
    rewrite Hempty at 1.
    apply (foldl_commute _ _ (λ m, moveKeys δ (mi <$> m)) mi).
    intros m c. by rewrite fmap_insert, moveKeys_insert. }
  by rewrite cardDetailsOf_move.
Qed.

Lemma scorePlayers_move prepared rest : ∀ k,
  moved δ (scorePlayers (mp <$> prepared) k (prod_map id mp <$> rest))
    (scorePlayers prepared k rest).
Proof.
  induction rest as [|[player p] rest IH]; intros k; [apply moved_ret|].
  rewrite fmap_cons. cbn [scorePlayers prod_map fst snd id].
  apply moved_bind; [apply scorePlayer_move|]. intros r.
  apply moved_bind; [apply IH|]. intros rs. apply moved_ret.
Qed.

Lemma toBoxes_move base dcs : toBoxes (base + δ) dcs = mb <$> toBoxes base dcs.
Proof.
  unfold toBoxes. rewrite fmap_imap. apply imap_ext. intros i dc _.
  unfold toBox, moveBox. simpl. f_equal. lia.
Qed.

Lemma preparePlayer_move cards base p :
  preparePlayer cards (base + δ) p = mp (preparePlayer cards base p).
Proof.
  unfold preparePlayer. destruct (PlayerInput.cards p) as [|dc dcs]; [done|].
  rewrite toBoxes_move, buildForest_move. unfold movePrepared. simpl.
  by rewrite allCardInstances_move.
Qed.

Lemma prepareFrom_move cards players : ∀ base,
  prepareFrom cards (base + δ) players = mp <$> prepareFrom cards base players.
Proof.
  induction players as [|p ps IH]; intros base; [done|].
  cbn [prepareFrom]. rewrite fmap_cons, preparePlayer_move. f_equal.
  rewrite <- IH. f_equal. lia.
Qed.

Lemma zip_fmap_r_move (players : list PlayerInput) (prepared : list PreparedPlayer) :
  zip players (mp <$> prepared) = prod_map id mp <$> zip players prepared.
Proof.
  revert prepared. induction players as [|x players IH]; intros [|p prepared]; [done..|].
  csimpl. by rewrite IH.
Qed.

Lemma scoreAt_move cards base players :
  scoreAt cards (base + δ) players = scoreAt cards base players.
Proof.
  unfold scoreAt. rewrite prepareFrom_move, zip_fmap_r_move.
  assert (ScoreState.fresh = ms ScoreState.fresh) as Hfresh.
  { unfold moveState, ScoreState.fresh. simpl. by rewrite moveKeys_empty. }
  rewrite Hfresh at 1. rewrite scorePlayers_move.
  by destruct (scorePlayers _ _ _ ScoreState.fresh).
Qed.
End move.

(** C9: [score] is deterministic.  Two invocations on the same collection
    of players return the same results, whatever the process has allocated
    before each of them: the boxes and instances of an invocation are new
    objects, its cache maps are created empty and its instances start
    without a [set], so nothing of an earlier invocation is seen by a later
    one. *)
Theorem score_deterministic cards players base base' :
  scoreAt cards base players = scoreAt cards base' players.
Proof.
  transitivity (scoreAt cards 0 players).
  - apply (scoreAt_move base cards 0 players).
  - symmetry. apply (scoreAt_move base' cards 0 players).
Qed.

(* ------------------------------------------------------------------ *)
(** * Further properties *)
(* ------------------------------------------------------------------ *)

(** ** Strings: joining, splitting and sorting *)

Lemma append_cons a (s t : string) : String a s +:+ t = String a (s +:+ t).
Proof. reflexivity. Qed.

Lemma append_nil_r (s : string) : s +:+ "" = s.
Proof. induction s as [|a s IH]; [done|]. by rewrite append_cons, IH. Qed.

Lemma append_assoc (s1 s2 s3 : string) : (s1 +:+ s2) +:+ s3 = s1 +:+ s2 +:+ s3.
Proof. induction s1 as [|a s1 IH]; [done|]. by rewrite !append_cons, IH. Qed.

Lemma append_eq_nil (s1 s2 : string) : (s1 ++ s2)%string = ""%string → s1 = ""%string.
Proof. by destruct s1. Qed.

Lemma join_cons2 sep x y l :
  Js.join sep (x :: y :: l) = (x ++ sep ++ Js.join sep (y :: l))%string.
Proof. done. Qed.

(** A joined list of non-empty strings is empty only when the list is. *)
Lemma join_eq_nil sep l :
  (∀ s, s ∈ l → s ≠ ""%string) → Js.join sep l = ""%string → l = [].
Proof.
  destruct l as [|x [|y l]]; [done|..]; intros Hne H; exfalso.
  - apply (Hne x); [left|done].
  - rewrite join_cons2 in H. apply append_eq_nil in H. apply (Hne x); [left|done].
Qed.

Lemma split_acc_append_from c x : ∀ i s cur,
  (0 ≤ i)%Z → Js.indexOf_from c x i = (-1)%Z →
  Js.split_acc c (x +:+ s) cur = Js.split_acc c s (cur +:+ x).
Proof.
  induction x as [|a x IH]; intros i s cur Hi Hx.
  - by rewrite append_nil_r.
  - rewrite append_cons. cbn [Js.split_acc]. cbn [Js.indexOf_from] in Hx.
    destruct (Ascii.eqb a c); [lia|].
    rewrite (IH (i + 1)%Z) by (lia || done). by rewrite append_assoc.
Qed.

Lemma split_acc_append c x s cur :
  Js.indexOf c x = (-1)%Z →
  Js.split_acc c (x +:+ s) cur = Js.split_acc c s (cur +:+ x).
Proof. apply split_acc_append_from. lia. Qed.

Lemma indexOf_from_ge c s : ∀ i, (0 ≤ i)%Z →
  Js.indexOf_from c s i = (-1)%Z ∨ (i ≤ Js.indexOf_from c s i)%Z.
Proof.
  induction s as [|a s IH]; intros i Hi; simpl; [by left|].
  destruct (Ascii.eqb a c); [right; lia|].
  destruct (IH (i + 1)%Z) as [?|?]; [lia|by left|right; lia].
Qed.

Lemma indexOf_from_absent c s i j :
  Js.indexOf_from c s i = (-1)%Z → (0 ≤ i)%Z → (0 ≤ j)%Z →
  Js.indexOf_from c s j = (-1)%Z.
Proof.
  revert i j. induction s as [|a s IH]; intros i j H Hi Hj; simpl in *; [done|].
  destruct (Ascii.eqb a c); [lia|]. apply (IH (i + 1)%Z); [done|lia..].
Qed.

(** [xs.join(c).split(c)] gives [xs] back when [xs] is not empty and no
    element holds the separator. *)
Lemma split_join c (l : list string) :
  l ≠ [] → (∀ s, s ∈ l → Js.indexOf c s = (-1)%Z) →
  Js.split c (Js.join (String c "") l) = l.
Proof.
  intros Hl Hc. unfold Js.split.
  assert (∀ cur, Js.split_acc c (Js.join (String c "") l) cur
                 = match l with [] => [cur] | x :: l' => (cur ++ x)%string :: l' end) as H.
  { clear Hl. induction l as [|x l IH]; intros cur; [done|].
    destruct l as [|y l].
    - simpl. rewrite <- (append_nil_r x) at 1.
      rewrite split_acc_append by (apply Hc; left). done.
    - rewrite join_cons2, split_acc_append by (apply Hc; left).
      rewrite append_cons. cbn [Js.split_acc]. rewrite Ascii.eqb_refl.
      rewrite IH by (intros s Hs; apply Hc; by right). done. }
  rewrite H. by destruct l.
Qed.

Lemma sort_str_insert_perm x l : Js.sort_str_insert x l ≡ₚ x :: l.
Proof.
  induction l as [|y l IH]; simpl; [done|].
  destruct (String.ltb y x); [|done]. rewrite IH. apply Permutation_swap.
Qed.

Lemma sort_str_perm l : Js.sort_str l ≡ₚ l.
Proof.
  induction l as [|x l IH]; simpl; [done|].
  by rewrite sort_str_insert_perm, IH.
Qed.

Lemma ltb_trans x y z :
  String.ltb x y = true → String.ltb y z = true → String.ltb x z = true.
Proof.
  unfold String.ltb. intros Hxy Hyz.
  assert (String.compare x y = Lt) as H1 by (by destruct (String.compare x y)).
  assert (String.compare y z = Lt) as H2 by (by destruct (String.compare y z)).
  apply OrderedTypeEx.String_as_OT.cmp_lt in H1, H2.
  pose proof (OrderedTypeEx.String_as_OT.lt_trans _ _ _ H1 H2) as H3.
  apply OrderedTypeEx.String_as_OT.cmp_lt in H3.
  unfold OrderedTypeEx.String_as_OT.cmp in H3. by rewrite H3.
Qed.

Lemma ltb_total x y :
  String.ltb x y = false → String.ltb y x = false → x = y.
Proof.
  unfold String.ltb. rewrite (String.compare_antisym y x).
  destruct (String.compare x y) eqn:H; simpl; try done.
  intros _ _. by apply String.compare_eq_iff.
Qed.

Lemma ltb_asym x y : String.ltb x y = true → String.ltb y x = false.
Proof.
  unfold String.ltb. rewrite (String.compare_antisym y x).
  by destruct (String.compare x y).
Qed.

Lemma strLe_trans x y z : strLe x y → strLe y z → strLe x z.
Proof.
  unfold strLe. intros Hxy Hyz.
  destruct (String.ltb z x) eqn:Hzx; [|done].
  destruct (String.ltb z y) eqn:Hzy.
  - congruence.
  - destruct (String.ltb y x) eqn:Hyx; [congruence|].
    destruct (String.ltb x y) eqn:Hxy'.
    + exfalso. pose proof (ltb_trans _ _ _ Hzx Hxy'). congruence.
    + assert (x = y) as -> by by apply ltb_total. congruence.
Qed.

Lemma sort_str_insert_sorted x l :
  StronglySorted strLe l → StronglySorted strLe (Js.sort_str_insert x l).
Proof.
  induction 1 as [|y l Hl IH Hy]; simpl.
  - repeat constructor.
  - destruct (String.ltb y x) eqn:Hyx.
    + constructor; [done|].
      apply Forall_forall. intros z Hz.
      rewrite sort_str_insert_perm in Hz. apply elem_of_cons in Hz as [->|Hz].
      * unfold strLe. by apply ltb_asym.
      * by eapply Forall_forall in Hy.
    + constructor; [by constructor|].
      constructor; [done|].
      eapply Forall_impl; [exact Hy|]. intros z Hz. by eapply strLe_trans.
Qed.

Lemma sort_str_sorted l : StronglySorted strLe (Js.sort_str l).
Proof.
  induction l as [|x l IH]; simpl; [constructor|by apply sort_str_insert_sorted].
Qed.

(** The default sort gives one result for all orders of the same strings. *)
Lemma sort_str_Permutation l1 l2 : l1 ≡ₚ l2 → Js.sort_str l1 = Js.sort_str l2.
Proof.
  intros H.
  apply (sorting.StronglySorted_unique_strong strLe).
  - intros x y _ _ Hxy Hyx. by apply ltb_total.
  - apply sort_str_sorted.
  - apply sort_str_sorted.
  - by rewrite !sort_str_perm.
Qed.

Lemma List_filter_Permutation {A} (f : A → bool) l1 l2 :
  l1 ≡ₚ l2 → List.filter f l1 ≡ₚ List.filter f l2.
Proof.
  induction 1; simpl; [done|..].
  - destruct (f x); by rewrite ?IHPermutation.
  - destruct (f x), (f y); try done. apply Permutation_swap.
  - by etrans.
Qed.

Lemma includes_elem l x : Js.includes l x = true ↔ x ∈ l.
Proof.
  unfold Js.includes. rewrite existsb_exists. split.
  - intros (y & Hy & Heq). apply String.eqb_eq in Heq as ->. by apply list_elem_of_In.
  - intros H. exists x. split; [by apply list_elem_of_In|apply String.eqb_refl].
Qed.

Lemma includes_Permutation l1 l2 x :
  l1 ≡ₚ l2 → Js.includes l1 x = Js.includes l2 x.
Proof.
  intros H. apply eq_true_iff_eq. rewrite !includes_elem. by rewrite H.
Qed.

Lemma existsb_Permutation {A} (f : A → bool) l1 l2 :
  l1 ≡ₚ l2 → existsb f l1 = existsb f l2.
Proof.
  intros H. apply eq_true_iff_eq. rewrite !existsb_exists.
  split; intros (y & Hy & ?); exists y; (split; [|done]);
    apply list_elem_of_In; apply list_elem_of_In in Hy;
    [by rewrite <- H|by rewrite H].
Qed.

(** *** The key of the "most" cache *)

Lemma filter_truthy_id l :
  forallb (λ s, truthy s && (Js.indexOf ","%char s =? -1)%Z) l = true →
  Js.filter_truthy l = l.
Proof.
  induction l as [|x l IH]; [done|]. cbn [forallb].
  intros [[Hx _]%andb_prop Hl]%andb_prop.
  unfold Js.filter_truthy. cbn [List.filter]. unfold truthy in Hx. rewrite Hx.
  f_equal. by apply IH.
Qed.

(** For a plain list the key holds the elements of the list: [split] on the
    key gives them back, in sorted order. *)
Lemma plainList_key l :
  plainList (Some l) = true →
  truthy (Js.join "," (Js.sort_str (Js.filter_truthy l))) = true
  ∧ Js.split ","%char (Js.join "," (Js.sort_str (Js.filter_truthy l))) ≡ₚ l.
Proof.
  cbn [plainList]. intros [Hne Hall]%andb_prop.
  rewrite (filter_truthy_id _ Hall).
  assert (∀ s, s ∈ Js.sort_str l → s ≠ ""%string ∧ Js.indexOf ","%char s = (-1)%Z) as Hs.
  { intros s Hs. rewrite sort_str_perm in Hs.
    rewrite forallb_forall in Hall. apply list_elem_of_In, Hall in Hs.
    apply andb_prop in Hs as [H1 H2]. split.
    - unfold truthy in H1. apply negb_true_iff, String.eqb_neq in H1. done.
    - by apply Z.eqb_eq. }
  assert (Js.sort_str l ≠ []) as Hne'.
  { intros Hnil. pose proof (sort_str_perm l) as Hp. rewrite Hnil in Hp.
    apply Permutation_nil_l in Hp. by subst l. }
  split.
  - unfold truthy. apply negb_true_iff, String.eqb_neq. intros Hnil.
    apply join_eq_nil in Hnil; [done|]. intros s ?. by apply Hs.
  - rewrite split_join; [apply sort_str_perm|done|]. intros s ?. by apply Hs.
Qed.

Lemma mostKeyMatches_cardMatches self cond inst :
  plainList (ConditionJson.name cond) = true →
  plainList (ConditionJson.tags cond) = true →
  jokerOfType cond inst = false →
  mostKeyMatches (makeMostKey self cond) cond inst = cardMatches self cond inst.
Proof.
  intros Hn Ht Hj. unfold mostKeyMatches, cardMatches, makeMostKey.
  cbn [MostKey.ids MostKey.tags MostKey.unique MostKey.treeSymbol].
  unfold jokerOfType in Hj. rewrite Hj.
  assert ((if truthy (Js.join "," (Js.sort_str (Js.filter_truthy
                 (default [] (ConditionJson.name cond)))))
           then Js.includes (Js.split ","%char (Js.join "," (Js.sort_str
                  (Js.filter_truthy (default [] (ConditionJson.name cond))))))
                  (CardInstance.id inst)
           else true)
          = match ConditionJson.name cond with
            | Some l => Js.includes l (CardInstance.id inst)
            | None => true
            end) as ->.
  { destruct (ConditionJson.name cond) as [l|]; [|done]. cbn [default from_option id].
    destruct (plainList_key l Hn) as [-> Hp]. by apply includes_Permutation. }
  assert ((if truthy (Js.join "," (Js.sort_str (Js.filter_truthy
                 (default [] (ConditionJson.tags cond)))))
           then existsb
                  (λ t, match CardInstance.definition inst with
                        | Some d => Js.includes (CardDef.tags d) t
                        | None => false
                        end)
                  (Js.split ","%char (Js.join "," (Js.sort_str
                     (Js.filter_truthy (default [] (ConditionJson.tags cond))))))
           else true)
          = match ConditionJson.tags cond with
            | Some l => matchesAnyTag inst l
            | None => true
            end) as ->.
  { destruct (ConditionJson.tags cond) as [l|]; [|done]. cbn [default from_option id].
    destruct (plainList_key l Ht) as [-> Hp]. unfold matchesAnyTag.
    rewrite (existsb_Permutation _ _ _ Hp).
    destruct (CardInstance.definition inst); reflexivity. }
  destruct (ConditionJson.sameTreeSymbol cond); [|by rewrite andb_true_r].
  rewrite (String.eqb_sym (CardInstance.treeSymbol inst)).
  destruct (String.eqb _ _); cbn [negb]; by rewrite ?andb_true_r, ?andb_false_r.
Qed.

(** X1: on cards without a joker of the condition's type, and for a condition
    whose [name] and [tags] lists are plain, the count of the "most" resolver
    is the count [countMatches] takes over the same cards. *)
Theorem countForMostKey_filterCards self cond cards :
  plainList (ConditionJson.name cond) = true →
  plainList (ConditionJson.tags cond) = true →
  forallb (λ c, negb (jokerOfType cond c)) cards = true →
  countForMostKey (makeMostKey self cond) cards cond
  = plainCount cond (filterCards self cards cond).
Proof.
  intros Hn Ht Hj. unfold countForMostKey, plainCount, filterCards.
  assert (List.filter (mostKeyMatches (makeMostKey self cond) cond) cards
          = List.filter (cardMatches self cond) cards) as ->; [|done].
  induction cards as [|c cards IH]; [done|].
  cbn [forallb] in Hj. apply andb_prop in Hj as [Hc Hj]. cbn [List.filter].
  rewrite mostKeyMatches_cardMatches by (done || by apply negb_true_iff).
  rewrite (IH Hj). done.
Qed.

(** X2: the key of the "most" cache does not depend on the order of the
    names and of the tags of the condition, nor on its empty strings or its
    other fields. *)
Theorem makeMostKey_order_irrelevant self c1 c2 :
  Js.filter_truthy (default [] (ConditionJson.name c1))
    ≡ₚ Js.filter_truthy (default [] (ConditionJson.name c2)) →
  Js.filter_truthy (default [] (ConditionJson.tags c1))
    ≡ₚ Js.filter_truthy (default [] (ConditionJson.tags c2)) →
  ConditionJson.unique c1 = ConditionJson.unique c2 →
  ConditionJson.sameTreeSymbol c1 = ConditionJson.sameTreeSymbol c2 →
  makeMostKey self c1 = makeMostKey self c2
  ∧ mostKeyStr (makeMostKey self c1) = mostKeyStr (makeMostKey self c2).
Proof.
  intros Hn Ht Hu Hs.
  assert (makeMostKey self c1 = makeMostKey self c2) as H; [|by rewrite H].
  unfold makeMostKey.
  by rewrite (sort_str_Permutation _ _ Hn), (sort_str_Permutation _ _ Ht), Hu, Hs.
Qed.

(** X3: the target named in a reason is never empty: it is the names of the
    condition joined by "/" when one of them is not empty, else the tags
    joined by " oder " when one of them is not empty, and "Karten" when the
    condition has neither, whatever its type. *)
Theorem describeTarget_not_empty cond :
  let ids := Js.filter_truthy (default [] (ConditionJson.name cond)) in
  let tags := Js.filter_truthy (default [] (ConditionJson.tags cond)) in
  describeTarget cond ≠ ""%string
  ∧ (ids ≠ [] → describeTarget cond = Js.join "/" ids)
  ∧ (ids = [] → tags ≠ [] → describeTarget cond = Js.join " oder " tags)
  ∧ (ids = [] → tags = [] → describeTarget cond = "Karten"%string).
Proof.
  intros ids tags. unfold describeTarget. fold ids tags.
  assert (∀ l s, s ∈ Js.filter_truthy l → s ≠ ""%string) as Hf.
  { intros l s Hs. unfold Js.filter_truthy in Hs.
    apply elem_of_List_filter in Hs as [_ Hs].
    by apply negb_true_iff, String.eqb_neq in Hs. }
  split; [|split; [|split]].
  - destruct ids as [|x l] eqn:Hn.
    + destruct tags as [|y l] eqn:Ht; [done|].
      cbn [nonEmpty]. intros H. apply join_eq_nil in H; [done|].
      rewrite <- Ht. apply Hf.
    + cbn [nonEmpty]. intros H. apply join_eq_nil in H; [done|].
      rewrite <- Hn. apply Hf.
  - by destruct ids.
  - intros ->. by destruct tags.
  - by intros -> ->.
Qed.

(** ** The chain of a side *)

Lemma addInstance_not_nil s c : addInstance s c ≠ [].
Proof.
  unfold addInstance. destruct (hasInstance s c) eqn:H.
  - destruct s; [done|done].
  - by destruct s.
Qed.

Lemma foldl_addInstance_nil l : ∀ s, foldl addInstance s l = [] → s = [] ∧ l = [].
Proof.
  induction l as [|c l IH]; intros s H; [done|].
  simpl in H. apply IH in H as [H _]. by apply addInstance_not_nil in H.
Qed.

Lemma nextAdjacent_nil side anchors remaining :
  nextAdjacent side anchors remaining = [] →
  ∀ anchor, anchor ∈ anchors → pickDirectlyAdjacent anchor remaining side = [].
Proof.
  unfold nextAdjacent.
  assert (∀ acc,
    foldl (λ next anchor, foldl addInstance next (pickDirectlyAdjacent anchor remaining side))
      acc anchors = [] →
    acc = [] ∧ ∀ anchor, anchor ∈ anchors → pickDirectlyAdjacent anchor remaining side = [])
    as H.
  { induction anchors as [|a anchors IH]; intros acc Hnil.
    - split; [done|]. intros ? Hin. by apply elem_of_nil in Hin.
    - simpl in Hnil. apply IH in Hnil as [Hacc Hrest].
      apply foldl_addInstance_nil in Hacc as [-> Ha].
      split; [done|]. intros anchor [->|Hin]%elem_of_cons; [done|by apply Hrest]. }
  intros Hnil. by apply H in Hnil as [_ ?].
Qed.

Lemma moveToChain_chainOf treeBox attached0 remaining0 st c :
  chainOf treeBox attached0 remaining0 st →
  chainOf treeBox attached0 remaining0 (moveToChain st c).
Proof.
  intros H. unfold moveToChain.
  destruct (indexOfInstance (Chain.remaining st) c) as [idx|]; [|done].
  destruct H as (Ha & [added Hadd] & Hsub).
  split; [|split]; simpl.
  - by rewrite Ha, fmap_app.
  - exists (added ++ [c]). by rewrite Hadd, app_assoc.
  - etrans; [apply sublist_delete|done].
Qed.

Lemma foldl_moveToChain_chainOf treeBox attached0 remaining0 next : ∀ st,
  chainOf treeBox attached0 remaining0 st →
  chainOf treeBox attached0 remaining0 (foldl moveToChain st next).
Proof.
  induction next as [|c next IH]; intros st H; [done|].
  simpl. by apply IH, moveToChain_chainOf.
Qed.

Lemma expandRounds_chainOf treeBox attached0 remaining0 side fuel : ∀ st st',
  chainOf treeBox attached0 remaining0 st →
  expandRounds fuel side st = Some st' →
  chainOf treeBox attached0 remaining0 st'
  ∧ nextAdjacent side (Chain.anchors st') (Chain.remaining st') = [].
Proof.
  induction fuel as [|fuel IH]; intros st st' Hst Hrun; [done|].
  simpl in Hrun.
  destruct (nextAdjacent side (Chain.anchors st) (Chain.remaining st)) as [|c next] eqn:Hn.
  - by simplify_eq.
  - eapply IH; [|exact Hrun]. by apply (foldl_moveToChain_chainOf _ _ _ (c :: next)).
Qed.

(** The chain [expandSideChain] returns: the attached cards it was given,
    then the added ones; the remaining cards, without the added ones; and
    no remaining card directly adjacent to the tree or to an attached
    card. *)
Lemma expandSideChain_inv treeBox side attached remaining :
  (∃ added, fst (expandSideChain treeBox side attached remaining) = attached ++ added)
  ∧ snd (expandSideChain treeBox side attached remaining) `sublist_of` remaining
  ∧ ∀ anchor,
      anchor ∈ treeBox :: (CardInstance.box <$> fst (expandSideChain treeBox side attached remaining)) →
      pickDirectlyAdjacent anchor (snd (expandSideChain treeBox side attached remaining)) side = [].
Proof.
  unfold expandSideChain.
  destruct (expandRounds_total side (S (length remaining))
              (Chain.mk (treeBox :: map CardInstance.box attached) attached remaining))
    as [st Hrun]; [simpl; lia|].
  rewrite Hrun.
  apply (expandRounds_chainOf treeBox attached remaining) in Hrun as [(Ha & Hadd & Hsub) Hnil].
  - cbn [fst snd]. split; [done|]. split; [done|].
    intros anchor Hin. eapply nextAdjacent_nil; [exact Hnil|]. by rewrite Ha.
  - split; [done|]. split; [exists []; by rewrite app_nil_r|done].
Qed.

(** X4: [expandSideChain] only appends to [attached] and only removes from
    [remaining], and when it returns no remaining card is directly adjacent,
    on the side of the chain, to the tree or to an attached card. *)
Theorem expandSideChain_closed treeBox side attached remaining :
  let r := expandSideChain treeBox side attached remaining in
  (∃ added, fst r = attached ++ added)
  ∧ snd r `sublist_of` remaining
  ∧ ∀ anchor, anchor ∈ treeBox :: (CardInstance.box <$> fst r) →
      pickDirectlyAdjacent anchor (snd r) side = [].
Proof. apply expandSideChain_inv. Qed.

(** ** Direct placement *)

Lemma placementStep_tree card tree best side c :
  (∀ b, best = Some b → PlacementCandidate.tree b = tree) →
  placementStep card tree best side = Some c → PlacementCandidate.tree c = tree.
Proof.
  intros Hbest. unfold placementStep. intros H.
  repeat match type of H with
         | context [if ?b then _ else _] => destruct b
         end; try (by apply Hbest).
  all: destruct best as [b0|]; simplify_eq; try done.
  all: try (by apply Hbest).
  all: repeat match type of H with
         | context [if ?b then _ else _] => destruct b
         end; simplify_eq; try done; by apply Hbest.
Qed.

Lemma bestPlacementCandidate_tree card tree c :
  bestPlacementCandidate card tree = Some c → PlacementCandidate.tree c = tree.
Proof.
  unfold bestPlacementCandidate. cbn [foldl]. intros H.
  eapply placementStep_tree; [|exact H]. intros b Hb.
  eapply placementStep_tree; [|exact Hb]. intros b' Hb'.
  eapply placementStep_tree; [|exact Hb']. intros b'' Hb''.
  eapply placementStep_tree; [|exact Hb'']. done.
Qed.

Lemma bestOverTrees_tree card treeCards best :
  bestOverTrees card treeCards = Some best →
  PlacementCandidate.tree best ∈ treeCards.
Proof.
  unfold bestOverTrees.
  assert (∀ acc,
    (∀ b, acc = Some b → PlacementCandidate.tree b ∈ treeCards) →
    ∀ ts, (∀ t, t ∈ ts → t ∈ treeCards) →
    foldl (λ best tree,
             match bestPlacementCandidate card tree with
             | None => best
             | Some cand => betterCandidate best cand
             end) acc ts = Some best →
    PlacementCandidate.tree best ∈ treeCards) as H.
  { intros acc Hacc ts. revert acc Hacc.
    induction ts as [|t ts IH]; intros acc Hacc Hts Hf; [by apply Hacc|].
    simpl in Hf. eapply IH; [|intros; apply Hts; by right|exact Hf].
    intros b Hb.
    destruct (bestPlacementCandidate card t) as [cand|] eqn:Hc; [|by apply Hacc].
    apply bestPlacementCandidate_tree in Hc. subst t.
    unfold betterCandidate in Hb. destruct acc as [b0|].
    - destruct (_ || _) in Hb; simplify_eq; [|by apply Hacc].
      apply Hts. by left.
    - simplify_eq. apply Hts. by left. }
  intros Hf. by eapply (H None); [done| |exact Hf].
Qed.

Lemma SideMaps_get_set_ne side side' g m :
  side ≠ side' → SideMaps.get side (SideMaps.set side' g m) = SideMaps.get side m.
Proof. by destruct side, side'. Qed.

Lemma Side_eq_dec (a b : Side) : {a = b} + {a ≠ b}.
Proof. decide equality. Defined.

Lemma sideList_store_same tree side l m :
  sideList (storeSideList tree side l m) side (Box.ref (CardInstance.box tree)) = l.
Proof.
  unfold sideList, storeSideList. rewrite SideMaps_get_set.
  by rewrite lookup_insert_eq.
Qed.

Lemma sideList_store_other tree side l m side' k :
  side' ≠ side ∨ k ≠ Box.ref (CardInstance.box tree) →
  sideList (storeSideList tree side l m) side' k = sideList m side' k.
Proof.
  unfold sideList, storeSideList. intros H.
  destruct (Side_eq_dec side' side) as [->|Hne].
  - destruct H as [?|Hk]; [done|].
    rewrite SideMaps_get_set. by rewrite lookup_insert_ne.
  - by rewrite SideMaps_get_set_ne.
Qed.

Lemma sideList_sideListFor tree side m side' k :
  sideList (snd (sideListFor tree side m)) side' k = sideList m side' k.
Proof.
  unfold sideListFor.
  destruct (SideMaps.get side m !! Box.ref (CardInstance.box tree)) as [l|] eqn:Hl; [done|].
  cbn [snd]. unfold sideList.
  destruct (Side_eq_dec side' side) as [->|Hne].
  - rewrite SideMaps_get_set.
    destruct (decide (k = Box.ref (CardInstance.box tree))) as [->|Hk].
    + by rewrite lookup_insert_eq, Hl.
    + by rewrite lookup_insert_ne.
  - by rewrite SideMaps_get_set_ne.
Qed.

Lemma sideListFor_fst tree side m :
  fst (sideListFor tree side m) = sideList m side (Box.ref (CardInstance.box tree)).
Proof.
  unfold sideListFor, sideList.
  by destruct (SideMaps.get side m !! Box.ref (CardInstance.box tree)).
Qed.

Lemma grows_refl m : grows m m.
Proof. by intros ???. Qed.

Lemma grows_trans m1 m2 m3 : grows m1 m2 → grows m2 m3 → grows m1 m3.
Proof. intros H1 H2 side k x Hx. by apply H2, H1. Qed.

Lemma grows_sideListFor tree side m : grows m (snd (sideListFor tree side m)).
Proof. intros side' k x. by rewrite sideList_sideListFor. Qed.

Lemma grows_store tree side l m :
  (∀ x, x ∈ sideList m side (Box.ref (CardInstance.box tree)) → x ∈ l) →
  grows m (storeSideList tree side l m).
Proof.
  intros Hl side' k x Hx.
  destruct (Side_eq_dec side' side) as [->|Hne].
  - destruct (decide (k = Box.ref (CardInstance.box tree))) as [->|Hk].
    + rewrite sideList_store_same. by apply Hl.
    + rewrite sideList_store_other by (by right). done.
  - rewrite sideList_store_other by (by left). done.
Qed.

Lemma pushSide_spec tree side card m :
  grows m (pushSide tree side card m)
  ∧ card ∈ sideList (pushSide tree side card m) side (Box.ref (CardInstance.box tree)).
Proof.
  unfold pushSide.
  pose proof (sideListFor_fst tree side m) as Hfst.
  pose proof (grows_sideListFor tree side m) as Hg.
  pose proof (sideList_sideListFor tree side m side (Box.ref (CardInstance.box tree))) as Hsame.
  destruct (sideListFor tree side m) as [l m1]. cbn [fst snd] in *. subst l.
  split.
  - eapply grows_trans; [exact Hg|]. apply grows_store.
    intros x Hx. rewrite Hsame in Hx. apply elem_of_app. by left.
  - rewrite sideList_store_same. apply elem_of_app. right. by left.
Qed.

Lemma placeDirectly_grows treeCards m card : grows m (placeDirectly treeCards m card).
Proof.
  unfold placeDirectly. destruct (bestOverTrees card treeCards); [|apply grows_refl].
  apply pushSide_spec.
Qed.

Lemma foldl_placeDirectly_grows treeCards cs : ∀ m,
  grows m (foldl (placeDirectly treeCards) m cs).
Proof.
  induction cs as [|c cs IH]; intros m; [apply grows_refl|].
  simpl. eapply grows_trans; [apply placeDirectly_grows|apply IH].
Qed.

Lemma foldl_placeDirectly_placed treeCards cs c best : ∀ m,
  c ∈ cs → bestOverTrees c treeCards = Some best →
  c ∈ sideList (foldl (placeDirectly treeCards) m cs) (PlacementCandidate.side best)
        (Box.ref (CardInstance.box (PlacementCandidate.tree best))).
Proof.
  induction cs as [|c' cs IH]; intros m Hc Hbest; [by apply elem_of_nil in Hc|].
  simpl. apply elem_of_cons in Hc as [->|Hc]; [|by apply IH].
  apply foldl_placeDirectly_grows. unfold placeDirectly. rewrite Hbest.
  apply pushSide_spec.
Qed.

Lemma expandSide_grows treeCard side m remaining :
  grows m (fst (expandSide treeCard side (m, remaining))).
Proof.
  unfold expandSide.
  destruct (expandSideChain_inv (CardInstance.box treeCard) side
              (default [] (SideMaps.get side m !! Box.ref (CardInstance.box treeCard)))
              remaining) as ([added Hadd] & _ & _).
  destruct (expandSideChain _ _ _ _) as [attached' remaining']. cbn [fst snd] in *.
  apply grows_store. intros x Hx. rewrite Hadd. apply elem_of_app. by left.
Qed.

Lemma expandTree_grows st treeCard : grows (fst st) (fst (expandTree st treeCard)).
Proof.
  destruct st as [m remaining]. unfold expandTree. cbn [fst].
  set (m1 := snd (sideListFor treeCard Top m)).
  set (m2 := snd (sideListFor treeCard Bottom m1)).
  set (m3 := snd (sideListFor treeCard Left m2)).
  set (m4 := snd (sideListFor treeCard Right m3)).
  assert (grows m m4) as H0.
  { repeat (eapply grows_trans; [|apply grows_sideListFor]). apply grows_refl. }
  eapply grows_trans; [exact H0|].
  destruct (expandSide treeCard Top (m4, remaining)) as [a1 r1] eqn:E1.
  destruct (expandSide treeCard Bottom (a1, r1)) as [a2 r2] eqn:E2.
  destruct (expandSide treeCard Left (a2, r2)) as [a3 r3] eqn:E3.
  pose proof (expandSide_grows treeCard Top m4 remaining) as G1. rewrite E1 in G1.
  pose proof (expandSide_grows treeCard Bottom a1 r1) as G2. rewrite E2 in G2.
  pose proof (expandSide_grows treeCard Left a2 r2) as G3. rewrite E3 in G3.
  pose proof (expandSide_grows treeCard Right a3 r3) as G4.
  cbn [fst] in *.
  eapply grows_trans; [exact G1|]. eapply grows_trans; [exact G2|].
  eapply grows_trans; [exact G3|exact G4].
Qed.

Lemma foldl_expandTree_grows treeCards : ∀ st,
  grows (fst st) (fst (foldl expandTree st treeCards)).
Proof.
  induction treeCards as [|t ts IH]; intros st; [apply grows_refl|].
  simpl. eapply grows_trans; [apply expandTree_grows|apply IH].
Qed.

Lemma treeOf_side m tc side :
  treeSide (treeOf m tc) side = sideList m side (Box.ref (CardInstance.box tc)).
Proof. by destruct side. Qed.

(** X5: a card for which Phase 1 finds a candidate is attached, in the
    forest [buildForest] returns, to the tree and on the side of this
    candidate. *)
Theorem direct_placement_kept boxes cards c best :
  c ∈ cardInstsOf boxes cards →
  bestOverTrees c (treeCardsOf boxes cards) = Some best →
  ∃ tree, tree ∈ Forest.trees (buildForest boxes cards)
    ∧ Tree.card tree = PlacementCandidate.tree best
    ∧ c ∈ treeSide tree (PlacementCandidate.side best).
Proof.
  intros Hc Hbest. unfold buildForest.
  fold (treeCardsOf boxes cards) (cardInstsOf boxes cards).
  set (m1 := foldl (placeDirectly _) _ _).
  pose proof (foldl_placeDirectly_placed _ _ _ _ SideMaps.empty Hc Hbest) as H1.
  fold m1 in H1.
  set (remaining := List.filter _ _).
  pose proof (foldl_expandTree_grows (treeCardsOf boxes cards) (m1, remaining)) as H2.
  destruct (foldl expandTree _ _) as [m2 rem2]. cbn [fst] in H2.
  exists (treeOf m2 (PlacementCandidate.tree best)). cbn [Forest.trees].
  split; [|split].
  - map_to_fmap. apply list_elem_of_fmap. eexists. split; [done|].
    by eapply bestOverTrees_tree.
  - done.
  - rewrite treeOf_side. by apply H2.
Qed.

(** ** The trees and the attachments of a forest *)

Lemma isTreeBox_label treeIds b :
  isTreeBox treeIds b = isTreeLabel treeIds (Box.clsName b).
Proof. done. Qed.

Lemma parseCardInstance_tree treeIds b defById :
  isTreeBox treeIds b = true →
  ∃ c, parseCardInstance b defById = Some c ∧ CardInstance.box c = b
       ∧ Js.includes treeIds (CardInstance.id c) = true.
Proof.
  unfold isTreeBox, parseCardInstance, labelId.
  intros [Hc Hid]%andb_prop. apply Z.leb_le in Hc.
  destruct (Z.ltb_spec (Js.indexOf ":" (Box.clsName b)) 0) as [?|_]; [lia|].
  eexists. split; [done|]. split; done.
Qed.

Lemma treeIdsOf_elem cards id :
  Js.includes (treeIdsOf cards) id = true ↔
  ∃ d, d ∈ CardsJson.cards cards ∧ CardDef.id d = id ∧ "Tree"%string ∈ CardDef.tags d.
Proof.
  rewrite includes_elem. unfold treeIdsOf. map_to_fmap.
  rewrite list_elem_of_fmap. split.
  - intros (d & -> & Hd). apply elem_of_List_filter in Hd as [Hd Ht].
    apply includes_elem in Ht. eauto.
  - intros (d & Hd & <- & Ht). exists d. split; [done|].
    apply elem_of_List_filter. split; [done|]. by apply includes_elem.
Qed.

Lemma treeCards_boxes boxes cards :
  CardInstance.box <$> treeCardsOf boxes cards
  = List.filter (isTreeBox (treeIdsOf cards)) boxes.
Proof.
  unfold treeCardsOf.
  induction boxes as [|b boxes IH]; [done|]. cbn [List.filter].
  destruct (isTreeBox (treeIdsOf cards) b) eqn:Hb; [|done].
  destruct (parseCardInstance_tree _ b (defByIdOf cards) Hb) as (c & Hc & Hbox & _).
  csimpl. rewrite Hc. csimpl. by rewrite Hbox, IH.
Qed.

Lemma treeCards_ids boxes cards c :
  c ∈ treeCardsOf boxes cards →
  Js.includes (treeIdsOf cards) (CardInstance.id c) = true.
Proof.
  unfold treeCardsOf. intros (b & Hb & Hc)%list_elem_of_omap.
  apply elem_of_List_filter in Hb as [_ Hb].
  destruct (parseCardInstance_tree _ b (defByIdOf cards) Hb) as (c' & Hc' & _ & Hid).
  by simplify_eq.
Qed.

(** X6: the trees of the forest are the boxes whose label names a card of
    the card data tagged Tree, one tree for each such box, in the order of
    the boxes. *)
Theorem buildForest_trees boxes cards :
  (λ t, CardInstance.box (Tree.card t)) <$> Forest.trees (buildForest boxes cards)
  = List.filter (λ b, isTreeLabel (treeIdsOf cards) (Box.clsName b)) boxes
  ∧ ∀ t, t ∈ Forest.trees (buildForest boxes cards) →
      ∃ d, d ∈ CardsJson.cards cards
           ∧ CardDef.id d = CardInstance.id (Tree.card t)
           ∧ "Tree"%string ∈ CardDef.tags d.
Proof.
  split.
  - rewrite (list_fmap_compose Tree.card CardInstance.box).
    rewrite buildForest_anchors. apply treeCards_boxes.
  - intros t Ht. apply treeIdsOf_elem. apply (treeCards_ids boxes).
    rewrite <- buildForest_anchors. apply list_elem_of_fmap. eauto.
Qed.

(** X7: a card attached to a tree was parsed from a box of the input that
    is not a tree box: a tree is never attached to another tree. *)
Theorem buildForest_attached boxes cards tree c :
  NoDup (Box.ref <$> boxes) →
  tree ∈ Forest.trees (buildForest boxes cards) →
  c ∈ attachmentsOf tree →
  CardInstance.box c ∈ boxes
  ∧ isTreeLabel (treeIdsOf cards) (Box.clsName (CardInstance.box c)) = false
  ∧ parseCardInstance (CardInstance.box c) (defByIdOf cards) = Some c.
Proof.
  intros Hnd Ht Hc.
  assert (c ∈ cardInstsOf boxes cards) as Hin.
  { eapply elem_of_submseteq; [|by apply buildForest_attachments].
    unfold forestAttachments. apply list_elem_of_bind. eauto. }
  unfold cardInstsOf in Hin. apply list_elem_of_omap in Hin as (b & Hb & Hp).
  apply elem_of_List_filter in Hb as [Hb Hother].
  pose proof (parseCardInstance_box _ _ _ Hp) as ->.
  rewrite isOtherBox_negb in Hother. apply negb_true_iff in Hother.
  done.
Qed.

(** ** A player without a tree *)

Lemma scorePlayers_nothing prepared rest : ∀ k i st player p,
  rest !! i = Some (player, p) → PreparedPlayer.all p = [] →
  fst (scorePlayers prepared k rest st) !! i
  = Some (PlayerScoreResult.mk (PlayerInput.name player) 0 []).
Proof.
  induction rest as [|[player0 p0] rest IH]; intros k i st player p Hi Hp; [done|].
  cbn [scorePlayers]. unfold bind.
  destruct (scorePlayer prepared (PlayerInput.name player0) k p0 st) as [r st1] eqn:Hr.
  destruct (scorePlayers prepared (S k) rest st1) as [rs st2] eqn:Hrs.
  cbn [ret fst]. destruct i as [|i]; simpl in Hi.
  - simplify_eq. simpl. f_equal.
    unfold scorePlayer in Hr. rewrite Hp in Hr.
    destruct (PreparedPlayer.forest p); unfold ret in Hr; by simplify_eq.
  - simpl. specialize (IH (S k) i st1 player p Hi Hp). by rewrite Hrs in IH.
Qed.

Lemma prepareFrom_lookup_fwd cards players : ∀ base i p,
  players !! i = Some p →
  ∃ base', prepareFrom cards base players !! i = Some (preparePlayer cards base' p).
Proof.
  induction players as [|p0 ps IH]; intros base i p Hi; [done|].
  destruct i as [|i]; simpl in *.
  - simplify_eq. eauto.
  - by apply IH.
Qed.

Lemma isTreeBox_toBox treeIds ref dc :
  isTreeBox treeIds (toBox ref dc) = isTreeLabel treeIds (DetectedCard.cardId dc).
Proof. done. Qed.

Lemma allCardInstances_no_tree cards base dcs :
  forallb (λ dc, negb (isTreeLabel (treeIdsOf cards) (DetectedCard.cardId dc))) dcs = true →
  allCardInstances (buildForest (toBoxes base dcs) cards) = [].
Proof.
  intros Hno.
  assert (Forest.trees (buildForest (toBoxes base dcs) cards) = []) as Ht.
  { apply (fmap_nil_inv (λ t, CardInstance.box (Tree.card t))).
    rewrite (list_fmap_compose Tree.card CardInstance.box).
    rewrite buildForest_anchors, treeCards_boxes.
    unfold toBoxes. generalize base. clear base.
    induction dcs as [|dc dcs IH]; intros base; [done|].
    cbn [forallb] in Hno. apply andb_prop in Hno as [Hdc Hno].
    cbn [imap List.filter]. rewrite isTreeBox_toBox.
    apply negb_true_iff in Hdc. rewrite Hdc.
    rewrite (imap_ext _ (λ i dc, toBox (S base + i) dc)).
    - by apply IH.
    - intros i x _. simpl. f_equal. lia. }
  unfold allCardInstances. by rewrite Ht.
Qed.

(** X8: a player none of whose cards is a tree of the card data gets the
    total 0 and no card entry, whatever cards they have. *)
Theorem no_tree_no_score cards players i p :
  players !! i = Some p →
  forallb (λ dc, negb (isTreeLabel (treeIdsOf cards) (DetectedCard.cardId dc)))
    (PlayerInput.cards p) = true →
  score cards players !! i = Some (PlayerScoreResult.mk (PlayerInput.name p) 0 []).
Proof.
  intros Hi Hno. unfold score, scoreAt.
  destruct (prepareFrom_lookup_fwd cards players 0 i p Hi) as [base' Hprep].
  apply (scorePlayers_nothing _ _ 0 i _ p (preparePlayer cards base' p)).
  - apply lookup_zip_with_Some. eauto.
  - unfold preparePlayer. destruct (PlayerInput.cards p) as [|dc dcs] eqn:Hcards; [done|].
    cbn [PreparedPlayer.all]. by apply allCardInstances_no_tree.
Qed.

(** ** All instances of a forest *)

Lemma foldl_addInstance_spec l : ∀ s,
  NoDup (refsOf s) →
  NoDup (refsOf (foldl addInstance s l))
  ∧ (∃ l', foldl addInstance s l = s ++ l' ∧ l' `sublist_of` l)
  ∧ ∀ r, r ∈ refsOf (foldl addInstance s l) ↔ r ∈ refsOf s ∨ r ∈ refsOf l.
Proof.
  induction l as [|c l IH]; intros s Hs.
  - split; [done|]. split; [exists []; by rewrite app_nil_r|].
    intros r. split; [by left|]. intros [?|Hr]; [done|]. by apply elem_of_nil in Hr.
  - cbn [foldl]. unfold addInstance at 2 4 6.
    destruct (hasInstance s c) eqn:Hhas.
    + destruct (IH s Hs) as (H1 & (l' & H2 & H3) & H4).
      split; [done|]. split.
      * exists l'. split; [done|]. by apply sublist_cons.
      * intros r. rewrite H4. unfold refsOf at 4. rewrite fmap_cons, elem_of_cons.
        apply hasInstance_refs in Hhas.
        split; [tauto|]. intros [?|[->|?]]; auto.
    + assert (NoDup (refsOf (s ++ [c]))) as Hs'.
      { unfold refsOf. rewrite fmap_app. apply NoDup_app. split; [done|].
        split; [|apply NoDup_singleton].
        intros r Hr [->|[]%elem_of_nil]%elem_of_cons.
        apply hasInstance_refs in Hr. congruence. }
      destruct (IH _ Hs') as (H1 & (l' & H2 & H3) & H4).
      split; [done|]. split.
      * exists (c :: l'). split; [by rewrite H2, <- app_assoc|]. by apply sublist_skip.
      * intros r. rewrite H4. unfold refsOf. rewrite fmap_app, !fmap_cons, elem_of_app.
        rewrite !elem_of_cons, fmap_nil, elem_of_nil. tauto.
Qed.

Lemma allCardInstances_fold forest :
  allCardInstances forest = foldl addInstance [] (forestInstances forest).
Proof.
  unfold allCardInstances, forestInstances.
  apply (foldl_bind addInstance (λ tree, Tree.card tree :: attachmentsOf tree)).
Qed.

(** X9: [allCardInstances] lists the instances of the forest in their
    order, every object once: a second occurrence of an object is left
    out, and no object of the forest is missing. *)
Theorem allCardInstances_distinct forest :
  NoDup (refsOf (allCardInstances forest))
  ∧ allCardInstances forest `sublist_of` forestInstances forest
  ∧ ∀ c, c ∈ forestInstances forest →
      CardInstance.ref c ∈ refsOf (allCardInstances forest).
Proof.
  rewrite allCardInstances_fold.
  destruct (foldl_addInstance_spec (forestInstances forest) []) as (H1 & (l' & H2 & H3) & H4).
  { apply NoDup_nil_2. }
  split; [done|]. split; [by rewrite H2|].
  intros c Hc. apply H4. right. apply list_elem_of_fmap. eauto.
Qed.

(** ** The placement of every box *)

Lemma placeAll_placed_side tree side cs c : ∀ m,
  c ∈ cs → m !! CardInstance.ref c = None →
  placeAll tree side cs m !! CardInstance.ref c = Some (Placement.mk tree (Some side)).
Proof.
  induction cs as [|c' cs IH]; intros m Hc Hm; [by apply elem_of_nil in Hc|].
  unfold placeAll. cbn [foldl]. fold (placeAll tree side cs).
  destruct (decide (CardInstance.ref c' = CardInstance.ref c)) as [Heq|Hne].
  - apply placeAll_keep. unfold CardInstance.ref in *. rewrite Heq.
    by apply setIfAbsent_new.
  - apply elem_of_cons in Hc as [->|Hc]; [done|].
    apply IH; [done|]. rewrite setIfAbsent_other; [done|].
    unfold CardInstance.ref in *. congruence.
Qed.

Lemma NoDup_refs_app_l l1 l2 c :
  NoDup (refsOf (l1 ++ l2)) → c ∈ l2 → CardInstance.ref c ∉ refsOf l1.
Proof.
  unfold refsOf. rewrite fmap_app. intros (_ & H & _)%NoDup_app Hc Hin.
  apply (H _ Hin). apply list_elem_of_fmap. eauto.
Qed.

Lemma NoDup_refs_app_r l1 l2 c :
  NoDup (refsOf (l1 ++ l2)) → c ∈ l1 → CardInstance.ref c ∉ refsOf l2.
Proof.
  unfold refsOf. rewrite fmap_app. intros (_ & H & _)%NoDup_app Hc Hin.
  eapply H; [|exact Hin]. apply list_elem_of_fmap. eauto.
Qed.

Lemma NoDup_refs_submseteq l k : l ⊆+ k → NoDup (refsOf k) → NoDup (refsOf l).
Proof. intros H. apply submseteq_NoDup. by apply fmap_submseteq. Qed.

Lemma NoDup_refs_pair (l k big : list CardInstance) c :
  NoDup (refsOf big) → l ++ k ⊆+ big → c ∈ l → CardInstance.ref c ∉ refsOf k.
Proof.
  intros Hnd Hsub Hc. eapply NoDup_refs_app_r; [|exact Hc].
  by eapply NoDup_refs_submseteq.
Qed.

Lemma placeTree_exact m tree :
  NoDup (refsOf (Tree.card tree :: attachmentsOf tree)) →
  (∀ c, c ∈ Tree.card tree :: attachmentsOf tree → m !! CardInstance.ref c = None) →
  placeTree m tree !! CardInstance.ref (Tree.card tree) = Some (Placement.mk tree None)
  ∧ ∀ side c, c ∈ treeSide tree side →
      placeTree m tree !! CardInstance.ref c = Some (Placement.mk tree (Some side)).
Proof.
  intros Hnd Hm. unfold placeTree.
  set (a := Tree.card tree) in *.
  set (m0 := setIfAbsent (Box.ref (CardInstance.box a)) (Placement.mk tree None) m).
  assert (m0 !! CardInstance.ref a = Some (Placement.mk tree None)) as Ha.
  { apply setIfAbsent_new. apply Hm. by left. }
  assert (∀ c, c ∈ attachmentsOf tree → m0 !! CardInstance.ref c = None) as Hm0.
  { intros c Hc. subst m0. rewrite setIfAbsent_other; [apply Hm; by right|].
    intros Heq. apply (NoDup_refs_app_l [a] _ c Hnd Hc).
    unfold refsOf. rewrite fmap_cons, fmap_nil. apply list_elem_of_singleton.
    by unfold CardInstance.ref. }
  assert (NoDup (refsOf (attachmentsOf tree))) as Hatt.
  { eapply NoDup_refs_submseteq; [|exact Hnd]. by apply submseteq_cons. }
  unfold attachmentsOf in *.
  pose proof (λ l k H c, NoDup_refs_pair l k _ c Hatt H) as Hpair.
  split.
  - do 4 apply placeAll_keep. exact Ha.
  - intros side c Hc. destruct side; cbn [treeSide] in Hc.
    + (* top *)
      do 3 apply placeAll_keep. apply placeAll_placed_side; [done|].
      apply Hm0. rewrite !elem_of_app. auto.
    + (* bottom *)
      do 2 apply placeAll_keep. apply placeAll_placed_side; [done|].
      rewrite placeAll_other; [apply Hm0; rewrite !elem_of_app; auto|].
      apply (Hpair (Tree.bottom tree) (Tree.top tree)); [solve_submseteq|done].
    + (* left *)
      apply placeAll_keep. apply placeAll_placed_side; [done|].
      rewrite !placeAll_other; [apply Hm0; rewrite !elem_of_app; auto|..].
      * apply (Hpair (Tree.left tree) (Tree.top tree)); [solve_submseteq|done].
      * apply (Hpair (Tree.left tree) (Tree.bottom tree)); [solve_submseteq|done].
    + (* right *)
      apply placeAll_placed_side; [done|].
      rewrite !placeAll_other; [apply Hm0; rewrite !elem_of_app; auto|..].
      * apply (Hpair (Tree.right tree) (Tree.top tree)); [solve_submseteq|done].
      * apply (Hpair (Tree.right tree) (Tree.bottom tree)); [solve_submseteq|done].
      * apply (Hpair (Tree.right tree) (Tree.left tree)); [solve_submseteq|done].
Qed.

Lemma foldl_placeTree_other ts : ∀ m r,
  r ∉ refsOf (ts ≫= (λ t, Tree.card t :: attachmentsOf t)) →
  foldl placeTree m ts !! r = m !! r.
Proof.
  induction ts as [|t ts IH]; intros m r Hr; [done|].
  rewrite bind_cons in Hr. unfold refsOf in Hr. rewrite fmap_app, elem_of_app in Hr.
  simpl. rewrite IH by (unfold refsOf; tauto).
  apply placeTree_other. unfold refsOf. tauto.
Qed.

Lemma foldl_placeTree_exact ts : ∀ m tree,
  NoDup (refsOf (ts ≫= (λ t, Tree.card t :: attachmentsOf t))) →
  tree ∈ ts →
  (∀ c, c ∈ Tree.card tree :: attachmentsOf tree → m !! CardInstance.ref c = None) →
  foldl placeTree m ts !! CardInstance.ref (Tree.card tree) = Some (Placement.mk tree None)
  ∧ ∀ side c, c ∈ treeSide tree side →
      foldl placeTree m ts !! CardInstance.ref c = Some (Placement.mk tree (Some side)).
Proof.
  induction ts as [|t ts IH]; intros m tree Hnd Ht Hm; [by apply elem_of_nil in Ht|].
  rewrite bind_cons in Hnd. unfold refsOf in Hnd. rewrite fmap_app in Hnd.
  apply NoDup_app in Hnd as (Hnd0 & Hdisj & Hnd). simpl.
  apply elem_of_cons in Ht as [->|Ht].
  - destruct (placeTree_exact m t Hnd0 Hm) as [Ha Hs].
    split; [by apply foldl_placeTree_keep|].
    intros side c Hc. by apply foldl_placeTree_keep, Hs.
  - apply IH; [done|done|]. intros c Hc.
    rewrite placeTree_other; [by apply Hm|]. intros Hin.
    apply (Hdisj _ Hin). apply list_elem_of_fmap. exists c. split; [done|].
    apply list_elem_of_bind. by exists tree.
Qed.

Lemma placements_exact forest tree :
  NoDup (refsOf (forestInstances forest)) →
  tree ∈ Forest.trees forest →
  buildPlacementsByBox forest !! CardInstance.ref (Tree.card tree)
    = Some (Placement.mk tree None)
  ∧ (∀ side c, c ∈ treeSide tree side →
       buildPlacementsByBox forest !! CardInstance.ref c
       = Some (Placement.mk tree (Some side)))
  ∧ ∀ r, r ∉ refsOf (forestInstances forest) → buildPlacementsByBox forest !! r = None.
Proof.
  intros Hnd Ht. unfold buildPlacementsByBox.
  destruct (foldl_placeTree_exact (Forest.trees forest) ∅ tree Hnd Ht) as [Ha Hs]; [done|].
  split; [done|]. split; [done|].
  intros r Hr. by rewrite foldl_placeTree_other.
Qed.

(** X10: in a forest whose instances are distinct objects, the placement of a
    tree card is its tree with no side, the placement of an attached card is
    its tree with the side it is attached on, and a box that is not of the
    forest has no placement. *)
Theorem buildPlacementsByBox_exact forest tree :
  NoDup (refsOf (forestInstances forest)) →
  tree ∈ Forest.trees forest →
  buildPlacementsByBox forest !! CardInstance.ref (Tree.card tree)
    = Some (Placement.mk tree None)
  ∧ (∀ side c, c ∈ treeSide tree side →
       buildPlacementsByBox forest !! CardInstance.ref c
       = Some (Placement.mk tree (Some side)))
  ∧ ∀ r, r ∉ refsOf (forestInstances forest) → buildPlacementsByBox forest !! r = None.
Proof. apply placements_exact. Qed.

(** ** The index of every box *)

Lemma indexTrees_Some ts : ∀ idx m r j,
  indexTrees idx ts m !! r = Some j →
  m !! r = Some j ∨ (idx ≤ j < idx + length ts).
Proof.
  induction ts as [|t ts IH]; intros idx m r j H; [by left|].
  simpl in H. apply IH in H as [H|H]; [|right; simpl; lia].
  rewrite foldl_insert_const in H. destruct (decide _) as [Hin|Hnin].
  - simplify_eq. right. simpl. lia.
  - destruct (decide (r = Box.ref (CardInstance.box (Tree.card t)))) as [->|Hne].
    + rewrite lookup_insert_eq in H. simplify_eq. right. simpl. lia.
    + rewrite lookup_insert_ne in H by done. by left.
Qed.

Lemma indexTrees_is_Some ts : ∀ idx m r,
  r ∈ refsOf (ts ≫= (λ t, Tree.card t :: attachmentsOf t)) →
  is_Some (indexTrees idx ts m !! r).
Proof.
  induction ts as [|t ts IH]; intros idx m r Hr.
  { by apply elem_of_nil in Hr. }
  simpl.
  destruct (decide (r ∈ refsOf (ts ≫= (λ t, Tree.card t :: attachmentsOf t)))) as [Hin|Hnin].
  { by apply IH. }
  rewrite indexTrees_other by done.
  rewrite bind_cons in Hr. unfold refsOf in Hr.
  rewrite fmap_app, fmap_cons, elem_of_app, elem_of_cons in Hr.
  rewrite foldl_insert_const. destruct (decide _) as [|Hn]; [done|].
  destruct Hr as [[->|Hr]|Hr]; [|done|done].
  by rewrite lookup_insert_eq.
Qed.

(** X11: the boxes with a tree index are the boxes of the forest, and every
    index is below the number of trees. *)
Theorem buildBoxToTreeIndex_bounds forest :
  (∀ r, is_Some (buildBoxToTreeIndex forest !! r) ↔ r ∈ refsOf (forestInstances forest))
  ∧ ∀ r j, buildBoxToTreeIndex forest !! r = Some j → j < length (Forest.trees forest).
Proof.
  unfold buildBoxToTreeIndex.
  assert (refsOf (sortTreesVisually (Forest.trees forest)
                    ≫= (λ t, Tree.card t :: attachmentsOf t))
          ≡ₚ refsOf (forestInstances forest)) as Hp.
  { unfold refsOf, forestInstances. by rewrite sortTreesVisually_perm. }
  split.
  - intros r. rewrite <- Hp. split.
    + intros Hs.
      destruct (decide (r ∈ refsOf (sortTreesVisually (Forest.trees forest)
                                      ≫= (λ t, Tree.card t :: attachmentsOf t))))
        as [|Hn]; [done|].
      rewrite indexTrees_other in Hs by done. by destruct Hs.
    + apply indexTrees_is_Some.
  - intros r j H. apply indexTrees_Some in H as [H|H]; [done|].
    rewrite (Permutation_length (sortTreesVisually_perm _)) in H. lia.
Qed.

(** ** The display order *)

Lemma extends_refl st : extends st st.
Proof. exists []. by rewrite app_nil_r. Qed.

Lemma extends_trans st1 st2 st3 : extends st1 st2 → extends st2 st3 → extends st1 st3.
Proof.
  intros [e1 H1] [e2 H2]. exists (e1 ++ e2). by rewrite H2, H1, app_assoc.
Qed.

Lemma pushUnseen_extends st box : extends st (pushUnseen st box).
Proof.
  unfold pushUnseen. destruct (decide _); [apply extends_refl|]. by exists [box].
Qed.

Lemma foldl_pushUnseen_extends bs : ∀ st, extends st (foldl pushUnseen st bs).
Proof.
  induction bs as [|b bs IH]; intros st; [apply extends_refl|].
  simpl. eapply extends_trans; [apply pushUnseen_extends|apply IH].
Qed.

Lemma pushSorted_extends tree side cs st : extends st (pushSorted tree side cs st).
Proof.
  unfold pushSorted. generalize (sortAttached tree cs side). intros l. revert st.
  induction l as [|c l IH]; intros st; [apply extends_refl|].
  simpl. eapply extends_trans; [apply pushUnseen_extends|apply IH].
Qed.

Lemma uiTreeStep_extends st tree :
  ∃ ext, UiOrder.sorted (uiTreeStep st tree)
         = UiOrder.sorted st ++ CardInstance.box (Tree.card tree) :: ext.
Proof.
  unfold uiTreeStep.
  set (st0 := pushAnchor st _).
  assert (extends st0 (pushSorted tree Bottom (Tree.bottom tree)
            (pushSorted tree Right (Tree.right tree)
               (pushSorted tree Left (Tree.left tree)
                  (pushSorted tree Top (Tree.top tree) st0))))) as [ext H].
  { repeat (eapply extends_trans; [|apply pushSorted_extends]). apply extends_refl. }
  exists ext. rewrite H. subst st0. simpl. by rewrite <- app_assoc.
Qed.

Lemma foldl_uiTreeStep_extends ts : ∀ st, extends st (foldl uiTreeStep st ts).
Proof.
  induction ts as [|t ts IH]; intros st; [apply extends_refl|].
  simpl. eapply extends_trans; [|apply IH].
  destruct (uiTreeStep_extends st t) as [ext H]. by eexists.
Qed.

(** X12: the display order begins with the tree that comes first in reading
    order; in a forest whose instances are distinct objects it holds every
    box of the forest once, the attached cards that the side filter of the
    display order rejects included. *)
Theorem sortCardsInUiOrder_complete forest :
  NoDup (refsOf (forestInstances forest)) →
  sortCardsInUiOrder forest ≡ₚ CardInstance.box <$> forestInstances forest
  ∧ head (sortCardsInUiOrder forest)
    = (λ t, CardInstance.box (Tree.card t)) <$> head (sortTreesVisually (Forest.trees forest)).
Proof.
  intros Hnd. split; [by apply sortCardsInUiOrder_perm|].
  unfold sortCardsInUiOrder.
  destruct (sortTreesVisually (Forest.trees forest)) as [|t ts] eqn:Hs.
  - pose proof (sortTreesVisually_perm (Forest.trees forest)) as Hp.
    rewrite Hs in Hp. apply Permutation_nil_l in Hp. by rewrite <- Hp.
  - cbn [foldl head fmap option_fmap option_map].
    destruct (uiTreeStep_extends (UiOrder.mk [] ∅) t) as [e1 H1].
    destruct (foldl_uiTreeStep_extends ts (uiTreeStep (UiOrder.mk [] ∅) t)) as [e2 H2].
    match goal with
    | |- head (UiOrder.sorted (foldl ?f ?st ?l)) = _ =>
        rewrite (foldl_bind pushUnseen
                   (λ tree, map CardInstance.box (Tree.card tree :: attachmentsOf tree)));
        destruct (foldl_pushUnseen_extends
                    (l ≫= (λ tree, map CardInstance.box (Tree.card tree :: attachmentsOf tree)))
                    st) as [e3 H3]
    end.
    rewrite H3, H2, H1. done.
Qed.

(** ** The filter of a condition *)

(** X13: [filterCards] keeps the candidates in their order; it keeps every
    joker of the type the condition asks for, whatever the names, the tags
    and the symbol of the condition; and it keeps every candidate when the
    condition has no name, tags, type or symbol. *)
Theorem filterCards_spec self cond candidates :
  filterCards self candidates cond `sublist_of` candidates
  ∧ (∀ c, c ∈ candidates → jokerOfType cond c = true →
       c ∈ filterCards self candidates cond)
  ∧ (ConditionJson.name cond = None → ConditionJson.tags cond = None →
     ConditionJson.type cond = None → ConditionJson.sameTreeSymbol cond = false →
     filterCards self candidates cond = candidates).
Proof.
  unfold filterCards. split; [apply filter_sublist|]. split.
  - intros c Hc Hj. apply elem_of_List_filter. split; [done|].
    unfold cardMatches. unfold jokerOfType in Hj. by rewrite Hj.
  - intros Hn Ht Hty Hs.
    induction candidates as [|c cs IH]; [done|]. cbn [List.filter].
    unfold cardMatches at 1. rewrite Hn, Ht, Hty, Hs. cbn. by rewrite IH.
Qed.

(** ** The count of a condition *)

Lemma tableDedup_nonneg self matching st : (0 ≤ fst (tableDedup self matching st))%Z.
Proof. unfold tableDedup. cbn [fst]. lia. Qed.

Lemma uniqueIdCount_nonneg matching : (0 ≤ uniqueIdCount matching)%Z.
Proof. unfold uniqueIdCount. lia. Qed.

(** X14: a count is never negative. *)
Theorem countMatches_nonneg self cond all pl am res st :
  (0 ≤ fst (countMatches self cond all pl am res st))%Z.
Proof.
  unfold countMatches, bind.
  destruct (mostGate self cond am res st) as [ok st1].
  destruct ok; cbn [negb]; [|done].
  destruct (ConditionJson.fullTree cond).
  { unfold ret. cbn [fst]. destruct (pl !! _) as [p|]; [|done].
    by destruct (isFullTree _). }
  assert (∀ pool,
    (0 ≤ fst ((if ConditionJson.unique cond && hasTableScore self
               then tableDedup self (filterCards self pool cond)
               else ret (if ConditionJson.unique cond
                         then uniqueIdCount (filterCards self pool cond)
                         else Z.of_nat (length (filterCards self pool cond)))) st1))%Z)
    as Hpool.
  { intros pool. destruct (_ && _); [apply tableDedup_nonneg|].
    unfold ret. cbn [fst].
    destruct (ConditionJson.unique cond); [apply uniqueIdCount_nonneg|lia]. }
  destruct (ConditionJson.sameTree cond).
  { destruct (pl !! _) as [p|]; [apply Hpool|done]. }
  destruct (ConditionJson.sameSpot cond).
  { destruct (pl !! _) as [p|]; [|done].
    destruct (Placement.side p); [apply Hpool|done]. }
  destruct (match ConditionJson.position cond with Some _ => _ | None => _ end);
    apply Hpool.
Qed.

(** X15: an instance without a placement counts nothing for a condition on
    its tree ([fullTree], [sameTree], [sameSpot]), and a tree card, whose
    placement has no side, counts nothing for [sameSpot]. *)
Theorem countMatches_unplaced self cond all pl am res st :
  (pl !! Box.ref (CardInstance.box self) = None →
   ConditionJson.fullTree cond || ConditionJson.sameTree cond
   || ConditionJson.sameSpot cond = true →
   fst (countMatches self cond all pl am res st) = 0%Z)
  ∧ (∀ p, pl !! Box.ref (CardInstance.box self) = Some p → Placement.side p = None →
     ConditionJson.fullTree cond = false → ConditionJson.sameTree cond = false →
     ConditionJson.sameSpot cond = true →
     fst (countMatches self cond all pl am res st) = 0%Z).
Proof.
  split.
  - intros Hpl Hc. unfold countMatches, bind.
    destruct (mostGate self cond am res st) as [ok st1].
    destruct ok; cbn [negb]; [|done]. rewrite Hpl.
    destruct (ConditionJson.fullTree cond); [done|].
    destruct (ConditionJson.sameTree cond); [done|].
    destruct (ConditionJson.sameSpot cond); [done|]. done.
  - intros p Hpl Hside Hf Ht Hs. unfold countMatches, bind.
    destruct (mostGate self cond am res st) as [ok st1].
    destruct ok; cbn [negb]; [|done]. by rewrite Hpl, Hf, Ht, Hs, Hside.
Qed.

(** ** Rules that multiply *)

(** X16: a multiplication rule scores its amount for every match; with a
    minimum, fewer matches than the minimum score nothing.  Without a
    condition it scores nothing. *)
Theorem multiplication_rule_points instance d rule a all pl am res st :
  CardInstance.definition instance = Some d →
  CardDef.score d = Some rule →
  Js.toLowerCase (ScoreJson.type rule) = "multiplication"%string →
  ScoreJson.amount rule = Some (AmountNum a) →
  let result := fst (scoreInstanceWithReason instance all pl am res st) in
  match ScoreJson.condition rule with
  | None => result = (0%Z, "0 (keine Bedingung)"%string)
  | Some cond =>
      let matches := fst (countMatches instance cond all pl am res st) in
      fst result
      = match ScoreJson.min rule with
        | Some mn => if (matches <? mn)%Z then 0%Z else (a * matches)%Z
        | None => (a * matches)%Z
        end
  end.
Proof.
  intros Hd Hr Hty Ha. unfold scoreInstanceWithReason.
  rewrite Hd. cbn [mbind option_bind]. rewrite Hr, Hty. cbn [String.eqb Ascii.eqb Bool.eqb].
  cbv zeta. unfold scalarAmount. rewrite Ha.
  destruct (ScoreJson.condition rule) as [cond|]; [|done].
  unfold bind. destruct (countMatches instance cond all pl am res st) as [matches st1].
  cbn [fst ret]. destruct (ScoreJson.min rule) as [mn|]; [|done].
  destruct (matches <? mn)%Z; [lia|done].
Qed.

(** ** The cache of the winners *)

(** X17: after [getMostWinners] has answered for a key, it gives the same
    answer for every key with the same key string, whatever the condition,
    and changes the state no more. *)
Theorem getMostWinners_memo prepared key cond key' cond' st :
  mostKeyStr key' = mostKeyStr key →
  getMostWinners prepared key' cond' (snd (getMostWinners prepared key cond st))
  = (fst (getMostWinners prepared key cond st),
     snd (getMostWinners prepared key cond st)).
Proof.
  intros Hk. unfold getMostWinners at 2 3 4.
  destruct (ScoreState.mostWinnerCache st !! mostKeyStr key) as [e|] eqn:He.
  - cbn [fst snd]. unfold getMostWinners. by rewrite Hk, He.
  - cbn [fst snd]. unfold getMostWinners.
    cbn [ScoreState.mostWinnerCache]. by rewrite Hk, lookup_insert_eq.
Qed.

(** ** The table dedup *)

Lemma occurrences_app x ids ids' :
  occurrences x (ids ++ ids') = occurrences x ids + occurrences x ids'.
Proof.
  unfold occurrences. induction ids as [|y ids IH]; [done|].
  simpl. destruct (String.eqb x y); simpl; by rewrite IH.
Qed.

Lemma occurrences_snoc x ids y :
  occurrences x (ids ++ [y]) = occurrences x ids + (if String.eqb x y then 1 else 0).
Proof.
  rewrite occurrences_app. unfold occurrences at 2. simpl.
  by destruct (String.eqb x y).
Qed.

Lemma occurrences_pos x ids : 0 < occurrences x ids ↔ x ∈ ids.
Proof.
  unfold occurrences. induction ids as [|y ids IH]; simpl.
  - split; [lia|]. by intros ?%elem_of_nil.
  - rewrite elem_of_cons. destruct (String.eqb_spec x y) as [->|Hne]; simpl.
    + split; [by left|lia].
    + rewrite IH. split; [by right|]. by intros [?|?].
Qed.

Lemma find_first {A} (f : A → bool) (l : list A) c x :
  l !! c = Some x → f x = true →
  (∀ j y, j < c → l !! j = Some y → f y = false) →
  List.find f l = Some x.
Proof.
  revert c. induction l as [|y l IH]; intros c Hc Hx Hbefore; [done|].
  destruct c as [|c]; simpl in *.
  - simplify_eq. by rewrite Hx.
  - rewrite (Hbefore 0 y) by (lia || done).
    apply (IH c); [done|done|]. intros j z Hj Hz. apply (Hbefore (S j) z); [lia|done].
Qed.

Lemma find_none {A} (f : A → bool) (l : list A) :
  (∀ j y, l !! j = Some y → f y = false) → List.find f l = None.
Proof.
  induction l as [|y l IH]; intros H; [done|]. simpl.
  rewrite (H 0 y) by done. apply IH. intros j z Hz. by apply (H (S j) z).
Qed.

(** One item of the loop: the item goes to the set whose index is the
    number of earlier items with its id. *)
Lemma dedupItem_inv ids sets st item :
  dedupInv ids sets (ScoreState.setHeap st) →
  let c := occurrences (CardInstance.id item) ids in
  let r := dedupItem (sets, st) item in
  dedupInv (ids ++ [CardInstance.id item]) (fst r) (ScoreState.setHeap (snd r))
  ∧ sets `prefix_of` fst r
  ∧ (∃ a, fst r !! c = Some a
          ∧ ScoreState.setOf (snd r) !! CardInstance.ref item = Some a)
  ∧ ∀ k, k ≠ CardInstance.ref item →
      ScoreState.setOf (snd r) !! k = ScoreState.setOf st !! k.
Proof.
  intros (Hnd & Hsets & Hmax) c r. subst r. unfold dedupItem.
  set (heap := ScoreState.setHeap st) in *.
  set (x := CardInstance.id item) in *.
  assert (∀ j a, sets !! j = Some a →
            Js.includes (default [] (heap !! a)) x = true ↔ j < c) as Hhas.
  { intros j a Hj. destruct (Hsets j a Hj) as (M & HM & _ & Hmem).
    rewrite HM. cbn [default from_option id]. rewrite includes_elem. apply Hmem. }
  assert (∀ a, a ∈ sets → a < length heap) as Hlt.
  { intros a [j Hj]%list_elem_of_lookup. destruct (Hsets j a Hj) as (M & HM & _).
    by apply lookup_lt_Some in HM. }
  pose proof (Hmax x) as Hc. fold c in Hc.
  destruct (decide (c < length sets)) as [Hin|Hout].
  - (* an existing set *)
    destruct (lookup_lt_is_Some_2 sets c Hin) as [a Ha].
    rewrite (find_first _ sets c a Ha).
    2:{ apply negb_true_iff. apply not_true_iff_false. rewrite (Hhas c a Ha). lia. }
    2:{ intros j y Hj Hy. apply negb_false_iff. by apply (Hhas j y Hy). }
    destruct (Hsets c a Ha) as (M & HM & HMnd & HMmem).
    cbv beta iota zeta. rewrite HM. cbn [default from_option id fst snd ScoreState.setHeap ScoreState.setOf].
    assert (Js.includes M x = false) as Hx.
    { apply not_true_iff_false. rewrite includes_elem, HMmem. lia. }
    rewrite Hx. split; [|split; [done|split]].
    + split; [done|]. split.
      * intros j b Hj.
        destruct (decide (b = a)) as [->|Hne].
        -- assert (j = c) as Hjc by exact (NoDup_lookup sets j c a Hnd Hj Ha).
           rewrite Hjc. clear Hjc Hj j.
           exists (M ++ [x]). split; [|split].
           ++ by rewrite list_lookup_insert_eq by (by eapply lookup_lt_Some).
           ++ apply NoDup_app. split; [done|]. split; [|apply NoDup_singleton].
              intros y Hy [->|[]%elem_of_nil]%elem_of_cons.
              apply HMmem in Hy. fold c in Hy. lia.
           ++ intros y. rewrite elem_of_app, list_elem_of_singleton, HMmem, occurrences_snoc.
              destruct (String.eqb_spec y x) as [->|Hyx]; [fold c; split; [lia|auto]|].
              split; [intros [?|?]; [lia|done]|intros; left; lia].
        -- destruct (Hsets j b Hj) as (Mb & HMb & HMbnd & HMbmem).
           exists Mb. split; [|split; [done|]].
           ++ by rewrite list_lookup_insert_ne.
           ++ intros y. rewrite HMbmem, occurrences_snoc.
              destruct (String.eqb_spec y x) as [->|Hyx]; [|lia].
              fold c. assert (j ≠ c); [|lia]. intros ->. simplify_eq.
      * intros y. rewrite occurrences_snoc. pose proof (Hmax y).
        destruct (String.eqb_spec y x) as [->|Hyx]; [fold c; lia|lia].
    + exists a. split; [done|]. by rewrite lookup_insert_eq.
    + intros k Hk. by rewrite lookup_insert_ne.
  - (* a new set *)
    assert (c = length sets) as Hceq by lia.
    rewrite find_none.
    2:{ intros j y Hy. apply negb_false_iff. apply (Hhas j y Hy).
        apply lookup_lt_Some in Hy. lia. }
    cbv beta iota zeta.
    rewrite lookup_app_r by lia. rewrite Nat.sub_diag.
    cbn [lookup list_lookup default from_option id fst snd ScoreState.setHeap ScoreState.setOf Js.includes existsb].
    assert (<[length heap := [] ++ [x]]> (heap ++ [[]]) = heap ++ [[x]]) as ->.
    { rewrite insert_app_r_alt by lia. by rewrite Nat.sub_diag. }
    split; [|split; [by apply prefix_app_r|split]].
    + split; [|split].
      * apply NoDup_app. split; [done|]. split; [|apply NoDup_singleton].
        intros a Ha [->|[]%elem_of_nil]%elem_of_cons. apply Hlt in Ha. lia.
      * intros j b Hj. apply lookup_app_Some in Hj as [Hj|[Hj1 Hj2]].
        -- destruct (Hsets j b Hj) as (Mb & HMb & HMbnd & HMbmem).
           exists Mb. split; [|split; [done|]].
           ++ rewrite lookup_app_l; [done|]. by eapply lookup_lt_Some.
           ++ intros y. rewrite HMbmem, occurrences_snoc.
              destruct (String.eqb_spec y x) as [->|Hyx]; [|lia].
              fold c. apply lookup_lt_Some in Hj. lia.
        -- apply list_lookup_singleton_Some in Hj2 as [Hj2 <-].
           assert (j = length sets) as -> by lia.
           exists [x]. split; [|split].
           ++ rewrite lookup_app_r by lia. by rewrite Nat.sub_diag.
           ++ apply NoDup_singleton.
           ++ intros y. rewrite list_elem_of_singleton, occurrences_snoc.
              pose proof (Hmax y).
              destruct (String.eqb_spec y x) as [->|Hyx]; [fold c; split; [lia|done]|].
              split; [done|lia].
      * intros y. rewrite occurrences_snoc, length_app. simpl. pose proof (Hmax y).
        destruct (String.eqb_spec y x); lia.
    + exists (length heap). split; [|by rewrite lookup_insert_eq].
      rewrite Hceq. rewrite lookup_app_r by lia. by rewrite Nat.sub_diag.
    + intros k Hk. by rewrite lookup_insert_ne.
Qed.

Lemma foldl_dedupItem_inv l : ∀ ids sets st,
  dedupInv ids sets (ScoreState.setHeap st) →
  dedupInv (ids ++ (CardInstance.id <$> l)) (fst (foldl dedupItem (sets, st) l))
    (ScoreState.setHeap (snd (foldl dedupItem (sets, st) l)))
  ∧ sets `prefix_of` fst (foldl dedupItem (sets, st) l)
  ∧ ∀ k, k ∉ refsOf l →
      ScoreState.setOf (snd (foldl dedupItem (sets, st) l)) !! k = ScoreState.setOf st !! k.
Proof.
  induction l as [|item l IH]; intros ids sets st Hinv.
  - cbn [foldl fst snd fmap list_fmap]. by rewrite app_nil_r.
  - cbn [foldl].
    destruct (dedupItem_inv ids sets st item Hinv) as (H1 & H2 & _ & H4).
    destruct (dedupItem (sets, st) item) as [sets1 st1]. cbn [fst snd] in *.
    destruct (IH _ sets1 st1 H1) as (G1 & G2 & G3).
    split; [|split].
    + rewrite fmap_cons. rewrite <- app_assoc in G1. exact G1.
    + by etrans.
    + intros k Hk. unfold refsOf in Hk. rewrite fmap_cons, not_elem_of_cons in Hk.
      destruct Hk as [Hk1 Hk2]. rewrite G3 by done. by apply H4.
Qed.

Lemma List_filter_NoDup {A} (f : A → bool) (l : list A) : NoDup l → NoDup (List.filter f l).
Proof. intros H. eapply submseteq_NoDup; [|exact H]. apply sublist_submseteq, filter_sublist. Qed.

(** The size of the set at index [t]: the number of ids seen more than [t]
    times. *)
Lemma dedup_members ids sets heap t a :
  dedupInv ids sets heap → sets !! t = Some a →
  length (default [] (heap !! a))
  = length (List.filter (λ y, t <? occurrences y ids) (remove_dups ids)).
Proof.
  intros (_ & Hsets & _) Ht. destruct (Hsets t a Ht) as (M & -> & Hnd & Hmem).
  cbn [default from_option id]. apply Permutation_length. apply NoDup_Permutation.
  - done.
  - apply List_filter_NoDup, NoDup_remove_dups.
  - intros y. rewrite Hmem, elem_of_List_filter, elem_of_remove_dups, Nat.ltb_lt.
    split; [|tauto]. intros Hy. split; [|done]. apply occurrences_pos. lia.
Qed.

Lemma dedupInv_start heap : dedupInv [] [length heap] (heap ++ [[]]).
Proof.
  split; [apply NoDup_singleton|]. split.
  - intros j a Hj. apply list_lookup_singleton_Some in Hj as [-> <-].
    exists []. split; [|split].
    + rewrite lookup_app_r by lia. by rewrite Nat.sub_diag.
    + apply NoDup_nil_2.
    + intros y. split; [by intros ?%elem_of_nil|]. unfold occurrences. simpl. lia.
  - intros y. unfold occurrences. simpl. lia.
Qed.

(** X18: the first count of an instance that is not itself among the
    matching cards is the number of distinct ids of these cards, those of
    jokers included. *)
Theorem tableDedup_distinct_ids self matching st :
  ScoreState.setOf st !! CardInstance.ref self = None →
  CardInstance.ref self ∉ refsOf matching →
  fst (tableDedup self matching st)
  = Z.of_nat (length (remove_dups (CardInstance.id <$> matching))).
Proof.
  intros Hnone Hself. unfold tableDedup. rewrite Hnone.
  set (st0 := ScoreState.mk _ _ _ _).
  destruct (foldl_dedupItem_inv matching [] [length (ScoreState.setHeap st)] st0)
    as (Hinv & Hpre & Hset).
  { apply dedupInv_start. }
  rewrite (Hset _ Hself). subst st0. cbn [ScoreState.setOf]. rewrite lookup_insert_eq.
  cbn [fst]. f_equal. rewrite app_nil_l in Hinv.
  rewrite (dedup_members _ _ _ 0 _ Hinv).
  - f_equal. clear. set (ids := CardInstance.id <$> matching).
    assert (∀ l, (∀ y, y ∈ l → y ∈ ids) →
              List.filter (λ y, 0 <? occurrences y ids) l = l) as H.
    { induction l as [|y l IH]; intros Hl; [done|]. simpl.
      assert ((0 <? occurrences y ids) = true) as ->.
      { apply Nat.ltb_lt, occurrences_pos, Hl. by left. }
      f_equal. apply IH. intros ??. apply Hl. by right. }
    apply H. intros y. by rewrite elem_of_remove_dups.
  - destruct Hpre as [k ->]. done.
Qed.

(** X19: when the instance is itself one of the matching cards, its first
    count is the number of distinct ids that occur more often among the
    matching cards than its own id occurs before it: the cards of one id go
    to different sets, one after the other. *)
Theorem tableDedup_shared_sets self before item after st :
  ScoreState.setOf st !! CardInstance.ref self = None →
  CardInstance.ref item = CardInstance.ref self →
  CardInstance.ref self ∉ refsOf after →
  let ids := CardInstance.id <$> before ++ item :: after in
  fst (tableDedup self (before ++ item :: after) st)
  = Z.of_nat
      (length
         (List.filter
            (λ y, occurrences (CardInstance.id item) (CardInstance.id <$> before)
                  <? occurrences y ids)
            (remove_dups ids))).
Proof.
  intros Hnone Hitem Hafter ids. unfold tableDedup. rewrite Hnone.
  set (st0 := ScoreState.mk _ _ _ _).
  rewrite foldl_app. cbn [foldl].
  destruct (foldl_dedupItem_inv before [] [length (ScoreState.setHeap st)] st0)
    as (Hinv1 & _ & _).
  { apply dedupInv_start. }
  rewrite app_nil_l in Hinv1.
  destruct (foldl dedupItem ([length (ScoreState.setHeap st)], st0) before) as [sets1 st1].
  cbn [fst snd] in Hinv1.
  destruct (dedupItem_inv _ sets1 st1 item Hinv1) as (Hinv2 & _ & (a & Ha & Hset2) & _).
  destruct (dedupItem (sets1, st1) item) as [sets2 st2]. cbn [fst snd] in *.
  destruct (foldl_dedupItem_inv after _ sets2 st2 Hinv2) as (Hinv3 & Hpre & Hset3).
  rewrite (Hset3 _ Hafter), <- Hitem, Hset2.
  cbn [fst]. f_equal.
  rewrite (dedup_members _ _ _ (occurrences (CardInstance.id item) (CardInstance.id <$> before))
             a Hinv3).
  - subst ids. rewrite fmap_app, fmap_cons. by rewrite <- app_assoc.
  - destruct Hpre as [k ->]. by apply lookup_app_l_Some.
Qed.

(** ** The result of a player *)

Lemma foldl_points_sum (ds : list CardScoreDetail) : ∀ s,
  foldl (λ s d, (s + CardScoreDetail.points d)%Z) s ds
  = (s + foldr Z.add 0 (CardScoreDetail.points <$> ds))%Z.
Proof.
  induction ds as [|d ds IH]; intros s; csimpl; [lia|]. rewrite IH. lia.
Qed.

Lemma scorePlayer_total prepared name i p st :
  PlayerScoreResult.totalScore (fst (scorePlayer prepared name i p st))
  = foldr Z.add 0%Z
      (CardScoreDetail.points
         <$> PlayerScoreResult.cardDetails (fst (scorePlayer prepared name i p st))).
Proof.
  unfold scorePlayer.
  destruct (PreparedPlayer.forest p) as [forest|]; [|done].
  destruct (PreparedPlayer.all p) as [|c all]; [done|].
  unfold bind. destruct (forM _ _ st) as [results st']. cbn [ret fst].
  cbn [PlayerScoreResult.totalScore PlayerScoreResult.cardDetails].
  by rewrite foldl_points_sum.
Qed.

(** X20: the total of every player is the sum of the points of the player's
    card entries. *)
Theorem totalScore_is_sum cards players :
  Forall
    (λ r, PlayerScoreResult.totalScore r
          = foldr Z.add 0%Z (CardScoreDetail.points <$> PlayerScoreResult.cardDetails r))
    (score cards players).
Proof.
  apply Forall_lookup. intros i r Hr. unfold score, scoreAt in Hr.
  apply scorePlayers_lookup in Hr as (player & p & st' & _ & ->).
  apply scorePlayer_total.
Qed.

(** X21: every card entry of a player has a group, "Baum n" with n from 1 to
    the number of trees of the player's forest. *)
Theorem every_entry_has_group cards players i prep forest r d :
  prepareFrom cards 0 players !! i = Some prep →
  PreparedPlayer.forest prep = Some forest →
  score cards players !! i = Some r →
  d ∈ PlayerScoreResult.cardDetails r →
  ∃ n, 1 ≤ n ≤ length (Forest.trees forest)
       ∧ CardScoreDetail.group d = Some ("Baum " +:+ Js.show (Z.of_nat n)).
Proof.
  intros Hprep Hforest Hr Hd. unfold score, scoreAt in Hr.
  apply scorePlayers_lookup in Hr as (player & p & st' & Hl & ->).
  apply lookup_zip_with_Some in Hl as (player' & p' & [= <- <-] & _ & Hp).
  rewrite Hprep in Hp. injection Hp as <-.
  destruct (prepareFrom_lookup _ _ _ _ _ Hprep) as (base & pl & _ & ->).
  destruct (preparePlayer_forest _ _ _ _ Hforest) as (_ & Hall & Hnd).
  destruct (scorePlayer_details (prepareFrom cards 0 players) (PlayerInput.name player)
              (0 + i) (preparePlayer cards base pl) forest st' Hforest)
    as [scoreByBox Hdet].
  rewrite Hdet in Hd. clear Hdet.
  destruct (PreparedPlayer.all (preparePlayer cards base pl)) as [|c0 all0];
    [by apply elem_of_nil in Hd|].
  unfold cardDetailsOf in Hd. apply list_elem_of_omap in Hd as (box & Hbox & Hdetail).
  rewrite (sortCardsInUiOrder_perm forest Hnd) in Hbox.
  apply list_elem_of_fmap in Hbox as (c & -> & Hc).
  unfold forestInstances in Hc. apply list_elem_of_bind in Hc as (t & Hc & Ht).
  rewrite <- (sortTreesVisually_perm (Forest.trees forest)) in Ht.
  apply list_elem_of_lookup in Ht as [j Hj].
  pose proof (buildBoxToTreeIndex_lookup forest j t c Hnd Hj Hc) as Hidx.
  exists (S j). split.
  - apply lookup_lt_Some in Hj.
    rewrite (Permutation_length (sortTreesVisually_perm _)) in Hj. lia.
  - unfold detailFor in Hdetail.
    destruct (_ !! Box.ref (CardInstance.box c)) as [inst|]; [|done].
    destruct (default _ _) as [points reason].
    unfold CardInstance.ref in Hidx. rewrite Hidx in Hdetail.
    injection Hdetail as <-. cbn [CardScoreDetail.group].
    by rewrite Nat2Z.inj_succ, <- Z.add_1_r.
Qed.

(** ** Parsing a label *)

Lemma indexOf_from_found c s : ∀ k i,
  (0 ≤ k)%Z → Js.indexOf_from c s k = i → (0 ≤ i)%Z →
  ∃ n, i = (k + Z.of_nat n)%Z
       ∧ s = Js.take_str n s +:+ String c (Js.drop_str (S n) s)
       ∧ Js.indexOf_from c (Js.take_str n s) k = (-1)%Z.
Proof.
  induction s as [|a s IH]; intros k i Hk Hi Hpos; cbn [Js.indexOf_from] in Hi; [lia|].
  destruct (Ascii.eqb_spec a c) as [->|Hne].
  - exists 0. split; [lia|]. split; done.
  - destruct (IH (k + 1)%Z i) as (n & Hn & Hs & Habs); [lia|done|done|].
    exists (S n). split; [lia|]. split.
    + cbn [Js.take_str Js.drop_str]. rewrite append_cons. by f_equal.
    + cbn [Js.take_str Js.indexOf_from].
      destruct (Ascii.eqb_spec a c); [done|]. done.
Qed.

Lemma indexOf_from_present c before after : ∀ k,
  (0 ≤ k)%Z → (0 ≤ Js.indexOf_from c (before +:+ String c after) k)%Z.
Proof.
  induction before as [|a before IH]; intros k Hk.
  - change ("" +:+ String c after) with (String c after).
    cbn [Js.indexOf_from]. by rewrite Ascii.eqb_refl.
  - rewrite append_cons. cbn [Js.indexOf_from].
    destruct (Ascii.eqb a c); [done|]. apply IH. lia.
Qed.

(** X22: a label is parsed at its first colon: the entity id is what is
    before it and the tree symbol all that is after it, both trimmed; the
    definition is the one the card data has for the id; a label without a
    colon is not parsed. *)
Theorem parseCardInstance_spec box defById :
  match parseCardInstance box defById with
  | None => ∀ before after, Box.clsName box ≠ before +:+ ":" +:+ after
  | Some c =>
      CardInstance.box c = box
      ∧ CardInstance.definition c = defById !! CardInstance.id c
      ∧ ∃ before after,
          Box.clsName box = before +:+ ":" +:+ after
          ∧ Js.indexOf ":"%char before = (-1)%Z
          ∧ CardInstance.id c = Js.trim before
          ∧ CardInstance.treeSymbol c = Js.trim after
  end.
Proof.
  unfold parseCardInstance.
  destruct (Z.ltb_spec (Js.indexOf ":" (Box.clsName box)) 0) as [Hneg|Hpos].
  - intros before after Heq. rewrite Heq in Hneg. unfold Js.indexOf in Hneg.
    pose proof (indexOf_from_present ":" before after 0). 
    change (":" +:+ after) with (String ":" after) in Hneg. lia.
  - cbn [CardInstance.box CardInstance.definition CardInstance.id CardInstance.treeSymbol].
    split; [done|]. split; [done|].
    destruct (indexOf_from_found ":" (Box.clsName box) 0 _ ltac:(lia) eq_refl Hpos)
      as (n & Hn & Hs & Habs).
    exists (Js.take_str n (Box.clsName box)), (Js.drop_str (S n) (Box.clsName box)).
    split; [exact Hs|]. split; [exact Habs|].
    unfold Js.indexOf in *. rewrite Hn. unfold Js.slice_to, Js.slice_from.
    replace (Z.to_nat (0 + Z.of_nat n)) with n by lia.
    replace (Z.to_nat (0 + Z.of_nat n + 1)) with (S n) by lia. done.
Qed.

(** ** The card data by id *)

Lemma foldl_insert_last (l : list CardDef) i : ∀ m : gmap string CardDef,
  foldl (λ m c, <[CardDef.id c := c]> m) m l !! i
  = match last (List.filter (λ c, String.eqb (CardDef.id c) i) l) with
    | Some d => Some d
    | None => m !! i
    end.
Proof.
  induction l as [|c l IH]; intros m; [done|].
  cbn [foldl List.filter]. rewrite IH.
  destruct (String.eqb_spec (CardDef.id c) i) as [<-|Hne].
  - rewrite last_cons. destruct (last _); [done|]. by rewrite lookup_insert_eq.
  - destruct (last _); [done|]. by rewrite lookup_insert_ne.
Qed.

(** X23: the definition the card data has for an id is the last card of the
    data with this id, and none when no card has it. *)
Theorem defByIdOf_lookup cards id :
  defByIdOf cards !! id
  = last (List.filter (λ c, String.eqb (CardDef.id c) id) (CardsJson.cards cards)).
Proof.
  unfold defByIdOf. rewrite foldl_insert_last. by destruct (last _).
Qed.

(** ** The order of the numbers *)

Lemma SFcompare_key f1 f2 :
  SpecFloat.SFcompare f1 f2
  = match numKey f1, numKey f2 with
    | Some k1, Some k2 => Some (keyCompare k1 k2)
    | _, _ => None
    end.
Proof.
  destruct f1 as [s1| s1| |s1 m1 e1], f2 as [s2| s2| |s2 m2 e2];
    try destruct s1; try destruct s2; try reflexivity.
  - cbn [SpecFloat.SFcompare numKey keyCompare Z.compare].
    change (CompOpp (1 ?= 1)%positive) with Eq. cbv iota.
    rewrite (Z.compare_opp e1 e2). rewrite (Z.compare_antisym e1 e2).
    change (PosDef.Pos.compare_cont Eq m1 m2) with (Pos.compare m1 m2).
    destruct (e1 ?= e2)%Z; reflexivity.
Qed.

Lemma keyCompare_Lt_trans k1 k2 k3 :
  keyCompare k1 k2 = Lt → keyCompare k2 k3 = Lt → keyCompare k1 k3 = Lt.
Proof.
  destruct k1 as [[a1 b1] c1], k2 as [[a2 b2] c2], k3 as [[a3 b3] c3].
  unfold keyCompare.
  destruct (Z.compare_spec a1 a2), (Z.compare_spec a2 a3), (Z.compare_spec a1 a3);
    try done; try lia.
  destruct (Z.compare_spec b1 b2), (Z.compare_spec b2 b3), (Z.compare_spec b1 b3);
    try done; try lia.
  rewrite !Z.compare_lt_iff. lia.
Qed.

Lemma keyCompare_Eq k1 k2 : keyCompare k1 k2 = Eq ↔ k1 = k2.
Proof.
  destruct k1 as [[a1 b1] c1], k2 as [[a2 b2] c2]. unfold keyCompare.
  destruct (Z.compare_spec a1 a2), (Z.compare_spec b1 b2), (Z.compare_spec c1 c2);
    split; intros Heq; try done; simplify_eq; try lia; by subst.
Qed.

Lemma keyCompare_Lt_asym k1 k2 : keyCompare k1 k2 = Lt → keyCompare k2 k1 = Gt.
Proof.
  destruct k1 as [[a1 b1] c1], k2 as [[a2 b2] c2]. unfold keyCompare.
  destruct (Z.compare_spec a1 a2), (Z.compare_spec a2 a1); try done; try lia.
  destruct (Z.compare_spec b1 b2), (Z.compare_spec b2 b1); try done; try lia.
  destruct (Z.compare_spec c1 c2), (Z.compare_spec c2 c1); try done; lia.
Qed.

Lemma keyCompare_Gt k1 k2 : keyCompare k1 k2 = Gt → keyCompare k2 k1 = Lt.
Proof.
  destruct k1 as [[a1 b1] c1], k2 as [[a2 b2] c2]. unfold keyCompare.
  destruct (Z.compare_spec a1 a2), (Z.compare_spec a2 a1); try done; try lia.
  destruct (Z.compare_spec b1 b2), (Z.compare_spec b2 b1); try done; try lia.
  destruct (Z.compare_spec c1 c2), (Z.compare_spec c2 c1); try done; lia.
Qed.

(** [a < b] on numbers, by their places. *)
Lemma ltb_key a b :
  (a <? b)%float = true ↔
  ∃ ka kb, keyOf a = Some ka ∧ keyOf b = Some kb ∧ keyCompare ka kb = Lt.
Proof.
  rewrite FloatAxioms.ltb_spec. unfold SpecFloat.SFltb, keyOf. rewrite SFcompare_key.
  destruct (numKey (FloatOps.Prim2SF a)) as [ka|], (numKey (FloatOps.Prim2SF b)) as [kb|].
  - split.
    + intros H. exists ka, kb. by destruct (keyCompare ka kb).
    + intros (? & ? & ? & ? & Hlt). simplify_eq. by rewrite Hlt.
  - split; [done|]. by intros (? & ? & _ & ? & _).
  - split; [done|]. by intros (? & ? & ? & _).
  - split; [done|]. by intros (? & ? & ? & _).
Qed.

(** [a === b] on numbers, by their places. *)
Lemma eqb_key a b :
  (a =? b)%float = true ↔ ∃ k, keyOf a = Some k ∧ keyOf b = Some k.
Proof.
  rewrite FloatAxioms.eqb_spec. unfold SpecFloat.SFeqb, keyOf. rewrite SFcompare_key.
  destruct (numKey (FloatOps.Prim2SF a)) as [ka|], (numKey (FloatOps.Prim2SF b)) as [kb|].
  - split.
    + intros H. exists ka. split; [done|]. f_equal. symmetry. apply keyCompare_Eq.
      by destruct (keyCompare ka kb).
    + intros (k & ? & ?). simplify_eq. by rewrite (proj2 (keyCompare_Eq _ _) eq_refl).
  - split; [done|]. by intros (? & _ & ?).
  - split; [done|]. by intros (? & ? & _).
  - split; [done|]. by intros (? & ? & _).
Qed.

Lemma ltb_false_trans a b c :
  (a <? b)%float = true → (b <? c)%float = true → (a <? c)%float = true.
Proof.
  rewrite !ltb_key. intros (ka & kb & Ha & Hb & H1) (kb' & kc & Hb' & Hc & H2).
  simplify_eq. exists ka, kc. split; [done|]. split; [done|].
  by eapply keyCompare_Lt_trans.
Qed.

Lemma ltb_asym_float a b : (a <? b)%float = true → (b <? a)%float = false.
Proof.
  intros H. apply not_true_iff_false. intros H'. revert H H'.
  rewrite !ltb_key. intros (ka & kb & Ha & Hb & H1) (kb' & ka' & Hb' & Ha' & H2).
  simplify_eq. apply keyCompare_Lt_asym in H1. congruence.
Qed.

Lemma ltb_irrefl_float a : (a <? a)%float = false.
Proof.
  destruct (a <? a)%float eqn:H; [|done]. pose proof (ltb_asym_float _ _ H). congruence.
Qed.

Lemma ltb_eqb_l a b c :
  (a =? b)%float = true → (a <? c)%float = (b <? c)%float.
Proof.
  intros (k & Ha & Hb)%eqb_key. apply eq_true_iff_eq. rewrite !ltb_key.
  split; intros (k1 & k2 & H1 & H2 & H3); simplify_eq; eauto 6.
Qed.

Lemma ltb_eqb_r a b c :
  (a =? b)%float = true → (c <? a)%float = (c <? b)%float.
Proof.
  intros (k & Ha & Hb)%eqb_key. apply eq_true_iff_eq. rewrite !ltb_key.
  split; intros (k1 & k2 & H1 & H2 & H3); simplify_eq; eauto 6.
Qed.

Lemma eqb_sym_float a b : (a =? b)%float = (b =? a)%float.
Proof.
  apply eq_true_iff_eq. rewrite !eqb_key. split; intros (k & ? & ?); eauto.
Qed.

Lemma eqb_trans_float a b c :
  (a =? b)%float = true → (b =? c)%float = true → (a =? c)%float = true.
Proof.
  rewrite !eqb_key. intros (k & ? & ?) (k' & ? & ?). simplify_eq. eauto.
Qed.

Lemma is_nan_key a : PrimFloat.is_nan a = true ↔ keyOf a = None.
Proof.
  unfold PrimFloat.is_nan. rewrite negb_true_iff, <- not_true_iff_false, eqb_key.
  destruct (keyOf a) as [k|]; split; try done.
  - intros H. destruct H. eauto.
  - intros _ (k & ? & _). done.
Qed.

(** Two numbers with no order between them and no NaN are equal or are
    the two zeros. *)
Lemma no_order_eq a b :
  PrimFloat.is_nan a = false → PrimFloat.is_nan b = false →
  (a <? b)%float = false → (b <? a)%float = false →
  a = b ∨ (a = 0%float ∧ b = (-0)%float) ∨ (a = (-0)%float ∧ b = 0%float).
Proof.
  intros Ha Hb Hab Hba.
  apply not_true_iff_false in Ha, Hb, Hab, Hba.
  rewrite is_nan_key in Ha, Hb. rewrite ltb_key in Hab, Hba.
  unfold keyOf in *.
  destruct (numKey (FloatOps.Prim2SF a)) as [ka|] eqn:Hka; [|done].
  destruct (numKey (FloatOps.Prim2SF b)) as [kb|] eqn:Hkb; [|done].
  assert (ka = kb) as <-.
  { apply keyCompare_Eq. destruct (keyCompare ka kb) eqn:Hc; [done| |].
    - destruct Hab. eauto.
    - destruct Hba. apply keyCompare_Gt in Hc. eauto. }
  rewrite <- (FloatAxioms.SF2Prim_Prim2SF a), <- (FloatAxioms.SF2Prim_Prim2SF b).
  destruct (FloatOps.Prim2SF a) as [s1|s1| |s1 m1 e1], (FloatOps.Prim2SF b) as [s2|s2| |s2 m2 e2];
    try destruct s1; try destruct s2; cbn [numKey] in *; simplify_eq; auto.
  left. f_equal. f_equal. lia.
Qed.

(** ** Overlaps *)

Lemma Math_max_comm a b : Js.Math_max a b = Js.Math_max b a.
Proof.
  unfold Js.Math_max. rewrite (orb_comm (PrimFloat.is_nan b)).
  destruct (PrimFloat.is_nan a) eqn:Ha, (PrimFloat.is_nan b) eqn:Hb; try done.
  cbn [orb].
  destruct (a <? b)%float eqn:Hab.
  { by rewrite (ltb_asym_float _ _ Hab). }
  destruct (b <? a)%float eqn:Hba; [done|].
  destruct (no_order_eq a b Ha Hb Hab Hba) as [->|[[-> ->]|[-> ->]]]; [|done|done].
  by destruct (PrimFloat.get_sign b).
Qed.

Lemma Math_min_comm a b : Js.Math_min a b = Js.Math_min b a.
Proof.
  unfold Js.Math_min. rewrite (orb_comm (PrimFloat.is_nan b)).
  destruct (PrimFloat.is_nan a) eqn:Ha, (PrimFloat.is_nan b) eqn:Hb; try done.
  cbn [orb].
  destruct (a <? b)%float eqn:Hab.
  { by rewrite (ltb_asym_float _ _ Hab). }
  destruct (b <? a)%float eqn:Hba; [done|].
  destruct (no_order_eq a b Ha Hb Hab Hba) as [->|[[-> ->]|[-> ->]]]; [|done|done].
  by destruct (PrimFloat.get_sign b).
Qed.

(** [Math.max(0, v)] is not negative. *)
Lemma Math_max_0_nonneg v : (Js.Math_max 0 v <? 0)%float = false.
Proof.
  unfold Js.Math_max.
  destruct (PrimFloat.is_nan 0 || PrimFloat.is_nan v); [done|].
  destruct (0 <? v)%float eqn:H0v; [by apply ltb_asym_float|].
  destruct (v <? 0)%float eqn:Hv0; [done|]. done.
Qed.

Lemma overlap_nonneg_aux a b :
  (overlapH a b <? 0)%float = false ∧ (overlapV a b <? 0)%float = false.
Proof. split; apply Math_max_0_nonneg. Qed.

(** X24: the overlap of two boxes does not depend on their order, and it is
    never negative. *)
Theorem overlap_symmetric_nonneg a b :
  overlapH a b = overlapH b a
  ∧ overlapV a b = overlapV b a
  ∧ (overlapH a b <? 0)%float = false
  ∧ (overlapV a b <? 0)%float = false.
Proof.
  unfold overlapH, overlapV.
  rewrite (Math_min_comm (Box.x2 a)), (Math_max_comm (Box.x1 a)).
  rewrite (Math_min_comm (Box.y2 a)), (Math_max_comm (Box.y1 a)).
  repeat split; apply Math_max_0_nonneg.
Qed.

(** ** The best candidate *)

Lemma notBetter_refl c : notBetter c c.
Proof. split; intros; apply ltb_irrefl_float. Qed.

Lemma betterCandidate_keeps x best c b' :
  notBetter x best → betterCandidate (Some best) c = Some b' → notBetter x b'.
Proof.
  intros [H1 H2]. unfold betterCandidate.
  set (dx := PlacementCandidate.dist x) in *. set (db := PlacementCandidate.dist best) in *.
  set (dc := PlacementCandidate.dist c). set (ox := PlacementCandidate.overlap x) in *.
  set (ob := PlacementCandidate.overlap best) in *. set (oc := PlacementCandidate.overlap c).
  destruct (dc <? db)%float eqn:Hlt.
  - cbn [orb]. intros [= <-]. split; fold dc oc.
    + destruct (dx <? dc)%float eqn:Hx; [|done].
      pose proof (ltb_false_trans _ _ _ Hx Hlt). congruence.
    + intros Heq. rewrite (ltb_eqb_l _ _ _ Heq) in H1. congruence.
  - cbn [orb].
    destruct (dc =? db)%float eqn:Heq; [|cbn [andb]; by intros [= <-]].
    destruct (ob <? oc)%float eqn:Ho; cbn [andb]; [|by intros [= <-]].
    intros [= <-]. split; fold dc oc.
    + by rewrite (ltb_eqb_r _ _ _ Heq).
    + intros Hxc. pose proof (eqb_trans_float _ _ _ Hxc Heq) as Hxb.
      specialize (H2 Hxb).
      destruct (oc <? ox)%float eqn:Hcx; [|done].
      pose proof (ltb_false_trans _ _ _ Ho Hcx). congruence.
Qed.

Lemma betterCandidate_self acc c b' :
  betterCandidate acc c = Some b' → notBetter c b' ∧ (b' = c ∨ acc = Some b').
Proof.
  unfold betterCandidate. destruct acc as [best|].
  2:{ intros [= <-]. split; [apply notBetter_refl|by left]. }
  destruct (PlacementCandidate.dist c <? PlacementCandidate.dist best)%float eqn:Hlt.
  { cbn [orb]. intros [= <-]. split; [apply notBetter_refl|by left]. }
  cbn [orb].
  destruct (PlacementCandidate.dist c =? PlacementCandidate.dist best)%float eqn:Heq.
  - destruct (PlacementCandidate.overlap best <? PlacementCandidate.overlap c)%float eqn:Ho;
      cbn [andb]; intros [= <-].
    + split; [apply notBetter_refl|by left].
    + split; [|by right]. split; done.
  - cbn [andb]. intros [= <-]. split; [|by right]. split; [done|]. congruence.
Qed.

Lemma pickBest_spec ocs : ∀ acc seen best,
  (acc = None → seen = []) →
  (∀ b, acc = Some b → ∀ x, x ∈ seen → notBetter x b) →
  pickBest acc ocs = Some best →
  (acc = Some best ∨ Some best ∈ ocs)
  ∧ (∀ x, x ∈ seen → notBetter x best)
  ∧ ∀ c, Some c ∈ ocs → notBetter c best.
Proof.
  induction ocs as [|oc ocs IH]; intros acc seen best Hnone Hseen Hpick.
  - cbn in Hpick. split; [by left|]. split; [by apply Hseen|].
    intros c Hc. by apply elem_of_nil in Hc.
  - unfold pickBest in Hpick. cbn [foldl] in Hpick.
    destruct oc as [c|].
    + fold (pickBest (betterCandidate acc c) ocs) in Hpick.
      destruct (IH (betterCandidate acc c) (c :: seen) best) as (H1 & H2 & H3); [| |done|].
      { unfold betterCandidate. destruct acc; [|done]. by destruct (_ || _). }
      { intros b Hb x [->|Hx]%elem_of_cons.
        - by apply (betterCandidate_self acc c b).
        - destruct acc as [a|].
          + eapply betterCandidate_keeps; [|exact Hb]. by apply Hseen.
          + rewrite Hnone in Hx by done. by apply elem_of_nil in Hx. }
      split; [|split].
      * destruct H1 as [H1|H1]; [|right; by right].
        destruct (betterCandidate_self acc c best H1) as [_ [->|?]]; [right; by left|by left].
      * intros x Hx. apply H2. by right.
      * intros c' [[= ->]|Hc']%elem_of_cons; [apply H2; by left|by apply H3].
    + fold (pickBest acc ocs) in Hpick.
      destruct (IH acc seen best Hnone Hseen Hpick) as (H1 & H2 & H3).
      split; [|split; [done|]].
      * destruct H1; [by left|right; by right].
      * intros c' [[=]|Hc']%elem_of_cons. by apply H3.
Qed.

Lemma placementStep_better card tree best side :
  placementStep card tree best side
  = match sideCandidate card tree side with
    | None => best
    | Some cand => betterCandidate best cand
    end.
Proof.
  unfold sideCandidate, placementStep, betterCandidate.
  repeat match goal with
         | |- context [if ?b then _ else _] =>
             lazymatch b with
             | orb _ _ => fail
             | _ => destruct b
             end
         end; try done.
Qed.

Lemma sideCandidate_fields card tree side c :
  sideCandidate card tree side = Some c →
  PlacementCandidate.tree c = tree
  ∧ PlacementCandidate.side c = side
  ∧ (PlacementCandidate.dist c <? 0)%float = false
  ∧ (PlacementCandidate.overlap c <? 0)%float = false.
Proof.
  unfold sideCandidate, placementStep. intros H.
  repeat match type of H with
         | context [if ?b then _ else _] => destruct b
         end; try done.
  all: injection H as <-; cbn.
  all: repeat split; try apply Math_max_0_nonneg.
  all: destruct side; cbn; apply overlap_nonneg_aux.
Qed.

Lemma pickBest_first ocs best :
  pickBest None ocs = Some best →
  Some best ∈ ocs ∧ ∀ c, Some c ∈ ocs → notBetter c best.
Proof.
  intros Hpick.
  destruct (pickBest_spec ocs None [] best) as ([?|Hin] & _ & Hall); try done.
Qed.

Lemma bestPlacementCandidate_pick card tree :
  bestPlacementCandidate card tree
  = pickBest None (sideCandidate card tree <$> [Top; Left; Right; Bottom]).
Proof.
  unfold bestPlacementCandidate, pickBest. cbn [foldl fmap list_fmap].
  by rewrite !placementStep_better.
Qed.

Lemma bestOverTrees_pick card treeCards :
  bestOverTrees card treeCards
  = pickBest None (bestPlacementCandidate card <$> treeCards).
Proof.
  unfold bestOverTrees, pickBest. generalize (@None PlacementCandidate).
  induction treeCards as [|t ts IH]; intros acc; [done|].
  cbn [foldl fmap list_fmap]. by rewrite IH.
Qed.

(** X25: the candidate [bestPlacementCandidate] returns is the candidate of
    one of the four sides of the tree, the side it names; its distance and
    its overlap are not negative; and the candidate of no side beats it:
    none is nearer, and none at the same distance has a larger overlap. *)
Theorem bestPlacementCandidate_best card tree best :
  bestPlacementCandidate card tree = Some best →
  PlacementCandidate.tree best = tree
  ∧ sideCandidate card tree (PlacementCandidate.side best) = Some best
  ∧ (PlacementCandidate.dist best <? 0)%float = false
  ∧ (PlacementCandidate.overlap best <? 0)%float = false
  ∧ ∀ side c, sideCandidate card tree side = Some c → notBetter c best.
Proof.
  rewrite bestPlacementCandidate_pick. intros Hpick.
  destruct (pickBest_first _ _ Hpick) as [Hin Hall].
  apply list_elem_of_fmap in Hin as (side & Hside & _). symmetry in Hside.
  destruct (sideCandidate_fields _ _ _ _ Hside) as (Ht & Hs & Hd & Ho).
  split; [done|]. split; [by rewrite Hs|]. split; [done|]. split; [done|].
  intros side' c Hc. apply Hall. apply list_elem_of_fmap. exists side'.
  split; [done|]. destruct side'; rewrite !elem_of_cons; auto.
Qed.

(** X26: the candidate Phase 1 keeps for a card is the best candidate of one
    of the trees, and the best candidate of no tree beats it: no tree is
    nearer to the card, and no tree at the same distance has a larger
    overlap with it. *)
Theorem bestOverTrees_nearest card treeCards best :
  bestOverTrees card treeCards = Some best →
  PlacementCandidate.tree best ∈ treeCards
  ∧ bestPlacementCandidate card (PlacementCandidate.tree best) = Some best
  ∧ ∀ tree c, tree ∈ treeCards → bestPlacementCandidate card tree = Some c →
      notBetter c best.
Proof.
  rewrite bestOverTrees_pick. intros Hpick.
  destruct (pickBest_first _ _ Hpick) as [Hin Hall].
  apply list_elem_of_fmap in Hin as (tree & Htree & Hin). symmetry in Htree.
  pose proof (bestPlacementCandidate_tree _ _ _ Htree) as Ht.
  split; [by rewrite Ht|]. split; [by rewrite Ht|].
  intros tree' c Hin' Hc. apply Hall. apply list_elem_of_fmap. eauto.
Qed.

(** ** The pool of a count *)

Lemma countMatches_pool self cond all pl am res st pool :
  ConditionJson.most cond = false → ConditionJson.fullTree cond = false →
  (if ConditionJson.sameTree cond then
     match pl !! Box.ref (CardInstance.box self) with
     | None => None
     | Some p =>
         let tree := Placement.tree p in
         let treeCards :=
           Tree.top tree ++ Tree.bottom tree ++ Tree.left tree ++ Tree.right tree in
         Some (if sameInstance self (Tree.card tree) then treeCards
               else Tree.card tree :: treeCards)
     end
   else if ConditionJson.sameSpot cond then
     match pl !! Box.ref (CardInstance.box self) with
     | None => None
     | Some p =>
         match Placement.side p with
         | None => None
         | Some side => Some (treeSide (Placement.tree p) side)
         end
     end
   else if match ConditionJson.position cond with
           | Some pos => Js.includes pos "below"
           | None => false
           end then
     Some (List.filter
             (λ o,
                (Box.y2 (CardInstance.box self) <=? Box.y1 (CardInstance.box o))%float
                && (0 <? overlapH (CardInstance.box o) (CardInstance.box self))%float)
             all)
   else Some all) = Some pool →
  countMatches self cond all pl am res st = countPool self cond pool st.
Proof.
  intros Hmost Hfull Hpool. unfold countMatches, mostGate, bind, countPool.
  rewrite Hmost. unfold ret at 1. cbn [negb]. cbv zeta in Hpool |- *.
  rewrite Hfull, Hpool. done.
Qed.

Lemma treeSide_attached tree side c : c ∈ treeSide tree side → c ∈ attachmentsOf tree.
Proof.
  unfold attachmentsOf. rewrite !elem_of_app. destruct side; cbn [treeSide]; auto.
Qed.

(** X27: in a forest whose instances are distinct objects, and for a
    condition without [most] and [fullTree]: under [sameTree] a tree card
    counts among the cards attached to its tree, and an attached card among
    the tree card and all the cards attached to the tree, itself included;
    under [sameSpot] an attached card counts among the cards of its side of
    the tree, itself included. *)
Theorem countMatches_tree_pools forest tree cond all am res st :
  NoDup (refsOf (forestInstances forest)) →
  tree ∈ Forest.trees forest →
  ConditionJson.most cond = false →
  ConditionJson.fullTree cond = false →
  let pl := buildPlacementsByBox forest in
  let treeCards := Tree.top tree ++ Tree.bottom tree ++ Tree.left tree ++ Tree.right tree in
  (ConditionJson.sameTree cond = true →
   countMatches (Tree.card tree) cond all pl am res st
   = countPool (Tree.card tree) cond treeCards st)
  ∧ (ConditionJson.sameTree cond = true →
     ∀ c, c ∈ attachmentsOf tree →
       countMatches c cond all pl am res st
       = countPool c cond (Tree.card tree :: treeCards) st)
  ∧ (ConditionJson.sameTree cond = false → ConditionJson.sameSpot cond = true →
     ∀ side c, c ∈ treeSide tree side →
       countMatches c cond all pl am res st = countPool c cond (treeSide tree side) st).
Proof.
  intros Hnd Ht Hmost Hfull pl treeCards.
  destruct (placements_exact forest tree Hnd Ht) as (Ha & Hs & _).
  fold pl in Ha, Hs. unfold CardInstance.ref in Ha, Hs.
  split; [|split].
  - intros Hsame. apply countMatches_pool; [done|done|].
    rewrite Hsame, Ha. cbn [Placement.tree]. by rewrite sameInstance_refl.
  - intros Hsame c Hc. apply countMatches_pool; [done|done|].
    assert (∃ side, c ∈ treeSide tree side) as [side Hside].
    { unfold attachmentsOf in Hc. rewrite !elem_of_app in Hc.
      destruct Hc as [?|[?|[?|?]]]; [by exists Top|by exists Left|by exists Right|by exists Bottom]. }
    rewrite Hsame, (Hs side c Hside). cbn [Placement.tree].
    assert (sameInstance c (Tree.card tree) = false) as ->; [|done].
    apply not_true_iff_false. rewrite sameInstance_ref. intros Href.
    assert (NoDup (refsOf (Tree.card tree :: attachmentsOf tree))) as Hnd'.
    { eapply NoDup_refs_submseteq; [|exact Hnd]. unfold forestInstances.
      apply list_elem_of_split in Ht as (l1 & l2 & ->).
      rewrite bind_app, bind_cons. solve_submseteq. }
    apply (NoDup_refs_app_l [Tree.card tree] _ c Hnd' Hc).
    unfold refsOf. rewrite fmap_cons, fmap_nil. by apply list_elem_of_singleton.
  - intros Hsame Hspot side c Hc. apply countMatches_pool; [done|done|].
    rewrite Hsame, Hspot, (Hs side c Hc). done.
Qed.

(** ** Directly adjacent cards *)

Lemma adjacentDist_nonneg anchorBox side c d :
  adjacentDist anchorBox side c = Some d → (d <? 0)%float = false.
Proof.
  unfold adjacentDist. intros H.
  repeat match type of H with
         | context [if ?b then _ else _] => destruct b
         end; try done.
  injection H as <-. apply Math_max_0_nonneg.
Qed.

(** X28: the cards [pickDirectlyAdjacent] returns are cards it was given, in
    their order, and each of them passes the test of adjacency on the side,
    with a distance that is not negative. *)
Theorem pickDirectlyAdjacent_sound anchorBox cards side :
  pickDirectlyAdjacent anchorBox cards side `sublist_of` cards
  ∧ ∀ c, c ∈ pickDirectlyAdjacent anchorBox cards side →
      ∃ d, adjacentDist anchorBox side c = Some d ∧ (d <? 0)%float = false.
Proof.
  unfold pickDirectlyAdjacent.
  set (f := λ card : CardInstance, pair card <$> adjacentDist anchorBox side card).
  set (candidates := omap f cards).
  assert (∀ cd, cd ∈ candidates → adjacentDist anchorBox side (fst cd) = Some (snd cd)) as Hcand.
  { intros [c d] Hin. apply list_elem_of_omap in Hin as (card & _ & Hf).
    unfold f in Hf. destruct (adjacentDist anchorBox side card) as [d'|] eqn:Hd; [|done].
    cbn in Hf. by simplify_eq. }
  assert (fst <$> candidates `sublist_of` cards) as Hsub.
  { apply omap_sublist_fmap. intros card [c d] Hf. unfold f in Hf.
    destruct (adjacentDist anchorBox side card); cbn in Hf; by simplify_eq. }
  destruct candidates as [|cd0 rest] eqn:Hc.
  { split; [apply sublist_nil_l|]. by intros c ?%elem_of_nil. }
  rewrite <- Hc in *. clear Hc cd0 rest. map_to_fmap. split.
  - etrans; [|exact Hsub]. apply fmap_sublist, filter_sublist.
  - intros c Hin. apply list_elem_of_fmap in Hin as ([c' d] & -> & Hin).
    apply elem_of_List_filter in Hin as [Hin _]. apply Hcand in Hin.
    exists d. split; [done|]. by eapply adjacentDist_nonneg.
Qed.

(** ** Players without the "most" rule *)

Section independent.
Context (R : nat → Prop) (junk : list (list string)).

Local Abbreviation later := (λ a : nat, length junk + a).

Lemma lookup_junk (heap : list (list string)) a : (junk ++ heap) !! later a = heap !! a.
Proof. rewrite lookup_app_r by lia. f_equal. lia. Qed.

Lemma insert_junk (heap : list (list string)) a m :
  <[later a := m]> (junk ++ heap) = junk ++ <[a := m]> heap.
Proof. rewrite insert_app_r_alt by lia. do 2 f_equal. lia. Qed.

Lemma find_later (g g' : nat → bool) (l : list nat) :
  (∀ a, g (later a) = g' a) → List.find g (later <$> l) = later <$> List.find g' l.
Proof.
  intros Hg. induction l as [|a l IH]; [done|].
  rewrite fmap_cons. cbn [List.find]. rewrite Hg. by destruct (g' a).
Qed.

Lemma sameOutside_refl st : sameOutside R st st.
Proof. by intros ??. Qed.

Lemma sameOutside_trans st1 st2 st3 :
  sameOutside R st1 st2 → sameOutside R st2 st3 → sameOutside R st1 st3.
Proof. intros H1 H2 k Hk. by rewrite H2, H1. Qed.

Lemma dedupItem_sim sets' st st' item :
  simState R junk st st' → R (CardInstance.ref item) →
  fst (dedupItem (later <$> sets', st) item) = later <$> fst (dedupItem (sets', st') item)
  ∧ simState R junk (snd (dedupItem (later <$> sets', st) item))
      (snd (dedupItem (sets', st') item))
  ∧ sameOutside R st (snd (dedupItem (later <$> sets', st) item)).
Proof.
  intros [Hheap Hset] Hitem. unfold dedupItem. rewrite Hheap.
  set (heap' := ScoreState.setHeap st').
  set (x := CardInstance.id item).
  rewrite (find_later _ (λ a, negb (Js.includes (default [] (heap' !! a)) x))).
  2:{ intros a. by rewrite lookup_junk. }
  destruct (List.find _ sets') as [a'|]; cbn [fmap option_fmap option_map].
  - cbv beta iota zeta. rewrite lookup_junk, insert_junk. cbn [fst snd].
    split; [done|]. split; [split|].
    + done.
    + intros r Hr. cbn [ScoreState.setOf].
      destruct (decide (r = CardInstance.ref item)) as [->|Hne].
      * by rewrite !lookup_insert_eq.
      * rewrite !lookup_insert_ne by done. by apply Hset.
    + intros k Hk. cbn [ScoreState.setOf]. rewrite lookup_insert_ne; [done|].
      intros <-. by apply Hk.
  - cbv beta iota zeta. rewrite length_app.
    rewrite <- (assoc_L (++) junk heap' [[]]).
    rewrite lookup_junk, insert_junk. cbn [fst snd].
    split; [by rewrite fmap_app|]. split; [split|].
    + done.
    + intros r Hr. cbn [ScoreState.setOf].
      destruct (decide (r = CardInstance.ref item)) as [->|Hne].
      * by rewrite !lookup_insert_eq.
      * rewrite !lookup_insert_ne by done. by apply Hset.
    + intros k Hk. cbn [ScoreState.setOf]. rewrite lookup_insert_ne; [done|].
      intros <-. by apply Hk.
Qed.

Lemma foldl_dedupItem_sim matching : ∀ sets' st st',
  simState R junk st st' → (∀ item, item ∈ matching → R (CardInstance.ref item)) →
  simState R junk (snd (foldl dedupItem (later <$> sets', st) matching))
    (snd (foldl dedupItem (sets', st') matching))
  ∧ sameOutside R st (snd (foldl dedupItem (later <$> sets', st) matching)).
Proof.
  induction matching as [|item matching IH]; intros sets' st st' Hsim Hin.
  - split; [done|apply sameOutside_refl].
  - cbn [foldl].
    destruct (dedupItem_sim sets' st st' item Hsim) as (H1 & H2 & H3).
    { apply Hin. by left. }
    destruct (dedupItem (later <$> sets', st) item) as [sets1 st1].
    destruct (dedupItem (sets', st') item) as [sets1' st1']. cbn [fst snd] in *. subst sets1.
    destruct (IH sets1' st1 st1' H2) as [G1 G2].
    { intros ??. apply Hin. by right. }
    split; [done|]. by eapply sameOutside_trans.
Qed.

Lemma tableDedup_sim self matching st st' :
  simState R junk st st' → R (CardInstance.ref self) →
  (∀ item, item ∈ matching → R (CardInstance.ref item)) →
  fst (tableDedup self matching st) = fst (tableDedup self matching st')
  ∧ simState R junk (snd (tableDedup self matching st)) (snd (tableDedup self matching st'))
  ∧ sameOutside R st (snd (tableDedup self matching st)).
Proof.
  intros Hsim Hself Hin. unfold tableDedup.
  pose proof Hsim as [Hheap Hset]. rewrite (Hset _ Hself).
  destruct (ScoreState.setOf st' !! CardInstance.ref self) as [a'|] eqn:Ha';
    cbn [fmap option_fmap option_map].
  - rewrite (Hset _ Hself), Ha'. cbn [fmap option_fmap option_map fst snd].
    rewrite Hheap, lookup_junk. split; [done|]. split; [done|apply sameOutside_refl].
  - set (st0 := ScoreState.mk _ _ (ScoreState.setHeap st ++ _) _).
    set (st0' := ScoreState.mk _ _ (ScoreState.setHeap st' ++ _) _).
    assert (simState R junk st0 st0') as Hsim0.
    { split.
      - subst st0 st0'. cbn [ScoreState.setHeap]. by rewrite Hheap, <- (assoc_L (++)).
      - intros r Hr. subst st0 st0'. cbn [ScoreState.setOf].
        destruct (decide (r = CardInstance.ref self)) as [->|Hne].
        + rewrite !lookup_insert_eq. cbn. f_equal. rewrite Hheap, length_app. done.
        + rewrite !lookup_insert_ne by done. by apply Hset. }
    assert (sameOutside R st st0) as Hout0.
    { intros k Hk. subst st0. cbn [ScoreState.setOf]. rewrite lookup_insert_ne; [done|].
      intros <-. by apply Hk. }
    assert ([length (ScoreState.setHeap st)] = later <$> [length (ScoreState.setHeap st')])
      as ->.
    { rewrite Hheap, length_app. done. }
    destruct (foldl_dedupItem_sim matching [length (ScoreState.setHeap st')] st0 st0' Hsim0 Hin)
      as [[Hheap1 Hset1] Hout1].
    destruct (foldl dedupItem (later <$> [length (ScoreState.setHeap st')], st0) matching)
      as [setsf stf].
    destruct (foldl dedupItem ([length (ScoreState.setHeap st')], st0') matching)
      as [setsf' stf'].
    cbn [fst snd] in *. rewrite (Hset1 _ Hself).
    destruct (ScoreState.setOf stf' !! CardInstance.ref self) as [a1|];
      cbn [fmap option_fmap option_map].
    + rewrite Hheap1, lookup_junk. split; [done|]. split; [done|].
      by eapply sameOutside_trans.
    + split; [done|]. split; [done|]. by eapply sameOutside_trans.
Qed.

Lemma filterCards_in self pool cond item :
  item ∈ filterCards self pool cond → item ∈ pool.
Proof. unfold filterCards. by intros [? _]%elem_of_List_filter. Qed.

Lemma countPool_sim self cond pool st st' :
  simState R junk st st' → R (CardInstance.ref self) →
  (∀ item, item ∈ pool → R (CardInstance.ref item)) →
  fst (countPool self cond pool st) = fst (countPool self cond pool st')
  ∧ simState R junk (snd (countPool self cond pool st)) (snd (countPool self cond pool st'))
  ∧ sameOutside R st (snd (countPool self cond pool st)).
Proof.
  intros Hsim Hself Hpool. unfold countPool. cbv zeta.
  destruct (_ && _).
  - apply tableDedup_sim; [done|done|]. intros item Hitem.
    apply Hpool. by eapply filterCards_in.
  - split; [done|]. split; [done|apply sameOutside_refl].
Qed.

Lemma countMatches_sim self cond all pl am res res' st st' :
  ConditionJson.most cond = false →
  simState R junk st st' → R (CardInstance.ref self) →
  (∀ c, c ∈ all → R (CardInstance.ref c)) →
  (∀ p c, pl !! Box.ref (CardInstance.box self) = Some p →
     c ∈ Tree.card (Placement.tree p)
         :: Tree.top (Placement.tree p) ++ Tree.bottom (Placement.tree p)
            ++ Tree.left (Placement.tree p) ++ Tree.right (Placement.tree p) →
     R (CardInstance.ref c)) →
  fst (countMatches self cond all pl am res st)
  = fst (countMatches self cond all pl am res' st')
  ∧ simState R junk (snd (countMatches self cond all pl am res st))
      (snd (countMatches self cond all pl am res' st'))
  ∧ sameOutside R st (snd (countMatches self cond all pl am res st)).
Proof.
  intros Hmost Hsim Hself Hall Hpl. unfold countMatches, mostGate, bind.
  rewrite Hmost. unfold ret at 1 4. cbn [negb]. cbv zeta.
  assert (∀ z : Z,
    fst (ret z st) = fst (ret z st') ∧ simState R junk (snd (ret z st)) (snd (ret z st'))
    ∧ sameOutside R st (snd (ret z st))) as Hret.
  { intros z. split; [done|]. split; [done|apply sameOutside_refl]. }
  destruct (ConditionJson.fullTree cond); [apply Hret|].
  destruct (ConditionJson.sameTree cond).
  { destruct (pl !! Box.ref (CardInstance.box self)) as [p|] eqn:Hp; [|apply Hret].
    apply (countPool_sim self cond); [done|done|].
    intros item Hitem. apply (Hpl p item eq_refl).
    destruct (sameInstance self (Tree.card (Placement.tree p))); [by right|done]. }
  destruct (ConditionJson.sameSpot cond).
  { destruct (pl !! Box.ref (CardInstance.box self)) as [p|] eqn:Hp; [|apply Hret].
    destruct (Placement.side p) as [side|]; [|apply Hret].
    apply (countPool_sim self cond); [done|done|].
    intros item Hitem. apply (Hpl p item eq_refl). right.
    rewrite !elem_of_app. destruct side; cbn [treeSide] in Hitem; auto. }
  destruct (match ConditionJson.position cond with Some _ => _ | None => _ end).
  - apply (countPool_sim self cond); [done|done|].
    intros item [Hitem _]%elem_of_List_filter. by apply Hall.
  - by apply (countPool_sim self cond).
Qed.

Lemma scoreInstanceWithReason_sim instance all pl am res res' st st' :
  quiet instance →
  simState R junk st st' → R (CardInstance.ref instance) →
  (∀ c, c ∈ all → R (CardInstance.ref c)) →
  (∀ p c, pl !! Box.ref (CardInstance.box instance) = Some p →
     c ∈ Tree.card (Placement.tree p)
         :: Tree.top (Placement.tree p) ++ Tree.bottom (Placement.tree p)
            ++ Tree.left (Placement.tree p) ++ Tree.right (Placement.tree p) →
     R (CardInstance.ref c)) →
  fst (scoreInstanceWithReason instance all pl am res st)
  = fst (scoreInstanceWithReason instance all pl am res' st')
  ∧ simState R junk (snd (scoreInstanceWithReason instance all pl am res st))
      (snd (scoreInstanceWithReason instance all pl am res' st'))
  ∧ sameOutside R st (snd (scoreInstanceWithReason instance all pl am res st)).
Proof.
  intros Hquiet Hsim Hself Hall Hpl. unfold scoreInstanceWithReason.
  assert (∀ z : Z * string,
    fst (ret z st) = fst (ret z st') ∧ simState R junk (snd (ret z st)) (snd (ret z st'))
    ∧ sameOutside R st (snd (ret z st))) as Hret.
  { intros z. split; [done|]. split; [done|apply sameOutside_refl]. }
  destruct (CardInstance.definition instance) as [d|] eqn:Hd; [|apply Hret].
  cbn [mbind option_bind].
  destruct (CardDef.score d) as [rule|] eqn:Hrule; [|apply Hret].
  cbv zeta.
  destruct (ScoreJson.condition rule) as [cond|] eqn:Hcond.
  2:{ destruct (String.eqb _ "fixed"); [apply Hret|].
      destruct (String.eqb _ "multiplication"); [apply Hret|].
      destruct (String.eqb _ "table"); apply Hret. }
  destruct (countMatches_sim instance cond all pl am res res' st st') as (H1 & H2 & H3);
    try done.
  { by eapply Hquiet. }
  destruct (String.eqb _ "fixed"); [|destruct (String.eqb _ "multiplication");
    [|destruct (String.eqb _ "table"); [|apply Hret]]].
  all: unfold bind.
  all: destruct (countMatches instance cond all pl am res st) as [m st1].
  all: destruct (countMatches instance cond all pl am res' st') as [m' st1'].
  all: cbn [fst snd] in H1, H2, H3; subst m'.
  all: try match goal with
           | |- context [if ?c then ret _ else ret _] => destruct c
           end.
  all: unfold ret; cbn [fst snd]; (split; [done|split; done]).
Qed.

Lemma forM_sim {A B} (f f' : A → M B) (l : list A) : ∀ st st',
  (∀ x st st', x ∈ l → simState R junk st st' →
     fst (f x st) = fst (f' x st')
     ∧ simState R junk (snd (f x st)) (snd (f' x st'))
     ∧ sameOutside R st (snd (f x st))) →
  simState R junk st st' →
  fst (forM f l st) = fst (forM f' l st')
  ∧ simState R junk (snd (forM f l st)) (snd (forM f' l st'))
  ∧ sameOutside R st (snd (forM f l st)).
Proof.
  induction l as [|x l IH]; intros st st' Hf Hsim.
  - split; [done|]. split; [done|apply sameOutside_refl].
  - cbn [forM]. unfold bind.
    destruct (Hf x st st') as (H1 & H2 & H3); [by left|done|].
    destruct (f x st) as [y st1]. destruct (f' x st') as [y' st1'].
    cbn [fst snd] in H1, H2, H3. subst y'.
    destruct (IH st1 st1') as (G1 & G2 & G3); [|done|].
    { intros ?????. apply Hf; [by right|done]. }
    destruct (forM f l st1) as [ys st2]. destruct (forM f' l st1') as [ys' st2'].
    cbn [fst snd ret] in *. subst ys'.
    split; [done|]. split; [done|]. by eapply sameOutside_trans.
Qed.

(** The result of a player neither depends on the sets of the other
    players nor on the resolver, when the player has no rule with
    [most]. *)
Lemma scorePlayer_sim prepared prepared' name i i' p st st' :
  simState R junk st st' →
  (∀ c, c ∈ PreparedPlayer.all p → quiet c ∧ R (CardInstance.ref c)) →
  (∀ forest k pm c, PreparedPlayer.forest p = Some forest →
     buildPlacementsByBox forest !! k = Some pm →
     c ∈ Tree.card (Placement.tree pm)
         :: Tree.top (Placement.tree pm) ++ Tree.bottom (Placement.tree pm)
            ++ Tree.left (Placement.tree pm) ++ Tree.right (Placement.tree pm) →
     R (CardInstance.ref c)) →
  fst (scorePlayer prepared name i p st) = fst (scorePlayer prepared' name i' p st')
  ∧ sameOutside R st (snd (scorePlayer prepared name i p st)).
Proof.
  intros Hsim Hall Hpl. unfold scorePlayer.
  destruct (PreparedPlayer.forest p) as [forest|] eqn:Hforest;
    [|split; [done|apply sameOutside_refl]].
  destruct (PreparedPlayer.all p) as [|c0 all0] eqn:Hall0;
    [split; [done|apply sameOutside_refl]|].
  rewrite <- Hall0 in *. clear Hall0 c0 all0.
  unfold bind.
  destruct (forM_sim
    (λ inst, bind (scoreInstanceWithReason inst (PreparedPlayer.all p)
                     (buildPlacementsByBox forest) false (Some (mostResolverOf prepared i)))
               (λ r, ret (Box.ref (CardInstance.box inst), r)))
    (λ inst, bind (scoreInstanceWithReason inst (PreparedPlayer.all p)
                     (buildPlacementsByBox forest) false (Some (mostResolverOf prepared' i')))
               (λ r, ret (Box.ref (CardInstance.box inst), r)))
    (PreparedPlayer.all p) st st') as (H1 & H2 & H3); [|done|].
  { intros inst s s' Hinst Hs. unfold bind.
    destruct (scoreInstanceWithReason_sim inst (PreparedPlayer.all p)
                (buildPlacementsByBox forest) false
                (Some (mostResolverOf prepared i)) (Some (mostResolverOf prepared' i')) s s')
      as (G1 & G2 & G3); try done.
    - by apply Hall.
    - by apply Hall.
    - intros c Hc. by apply Hall.
    - intros pm c Hpm Hc. by eapply (Hpl forest).
    - destruct (scoreInstanceWithReason inst _ _ _ (Some (mostResolverOf prepared i)) s)
        as [r s1].
      destruct (scoreInstanceWithReason inst _ _ _ (Some (mostResolverOf prepared' i')) s')
        as [r' s1'].
      cbn [fst snd ret] in *. by subst r'. }
  destruct (forM _ _ st) as [results st1]. destruct (forM _ _ st') as [results' st1'].
  cbn [fst snd ret] in *. by subst results'.
Qed.
End independent.

Lemma forestInstances_parsed boxes cards c :
  NoDup (Box.ref <$> boxes) →
  c ∈ forestInstances (buildForest boxes cards) →
  ∃ b, b ∈ boxes ∧ parseCardInstance b (defByIdOf cards) = Some c.
Proof.
  intros Hnd Hc. rewrite forestInstances_perm, buildForest_anchors in Hc.
  apply elem_of_app in Hc as [Hc|Hc].
  - unfold treeCardsOf in Hc. apply list_elem_of_omap in Hc as (b & Hb & Hp).
    apply elem_of_List_filter in Hb as [Hb _]. eauto.
  - eapply elem_of_submseteq in Hc; [|by apply buildForest_attachments].
    unfold cardInstsOf in Hc. apply list_elem_of_omap in Hc as (b & Hb & Hp).
    apply elem_of_List_filter in Hb as [Hb _]. eauto.
Qed.

Lemma defByIdOf_elem cards id d :
  defByIdOf cards !! id = Some d → d ∈ CardsJson.cards cards.
Proof.
  unfold defByIdOf. rewrite foldl_insert_last.
  destruct (last _) as [d'|] eqn:Hlast; [|by intros ?%lookup_empty_Some]. intros [= ->].
  apply last_Some_elem_of in Hlast. by apply elem_of_List_filter in Hlast as [? _].
Qed.

Lemma parsed_quiet cards b c :
  noMost cards = true → parseCardInstance b (defByIdOf cards) = Some c → quiet c.
Proof.
  intros Hno Hp d rule cond Hd Hrule Hcond.
  unfold parseCardInstance in Hp. destruct (_ <? _)%Z; [done|].
  injection Hp as <-. cbn [CardInstance.definition] in Hd.
  apply defByIdOf_elem in Hd. unfold noMost in Hno. rewrite forallb_forall in Hno.
  apply list_elem_of_In, Hno in Hd. rewrite Hrule, Hcond in Hd.
  by apply negb_true_iff in Hd.
Qed.

Lemma prepared_instances cards base p c :
  noMost cards = true →
  c ∈ PreparedPlayer.all (preparePlayer cards base p) →
  quiet c ∧ inRange base (length (PlayerInput.cards p)) (CardInstance.ref c).
Proof.
  intros Hno Hc.
  destruct (PreparedPlayer.forest (preparePlayer cards base p)) as [forest|] eqn:Hf.
  2:{ unfold preparePlayer in *. destruct (PlayerInput.cards p); [|done].
      by apply elem_of_nil in Hc. }
  destruct (preparePlayer_forest _ _ _ _ Hf) as (-> & Hall & _).
  rewrite Hall in Hc.
  apply forestInstances_parsed in Hc as (b & Hb & Hp); [|apply toBoxes_NoDup].
  split; [by eapply parsed_quiet|].
  apply parseCardInstance_box in Hp as Hbox. unfold CardInstance.ref. rewrite Hbox.
  assert (Box.ref b ∈ Box.ref <$> toBoxes base (PlayerInput.cards p)) as Hr.
  { apply list_elem_of_fmap. eauto. }
  rewrite toBoxes_refs in Hr. apply elem_of_seq in Hr. unfold inRange. lia.
Qed.

Lemma setIfAbsent_values {V} (P : V → Prop) k (v : V) m :
  P v → (∀ r w, m !! r = Some w → P w) →
  ∀ r w, setIfAbsent k v m !! r = Some w → P w.
Proof.
  intros Hv Hm r w. unfold setIfAbsent. destruct (m !! k) eqn:Hk; [apply Hm|].
  destruct (decide (r = k)) as [->|Hne].
  - rewrite lookup_insert_eq. by intros [= <-].
  - rewrite lookup_insert_ne by done. apply Hm.
Qed.

Lemma placeAll_values (P : Placement → Prop) tree side cs : ∀ m,
  (∀ s, P (Placement.mk tree s)) → (∀ r w, m !! r = Some w → P w) →
  ∀ r w, placeAll tree side cs m !! r = Some w → P w.
Proof.
  induction cs as [|c cs IH]; intros m Ht Hm; [done|].
  unfold placeAll. cbn [foldl]. apply IH; [done|].
  by apply setIfAbsent_values.
Qed.

Lemma placements_trees forest k pm :
  buildPlacementsByBox forest !! k = Some pm →
  Placement.tree pm ∈ Forest.trees forest.
Proof.
  unfold buildPlacementsByBox.
  assert (∀ ts m,
    (∀ t, t ∈ ts → t ∈ Forest.trees forest) →
    (∀ r w, m !! r = Some w → Placement.tree w ∈ Forest.trees forest) →
    ∀ r w, foldl placeTree m ts !! r = Some w → Placement.tree w ∈ Forest.trees forest)
    as H.
  { induction ts as [|t ts IH]; intros m Hts Hm; [done|].
    cbn [foldl]. apply IH; [intros; apply Hts; by right|].
    assert (t ∈ Forest.trees forest) as Ht by (apply Hts; by left).
    unfold placeTree.
    repeat (apply (placeAll_values (λ w, Placement.tree w ∈ Forest.trees forest));
            [by intros|]).
    by apply setIfAbsent_values. }
  apply (H (Forest.trees forest) ∅); [done|]. intros r w. by rewrite lookup_empty.
Qed.

Lemma prepared_placements cards base p forest k pm c :
  noMost cards = true →
  PreparedPlayer.forest (preparePlayer cards base p) = Some forest →
  buildPlacementsByBox forest !! k = Some pm →
  c ∈ Tree.card (Placement.tree pm)
      :: Tree.top (Placement.tree pm) ++ Tree.bottom (Placement.tree pm)
         ++ Tree.left (Placement.tree pm) ++ Tree.right (Placement.tree pm) →
  inRange base (length (PlayerInput.cards p)) (CardInstance.ref c).
Proof.
  intros Hno Hf Hk Hc.
  apply (prepared_instances cards base p c Hno).
  destruct (preparePlayer_forest _ _ _ _ Hf) as (_ & -> & _).
  apply placements_trees in Hk.
  unfold forestInstances. apply list_elem_of_bind. exists (Placement.tree pm).
  split; [|done]. unfold attachmentsOf.
  rewrite elem_of_cons, !elem_of_app in Hc |- *. tauto.
Qed.

Lemma simState_start (Rr : nat → Prop) st :
  (∀ r, Rr r → ScoreState.setOf st !! r = None) →
  simState Rr (ScoreState.setHeap st) st ScoreState.fresh.
Proof.
  intros Hnone. split.
  - cbn. by rewrite app_nil_r.
  - intros r Hr. rewrite (Hnone r Hr). unfold ScoreState.fresh. cbn [ScoreState.setOf].
    by rewrite lookup_empty.
Qed.

Lemma scorePlayers_alone cards prepared players : ∀ base k st i p,
  noMost cards = true →
  (∀ r, base ≤ r → ScoreState.setOf st !! r = None) →
  players !! i = Some p →
  ∃ basei,
    fst (scorePlayers prepared k (zip players (prepareFrom cards base players)) st) !! i
    = Some (fst (scorePlayer [preparePlayer cards basei p] (PlayerInput.name p) 0
                   (preparePlayer cards basei p) ScoreState.fresh)).
Proof.
  induction players as [|p0 players IH]; intros base k st i p Hno Hst Hi; [done|].
  cbn [prepareFrom zip zip_with scorePlayers]. unfold bind.
  destruct (scorePlayer_sim (inRange base (length (PlayerInput.cards p0)))
              (ScoreState.setHeap st) prepared [preparePlayer cards base p0]
              (PlayerInput.name p0) k 0 (preparePlayer cards base p0) st ScoreState.fresh)
    as [Hres Hout].
  { apply simState_start. intros r Hr. apply Hst. unfold inRange in Hr. lia. }
  { intros c Hc. by apply (prepared_instances cards). }
  { intros forest r pm c Hf Hpm Hc. by eapply (prepared_placements cards). }
  destruct (scorePlayer prepared (PlayerInput.name p0) k (preparePlayer cards base p0) st)
    as [r0 st1].
  cbn [fst snd] in Hres, Hout.
  destruct i as [|i]; cbn [lookup list_lookup] in Hi.
  - injection Hi as <-. exists base.
    destruct (scorePlayers prepared (S k) _ st1) as [rs st2]. cbn [ret fst].
    cbn [lookup list_lookup]. by rewrite Hres.
  - destruct (IH (base + length (PlayerInput.cards p0)) (S k) st1 i p Hno) as [basei Hb];
      [|done|].
    { intros r Hr. rewrite Hout; [apply Hst; lia|]. unfold inRange. lia. }
    exists basei.
    destruct (scorePlayers prepared (S k) _ st1) as [rs st2]. cbn [ret fst] in *.
    cbn [lookup list_lookup]. exact Hb.
Qed.

Lemma scoreAt_single cards base p :
  scoreAt cards base [p]
  = [fst (scorePlayer [preparePlayer cards base p] (PlayerInput.name p) 0
            (preparePlayer cards base p) ScoreState.fresh)].
Proof.
  unfold scoreAt. cbn [prepareFrom zip zip_with scorePlayers]. unfold bind.
  destruct (scorePlayer _ _ _ _ _) as [r st1]. done.
Qed.

(** X29: when no rule of the card data has a condition with [most], the
    result of a player does not depend on the other players: it is the
    result the player gets alone. *)
Theorem players_independent cards players i p :
  noMost cards = true →
  players !! i = Some p →
  score cards players !! i = score cards [p] !! 0.
Proof.
  intros Hno Hi. unfold score at 1. unfold scoreAt.
  destruct (scorePlayers_alone cards (prepareFrom cards 0 players) players 0 0
              ScoreState.fresh i p Hno) as [basei Hb]; [|done|].
  { intros r _. apply lookup_empty. }
  rewrite Hb. unfold score.
  rewrite <- (scoreAt_move basei cards 0 [p]). by rewrite scoreAt_single.
Qed.

(** ** Examples of the properties *)

Lemma countForMostKey_filterCards_witness :
  countForMostKey (makeMostKey Scenario.wolfOakB Sample.wolfCondition) Sample.poolB
    Sample.wolfCondition
  = plainCount Sample.wolfCondition
      (filterCards Scenario.wolfOakB Sample.poolB Sample.wolfCondition).
Proof. apply countForMostKey_filterCards; reflexivity. Defined.

Lemma makeMostKey_order_irrelevant_witness :
  makeMostKey Scenario.wolfOakB Sample.wolfAndFox
  = makeMostKey Scenario.wolfOakB Sample.foxAndWolf
  ∧ mostKeyStr (makeMostKey Scenario.wolfOakB Sample.wolfAndFox)
    = mostKeyStr (makeMostKey Scenario.wolfOakB Sample.foxAndWolf).
Proof.
  apply makeMostKey_order_irrelevant; [|reflexivity..].
  vm_compute. apply Permutation_swap.
Defined.

Lemma direct_placement_kept_witness :
  ∃ tree, tree ∈ Forest.trees (buildForest Sample.boxesB Scenario.cards)
    ∧ Tree.card tree = PlacementCandidate.tree Sample.wolfAtOak
    ∧ Scenario.wolfOakB ∈ treeSide tree (PlacementCandidate.side Sample.wolfAtOak).
Proof.
  apply direct_placement_kept.
  - vm_compute. left.
  - vm_compute. reflexivity.
Defined.

Lemma buildForest_attached_witness :
  CardInstance.box Scenario.wolfOakB ∈ Sample.boxesB
  ∧ isTreeLabel (treeIdsOf Scenario.cards)
      (Box.clsName (CardInstance.box Scenario.wolfOakB)) = false
  ∧ parseCardInstance (CardInstance.box Scenario.wolfOakB) (defByIdOf Scenario.cards)
    = Some Scenario.wolfOakB.
Proof.
  apply (buildForest_attached Sample.boxesB Scenario.cards Scenario.tree1).
  - apply (bool_decide_unpack _). vm_compute. exact I.
  - vm_compute. left.
  - vm_compute. left.
Defined.

Lemma no_tree_no_score_witness :
  score Scenario.cards [Scenario.alice; Sample.noTree] !! 1
  = Some (PlayerScoreResult.mk (PlayerInput.name Sample.noTree) 0 []).
Proof. apply no_tree_no_score; reflexivity. Defined.

Lemma buildPlacementsByBox_exact_witness :
  buildPlacementsByBox Scenario.forestB !! CardInstance.ref (Tree.card Scenario.tree1)
    = Some (Placement.mk Scenario.tree1 None)
  ∧ (∀ side c, c ∈ treeSide Scenario.tree1 side →
       buildPlacementsByBox Scenario.forestB !! CardInstance.ref c
       = Some (Placement.mk Scenario.tree1 (Some side)))
  ∧ ∀ r, r ∉ refsOf (forestInstances Scenario.forestB) →
      buildPlacementsByBox Scenario.forestB !! r = None.
Proof.
  apply buildPlacementsByBox_exact.
  - apply (bool_decide_unpack _). vm_compute. exact I.
  - left.
Defined.

Lemma sortCardsInUiOrder_complete_witness :
  sortCardsInUiOrder Scenario.forestB
    ≡ₚ CardInstance.box <$> forestInstances Scenario.forestB
  ∧ head (sortCardsInUiOrder Scenario.forestB)
    = (λ t, CardInstance.box (Tree.card t))
        <$> head (sortTreesVisually (Forest.trees Scenario.forestB)).
Proof.
  apply sortCardsInUiOrder_complete.
  apply (bool_decide_unpack _). vm_compute. exact I.
Defined.

Lemma multiplication_rule_points_witness :
  fst (fst (scoreInstanceWithReason Scenario.wolfOakB Sample.poolB
              (buildPlacementsByBox Scenario.forestB) false None ScoreState.fresh))
  = (5 * fst (countMatches Scenario.wolfOakB Sample.wolfCondition Sample.poolB
                (buildPlacementsByBox Scenario.forestB) false None ScoreState.fresh))%Z.
Proof.
  exact (multiplication_rule_points Scenario.wolfOakB Scenario.wolfDef Sample.wolfRule 5
           Sample.poolB (buildPlacementsByBox Scenario.forestB) false None ScoreState.fresh
           eq_refl eq_refl eq_refl eq_refl).
Defined.

Lemma getMostWinners_memo_witness :
  getMostWinners Scenario.preparedGated
    (makeMostKey Scenario.owlInst Scenario.birdCondition) Scenario.birdCondition
    (snd (getMostWinners Scenario.preparedGated
            (makeMostKey Scenario.foxBob Scenario.gatedCondition) Scenario.gatedCondition
            ScoreState.fresh))
  = (fst (getMostWinners Scenario.preparedGated
            (makeMostKey Scenario.foxBob Scenario.gatedCondition) Scenario.gatedCondition
            ScoreState.fresh),
     snd (getMostWinners Scenario.preparedGated
            (makeMostKey Scenario.foxBob Scenario.gatedCondition) Scenario.gatedCondition
            ScoreState.fresh)).
Proof. apply getMostWinners_memo. reflexivity. Defined.

Lemma tableDedup_distinct_ids_witness :
  fst (tableDedup Scenario.oakB [Scenario.wolfOakB; Scenario.wolfBirchB] ScoreState.fresh)
  = Z.of_nat (length (remove_dups
                        (CardInstance.id <$> [Scenario.wolfOakB; Scenario.wolfBirchB]))).
Proof.
  apply tableDedup_distinct_ids.
  - reflexivity.
  - apply (bool_decide_unpack _). vm_compute. exact I.
Defined.

Lemma tableDedup_shared_sets_witness :
  fst (tableDedup Scenario.wolfBirchB ([Scenario.wolfOakB] ++ Scenario.wolfBirchB :: [])
         ScoreState.fresh)
  = Z.of_nat
      (length
         (List.filter
            (λ y, occurrences (CardInstance.id Scenario.wolfBirchB)
                    (CardInstance.id <$> [Scenario.wolfOakB])
                  <? occurrences y
                       (CardInstance.id <$> [Scenario.wolfOakB] ++ Scenario.wolfBirchB :: []))
            (remove_dups
               (CardInstance.id <$> [Scenario.wolfOakB] ++ Scenario.wolfBirchB :: [])))).
Proof.
  apply (tableDedup_shared_sets Scenario.wolfBirchB [Scenario.wolfOakB]
           Scenario.wolfBirchB [] ScoreState.fresh).
  - reflexivity.
  - reflexivity.
  - apply (bool_decide_unpack _). vm_compute. exact I.
Defined.

Lemma every_entry_has_group_witness :
  ∃ n, 1 ≤ n ≤ length (Forest.trees Sample.builtB)
       ∧ CardScoreDetail.group Sample.firstEntryB
         = Some ("Baum " +:+ Js.show (Z.of_nat n)).
Proof.
  apply (every_entry_has_group Scenario.cards [Scenario.alice] 0 Sample.preparedB
           Sample.builtB Scenario.aliceResult Sample.firstEntryB).
  - reflexivity.
  - reflexivity.
  - vm_compute. reflexivity.
  - left.
Defined.

Lemma bestPlacementCandidate_best_witness :
  PlacementCandidate.tree Sample.wolfAtOak = Scenario.oakB
  ∧ sideCandidate Scenario.wolfOakB Scenario.oakB (PlacementCandidate.side Sample.wolfAtOak)
    = Some Sample.wolfAtOak
  ∧ (PlacementCandidate.dist Sample.wolfAtOak <? 0)%float = false
  ∧ (PlacementCandidate.overlap Sample.wolfAtOak <? 0)%float = false
  ∧ ∀ side c, sideCandidate Scenario.wolfOakB Scenario.oakB side = Some c →
      notBetter c Sample.wolfAtOak.
Proof. apply bestPlacementCandidate_best. vm_compute. reflexivity. Defined.

Lemma bestOverTrees_nearest_witness :
  PlacementCandidate.tree Sample.wolfAtOak ∈ [Scenario.oakB; Scenario.birchB]
  ∧ bestPlacementCandidate Scenario.wolfOakB (PlacementCandidate.tree Sample.wolfAtOak)
    = Some Sample.wolfAtOak
  ∧ ∀ tree c, tree ∈ [Scenario.oakB; Scenario.birchB] →
      bestPlacementCandidate Scenario.wolfOakB tree = Some c →
      notBetter c Sample.wolfAtOak.
Proof. apply bestOverTrees_nearest. vm_compute. reflexivity. Defined.

Lemma countMatches_tree_pools_witness :
  countMatches Scenario.wolfOakB Sample.wolfTreeCondition Sample.poolB
    (buildPlacementsByBox Scenario.forestB) false None ScoreState.fresh
  = countPool Scenario.wolfOakB Sample.wolfTreeCondition
      (Tree.card Scenario.tree1
       :: Tree.top Scenario.tree1 ++ Tree.bottom Scenario.tree1
          ++ Tree.left Scenario.tree1 ++ Tree.right Scenario.tree1)
      ScoreState.fresh.
Proof.
  refine (proj1 (proj2 (countMatches_tree_pools Scenario.forestB Scenario.tree1
            Sample.wolfTreeCondition Sample.poolB false None ScoreState.fresh
            _ _ eq_refl eq_refl)) eq_refl Scenario.wolfOakB _).
  - apply (bool_decide_unpack _). vm_compute. exact I.
  - left.
  - vm_compute. left.
Defined.

Lemma players_independent_witness :
  score Scenario.cards [Scenario.alice; Sample.noTree] !! 0
  = score Scenario.cards [Scenario.alice] !! 0.
Proof. apply players_independent; reflexivity. Defined.

(* ------------------------------------------------------------------ *)
(** ** Two trees in a row *)
(* ------------------------------------------------------------------ *)

Lemma sideCandidate_gap card tree side :
  sideCandidate card tree side
  = (λ g, PlacementCandidate.mk tree side g.1 g.2)
      <$> sideGap (CardInstance.box card) (CardInstance.box tree) side.
Proof.
  unfold sideCandidate, placementStep, sideGap.
  repeat (match goal with |- context [if ?b then _ else _] => destruct b eqn:? end;
          try reflexivity).
Qed.

Lemma pickBest_is_Some ocs : ∀ acc c,
  Some c ∈ ocs → is_Some (pickBest acc ocs).
Proof.
  assert (∀ ocs b, is_Some (pickBest (Some b) ocs)) as Hsome.
  { clear. induction ocs as [|oc ocs IH]; intros b; [by eexists|].
    unfold pickBest in *. cbn [foldl]. destruct oc as [c|]; [|apply IH].
    unfold betterCandidate. destruct (_ || _); apply IH. }
  induction ocs as [|oc ocs IH]; intros acc c Hc; [by apply elem_of_nil in Hc|].
  unfold pickBest in *. cbn [foldl].
  apply elem_of_cons in Hc as [<-|Hc].
  - destruct acc as [b|]; cbn [betterCandidate]; [destruct (_ || _)|]; apply Hsome.
  - by eapply IH.
Qed.

Lemma strictlyFarther_candidate d card tree side c :
  strictlyFarther d (sideGap (CardInstance.box card) (CardInstance.box tree) side) = true →
  sideCandidate card tree side = Some c →
  (d <? PlacementCandidate.dist c)%float = true.
Proof.
  rewrite sideCandidate_gap. destruct (sideGap _ _ _) as [[d' o]|]; [|done].
  cbn. by intros ? [= <-].
Qed.

Lemma nearestOnRight_own card tree other :
  nearestOnRight (CardInstance.box card) (CardInstance.box tree) other = true →
  ∃ c, sideCandidate card tree Right = Some c
       ∧ bestPlacementCandidate card tree = Some c.
Proof.
  unfold nearestOnRight. rewrite bestPlacementCandidate_pick.
  destruct (sideGap _ _ Right) as [[d o]|] eqn:Hgap; [|done].
  intros [Hown _]%andb_true_iff. cbn [forallb] in Hown.
  apply andb_true_iff in Hown as [Htop Hown].
  apply andb_true_iff in Hown as [Hleft Hown].
  apply andb_true_iff in Hown as [Hbottom _].
  pose proof (sideCandidate_gap card tree Right) as Hc. rewrite Hgap in Hc. cbn in Hc.
  eexists. split; [exact Hc|].
  assert (Some (PlacementCandidate.mk tree Right d o)
          ∈ sideCandidate card tree <$> [Top; Left; Right; Bottom]) as Hmem.
  { apply list_elem_of_fmap. exists Right. split; [done|]. set_solver. }
  destruct (pickBest_is_Some _ None _ Hmem) as [b Hb].
  rewrite Hb. f_equal.
  apply pickBest_first in Hb as [Hin Hbest].
  assert (notBetter (PlacementCandidate.mk tree Right d o) b) as [Hnb _].
  { by apply Hbest. }
  cbn in Hnb.
  apply list_elem_of_fmap in Hin as (side & Hside & _). symmetry in Hside.
  destruct side.
  - by rewrite (strictlyFarther_candidate _ _ _ _ _ Htop Hside) in Hnb.
  - by rewrite (strictlyFarther_candidate _ _ _ _ _ Hbottom Hside) in Hnb.
  - by rewrite (strictlyFarther_candidate _ _ _ _ _ Hleft Hside) in Hnb.
  - rewrite Hc in Hside. by injection Hside.
Qed.

Lemma nearestOnRight_other card tree other side c :
  nearestOnRight (CardInstance.box card) (CardInstance.box tree) (CardInstance.box other) = true →
  sideCandidate card other side = Some c →
  ∃ c0, sideCandidate card tree Right = Some c0
        ∧ (PlacementCandidate.dist c0 <? PlacementCandidate.dist c)%float = true.
Proof.
  intros Hn Hc. destruct (nearestOnRight_own _ _ _ Hn) as (c0 & Hc0 & _).
  exists c0. split; [done|].
  unfold nearestOnRight in Hn. rewrite sideCandidate_gap in Hc0.
  destruct (sideGap _ _ Right) as [[d o]|] eqn:Hgap; [|done].
  injection Hc0 as <-. cbn.
  apply andb_true_iff in Hn as [_ Hother].
  rewrite forallb_forall in Hother.
  eapply strictlyFarther_candidate; [|done]. apply Hother.
  destruct side; cbn; tauto.
Qed.

(** A card that is nearest on the right of one of two trees gets its
    candidate of Phase 1 there. *)
Lemma nearestOnRight_chosen card tree other treeCards :
  tree ∈ treeCards → (∀ t, t ∈ treeCards → t = tree ∨ t = other) →
  nearestOnRight (CardInstance.box card) (CardInstance.box tree) (CardInstance.box other) = true →
  ∃ best, bestOverTrees card treeCards = Some best
          ∧ PlacementCandidate.tree best = tree
          ∧ PlacementCandidate.side best = Right.
Proof.
  intros Htree Hall Hn.
  destruct (nearestOnRight_own _ _ _ Hn) as (c0 & Hc0 & Hbest0).
  rewrite bestOverTrees_pick.
  destruct (pickBest_is_Some (bestPlacementCandidate card <$> treeCards) None c0)
    as [best Hbest].
  { rewrite <- Hbest0. apply list_elem_of_fmap. by exists tree. }
  exists best. split; [done|].
  apply pickBest_first in Hbest as [Hin Hnot].
  apply list_elem_of_fmap in Hin as (t & Ht & Hin). symmetry in Ht.
  destruct (Hall t Hin) as [->| ->].
  - rewrite Hbest0 in Ht. injection Ht as <-.
    by destruct (sideCandidate_fields _ _ _ _ Hc0) as (? & ? & _).
  - exfalso.
    assert (notBetter c0 best) as [Hnb _].
    { apply Hnot. rewrite <- Hbest0. apply list_elem_of_fmap. by exists tree. }
    rewrite bestPlacementCandidate_pick in Ht.
    apply pickBest_first in Ht as [Hside _].
    apply list_elem_of_fmap in Hside as (side & Hside & _). symmetry in Hside.
    destruct (nearestOnRight_other _ _ _ _ _ Hn Hside) as (c0' & Hc0' & Hlt).
    rewrite Hc0 in Hc0'. injection Hc0' as <-. by rewrite Hlt in Hnb.
Qed.

Lemma unref_toBoxes base dcs : unref <$> toBoxes base dcs = boxOf <$> dcs.
Proof.
  unfold toBoxes. rewrite fmap_imap.
  rewrite (imap_ext _ (λ _ dc, boxOf dc)); [apply imap_const|done].
Qed.

Lemma sideGap_unref cb tb side : sideGap (unref cb) (unref tb) side = sideGap cb tb side.
Proof. done. Qed.

Lemma nearestOnRight_unref cb tb other :
  nearestOnRight (unref cb) (unref tb) (unref other) = nearestOnRight cb tb other.
Proof. done. Qed.

Lemma leftToRight_unref a b : leftToRight (unref a) (unref b) = leftToRight a b.
Proof. done. Qed.

Lemma isTreeBox_unref treeIds b : isTreeBox treeIds (unref b) = isTreeBox treeIds b.
Proof. done. Qed.

Lemma fmap_Permutation_two {A B} (f : A → B) (l : list A) a b :
  f <$> l ≡ₚ [a; b] →
  ∃ x y, l ≡ₚ [x; y] ∧ f x = a ∧ f y = b.
Proof.
  intros Hp. symmetry in Hp. apply Permutation_length_2_inv in Hp as [Hl|Hl].
  - destruct l as [|x [|y [|]]]; try done. injection Hl as <- <-. by exists x, y.
  - destruct l as [|x [|y [|]]]; try done. injection Hl as <- <-. exists y, x.
    split; [apply perm_swap|done].
Qed.

Lemma parseCardInstance_colon b defById :
  (0 <=? Js.indexOf ":"%char (Box.clsName b))%Z = true →
  ∃ c, parseCardInstance b defById = Some c ∧ CardInstance.box c = b.
Proof.
  intros Hc. unfold parseCardInstance.
  destruct (Z.ltb_spec (Js.indexOf ":"%char (Box.clsName b)) 0); [lia|].
  by eexists.
Qed.

Section row_parsed.
Context (cards : CardsJson) (base : nat) (dcs : list DetectedCard).
Context (tree1 card1 tree2 card2 : DetectedCard).
Context (Hdcs : dcs ≡ₚ [tree1; card1; tree2; card2]).
Context (Htree1 : isTreeLabel (treeIdsOf cards) (DetectedCard.cardId tree1) = true).
Context (Htree2 : isTreeLabel (treeIdsOf cards) (DetectedCard.cardId tree2) = true).
Context (Hcard1 : isCardLabel (treeIdsOf cards) (DetectedCard.cardId card1) = true).
Context (Hcard2 : isCardLabel (treeIdsOf cards) (DetectedCard.cardId card2) = true).

Local Abbreviation boxes := (toBoxes base dcs).

Lemma two_trees_treeBoxes :
  unref <$> List.filter (isTreeBox (treeIdsOf cards)) boxes
  ≡ₚ [boxOf tree1; boxOf tree2].
Proof using Hdcs Htree1 Htree2 Hcard1 Hcard2.
  rewrite <- (filter_fmap_commute (isTreeBox (treeIdsOf cards))
                (isTreeBox (treeIdsOf cards)) unref); [|done].
  rewrite unref_toBoxes.
  rewrite (List_filter_Permutation _ _ _ (fmap_Permutation boxOf _ _ Hdcs)).
  apply andb_true_iff in Hcard1 as [_ Hc1%negb_true_iff].
  apply andb_true_iff in Hcard2 as [_ Hc2%negb_true_iff].
  cbn [fmap list_fmap List.filter]. unfold boxOf.
  by rewrite !isTreeBox_toBox, Htree1, Htree2, Hc1, Hc2.
Qed.

Lemma two_trees_otherBoxes :
  unref <$> List.filter (isOtherBox (treeIdsOf cards)) boxes
  ≡ₚ [boxOf card1; boxOf card2].
Proof using Hdcs Htree1 Htree2 Hcard1 Hcard2.
  rewrite <- (filter_fmap_commute (isOtherBox (treeIdsOf cards))
                (isOtherBox (treeIdsOf cards)) unref); [|done].
  rewrite unref_toBoxes.
  rewrite (List_filter_Permutation _ _ _ (fmap_Permutation boxOf _ _ Hdcs)).
  apply andb_true_iff in Hcard1 as [_ Hc1%negb_true_iff].
  apply andb_true_iff in Hcard2 as [_ Hc2%negb_true_iff].
  cbn [fmap list_fmap List.filter]. unfold boxOf.
  by rewrite !isOtherBox_negb, !isTreeBox_toBox, Htree1, Htree2, Hc1, Hc2.
Qed.

Lemma two_trees_parsed :
  ∃ T1 A1 T2 A2,
    treeCardsOf boxes cards ≡ₚ [T1; T2]
    ∧ cardInstsOf boxes cards ≡ₚ [A1; A2]
    ∧ unref (CardInstance.box T1) = boxOf tree1
    ∧ unref (CardInstance.box A1) = boxOf card1
    ∧ unref (CardInstance.box T2) = boxOf tree2
    ∧ unref (CardInstance.box A2) = boxOf card2.
Proof using Hdcs Htree1 Htree2 Hcard1 Hcard2.
  assert (∀ (dc : DetectedCard) b,
            (0 <=? Js.indexOf ":"%char (DetectedCard.cardId dc))%Z = true →
            unref b = boxOf dc →
            (0 <=? Js.indexOf ":"%char (Box.clsName b))%Z = true) as Hcolon.
  { intros dc b Hc Hb. by replace (Box.clsName b) with (Box.clsName (unref b));
      [rewrite Hb|]. }
  assert (∀ dc, isTreeLabel (treeIdsOf cards) (DetectedCard.cardId dc) = true →
                (0 <=? Js.indexOf ":"%char (DetectedCard.cardId dc))%Z = true) as Htc.
  { intros dc Ht. unfold isTreeLabel in Ht. by apply andb_true_iff in Ht as [? _]. }
  destruct (fmap_Permutation_two _ _ _ _ two_trees_treeBoxes) as (b1 & b2 & Hbt & Hb1 & Hb2).
  destruct (fmap_Permutation_two _ _ _ _ two_trees_otherBoxes) as (a1 & a2 & Hbo & Ha1 & Ha2).
  destruct (parseCardInstance_colon b1 (defByIdOf cards)) as (T1 & HT1 & HbT1).
  { apply (Hcolon tree1); [by apply Htc|done]. }
  destruct (parseCardInstance_colon b2 (defByIdOf cards)) as (T2 & HT2 & HbT2).
  { apply (Hcolon tree2); [by apply Htc|done]. }
  destruct (parseCardInstance_colon a1 (defByIdOf cards)) as (A1 & HA1 & HbA1).
  { apply (Hcolon card1); [|done]. by apply andb_true_iff in Hcard1 as [? _]. }
  destruct (parseCardInstance_colon a2 (defByIdOf cards)) as (A2 & HA2 & HbA2).
  { apply (Hcolon card2); [|done]. by apply andb_true_iff in Hcard2 as [? _]. }
  exists T1, A1, T2, A2. unfold treeCardsOf, cardInstsOf.
  rewrite Hbt, Hbo. cbn [omap list_omap]. rewrite HT1, HT2, HA1, HA2.
  rewrite HbT1, HbT2, HbA1, HbA2. done.
Qed.

End row_parsed.

(** Phase 2 keeps what Phase 1 attached. *)
Lemma placed_in_forest boxes cards c best :
  c ∈ cardInstsOf boxes cards →
  bestOverTrees c (treeCardsOf boxes cards) = Some best →
  ∃ tree, tree ∈ Forest.trees (buildForest boxes cards)
    ∧ Tree.card tree = PlacementCandidate.tree best
    ∧ c ∈ treeSide tree (PlacementCandidate.side best).
Proof.
  intros Hc Hbest. unfold buildForest.
  fold (treeCardsOf boxes cards) (cardInstsOf boxes cards).
  pose proof (foldl_placeDirectly_placed _ _ _ _ SideMaps.empty Hc Hbest) as H1.
  set (m1 := foldl (placeDirectly _) _ _) in *.
  set (remaining := List.filter _ _).
  pose proof (foldl_expandTree_grows (treeCardsOf boxes cards) (m1, remaining)) as H2.
  destruct (foldl expandTree _ _) as [m2 rem2]. cbn [fst] in H2.
  exists (treeOf m2 (PlacementCandidate.tree best)). cbn [Forest.trees].
  split; [|split; [done|]].
  - map_to_fmap. apply list_elem_of_fmap. eexists. split; [done|].
    by eapply bestOverTrees_tree.
  - rewrite treeOf_side. by apply H2.
Qed.

(** Two trees in one row come out of the sort from left to right, in
    whichever order they go in. *)
Lemma sortTreesVisually_two ta tb :
  leftToRight (CardInstance.box (Tree.card ta)) (CardInstance.box (Tree.card tb)) = true →
  sortTreesVisually [ta; tb] = [ta; tb] ∧ sortTreesVisually [tb; ta] = [ta; tb].
Proof.
  unfold leftToRight. cbn [forallb]. rewrite andb_true_r.
  intros [H1 H2]%andb_true_iff.
  apply andb_true_iff in H1 as [H1 H1d]. apply andb_true_iff in H1 as [H1 H1c].
  apply andb_true_iff in H1 as [_ H1b]. apply negb_true_iff in H1d.
  apply andb_true_iff in H2 as [H2 _]. apply andb_true_iff in H2 as [H2 H2c].
  apply andb_true_iff in H2 as [H2a _].
  unfold rowThreshold in *. cbn [foldl length] in *.
  split; unfold sortTreesVisually, Js.sort; cbn [foldr foldl length Js.sort_insert];
    unfold visualOrder.
  - by rewrite H1b, H1d.
  - by rewrite H2a, H2c.
Qed.

Section row_forest.
Context (cards : CardsJson) (base : nat) (dcs : list DetectedCard).
Context (tree1 card1 tree2 card2 : DetectedCard).
Context (Hdcs : dcs ≡ₚ [tree1; card1; tree2; card2]).
Context (Htree1 : isTreeLabel (treeIdsOf cards) (DetectedCard.cardId tree1) = true).
Context (Htree2 : isTreeLabel (treeIdsOf cards) (DetectedCard.cardId tree2) = true).
Context (Hcard1 : isCardLabel (treeIdsOf cards) (DetectedCard.cardId card1) = true).
Context (Hcard2 : isCardLabel (treeIdsOf cards) (DetectedCard.cardId card2) = true).
Context (Hrow : leftToRight (boxOf tree1) (boxOf tree2) = true).
Context (Hnear1 : nearestOnRight (boxOf card1) (boxOf tree1) (boxOf tree2) = true).
Context (Hnear2 : nearestOnRight (boxOf card2) (boxOf tree2) (boxOf tree1) = true).

Local Abbreviation boxes := (toBoxes base dcs).
Local Abbreviation forest := (buildForest (toBoxes base dcs) cards).

Lemma two_trees_forest :
  ∃ T1 A1 T2 A2 tr1 tr2,
    sortTreesVisually (Forest.trees forest) = [tr1; tr2]
    ∧ Tree.card tr1 = T1 ∧ Tree.card tr2 = T2
    ∧ A1 ∈ attachmentsOf tr1 ∧ A2 ∈ attachmentsOf tr2
    ∧ forestInstances forest ≡ₚ [T1; A1; T2; A2]
    ∧ unref (CardInstance.box T1) = boxOf tree1
    ∧ unref (CardInstance.box A1) = boxOf card1
    ∧ unref (CardInstance.box T2) = boxOf tree2
    ∧ unref (CardInstance.box A2) = boxOf card2.
Proof using All.
  destruct (two_trees_parsed cards base dcs tree1 card1 tree2 card2
              Hdcs Htree1 Htree2 Hcard1 Hcard2)
    as (T1 & A1 & T2 & A2 & Htrees & Hothers & HT1 & HA1 & HT2 & HA2).
  pose proof (toBoxes_NoDup base dcs) as Hnd.
  pose proof (buildForest_instances_NoDup boxes cards Hnd) as Hndf.
  (* the candidates of Phase 1 *)
  assert (∀ t, t ∈ treeCardsOf boxes cards → t = T1 ∨ t = T2) as Hall1.
  { intros t. rewrite Htrees.
    intros [->|[->|[]%elem_of_nil]%elem_of_cons]%elem_of_cons; auto. }
  assert (∀ t, t ∈ treeCardsOf boxes cards → t = T2 ∨ t = T1) as Hall2.
  { intros t Ht. destruct (Hall1 t Ht); auto. }
  destruct (nearestOnRight_chosen A1 T1 T2 (treeCardsOf boxes cards))
    as (best1 & Hbest1 & Htb1 & Hsb1); [rewrite Htrees; by left|done| |].
  { by rewrite <- nearestOnRight_unref, HA1, HT1, HT2. }
  destruct (nearestOnRight_chosen A2 T2 T1 (treeCardsOf boxes cards))
    as (best2 & Hbest2 & Htb2 & Hsb2); [rewrite Htrees; right; by left|done| |].
  { by rewrite <- nearestOnRight_unref, HA2, HT1, HT2. }
  destruct (placed_in_forest boxes cards A1 best1) as (tr1 & Htr1 & Hc1 & Hin1);
    [rewrite Hothers; by left|done|].
  destruct (placed_in_forest boxes cards A2 best2) as (tr2 & Htr2 & Hc2 & Hin2);
    [rewrite Hothers; right; by left|done|].
  rewrite Htb1 in Hc1. rewrite Htb2 in Hc2.
  apply treeSide_attached in Hin1, Hin2.
  exists T1, A1, T2, A2, tr1, tr2.
  (* the trees of the forest *)
  pose proof (buildForest_anchors boxes cards) as Hanch.
  assert (leftToRight (CardInstance.box (Tree.card tr1))
            (CardInstance.box (Tree.card tr2)) = true) as Hltr.
  { by rewrite Hc1, Hc2, <- leftToRight_unref, HT1, HT2. }
  destruct (sortTreesVisually_two tr1 tr2 Hltr) as [Hs12 Hs21].
  assert (T1 ≠ T2) as Hne.
  { intros Heq. rewrite <- Heq in HT2. rewrite HT1 in HT2.
    unfold leftToRight in Hrow. rewrite <- HT2 in Hrow. cbn [forallb] in Hrow.
    apply andb_true_iff in Hrow as [Hrow _].
    apply andb_true_iff in Hrow as [Hrow Hd]. apply andb_true_iff in Hrow as [_ Hc].
    apply negb_true_iff in Hd. congruence. }
  assert (Forest.trees forest = [tr1; tr2] ∨ Forest.trees forest = [tr2; tr1]) as Hshape.
  { symmetry in Htrees. rewrite <- Hanch in Htrees.
    apply Permutation_length_2_inv in Htrees as [Hl|Hl].
    - destruct (Forest.trees forest) as [|x [|y [|]]]; try done.
      injection Hl as Hx Hy. left.
      apply elem_of_cons in Htr1 as [->|Htr1]; [|apply elem_of_cons in Htr1 as [->|[]%elem_of_nil]];
        [|congruence].
      apply elem_of_cons in Htr2 as [->|Htr2]; [congruence|].
      by apply elem_of_cons in Htr2 as [->|[]%elem_of_nil].
    - destruct (Forest.trees forest) as [|x [|y [|]]]; try done.
      injection Hl as Hx Hy. right.
      apply elem_of_cons in Htr2 as [->|Htr2]; [|apply elem_of_cons in Htr2 as [->|[]%elem_of_nil]];
        [|congruence].
      apply elem_of_cons in Htr1 as [->|Htr1]; [congruence|].
      by apply elem_of_cons in Htr1 as [->|[]%elem_of_nil]. }
  split; [by destruct Hshape as [-> | ->]|].
  do 4 (split; [done|]). split; [|done].
  (* the instances of the forest *)
  assert (A1 ≠ A2) as HneA.
  { intros Heq. subst A2.
    pose proof (tree_and_other_refs (defByIdOf cards) (treeIdsOf cards) boxes Hnd) as Hnd'.
    fold (treeCardsOf boxes cards) (cardInstsOf boxes cards) in Hnd'.
    unfold refsOf in Hnd'. rewrite fmap_app in Hnd'.
    apply NoDup_app in Hnd' as (_ & _ & Hnd'). rewrite Hothers in Hnd'.
    rewrite !fmap_cons in Hnd'. apply NoDup_cons in Hnd' as [Hnd' _].
    apply Hnd'. by left. }
  assert (forestAttachments forest ≡ₚ [A1; A2]) as Hatt.
  { apply (anti_symm submseteq).
    - rewrite <- Hothers. by apply buildForest_attachments.
    - apply NoDup_submseteq.
      + apply NoDup_cons. split; [|apply NoDup_singleton].
        by intros ?%list_elem_of_singleton.
      + intros x Hx. unfold forestAttachments. apply list_elem_of_bind.
        apply elem_of_cons in Hx as [->|Hx]; [by exists tr1|].
        apply elem_of_cons in Hx as [->|[]%elem_of_nil]. by exists tr2. }
  rewrite forestInstances_perm, Hanch, Htrees, Hatt. simpl. solve_Permutation.
Qed.

End row_forest.

Lemma score_lookup_is_Some cards players i p :
  players !! i = Some p → ∃ r, score cards players !! i = Some r.
Proof.
  intros Hi. apply lookup_lt_is_Some. unfold score, scoreAt.
  pose proof (scorePlayers_names (prepareFrom cards 0 players)
                (zip players (prepareFrom cards 0 players)) 0 ScoreState.fresh) as Hn.
  apply (f_equal length) in Hn. rewrite !length_map in Hn. rewrite Hn.
  rewrite length_zip_with, prepareFrom_length, Nat.min_id.
  by apply lookup_lt_Some in Hi.
Qed.

(** The entry of a card of the forest: its label, and the group of the
    place of its tree in reading order. *)
Lemma detailFor_entry all forest scoreByBox j t c :
  NoDup (refsOf all) → c ∈ all →
  NoDup (refsOf (forestInstances forest)) →
  sortTreesVisually (Forest.trees forest) !! j = Some t →
  c ∈ Tree.card t :: attachmentsOf t →
  labelAndGroup
    <$> detailFor (foldl (λ m c, <[Box.ref (CardInstance.box c) := c]> m) ∅ all)
          scoreByBox (buildBoxToTreeIndex forest) (CardInstance.box c)
  = Some (Box.clsName (CardInstance.box c),
          Some ("Baum " +:+ Js.show (Z.of_nat j + 1))).
Proof.
  intros Hnd Hc Hndf Hj Hin. unfold detailFor.
  rewrite (foldl_insert_lookup (λ c, Box.ref (CardInstance.box c)) id all ∅ c Hnd Hc).
  pose proof (buildBoxToTreeIndex_lookup forest j t c Hndf Hj Hin) as Hidx.
  unfold CardInstance.ref in Hidx. rewrite Hidx.
  by destruct (default _ _).
Qed.

(** C4, as the code has it: a player has two trees in one row and two other
    cards, each directly adjacent to the right of one of the trees and
    strictly nearer to this side than to any other side of the two trees.
    Then [score] gives the player four card entries: the left tree and the
    card to its right with the group "Baum 1", the right tree and the card
    to its right with the group "Baum 2". *)
Theorem two_trees_group_labels cards players i p tree1 card1 tree2 card2 :
  players !! i = Some p →
  PlayerInput.cards p ≡ₚ [tree1; card1; tree2; card2] →
  isTreeLabel (treeIdsOf cards) (DetectedCard.cardId tree1) = true →
  isTreeLabel (treeIdsOf cards) (DetectedCard.cardId tree2) = true →
  isCardLabel (treeIdsOf cards) (DetectedCard.cardId card1) = true →
  isCardLabel (treeIdsOf cards) (DetectedCard.cardId card2) = true →
  leftToRight (boxOf tree1) (boxOf tree2) = true →
  nearestOnRight (boxOf card1) (boxOf tree1) (boxOf tree2) = true →
  nearestOnRight (boxOf card2) (boxOf tree2) (boxOf tree1) = true →
  ∃ r, score cards players !! i = Some r
       ∧ labelAndGroup <$> PlayerScoreResult.cardDetails r
         ≡ₚ [ (DetectedCard.cardId tree1, Some "Baum 1"%string);
              (DetectedCard.cardId card1, Some "Baum 1"%string);
              (DetectedCard.cardId tree2, Some "Baum 2"%string);
              (DetectedCard.cardId card2, Some "Baum 2"%string) ].
Proof.
  intros Hi Hdcs Htree1 Htree2 Hcard1 Hcard2 Hrow Hnear1 Hnear2.
  destruct (score_lookup_is_Some cards players i p Hi) as [r Hr].
  exists r. split; [done|].
  unfold score, scoreAt in Hr.
  apply scorePlayers_lookup in Hr as (player & prep & st' & Hl & ->).
  apply lookup_zip_with_Some in Hl as (player' & prep' & [= <- <-] & Hpl & Hprep).
  rewrite Hi in Hpl. injection Hpl as <-.
  destruct (prepareFrom_lookup _ _ _ _ _ Hprep) as (base & pl & Hpl & ->).
  rewrite Hi in Hpl. injection Hpl as <-.
  assert (PreparedPlayer.forest (preparePlayer cards base p)
          = Some (buildForest (toBoxes base (PlayerInput.cards p)) cards)) as Hforest.
  { unfold preparePlayer. destruct (PlayerInput.cards p); [|done].
    by apply Permutation_nil_l in Hdcs. }
  destruct (preparePlayer_forest _ _ _ _ Hforest) as (_ & Hall & Hnd).
  destruct (scorePlayer_details (prepareFrom cards 0 players) (PlayerInput.name p)
              (0 + i) (preparePlayer cards base p) _ st' Hforest)
    as [scoreByBox ->].
  destruct (two_trees_forest cards base (PlayerInput.cards p) tree1 card1 tree2 card2
              Hdcs Htree1 Htree2 Hcard1 Hcard2 Hrow Hnear1 Hnear2)
    as (T1 & A1 & T2 & A2 & tr1 & tr2 & Hsort & HcT1 & HcT2 & HA1 & HA2 & Hinst
        & HbT1 & HbA1 & HbT2 & HbA2).
  set (forest := buildForest _ _) in *.
  rewrite Hall.
  assert (∀ c, c ∈ [T1; A1; T2; A2] → c ∈ forestInstances forest) as Hmem.
  { intros c Hc. by rewrite Hinst. }
  destruct (forestInstances forest) as [|c0 all0] eqn:Hfi.
  { by apply Permutation_nil_l in Hinst. }
  rewrite <- Hfi in *. clear Hfi c0 all0.
  unfold cardDetailsOf.
  assert (∀ (b : Box) dc, unref b = boxOf dc → Box.clsName b = DetectedCard.cardId dc)
    as Hlabel.
  { intros b dc Hb. by apply (f_equal Box.clsName) in Hb. }
  assert (∀ j t c, sortTreesVisually (Forest.trees forest) !! j = Some t →
            c ∈ Tree.card t :: attachmentsOf t → c ∈ forestInstances forest →
            labelAndGroup
              <$> detailFor (foldl (λ m c, <[Box.ref (CardInstance.box c) := c]> m) ∅
                               (forestInstances forest))
                    scoreByBox (buildBoxToTreeIndex forest) (CardInstance.box c)
            = Some (Box.clsName (CardInstance.box c),
                    Some ("Baum " +:+ Js.show (Z.of_nat j + 1)))) as Hentry.
  { intros j t c Hj Hc Hin. by apply (detailFor_entry _ forest scoreByBox j t c). }
  pose proof (Hentry 0 tr1 T1) as E1. pose proof (Hentry 0 tr1 A1) as E2.
  pose proof (Hentry 1 tr2 T2) as E3. pose proof (Hentry 1 tr2 A2) as E4.
  rewrite Hsort in E1, E2, E3, E4.
  specialize (E1 eq_refl). specialize (E2 eq_refl).
  specialize (E3 eq_refl). specialize (E4 eq_refl).
  rewrite <- HcT1 in E1 at 1. rewrite <- HcT2 in E3 at 1.
  specialize (E1 ltac:(by left) ltac:(apply Hmem; by left)).
  specialize (E2 ltac:(by right) ltac:(apply Hmem; right; by left)).
  specialize (E3 ltac:(by left) ltac:(apply Hmem; do 2 right; by left)).
  specialize (E4 ltac:(by right) ltac:(apply Hmem; do 3 right; by left)).
  clear Hentry. revert E1 E2 E3 E4.
  generalize (detailFor (foldl (λ m c, <[Box.ref (CardInstance.box c) := c]> m) ∅
                           (forestInstances forest))
                scoreByBox (buildBoxToTreeIndex forest)).
  intros f E1 E2 E3 E4.
  rewrite (sortCardsInUiOrder_perm forest Hnd), Hinst.
  cbn [fmap list_fmap omap list_omap].
  destruct (f (CardInstance.box T1)) as [d1|]; [|done].
  destruct (f (CardInstance.box A1)) as [d2|]; [|done].
  destruct (f (CardInstance.box T2)) as [d3|]; [|done].
  destruct (f (CardInstance.box A2)) as [d4|]; [|done].
  cbn [fmap option_fmap option_map] in E1, E2, E3, E4. cbn [fmap list_fmap].
  apply (inj Some) in E1, E2, E3, E4.
  rewrite E1, E2, E3, E4.
  by rewrite (Hlabel _ _ HbT1), (Hlabel _ _ HbA1), (Hlabel _ _ HbT2), (Hlabel _ _ HbA2).
Qed.

Lemma two_trees_group_labels_witness :
  leftToRight (boxOf Row.oak) (boxOf Row.birch) = true
  ∧ nearestOnRight (boxOf Row.wolfAtOak) (boxOf Row.oak) (boxOf Row.birch) = true
  ∧ nearestOnRight (boxOf Row.wolfAtBirch) (boxOf Row.birch) (boxOf Row.oak) = true
  ∧ ∃ r, score Scenario.cards [Scenario.alice] !! 0 = Some r
         ∧ labelAndGroup <$> PlayerScoreResult.cardDetails r
           ≡ₚ [ ("oak:oak"%string, Some "Baum 1"%string);
                ("wolf:oak"%string, Some "Baum 1"%string);
                ("birch:birch"%string, Some "Baum 2"%string);
                ("wolf:birch"%string, Some "Baum 2"%string) ].
Proof.
  split; [vm_compute; reflexivity|]. split; [vm_compute; reflexivity|].
  split; [vm_compute; reflexivity|].
  apply (two_trees_group_labels Scenario.cards [Scenario.alice] 0 Scenario.alice
           Row.oak Row.wolfAtOak Row.birch Row.wolfAtBirch);
    try reflexivity; vm_compute; reflexivity.
Defined.

(** ** The first request for a key *)

(** X30: when a key string is asked for the first time in a run,
    [getMostWinners] returns the maximum of the counts [countForMostKey]
    gives for the players, each over all the instances of the player, and 0
    at least; the winners are the players whose count is this maximum, all
    of them on a tie, and none when the maximum is 0; the entry is stored
    under the key string; and a player who is not among the winners counts
    0 for the condition, whatever else the condition says. *)
Theorem getMostWinners_first_request prepared key cond st :
  ScoreState.mostWinnerCache st !! mostKeyStr key = None →
  let count := λ p, countForMostKey key (PreparedPlayer.all p) cond in
  let e := fst (getMostWinners prepared key cond st) in
  (0 ≤ MostEntry.max e)%Z
  ∧ (∀ p, p ∈ prepared → (count p ≤ MostEntry.max e)%Z)
  ∧ (MostEntry.max e = 0%Z ∨ ∃ p, p ∈ prepared ∧ count p = MostEntry.max e)
  ∧ (∀ i : nat, Z.of_nat i ∈ MostEntry.winners e
                ↔ (0 < MostEntry.max e)%Z
                  ∧ ∃ p, prepared !! i = Some p ∧ count p = MostEntry.max e)
  ∧ (MostEntry.max e = 0%Z → MostEntry.winners e = [])
  ∧ ScoreState.mostWinnerCache (snd (getMostWinners prepared key cond st))
      !! mostKeyStr key = Some e
  ∧ ∀ (i : nat) self all pl am,
      ConditionJson.most cond = true → makeMostKey self cond = key →
      Z.of_nat i ∉ MostEntry.winners e →
      fst (countMatches self cond all pl am (Some (mostResolverOf prepared i)) st) = 0%Z.
Proof.
  intros Hmiss count e.
  assert (∀ (i : nat) self all pl am,
            ConditionJson.most cond = true → makeMostKey self cond = key →
            Z.of_nat i ∉ MostEntry.winners e →
            fst (countMatches self cond all pl am (Some (mostResolverOf prepared i)) st)
            = 0%Z) as Hgate.
  { intros i self all pl am Hm <- Hw. by apply countMatches_not_winner. }
  subst e. unfold getMostWinners in *. rewrite Hmiss in *.
  cbn [fst snd ScoreState.mostWinnerCache]. unfold computeMostWinners, mostCounts.
  map_to_fmap. fold count. rewrite winnersOf_max.
  split; [apply maxCount_nonneg|]. split; [|split; [|split; [|split; [|split]]]].
  - intros p Hp. apply maxCount_upper. apply list_elem_of_fmap. by exists p.
  - destruct (proj2 (proj2 (foldl_max_spec (count <$> prepared) 0))) as [H0|Hin].
    + by left.
    + right. apply list_elem_of_fmap in Hin as (p & Hp & Hin). by exists p.
  - intros i. rewrite winnersOf_elem, list_lookup_fmap.
    split.
    + intros [Hpos Hi]. split; [done|].
      destruct (prepared !! i) as [p|]; [|done]. exists p. split; [done|].
      by injection Hi.
    + intros [Hpos (p & -> & Hp)]. split; [done|]. cbn. by rewrite Hp.
  - apply winnersOf_none.
  - apply lookup_insert_eq.
  - intros i self all pl am Hm Hk Hw. apply (Hgate i self all pl am Hm Hk).
    revert Hw. cbn [fst]. unfold computeMostWinners, mostCounts. by map_to_fmap.
Qed.

Lemma getMostWinners_first_request_witness :
  let prepared := prepareFrom Typed.cards 0 [Typed.alice; Typed.bob] in
  let key := makeMostKey Typed.owlAlice Scenario.birdCondition in
  let count := λ p, countForMostKey key (PreparedPlayer.all p) Scenario.birdCondition in
  let e := fst (getMostWinners prepared key Scenario.birdCondition ScoreState.fresh) in
  count <$> prepared = [1; 2]%Z
  ∧ e = MostEntry.mk 2 [1]%Z
  ∧ ((0 ≤ MostEntry.max e)%Z
     ∧ (∀ p, p ∈ prepared → (count p ≤ MostEntry.max e)%Z)
     ∧ (MostEntry.max e = 0%Z ∨ ∃ p, p ∈ prepared ∧ count p = MostEntry.max e)
     ∧ (∀ i : nat, Z.of_nat i ∈ MostEntry.winners e
                   ↔ (0 < MostEntry.max e)%Z
                     ∧ ∃ p, prepared !! i = Some p ∧ count p = MostEntry.max e)
     ∧ (MostEntry.max e = 0%Z → MostEntry.winners e = [])
     ∧ ScoreState.mostWinnerCache
         (snd (getMostWinners prepared key Scenario.birdCondition ScoreState.fresh))
         !! mostKeyStr key = Some e
     ∧ ∀ (i : nat) self all pl am,
         ConditionJson.most Scenario.birdCondition = true →
         makeMostKey self Scenario.birdCondition = key →
         Z.of_nat i ∉ MostEntry.winners e →
         fst (countMatches self Scenario.birdCondition all pl am
                (Some (mostResolverOf prepared i)) ScoreState.fresh) = 0%Z).
Proof.
  split; [vm_compute; reflexivity|]. split; [vm_compute; reflexivity|].
  apply (getMostWinners_first_request
           (prepareFrom Typed.cards 0 [Typed.alice; Typed.bob])
           (makeMostKey Typed.owlAlice Scenario.birdCondition)
           Scenario.birdCondition ScoreState.fresh).
  reflexivity.
Defined.
